(** * RISC-V vector extension helpers (target/riscv): a shallow embedding

    The development follows [target/riscv/vector_helper.c] and
    [target/riscv/insn_trans/trans_rvv.inc.c].  Machine integers are
    modelled as [Z] with the wrap-around of every C conversion written
    out; the vector register file is the array of host 64-bit words
    [env->vreg]; helpers that can raise a guest exception run in a small
    state-and-exception monad. *)

From Stdlib Require Import ZArith List Bool Lia.
Import ListNotations.
Local Open Scope Z_scope.

(* ===================================================================== *)
(** * Machine integers *)
(* ===================================================================== *)

Module Bits.

(** Conversion to an unsigned [w]-bit type. *)
Definition wrap (w x : Z) : Z := x mod 2 ^ w.

(** Conversion to a signed [w]-bit type (two's complement, as QEMU is
    built with wrapping signed arithmetic). *)
Definition swrap (w x : Z) : Z := (x + 2 ^ (w - 1)) mod 2 ^ w - 2 ^ (w - 1).

Definition uint8_t := wrap 8.
Definition uint16_t := wrap 16.
Definition uint32_t := wrap 32.
Definition uint64_t := wrap 64.
Definition int32_t := swrap 32.

(** [target_ulong] of the 64-bit target. *)
Definition TARGET_LONG_BITS : Z := 64.
Definition target_ulong := wrap TARGET_LONG_BITS.

(** The bit field [start, start+length) of [value]: the value computed by
    [extract64]/[extract32] of qemu/bitops.h on a field lying inside the
    word. *)
Definition bitfield (value start length : Z) : Z :=
  Z.land (Z.shiftr value start) (Z.ones length).

(** [extract64] of qemu/bitops.h.  The function asserts that the field
    lies entirely within the 64-bit word; a failed assertion aborts the
    emulator, which is the [None] result. *)
Definition extract64 (value start length : Z) : option Z :=
  if (0 <=? start) && (0 <? length) && (length <=? 64 - start)
  then Some (bitfield value start length)
  else None.

(** [deposit64] of qemu/bitops.h on a field inside the word. *)
Definition deposit64 (value start length fieldval : Z) : Z :=
  let mask := Z.shiftl (Z.ones length) start in
  Z.lor (Z.land value (Z.lnot mask)) (Z.land (Z.shiftl fieldval start) mask).

(** [sextract32(value, 0, 3)]: a 3-bit field read as a signed number. *)
Definition sextract3 (value : Z) : Z := swrap 3 (bitfield value 0 3).

(** C's boolean results as integers. *)
Definition b2z (b : bool) : Z := Z.b2z b.

End Bits.

Import Bits.

(* ===================================================================== *)
(** * CPU state *)
(* ===================================================================== *)

(** The part of [RISCVCPUConfig] the helpers read. *)
Record RISCVCPUConfig : Type := mkCfg {
  cfg_vlen : Z;   (* uint16_t vlen: VLEN in bits *)
  cfg_elen : Z    (* uint16_t elen *)
}.

(** The part of [CPURISCVState] the vector helpers read and write.
    [vreg] is [uint64_t vreg[32 * RV_VLEN_MAX / 64]], indexed by host
    word. *)
Record CPURISCVState : Type := mkEnv {
  vreg : Z -> Z;
  vl : Z;
  vtype : Z;
  vstart : Z;
  vxrm : Z;
  vxsat : Z
}.

Definition set_vreg (f : Z -> Z) (e : CPURISCVState) : CPURISCVState :=
  mkEnv f (vl e) (vtype e) (vstart e) (vxrm e) (vxsat e).
Definition set_vl (v : Z) (e : CPURISCVState) : CPURISCVState :=
  mkEnv (vreg e) v (vtype e) (vstart e) (vxrm e) (vxsat e).
Definition set_vtype (v : Z) (e : CPURISCVState) : CPURISCVState :=
  mkEnv (vreg e) (vl e) v (vstart e) (vxrm e) (vxsat e).
Definition set_vstart (v : Z) (e : CPURISCVState) : CPURISCVState :=
  mkEnv (vreg e) (vl e) (vtype e) v (vxrm e) (vxsat e).
Definition set_vxsat (v : Z) (e : CPURISCVState) : CPURISCVState :=
  mkEnv (vreg e) (vl e) (vtype e) (vstart e) (vxrm e) v.

(* ===================================================================== *)
(** * Register-group overlap predicates (trans_rvv.inc.c) *)
(* ===================================================================== *)

Module Overlap.

(** [asize = asize == 0 ? 1 : asize]. *)
Definition nz (size : Z) : Z := if size =? 0 then 1 else size.

(** [is_overlapped]; [int] arithmetic wraps. *)
Definition is_overlapped (astart asize bstart bsize : Z) : bool :=
  let asize := nz asize in
  let bsize := nz bsize in
  let aend := int32_t (astart + asize) in
  let bend := int32_t (bstart + bsize) in
  int32_t (Z.max aend bend - Z.min astart bstart) <? int32_t (asize + bsize).

(** [is_overlapped_widen]. *)
Definition is_overlapped_widen (astart asize bstart bsize : Z) : bool :=
  let asize := nz asize in
  let bsize := nz bsize in
  let aend := int32_t (astart + asize) in
  let bend := int32_t (bstart + bsize) in
  if (astart <? bstart)
     && is_overlapped astart asize bstart bsize
     && negb (is_overlapped astart asize (int32_t (bstart + bsize)) bsize)
  then false
  else int32_t (Z.max aend bend - Z.min astart bstart) <? int32_t (asize + bsize).

(** [require_vm]: the destination of a masked instruction is not v0. *)
Definition require_vm (vm rd : Z) : bool :=
  negb (vm =? 0) || negb (rd =? 0).

Definition require_noover (astart asize bstart bsize : Z) : bool :=
  negb (is_overlapped astart asize bstart bsize).

Definition require_noover_widen (astart asize bstart bsize : Z) : bool :=
  negb (is_overlapped_widen astart asize bstart bsize).

(** The condition under which the widening variant lets an overlap
    through. *)
Definition widen_exempt (astart asize bstart bsize : Z) : bool :=
  (astart <? bstart)
  && is_overlapped astart (nz asize) bstart (nz bsize)
  && negb (is_overlapped astart (nz asize)
             (int32_t (bstart + nz bsize)) (nz bsize)).

Lemma nz_idem (s : Z) : nz (nz s) = nz s.
Proof.
  unfold nz. destruct (s =? 0) eqn:E; [reflexivity | now rewrite E].
Qed.

Lemma is_overlapped_nz (astart asize bstart bsize : Z) :
  is_overlapped astart (nz asize) bstart (nz bsize)
  = is_overlapped astart asize bstart bsize.
Proof. unfold is_overlapped. now rewrite !nz_idem. Qed.

(** Without wrap-around, [is_overlapped] is the intersection test of the
    half-open ranges [astart, astart+asize) and [bstart, bstart+bsize). *)
Lemma is_overlapped_meets (astart asize bstart bsize : Z) :
  0 < asize -> 0 < bsize ->
  - 2 ^ 29 <= astart <= 2 ^ 29 -> - 2 ^ 29 <= bstart <= 2 ^ 29 ->
  asize <= 2 ^ 29 -> bsize <= 2 ^ 29 ->
  is_overlapped astart asize bstart bsize = true
  <-> astart < bstart + bsize /\ bstart < astart + asize.
Proof.
  intros Ha Hb Has Hbs Hal Hbl. unfold is_overlapped, nz.
  replace (asize =? 0) with false by (symmetry; apply Z.eqb_neq; lia).
  replace (bsize =? 0) with false by (symmetry; apply Z.eqb_neq; lia).
  assert (Hid : forall x, - 2 ^ 31 <= x < 2 ^ 31 -> int32_t x = x).
  { intros x Hx. unfold int32_t, swrap.
    change (2 ^ (32 - 1)) with (2 ^ 31). change (2 ^ 32) with (2 * 2 ^ 31).
    rewrite Z.mod_small; lia. }
  change (2 ^ 29) with 536870912 in *. change (2 ^ 31) with 2147483648 in *.
  rewrite (Hid (astart + asize)), (Hid (bstart + bsize)),
    (Hid (asize + bsize)) by lia.
  rewrite Hid by lia.
  rewrite Z.ltb_lt. lia.
Qed.

(** C4. With zero sizes treated as 1, [is_overlapped_widen] reports no
    overlap (returns false) whenever [astart < bstart], the plain overlap
    predicate holds of the two ranges and fails of the first range against
    the second one shifted up by its size; in every other case its result
    is the plain overlap test [is_overlapped] on the two ranges.  Hence it
    reports no overlap exactly when that condition holds or the plain
    test finds none. *)
Theorem is_overlapped_widen_spec (astart asize bstart bsize : Z) :
  is_overlapped_widen astart asize bstart bsize
  = (if (astart <? bstart)
        && is_overlapped astart (nz asize) bstart (nz bsize)
        && negb (is_overlapped astart (nz asize)
                   (int32_t (bstart + nz bsize)) (nz bsize))
     then false
     else is_overlapped astart asize bstart bsize)
  /\ (is_overlapped_widen astart asize bstart bsize = false
      <-> widen_exempt astart asize bstart bsize = true
          \/ is_overlapped astart asize bstart bsize = false).
Proof.
  unfold is_overlapped_widen, widen_exempt.
  change (int32_t (Z.max (int32_t (astart + nz asize))
                     (int32_t (bstart + nz bsize))
                   - Z.min astart bstart)
          <? int32_t (nz asize + nz bsize))
    with (is_overlapped astart asize bstart bsize).
  destruct ((astart <? bstart)
            && is_overlapped astart (nz asize) bstart (nz bsize)
            && negb (is_overlapped astart (nz asize)
                       (int32_t (bstart + nz bsize)) (nz bsize))).
  - split; [reflexivity |]. split; auto.
  - split; [reflexivity |]. split; [auto |].
    intros [H | H]; [discriminate | exact H].
Qed.

(** The widening predicate never reports an overlap the plain one does
    not. *)
Lemma is_overlapped_widen_le (astart asize bstart bsize : Z) :
  is_overlapped_widen astart asize bstart bsize = true ->
  is_overlapped astart asize bstart bsize = true.
Proof.
  unfold is_overlapped_widen.
  destruct (_ && _ && _); [discriminate | trivial].
Qed.

(** Destination v4 (group of 4) against source v6 (group of 2): the
    source sits in the upper half of the destination, which the widening
    rule accepts and the plain rule rejects. *)
Example widen_upper_half :
  is_overlapped_widen 4 4 6 2 = false /\ is_overlapped 4 4 6 2 = true.
Proof. split; reflexivity. Qed.

(** Source in the lower half of the destination: rejected by both. *)
Example widen_lower_half :
  is_overlapped_widen 4 4 4 2 = true /\ is_overlapped 4 4 4 2 = true.
Proof. split; reflexivity. Qed.

End Overlap.

(* ===================================================================== *)
(** * Vector configuration: [helper_vsetvl] *)
(* ===================================================================== *)

Module Cfg.

(** A register field as declared by [FIELD(reg, name, shift, length)] of
    hw/registerfields.h. *)
Record field : Type := FIELD { f_shift : Z; f_length : Z }.

Definition FIELD_EX64 (storage : Z) (f : field) : Z :=
  bitfield storage (f_shift f) (f_length f).

Definition FIELD_DP64 (storage : Z) (f : field) (val : Z) : Z :=
  uint64_t (deposit64 storage (f_shift f) (f_length f) val).

(** The [VTYPE] fields are declared in cpu.h; the helper is verified for
    any placement of them. *)
Record vtype_fields : Type := VTYPE {
  VLMUL : field;
  VSEW : field;
  VEDIV : field;
  RESERVED : field;
  VILL : field
}.

(** The layout of the vtype CSR on a 64-bit target: vlmul[2:0],
    vsew[5:3], vta, vma, vediv[9:8], reserved[62:10], vill[63]. *)
Definition vtype_rv64 : vtype_fields :=
  VTYPE (FIELD 0 3) (FIELD 3 3) (FIELD 8 2) (FIELD 10 53) (FIELD 63 1).

Section Vsetvl.

Variable L : vtype_fields.

(** Modelled from the spec: [vext_get_vlmax] (cpu.h) is missing from the
    sources; VLMAX = (VLEN / sew) * lmul, where lmul is two to the signed
    3-bit exponent stored in vlmul. *)
Definition vext_get_vlmax (cfg : RISCVCPUConfig) (vtype : Z) : Z :=
  let sew := Z.shiftl 8 (FIELD_EX64 vtype (VSEW L)) in
  let e := sextract3 (FIELD_EX64 vtype (VLMUL L)) in
  if 0 <=? e then (cfg_vlen cfg / sew) * 2 ^ e
  else (cfg_vlen cfg / sew) / 2 ^ (- e).

(** The decoded locals of [helper_vsetvl]. *)
Definition dec_lmul (s2 : Z) : Z := uint64_t (FIELD_EX64 s2 (VLMUL L)).
Definition dec_sew (s2 : Z) : Z :=
  uint16_t (Z.shiftl 8 (FIELD_EX64 s2 (VSEW L))).
Definition dec_ediv (s2 : Z) : Z := uint8_t (FIELD_EX64 s2 (VEDIV L)).
Definition dec_vill (s2 : Z) : bool := negb (FIELD_EX64 s2 (VILL L) =? 0).
Definition dec_reserved (s2 : Z) : Z :=
  target_ulong (FIELD_EX64 s2 (RESERVED L)).

(** The fractional-LMUL test of the helper:
    [lmul == 4 || cpu->cfg.elen >> (8 - lmul) < sew]. *)
Definition frac_bad (cfg : RISCVCPUConfig) (s2 : Z) : bool :=
  (dec_lmul s2 =? 4)
  || (Z.shiftr (cfg_elen cfg) (uint64_t (8 - dec_lmul s2)) <? dec_sew s2).

(** [HELPER(vsetvl)]: the returned [target_ulong] and the new state. *)
Definition helper_vsetvl (cfg : RISCVCPUConfig) (env : CPURISCVState)
    (s1 s2 : Z) : Z * CPURISCVState :=
  let lmul := dec_lmul s2 in
  let sew := dec_sew s2 in
  let ediv := dec_ediv s2 in
  let vill := dec_vill s2 in
  let reserved := dec_reserved s2 in
  let vill :=
    if negb (Z.land lmul 4 =? 0)
    then (if frac_bad cfg s2 then true else vill)
    else vill in
  if (cfg_elen cfg <? sew) || vill || negb (ediv =? 0)
     || negb (reserved =? 0)
  then
    (* only set vill bit. *)
    let env := set_vtype (FIELD_DP64 0 (VILL L) 1) env in
    let env := set_vl 0 env in
    let env := set_vstart 0 env in
    (0, env)
  else
    let vlmax := int32_t (vext_get_vlmax cfg s2) in
    let vl := if s1 <=? target_ulong vlmax then int32_t s1 else vlmax in
    let env := set_vl (target_ulong vl) env in
    let env := set_vtype s2 env in
    let env := set_vstart 0 env in
    (target_ulong vl, env).

(** The legality conditions the specification lists: sew within elen,
    reserved bits zero, and for a fractional lmul the remaining element
    width [elen >> |exponent|] at least sew. *)
Definition listed_legal (cfg : RISCVCPUConfig) (s2 : Z) : Prop :=
  dec_sew s2 <= cfg_elen cfg
  /\ dec_reserved s2 = 0
  /\ (Z.land (dec_lmul s2) 4 <> 0 ->
      dec_sew s2 <= Z.shiftr (cfg_elen cfg) (uint64_t (8 - dec_lmul s2))).

(** What the helper additionally requires: the raw illegal bit clear, the
    ediv field zero, and the vlmul encoding not the reserved 100. *)
Definition legal (cfg : RISCVCPUConfig) (s2 : Z) : Prop :=
  listed_legal cfg s2
  /\ dec_vill s2 = false
  /\ dec_ediv s2 = 0
  /\ dec_lmul s2 <> 4.

(** The effect claimed for a configuration call. *)
Definition configured (cfg : RISCVCPUConfig) (env : CPURISCVState)
    (s1 s2 : Z) : Prop :=
  let r := helper_vsetvl cfg env s1 s2 in
  vl (snd r) = Z.min s1 (vext_get_vlmax cfg s2)
  /\ vtype (snd r) = s2
  /\ fst r = vl (snd r)
  /\ vstart (snd r) = 0.

(** Argument and configuration values inhabit their C types. *)
Definition well_typed (cfg : RISCVCPUConfig) (s1 s2 : Z) : Prop :=
  0 <= cfg_vlen cfg < 2 ^ 16 /\ 0 <= s1 < 2 ^ 64 /\ 0 <= s2 < 2 ^ 64.


Lemma int32_t_small (x : Z) : - 2 ^ 31 <= x < 2 ^ 31 -> int32_t x = x.
Proof.
  intros H. unfold int32_t, swrap.
  rewrite Z.mod_small by (change (2 ^ (32 - 1)) with (2 ^ 31);
                          change (2 ^ 32) with (2 * 2 ^ 31); lia).
  lia.
Qed.

Lemma target_ulong_small (x : Z) : 0 <= x < 2 ^ 64 -> target_ulong x = x.
Proof. intros H. unfold target_ulong, wrap. now apply Z.mod_small. Qed.

Lemma sextract3_range (x : Z) : - 4 <= sextract3 x < 4.
Proof.
  unfold sextract3, swrap.
  change (2 ^ (3 - 1)) with 4. change (2 ^ 3) with 8.
  pose proof (Z.mod_pos_bound (bitfield x 0 3 + 4) 8). lia.
Qed.

(** VLMAX fits comfortably in an [int]. *)
Lemma vext_get_vlmax_range (cfg : RISCVCPUConfig) (s2 : Z) :
  0 <= cfg_vlen cfg < 2 ^ 16 ->
  0 <= vext_get_vlmax cfg s2 < 2 ^ 19.
Proof.
  intros Hv. unfold vext_get_vlmax.
  set (sew := Z.shiftl 8 _).
  pose proof (sextract3_range (FIELD_EX64 s2 (VLMUL L))) as He.
  set (e := sextract3 _) in *.
  assert (Hs0 : 0 <= sew) by (subst sew; apply Z.shiftl_nonneg; lia).
  assert (Hq : 0 <= cfg_vlen cfg / sew <= cfg_vlen cfg).
  { destruct (Z.eq_dec sew 0) as [-> | Hn].
    - rewrite Z.div_0_r. lia.
    - split; [apply Z.div_pos; lia |].
      apply Z.div_le_upper_bound; [lia | nia]. }
  destruct (0 <=? e) eqn:E.
  - apply Z.leb_le in E.
    assert (H2 : 1 <= 2 ^ e <= 8).
    { assert (e = 0 \/ e = 1 \/ e = 2 \/ e = 3) as [->|[->|[->| ->]]] by lia;
        simpl; lia. }
    change (2 ^ 19) with (2 ^ 16 * 8). nia.
  - apply Z.leb_gt in E.
    assert (H2 : 1 <= 2 ^ (- e)) by (pose proof (Z.pow_pos_nonneg 2 (- e)); lia).
    split; [apply Z.div_pos; lia |].
    apply Z.div_lt_upper_bound; [lia |].
    change (2 ^ 19) with (2 ^ 16 * 8). nia.
Qed.

(** On the accepting path the helper stores [min(s1, vlmax)], the
    descriptor [s2] and a zero [vstart], and returns the new [vl]. *)
Lemma helper_vsetvl_accept (cfg : RISCVCPUConfig) (env : CPURISCVState)
    (s1 s2 : Z) :
  well_typed cfg s1 s2 -> legal cfg s2 -> configured cfg env s1 s2.
Proof.
  intros (Hv & Hs1 & Hs2) ((Hsew & Hres & Hfrac) & Hvill & Hediv & Hl4).
  pose proof (vext_get_vlmax_range cfg s2 Hv) as Hmax.
  unfold configured, helper_vsetvl.
  rewrite Hvill, Hediv, Hres.
  assert (Hv' : (if negb (Z.land (dec_lmul s2) 4 =? 0)
                 then if frac_bad cfg s2 then true else false
                 else false) = false).
  { destruct (Z.land (dec_lmul s2) 4 =? 0) eqn:E; [reflexivity |].
    simpl. apply Z.eqb_neq in E. specialize (Hfrac E).
    unfold frac_bad.
    replace (dec_lmul s2 =? 4) with false by (symmetry; now apply Z.eqb_neq).
    replace (_ <? _) with false by (symmetry; apply Z.ltb_ge; lia).
    reflexivity. }
  rewrite Hv'.
  replace (cfg_elen cfg <? dec_sew s2) with false
    by (symmetry; apply Z.ltb_ge; lia).
  simpl.
  rewrite (int32_t_small (vext_get_vlmax cfg s2)) by lia.
  rewrite (target_ulong_small (vext_get_vlmax cfg s2)) by lia.
  destruct (s1 <=? vext_get_vlmax cfg s2) eqn:E.
  - apply Z.leb_le in E.
    rewrite (int32_t_small s1) by lia.
    rewrite (target_ulong_small s1) by lia.
    rewrite Z.min_l by lia. auto.
  - apply Z.leb_gt in E.
    rewrite target_ulong_small by lia.
    rewrite Z.min_r by lia. auto.
Qed.

(** C3 (amended). For a call whose type bits decode to a legal
    configuration -- sew within elen, reserved bits zero, the fractional
    lmul bound, and moreover the raw illegal bit clear, ediv zero and
    vlmul not the reserved encoding 100 -- the new vl is
    min(lengthRequest, vlmax), vtype is the descriptor passed in, the
    returned value is the new vl and vstart is 0; in particular sew=32,
    lmul=1, VLEN=128 and a request of 6 give vl=4. *)
Theorem helper_vsetvl_legal (cfg : RISCVCPUConfig) (env : CPURISCVState)
    (s1 s2 : Z) :
  well_typed cfg s1 s2 -> legal cfg s2 ->
  configured cfg env s1 s2
  /\ (FIELD_EX64 s2 (VSEW L) = 2 -> FIELD_EX64 s2 (VLMUL L) = 0 ->
      cfg_vlen cfg = 128 -> s1 = 6 ->
      vl (snd (helper_vsetvl cfg env s1 s2)) = 4).
Proof.
  intros Hwt Hleg.
  pose proof (helper_vsetvl_accept cfg env s1 s2 Hwt Hleg) as Hc.
  split; [exact Hc |].
  intros Hsew Hlmul Hvlen ->.
  destruct Hc as (Hvl & _). rewrite Hvl.
  unfold vext_get_vlmax. rewrite Hsew, Hlmul, Hvlen. reflexivity.
Qed.

(** C10. After every call of [helper_vsetvl], on the accepting path and
    on the path that marks vtype illegal alike, vstart is 0. *)
Theorem helper_vsetvl_vstart (cfg : RISCVCPUConfig) (env : CPURISCVState)
    (s1 s2 : Z) :
  vstart (snd (helper_vsetvl cfg env s1 s2)) = 0.
Proof.
  unfold helper_vsetvl.
  destruct (_ || _ || _ || _); reflexivity.
Qed.

(** On the rejecting path vl is 0, the return value is 0 and vtype holds
    the illegal bit alone. *)
Lemma helper_vsetvl_reject (cfg : RISCVCPUConfig) (env : CPURISCVState)
    (s1 s2 : Z) :
  dec_vill s2 = true ->
  helper_vsetvl cfg env s1 s2
  = (0, set_vstart 0 (set_vl 0 (set_vtype (FIELD_DP64 0 (VILL L) 1) env))).
Proof.
  intros Hv. unfold helper_vsetvl. rewrite Hv.
  destruct (negb (Z.land (dec_lmul s2) 4 =? 0));
    [destruct (frac_bad cfg s2) |]; rewrite orb_true_r; reflexivity.
Qed.

End Vsetvl.

End Cfg.

(** Concrete configuration calls on the 64-bit vtype layout, with
    VLEN=128 and ELEN=64. *)
Module CfgExamples.
Import Cfg.

Definition cfg128 : RISCVCPUConfig := mkCfg 128 64.
Definition env0 : CPURISCVState := mkEnv (fun _ => 0) 3 0 5 0 0.

(** vsew = 2 (sew = 32), vlmul = 0 (lmul = 1). *)
Definition e32m1 : Z := 16.

(** The raw illegal bit set on an otherwise legal e8,m1 descriptor. *)
Definition e8m1_vill : Z := 2 ^ 63.

Lemma legal_e32m1 : legal vtype_rv64 cfg128 e32m1.
Proof.
  unfold legal, listed_legal. vm_compute.
  repeat split; try discriminate; intros H; now elim H.
Qed.

Lemma helper_vsetvl_legal_witness :
  vl (snd (helper_vsetvl vtype_rv64 cfg128 env0 6 e32m1)) = 4.
Proof.
  refine (proj2 (helper_vsetvl_legal vtype_rv64 cfg128 env0 6 e32m1 _ _)
            _ _ _ _).
  - unfold well_typed. vm_compute.
    repeat split; try discriminate; reflexivity.
  - exact legal_e32m1.
  - reflexivity.
  - reflexivity.
  - reflexivity.
  - reflexivity.
Defined.

(** C3 with the three listed conditions alone fails: they hold of a
    descriptor whose raw illegal bit is set, yet the helper takes the
    rejecting path and leaves vl = 0 instead of min(6, 16) = 6. *)
Lemma helper_vsetvl_listed_counterexample :
  ~ (forall cfg env s1 s2,
        well_typed cfg s1 s2 -> listed_legal vtype_rv64 cfg s2 ->
        configured vtype_rv64 cfg env s1 s2).
Proof.
  intros H.
  assert (Hl : listed_legal vtype_rv64 cfg128 e8m1_vill).
  { unfold listed_legal. vm_compute.
    repeat split; try discriminate; intros F; now elim F. }
  assert (Hw : well_typed cfg128 6 e8m1_vill).
  { unfold well_typed. vm_compute.
    repeat split; try discriminate; reflexivity. }
  destruct (H cfg128 env0 6 e8m1_vill Hw Hl) as (Hvl & _).
  vm_compute in Hvl. discriminate.
Qed.

End CfgExamples.

(* ===================================================================== *)
(** * Element types and scalar element operations (vector_helper.c) *)
(* ===================================================================== *)

Module Elem.

(** A C integer element type: signedness and width in bits. *)
Record etype : Type := ET { et_signed : bool; et_bits : Z }.

Definition i8 := ET true 8.
Definition i16 := ET true 16.
Definition i32 := ET true 32.
Definition i64 := ET true 64.
Definition u8 := ET false 8.
Definition u16 := ET false 16.
Definition u32 := ET false 32.
Definition u64 := ET false 64.

(** Conversion of an integer value to the type. *)
Definition conv (t : etype) (x : Z) : Z :=
  if et_signed t then swrap (et_bits t) x else wrap (et_bits t) x.

Definition min_of (t : etype) : Z :=
  if et_signed t then - 2 ^ (et_bits t - 1) else 0.
Definition max_of (t : etype) : Z :=
  if et_signed t then 2 ^ (et_bits t - 1) - 1 else 2 ^ et_bits t - 1.

Definition in_range (t : etype) (x : Z) : Prop := min_of t <= x <= max_of t.

(** The element widths of the vector helpers. *)
Definition std_width (w : Z) : Prop := w = 8 \/ w = 16 \/ w = 32 \/ w = 64.

(** Integer promotion: operands narrower than [int] are computed in
    [int]. *)
Definition promote (t : etype) : etype :=
  if et_bits t <? 32 then i32 else t.

(** [N / M] and [N % M] of C, evaluated in the promoted type.  Division
    by zero and the overflowing signed quotient trap on the host: [None]. *)
Definition c_div (t : etype) (n m : Z) : option Z :=
  let p := promote t in
  if m =? 0 then None
  else if et_signed p && (n =? min_of p) && (m =? -1) then None
  else Some (conv p (Z.quot n m)).

Definition c_rem (t : etype) (n m : Z) : option Z :=
  let p := promote t in
  if m =? 0 then None
  else if et_signed p && (n =? min_of p) && (m =? -1) then None
  else Some (conv p (Z.rem n m)).

(** [-N] in the promoted type. *)
Definition c_neg (t : etype) (n : Z) : Z := conv (promote t) (- n).

(** [DO_DIVU], [DO_REMU], [DO_DIV], [DO_REM]; [t] is [__typeof(N)]. *)
Definition DO_DIVU (t : etype) (n m : Z) : option Z :=
  if m =? 0 then Some (conv t (-1)) else c_div t n m.

Definition DO_REMU (t : etype) (n m : Z) : option Z :=
  if m =? 0 then Some n else c_rem t n m.

Definition DO_DIV (t : etype) (n m : Z) : option Z :=
  if m =? 0 then Some (conv t (-1))
  else if (n =? c_neg t n) && (m =? conv t (-1)) then Some n
  else c_div t n m.

Definition DO_REM (t : etype) (n m : Z) : option Z :=
  if m =? 0 then Some n
  else if (n =? c_neg t n) && (m =? conv t (-1)) then Some 0
  else c_rem t n m.

(** The value an [OPIVV2]/[OPIVX2] element function stores:
    [*((TD * )vd + HD(i)) = OP(s2, s1)] converts the result to [TD]. *)
Definition stored (td : etype) (r : option Z) : option Z :=
  option_map (conv td) r.

Definition vdivu (t : etype) (s2 s1 : Z) := stored t (DO_DIVU t s2 s1).
Definition vremu (t : etype) (s2 s1 : Z) := stored t (DO_REMU t s2 s1).
Definition vdiv (t : etype) (s2 s1 : Z) := stored t (DO_DIV t s2 s1).
Definition vrem (t : etype) (s2 s1 : Z) := stored t (DO_REM t s2 s1).

(** ** Saturating add *)

Definition UINT_MAX (w : Z) : Z := 2 ^ w - 1.
Definition INT_MAX (w : Z) : Z := 2 ^ (w - 1) - 1.
Definition INT_MIN (w : Z) : Z := - 2 ^ (w - 1).

(** [saddu8] .. [saddu64] at width [w]. *)
Definition saddu (w : Z) (env : CPURISCVState) (a b : Z)
    : Z * CPURISCVState :=
  let res := wrap w (a + b) in
  if res <? a then (UINT_MAX w, set_vxsat 1 env) else (res, env).

(** [sadd8] .. [sadd64] at width [w]. *)
Definition sadd (w : Z) (env : CPURISCVState) (a b : Z)
    : Z * CPURISCVState :=
  let res := swrap w (a + b) in
  if negb (Z.land (Z.land (Z.lxor res a) (Z.lxor res b)) (INT_MIN w) =? 0)
  then ((if 0 <? a then INT_MAX w else INT_MIN w), set_vxsat 1 env)
  else (res, env).

Definition saddu8 := saddu 8.
Definition saddu16 := saddu 16.
Definition saddu32 := saddu 32.
Definition saddu64 := saddu 64.
Definition sadd8 := sadd 8.
Definition sadd16 := sadd 16.
Definition sadd32 := sadd 32.
Definition sadd64 := sadd 64.

(** ** Rounding increment *)

Definition bind {A B : Type} (o : option A) (k : A -> option B) : option B :=
  match o with Some a => k a | None => None end.

Local Notation "x <- e ;; k" := (bind e (fun x => k))
  (at level 61, e at next level, right associativity).

(** [get_round].  The bit [d] is extracted before the range test on
    [shift]. *)
Definition get_round (vxrm v shift : Z) : option Z :=
  d <- option_map uint8_t (extract64 v shift 1) ;;
  if (shift =? 0) || (64 <? shift) then Some 0
  else
    d1 <- option_map uint8_t (extract64 v (shift - 1) 1) ;;
    D1 <- extract64 v 0 shift ;;
    if vxrm =? 0 then Some d1
    else if vxrm =? 1 then
      if 1 <? shift then
        D2 <- extract64 v 0 (shift - 1) ;;
        Some (uint8_t (Z.land d1 (Z.lor (b2z (negb (D2 =? 0))) d)))
      else Some (uint8_t (Z.land d1 d))
    else if vxrm =? 3 then
      Some (uint8_t (Z.land (b2z (d =? 0)) (b2z (negb (D1 =? 0)))))
    else Some 0.

(** Bit [i] of [v] as 0 or 1. *)
Definition bit (v i : Z) : Z := b2z (Z.testbit v i).

(** The results the ISA fixes for integer division. *)
Definition expected_quot (t : etype) (n m : Z) : Z :=
  if m =? 0 then conv t (-1)
  else if et_signed t && (n =? min_of t) && (m =? -1) then n
  else Z.quot n m.

Definition expected_rem (t : etype) (n m : Z) : Z :=
  if m =? 0 then n
  else if et_signed t && (n =? min_of t) && (m =? -1) then 0
  else Z.rem n m.

(** The increments the four rounding modes call for at [shift]: bit
    shift-1 for round-to-nearest-up (0); bit shift-1 ANDed with (a lower
    bit set OR bit shift set, the tie going to even) for
    round-to-nearest-even (1); 0 for round-down (2); and for round-to-odd
    (3), 1 exactly when one of the shift discarded bits is set and the
    lowest kept bit, bit shift, is 0. *)
Definition round_modes (v shift : Z) : Prop :=
  get_round 0 v shift = Some (bit v (shift - 1))
  /\ get_round 1 v shift
     = Some (b2z (Z.testbit v (shift - 1)
                  && (negb (v mod 2 ^ (shift - 1) =? 0)
                      || Z.testbit v shift)))
  /\ get_round 2 v shift = Some 0
  /\ get_round 3 v shift
     = Some (b2z (negb (v mod 2 ^ shift =? 0)
                  && negb (Z.testbit v shift))).

(** ** Facts on conversions *)

Lemma pow2_half (w : Z) : 0 < w -> 2 ^ w = 2 * 2 ^ (w - 1).
Proof.
  intros H. replace w with (Z.succ (w - 1)) at 1 by lia.
  apply Z.pow_succ_r. lia.
Qed.

Lemma pow2_pos (w : Z) : 0 <= w -> 0 < 2 ^ w.
Proof. intros H. apply Z.pow_pos_nonneg; lia. Qed.

Lemma wrap_small (w x : Z) : 0 <= x < 2 ^ w -> wrap w x = x.
Proof. intros H. unfold wrap. now apply Z.mod_small. Qed.

Lemma swrap_small (w x : Z) :
  0 < w -> - 2 ^ (w - 1) <= x < 2 ^ (w - 1) -> swrap w x = x.
Proof.
  intros Hw H. unfold swrap.
  rewrite Z.mod_small; [lia |]. rewrite (pow2_half w Hw). lia.
Qed.

(** Wrapping a signed sum that overflows by at most one modulus. *)
Lemma swrap_over (w x : Z) :
  0 < w -> 2 ^ (w - 1) <= x < 2 ^ w + 2 ^ (w - 1) ->
  swrap w x = x - 2 ^ w.
Proof.
  intros Hw H. unfold swrap.
  replace (x + 2 ^ (w - 1)) with ((x - 2 ^ w + 2 ^ (w - 1)) + 1 * 2 ^ w) by lia.
  rewrite Z.mod_add by (pose proof (pow2_pos w); lia).
  rewrite Z.mod_small; [lia |]. rewrite (pow2_half w Hw) in *. lia.
Qed.

Lemma swrap_under (w x : Z) :
  0 < w -> - 2 ^ w - 2 ^ (w - 1) <= x < - 2 ^ (w - 1) ->
  swrap w x = x + 2 ^ w.
Proof.
  intros Hw H. unfold swrap.
  replace (x + 2 ^ (w - 1)) with ((x + 2 ^ w + 2 ^ (w - 1)) + (-1) * 2 ^ w) by lia.
  rewrite Z.mod_add by (pose proof (pow2_pos w); lia).
  rewrite Z.mod_small; [lia |]. rewrite (pow2_half w Hw) in *. lia.
Qed.

Lemma wrap_over (w x : Z) :
  0 <= w -> 2 ^ w <= x < 2 * 2 ^ w -> wrap w x = x - 2 ^ w.
Proof.
  intros Hw H. unfold wrap.
  replace x with ((x - 2 ^ w) + 1 * 2 ^ w) at 1 by lia.
  rewrite Z.mod_add by (pose proof (pow2_pos w); lia).
  apply Z.mod_small. lia.
Qed.

Lemma conv_in_range (t : etype) (x : Z) :
  0 < et_bits t -> in_range t x -> conv t x = x.
Proof.
  unfold in_range, conv, min_of, max_of. intros Hw H.
  destruct (et_signed t).
  - apply swrap_small; lia.
  - apply wrap_small; lia.
Qed.

(** ** Truncated division stays in range *)

Lemma div_abs_bound (A B : Z) :
  0 <= A -> 0 < B -> 0 <= A / B <= A /\ (2 <= B -> 0 < A -> A / B < A).
Proof.
  intros HA HB. split.
  - split; [apply Z.div_pos; lia |].
    apply Z.div_le_upper_bound; [lia | nia].
  - intros H2 Hp. apply Z.div_lt_upper_bound; [lia | nia].
Qed.

Lemma quot_signed_range (M n m : Z) :
  0 < M -> - M <= n < M -> m <> 0 -> ~ (n = - M /\ m = -1) ->
  - M <= Z.quot n m < M.
Proof.
  intros HM Hn Hm Hov.
  rewrite (Z.quot_div n m Hm).
  destruct (div_abs_bound (Z.abs n) (Z.abs m)) as [Hd Hd2]; [lia | lia |].
  destruct (Z.eq_dec (Z.abs m) 1) as [H1 | H1].
  - rewrite H1, Z.div_1_r in *.
    destruct (Z.sgn_spec n) as [[? ->] | [[? ->] | [? ->]]];
      destruct (Z.sgn_spec m) as [[? ->] | [[? ->] | [? ->]]]; lia.
  - destruct (Z.eq_dec n 0) as [-> | Hn0]; [simpl; lia |].
    specialize (Hd2 ltac:(lia) ltac:(lia)).
    destruct (Z.sgn_spec n) as [[? ->] | [[? ->] | [? ->]]];
      destruct (Z.sgn_spec m) as [[? ->] | [[? ->] | [? ->]]]; lia.
Qed.

Lemma rem_signed_range (M n m : Z) :
  0 < M -> - M <= n < M -> m <> 0 -> - M <= Z.rem n m < M.
Proof.
  intros HM Hn Hm.
  rewrite (Z.rem_mod n m Hm).
  pose proof (Z.mod_pos_bound (Z.abs n) (Z.abs m) ltac:(lia)) as Hb.
  assert (Z.abs n mod Z.abs m <= Z.abs n)
    by (apply Z.mod_le; lia).
  destruct (Z.sgn_spec n) as [[? ->] | [[? ->] | [? ->]]]; lia.
Qed.

Lemma quot_unsigned_range (M n m : Z) :
  0 <= n < M -> 0 < m -> 0 <= Z.quot n m < M.
Proof.
  intros Hn Hm. rewrite Z.quot_div_nonneg by lia.
  destruct (div_abs_bound n m) as [Hd _]; lia.
Qed.

Lemma rem_unsigned_range (M n m : Z) :
  0 <= n < M -> 0 < m -> 0 <= Z.rem n m < M.
Proof.
  intros Hn Hm. rewrite Z.rem_mod_nonneg by lia.
  pose proof (Z.mod_pos_bound n m Hm).
  assert (n mod m <= n) by (apply Z.mod_le; lia). lia.
Qed.

(** ** Division and remainder *)

Lemma std_width_pos (w : Z) : std_width w -> 0 < w.
Proof. unfold std_width. lia. Qed.

Lemma std_width_cases (w : Z) (P : Z -> Prop) :
  std_width w -> P 8 -> P 16 -> P 32 -> P 64 -> P w.
Proof. intros [-> | [-> | [-> | ->]]]; auto. Qed.

(** Range of a signed element, with the powers of two computed. *)
Lemma in_range_signed (w n : Z) :
  in_range (ET true w) n <-> - 2 ^ (w - 1) <= n < 2 ^ (w - 1).
Proof. unfold in_range, min_of, max_of. simpl. lia. Qed.

Lemma in_range_unsigned (w n : Z) :
  in_range (ET false w) n <-> 0 <= n < 2 ^ w.
Proof. unfold in_range, min_of, max_of. simpl. lia. Qed.

Ltac width_cases H :=
  match type of H with
  | std_width ?w =>
      let E := fresh "E" in
      destruct H as [E | [E | [E | E]]]; subst w
  end.

Ltac concrete_pows :=
  change (2 ^ (8 - 1)) with 128 in *; change (2 ^ (16 - 1)) with 32768 in *;
  change (2 ^ (32 - 1)) with 2147483648 in *;
  change (2 ^ (64 - 1)) with 9223372036854775808 in *;
  change (2 ^ 8) with 256 in *; change (2 ^ 16) with 65536 in *;
  change (2 ^ 32) with 4294967296 in *;
  change (2 ^ 64) with 18446744073709551616 in *.

Lemma swrap32_small (x : Z) :
  - 2147483648 <= x < 2147483648 -> swrap 32 x = x.
Proof. intros H. apply swrap_small; [lia | concrete_pows; lia]. Qed.

Lemma conv_i32_small (x : Z) :
  - 2147483648 <= x < 2147483648 -> conv i32 x = x.
Proof. intros H. unfold conv. simpl. now apply swrap32_small. Qed.

Lemma conv_signed_small (w x : Z) :
  0 < w -> - 2 ^ (w - 1) <= x < 2 ^ (w - 1) -> conv (ET true w) x = x.
Proof. intros Hw H. apply conv_in_range; [exact Hw | now apply in_range_signed]. Qed.

Lemma conv_unsigned_small (w x : Z) :
  0 <= x < 2 ^ w -> conv (ET false w) x = x.
Proof. intros H. unfold conv. simpl. now apply wrap_small. Qed.

(** Negating the most negative value wraps back to it. *)
Lemma conv_signed_neg (w n : Z) :
  0 < w -> - 2 ^ (w - 1) <= n < 2 ^ (w - 1) ->
  conv (ET true w) (- n) = if n =? - 2 ^ (w - 1) then n else - n.
Proof.
  intros Hpos Hn.
  destruct (Z.eqb_spec n (- 2 ^ (w - 1))) as [-> | Hne].
  - rewrite Z.opp_involutive. unfold conv. simpl.
    rewrite swrap_over by (pose proof (pow2_pos w); lia).
    rewrite (pow2_half w Hpos). lia.
  - apply conv_signed_small; [exact Hpos | lia].
Qed.

(** The overflow test [(N == -N) && (M == (__typeof(N))(-1))] of
    [DO_DIV]/[DO_REM] on signed operands. *)
Lemma overflow_test (w n m : Z) :
  std_width w ->
  - 2 ^ (w - 1) <= n < 2 ^ (w - 1) ->
  (n =? c_neg (ET true w) n) && (m =? conv (ET true w) (-1))
  = ((n =? 0) || ((32 <=? w) && (n =? - 2 ^ (w - 1)))) && (m =? -1).
Proof.
  intros Hw Hn. pose proof (std_width_pos w Hw) as Hpos.
  pose proof (pow2_pos (w - 1) ltac:(lia)) as Hp.
  rewrite (conv_signed_small w (-1)) by lia.
  f_equal. unfold c_neg, promote. simpl et_bits.
  destruct (Z.ltb_spec w 32) as [Hlt | Hge].
  - assert (Hb : 2 ^ (w - 1) <= 32768)
      by (width_cases Hw; concrete_pows; lia).
    rewrite conv_i32_small by lia.
    replace (32 <=? w) with false by (symmetry; apply Z.leb_gt; lia).
    rewrite andb_false_l, orb_false_r.
    destruct (Z.eqb_spec n 0), (Z.eqb_spec n (- n)); lia || reflexivity.
  - rewrite conv_signed_neg by lia.
    replace (32 <=? w) with true by (symmetry; apply Z.leb_le; lia).
    rewrite andb_true_l.
    destruct (Z.eqb_spec n (- 2 ^ (w - 1))) as [Hmin | Hmin].
    + rewrite Z.eqb_refl, orb_true_r. reflexivity.
    + rewrite orb_false_r.
      destruct (Z.eqb_spec n 0), (Z.eqb_spec n (- n)); lia || reflexivity.
Qed.

Lemma quot_min_neg1 (M : Z) : Z.quot (- M) (-1) = M.
Proof.
  change (-1) with (- (1)). rewrite Z.quot_opp_opp by lia.
  apply Z.quot_1_r.
Qed.

Lemma rem_neg1 (n : Z) : Z.rem n (-1) = 0.
Proof.
  change (-1) with (- (1)). rewrite Z.rem_opp_r by lia. apply Z.rem_1_r.
Qed.

(** The host division does not trap once the two guards have been
    passed, and its result is the truncated quotient. *)
Lemma c_div_signed (w n m : Z) :
  std_width w ->
  - 2 ^ (w - 1) <= n < 2 ^ (w - 1) -> - 2 ^ (w - 1) <= m < 2 ^ (w - 1) ->
  m <> 0 -> ~ (32 <= w /\ n = - 2 ^ (w - 1) /\ m = -1) ->
  c_div (ET true w) n m = Some (Z.quot n m)
  /\ c_rem (ET true w) n m = Some (Z.rem n m).
Proof.
  intros Hw Hn Hm Hz Hov. pose proof (std_width_pos w Hw) as Hpos.
  pose proof (pow2_pos (w - 1) ltac:(lia)) as Hp.
  pose proof (rem_signed_range _ n m Hp Hn Hz) as Hr.
  unfold c_div, c_rem, promote. simpl et_bits.
  replace (m =? 0) with false by (symmetry; now apply Z.eqb_neq).
  destruct (Z.ltb_spec w 32) as [Hlt | Hge].
  - assert (Hb : 2 ^ (w - 1) <= 32768)
      by (width_cases Hw; concrete_pows; lia).
    change (min_of i32) with (-2147483648).
    replace (n =? -2147483648) with false by (symmetry; apply Z.eqb_neq; lia).
    rewrite andb_false_r, andb_false_l.
    assert (Hq : - 2 ^ (w - 1) <= Z.quot n m <= 2 ^ (w - 1)).
    { destruct (Z.eq_dec n (- 2 ^ (w - 1))) as [-> | Hne];
        [destruct (Z.eq_dec m (-1)) as [-> | Hne'] |].
      - rewrite quot_min_neg1. lia.
      - pose proof (quot_signed_range _ (- 2 ^ (w - 1)) m Hp Hn Hz). lia.
      - pose proof (quot_signed_range _ n m Hp Hn Hz). lia. }
    rewrite !conv_i32_small by lia. split; reflexivity.
  - change (min_of (ET true w)) with (- 2 ^ (w - 1)). simpl et_signed.
    rewrite andb_true_l.
    replace ((n =? - 2 ^ (w - 1)) && (m =? -1)) with false
      by (symmetry; apply andb_false_iff;
          destruct (Z.eqb_spec n (- 2 ^ (w - 1))), (Z.eqb_spec m (-1));
          auto; exfalso; apply Hov; lia).
    pose proof (quot_signed_range _ n m Hp Hn Hz ltac:(lia)) as Hq.
    rewrite !conv_signed_small by lia. split; reflexivity.
Qed.

Ltac conv_id :=
  repeat match goal with
         | |- context [conv (ET true ?w) ?x] =>
             rewrite (conv_signed_small w x) by lia
         | |- context [conv (ET false ?w) ?x] =>
             rewrite (conv_unsigned_small w x) by lia
         end.

Lemma vdiv_signed (w n m : Z) :
  std_width w -> in_range (ET true w) n -> in_range (ET true w) m ->
  vdiv (ET true w) n m = Some (expected_quot (ET true w) n m)
  /\ vrem (ET true w) n m = Some (expected_rem (ET true w) n m).
Proof.
  intros Hw Hn Hm. pose proof (std_width_pos w Hw) as Hpos.
  apply in_range_signed in Hn, Hm.
  pose proof (pow2_pos (w - 1) ltac:(lia)) as Hp.
  unfold vdiv, vrem, DO_DIV, DO_REM, expected_quot, expected_rem, stored.
  rewrite (overflow_test w n m Hw Hn).
  change (min_of (ET true w)) with (- 2 ^ (w - 1)). simpl et_signed.
  rewrite andb_true_l.
  destruct (Z.eqb_spec m 0) as [Hz | Hz]; simpl option_map.
  { conv_id; split; reflexivity. }
  destruct (Z.eqb_spec m (-1)) as [Hneg | Hneg];
    rewrite ?andb_true_r, ?andb_false_r.
  - (* divisor -1 *)
    destruct (Z.eqb_spec n (- 2 ^ (w - 1))) as [Hmin | Hmin].
    + destruct (Z.leb_spec 32 w) as [Hge | Hlt].
      * rewrite orb_true_r. simpl option_map.
        conv_id; split; reflexivity.
      * (* narrow types: 2^(w-1) is computed in int and wraps on the store *)
        replace (n =? 0) with false by (symmetry; apply Z.eqb_neq; lia).
        simpl orb. cbv iota.
        destruct (c_div_signed w n m Hw Hn Hm Hz ltac:(lia)) as [-> ->].
        subst n m. simpl option_map.
        rewrite quot_min_neg1, rem_neg1.
        split; f_equal.
        -- unfold conv. simpl.
           rewrite swrap_over by (pose proof (pow2_pos w); lia).
           rewrite (pow2_half w Hpos). lia.
        -- apply conv_signed_small; lia.
    + rewrite andb_false_r, orb_false_r.
      destruct (Z.eqb_spec n 0) as [H0 | H0]; simpl option_map.
      * subst n m. rewrite Z.quot_0_l, Z.rem_0_l by lia.
        conv_id; split; reflexivity.
      * destruct (c_div_signed w n m Hw Hn Hm Hz ltac:(lia)) as [-> ->].
        simpl option_map.
        pose proof (quot_signed_range _ n m Hp Hn Hz ltac:(lia)).
        pose proof (rem_signed_range _ n m Hp Hn Hz).
        conv_id; split; reflexivity.
  - destruct (c_div_signed w n m Hw Hn Hm Hz ltac:(lia)) as [-> ->].
    simpl option_map.
    pose proof (quot_signed_range _ n m Hp Hn Hz ltac:(lia)).
    pose proof (rem_signed_range _ n m Hp Hn Hz).
    conv_id; split; reflexivity.
Qed.

Lemma conv_unsigned_m1 (w : Z) : 0 <= w -> conv (ET false w) (-1) = 2 ^ w - 1.
Proof.
  intros Hw. unfold conv, wrap. simpl.
  pose proof (pow2_pos w Hw) as Hp.
  symmetry. apply (Z.mod_unique (-1) (2 ^ w) (-1)); lia.
Qed.

Lemma vdiv_unsigned (w n m : Z) :
  std_width w -> in_range (ET false w) n -> in_range (ET false w) m ->
  vdivu (ET false w) n m = Some (expected_quot (ET false w) n m)
  /\ vremu (ET false w) n m = Some (expected_rem (ET false w) n m).
Proof.
  intros Hw Hn Hm. pose proof (std_width_pos w Hw) as Hpos.
  apply in_range_unsigned in Hn, Hm.
  unfold vdivu, vremu, DO_DIVU, DO_REMU, expected_quot, expected_rem, stored.
  simpl et_signed. rewrite andb_false_l.
  destruct (Z.eqb_spec m 0) as [Hz | Hz]; simpl option_map.
  { rewrite conv_unsigned_m1 by lia. conv_id. split; reflexivity. }
  pose proof (quot_unsigned_range _ n m Hn ltac:(lia)) as Hq.
  pose proof (rem_unsigned_range _ n m Hn ltac:(lia)) as Hr.
  unfold c_div, c_rem, promote. simpl et_bits.
  replace (m =? 0) with false by (symmetry; now apply Z.eqb_neq).
  destruct (Z.ltb_spec w 32) as [Hlt | Hge].
  - assert (Hb : 2 ^ w <= 65536) by (width_cases Hw; concrete_pows; lia).
    change (min_of i32) with (-2147483648).
    replace (n =? -2147483648) with false by (symmetry; apply Z.eqb_neq; lia).
    rewrite andb_false_r, andb_false_l. simpl option_map.
    rewrite !conv_i32_small by lia. conv_id. split; reflexivity.
  - simpl et_signed. rewrite !andb_false_l. simpl option_map.
    conv_id. split; reflexivity.
Qed.

(** C8. Integer divide and remainder never trap.  At each element width,
    signed ([vdiv]/[vrem]) and unsigned ([vdivu]/[vremu]) alike, the
    helper yields a value for every pair of operands: division by zero
    gives the all-ones quotient and the dividend as remainder, the most
    negative value divided by -1 gives the dividend as quotient and 0 as
    remainder, and every other pair gives the exact truncated quotient and
    remainder. *)
Theorem div_rem_never_trap (t : etype) (n m : Z) :
  std_width (et_bits t) -> in_range t n -> in_range t m ->
  (if et_signed t then vdiv t n m else vdivu t n m)
  = Some (if m =? 0 then conv t (-1)
          else if et_signed t && (n =? min_of t) && (m =? -1) then n
          else Z.quot n m)
  /\ (if et_signed t then vrem t n m else vremu t n m)
     = Some (if m =? 0 then n
             else if et_signed t && (n =? min_of t) && (m =? -1) then 0
             else Z.rem n m)
  /\ wrap (et_bits t) (conv t (-1)) = Z.ones (et_bits t).
Proof.
  destruct t as [s w]. simpl et_bits. intros Hw Hn Hm.
  pose proof (std_width_pos w Hw) as Hpos.
  assert (Hones : wrap w (conv (ET s w) (-1)) = Z.ones w).
  { rewrite Z.ones_equiv. destruct s.
    - rewrite conv_signed_small
        by (pose proof (pow2_pos (w - 1)); lia).
      change (wrap w (-1)) with (conv (ET false w) (-1)).
      rewrite conv_unsigned_m1; lia.
    - rewrite conv_unsigned_m1 by lia. apply wrap_small.
      pose proof (pow2_pos w); lia. }
  destruct s.
  - destruct (vdiv_signed w n m Hw Hn Hm) as [Hq Hr]. auto.
  - destruct (vdiv_unsigned w n m Hw Hn Hm) as [Hq Hr]. auto.
Qed.

(** ** Saturating add *)

(** Bits at and above the sign position of a signed [w]-bit value all
    equal its sign. *)
Lemma testbit_signed_high (w x i : Z) :
  0 < w -> - 2 ^ (w - 1) <= x < 2 ^ (w - 1) -> w - 1 <= i ->
  Z.testbit x i = (x <? 0).
Proof.
  intros Hw Hx Hi.
  assert (Hle : 2 ^ (w - 1) <= 2 ^ i) by (apply Z.pow_le_mono_r; lia).
  destruct (Z.ltb_spec x 0) as [Hneg | Hpos].
  - rewrite <- (Z.lnot_involutive x), Z.lnot_spec by lia.
    replace (Z.testbit (Z.lnot x) i) with false; [reflexivity |].
    symmetry. unfold Z.lnot.
    rewrite <- (Z.mod_small (Z.pred (- x)) (2 ^ i)) by lia.
    apply Z.mod_pow2_bits_high. lia.
  - rewrite <- (Z.mod_small x (2 ^ i)) by lia.
    apply Z.mod_pow2_bits_high. lia.
Qed.

Lemma testbit_neg_pow2 (k i : Z) :
  0 <= k -> 0 <= i -> Z.testbit (- 2 ^ k) i = (k <=? i).
Proof.
  intros Hk Hi.
  replace (- 2 ^ k) with (Z.lnot (Z.ones k))
    by (rewrite Z.ones_equiv; unfold Z.lnot; lia).
  rewrite Z.lnot_spec, Z.testbit_ones_nonneg by lia.
  destruct (Z.ltb_spec i k), (Z.leb_spec k i); lia || reflexivity.
Qed.

(** The overflow test [(res ^ a) & (res ^ b) & INT_MIN] of [sadd]: it is
    nonzero exactly when the sign of [res] differs from both operands'. *)
Lemma sadd_sign_test (w r a b : Z) :
  0 < w ->
  - 2 ^ (w - 1) <= r < 2 ^ (w - 1) ->
  - 2 ^ (w - 1) <= a < 2 ^ (w - 1) ->
  - 2 ^ (w - 1) <= b < 2 ^ (w - 1) ->
  Z.land (Z.land (Z.lxor r a) (Z.lxor r b)) (INT_MIN w)
  = if xorb (r <? 0) (a <? 0) && xorb (r <? 0) (b <? 0)
    then INT_MIN w else 0.
Proof.
  intros Hw Hr Ha Hb. unfold INT_MIN.
  apply Z.bits_inj'. intros i Hi.
  rewrite !Z.land_spec, !Z.lxor_spec, testbit_neg_pow2 by lia.
  destruct (Z.leb_spec (w - 1) i) as [Hhi | Hlo].
  - rewrite !(testbit_signed_high w _ i) by lia.
    destruct (xorb (r <? 0) (a <? 0) && xorb (r <? 0) (b <? 0)).
    + rewrite testbit_neg_pow2 by lia.
      symmetry. apply Z.leb_le. lia.
    + rewrite Z.testbit_0_l. reflexivity.
  - rewrite andb_false_r.
    destruct (xorb (r <? 0) (a <? 0) && xorb (r <? 0) (b <? 0)).
    + rewrite testbit_neg_pow2 by lia.
      symmetry. apply Z.leb_gt. lia.
    + rewrite Z.testbit_0_l. reflexivity.
Qed.

Lemma sadd_spec (w : Z) (env : CPURISCVState) (a b : Z) :
  0 < w ->
  - 2 ^ (w - 1) <= a < 2 ^ (w - 1) ->
  - 2 ^ (w - 1) <= b < 2 ^ (w - 1) ->
  sadd w env a b
  = if INT_MAX w <? a + b then (INT_MAX w, set_vxsat 1 env)
    else if a + b <? INT_MIN w then (INT_MIN w, set_vxsat 1 env)
    else (a + b, env).
Proof.
  intros Hw Ha Hb.
  pose proof (pow2_pos (w - 1) ltac:(lia)) as Hp.
  pose proof (pow2_half w Hw) as Hh.
  unfold sadd.
  assert (Hres : swrap w (a + b)
                 = if INT_MAX w <? a + b then a + b - 2 ^ w
                   else if a + b <? INT_MIN w then a + b + 2 ^ w
                   else a + b).
  { unfold INT_MAX, INT_MIN.
    destruct (Z.ltb_spec (2 ^ (w - 1) - 1) (a + b)) as [Ho | Ho].
    - apply swrap_over; lia.
    - destruct (Z.ltb_spec (a + b) (- 2 ^ (w - 1))) as [Hu | Hu].
      + apply swrap_under; lia.
      + apply swrap_small; lia. }
  assert (Hr : - 2 ^ (w - 1) <= swrap w (a + b) < 2 ^ (w - 1)).
  { rewrite Hres. unfold INT_MAX, INT_MIN.
    destruct (Z.ltb_spec (2 ^ (w - 1) - 1) (a + b));
      [| destruct (Z.ltb_spec (a + b) (- 2 ^ (w - 1)))]; lia. }
  rewrite (sadd_sign_test w _ a b Hw Hr Ha Hb).
  rewrite Hres. unfold INT_MAX, INT_MIN in *.
  destruct (Z.ltb_spec (2 ^ (w - 1) - 1) (a + b)) as [Ho | Ho].
  - replace (a + b - 2 ^ w <? 0) with true by (symmetry; apply Z.ltb_lt; lia).
    replace (a <? 0) with false by (symmetry; apply Z.ltb_ge; lia).
    replace (b <? 0) with false by (symmetry; apply Z.ltb_ge; lia).
    simpl. replace (- 2 ^ (w - 1) =? 0) with false
      by (symmetry; apply Z.eqb_neq; lia).
    simpl. replace (0 <? a) with true by (symmetry; apply Z.ltb_lt; lia).
    reflexivity.
  - destruct (Z.ltb_spec (a + b) (- 2 ^ (w - 1))) as [Hu | Hu].
    + replace (a + b + 2 ^ w <? 0) with false
        by (symmetry; apply Z.ltb_ge; lia).
      replace (a <? 0) with true by (symmetry; apply Z.ltb_lt; lia).
      replace (b <? 0) with true by (symmetry; apply Z.ltb_lt; lia).
      simpl. replace (- 2 ^ (w - 1) =? 0) with false
        by (symmetry; apply Z.eqb_neq; lia).
      simpl. replace (0 <? a) with false by (symmetry; apply Z.ltb_ge; lia).
      reflexivity.
    + replace (xorb (a + b <? 0) (a <? 0) && xorb (a + b <? 0) (b <? 0))
        with false; [reflexivity |].
      destruct (Z.ltb_spec (a + b) 0), (Z.ltb_spec a 0), (Z.ltb_spec b 0);
        simpl; lia || reflexivity.
Qed.

Lemma saddu_spec (w : Z) (env : CPURISCVState) (a b : Z) :
  0 <= w -> 0 <= a < 2 ^ w -> 0 <= b < 2 ^ w ->
  saddu w env a b
  = if UINT_MAX w <? a + b then (UINT_MAX w, set_vxsat 1 env)
    else (a + b, env).
Proof.
  intros Hw Ha Hb. unfold saddu, UINT_MAX.
  destruct (Z.ltb_spec (2 ^ w - 1) (a + b)) as [Ho | Ho].
  - rewrite wrap_over by lia.
    replace (a + b - 2 ^ w <? a) with true by (symmetry; apply Z.ltb_lt; lia).
    reflexivity.
  - rewrite wrap_small by lia.
    replace (a + b <? a) with false by (symmetry; apply Z.ltb_ge; lia).
    reflexivity.
Qed.

(** C6. Saturating add at each element width.  When the exact sum fits
    the element type the result is that sum and the state (hence vxsat) is
    returned unchanged; when it overflows the result is the type's maximum
    (the minimum for a signed sum that underflows) and vxsat is 1 in the
    returned state whatever it was before.  Signed 8-bit [sadd8] of
    INT8_MAX and 1 gives INT8_MAX with vxsat = 1. *)
Theorem saturating_add (w : Z) (env : CPURISCVState) (a b : Z) :
  std_width w ->
  (in_range (ET true w) a -> in_range (ET true w) b ->
   sadd w env a b
   = if INT_MAX w <? a + b then (INT_MAX w, set_vxsat 1 env)
     else if a + b <? INT_MIN w then (INT_MIN w, set_vxsat 1 env)
     else (a + b, env))
  /\ (in_range (ET false w) a -> in_range (ET false w) b ->
      saddu w env a b
      = if UINT_MAX w <? a + b then (UINT_MAX w, set_vxsat 1 env)
        else (a + b, env))
  /\ vxsat (set_vxsat 1 env) = 1
  /\ sadd8 env (INT_MAX 8) 1 = (INT_MAX 8, set_vxsat 1 env).
Proof.
  intros Hw. pose proof (std_width_pos w Hw) as Hpos.
  repeat split.
  - intros Ha Hb. apply in_range_signed in Ha, Hb.
    now apply sadd_spec.
  - intros Ha Hb. apply in_range_unsigned in Ha, Hb.
    apply saddu_spec; lia.
Qed.

(** ** Rounding increment *)

Lemma bitfield_bit (v s : Z) : 0 <= s -> bitfield v s 1 = bit v s.
Proof.
  intros Hs. unfold bitfield, bit, b2z.
  rewrite Z.land_ones by lia. change (2 ^ 1) with 2.
  rewrite <- Z.bit0_mod, Z.shiftr_spec by lia. reflexivity.
Qed.

Lemma bitfield_low (v n : Z) : 0 <= n -> bitfield v 0 n = v mod 2 ^ n.
Proof.
  intros Hn. unfold bitfield. rewrite Z.shiftr_0_r. now apply Z.land_ones.
Qed.

Lemma uint8_b2z (c : bool) : uint8_t (b2z c) = b2z c.
Proof. destruct c; reflexivity. Qed.

Lemma extract64_ok (v start length : Z) :
  0 <= start -> 0 < length -> length <= 64 - start ->
  extract64 v start length = Some (bitfield v start length).
Proof.
  intros H1 H2 H3. unfold extract64.
  destruct (Z.leb_spec 0 start), (Z.ltb_spec 0 length),
    (Z.leb_spec length (64 - start)); lia || reflexivity.
Qed.

Lemma extract64_bit (v s : Z) :
  0 <= s <= 63 -> option_map uint8_t (extract64 v s 1) = Some (bit v s).
Proof.
  intros Hs. rewrite extract64_ok by lia.
  simpl. rewrite bitfield_bit by lia. unfold bit. now rewrite uint8_b2z.
Qed.

Lemma extract64_low (v n : Z) :
  1 <= n <= 64 -> extract64 v 0 n = Some (v mod 2 ^ n).
Proof.
  intros Hn. rewrite extract64_ok by lia.
  now rewrite bitfield_low by lia.
Qed.

(** What [get_round] computes on shift amounts 1..63, mode by mode. *)
Lemma get_round_in_word (vxrm v shift : Z) :
  1 <= shift <= 63 ->
  get_round vxrm v shift
  = Some (if vxrm =? 0 then bit v (shift - 1)
          else if vxrm =? 1 then
            b2z (Z.testbit v (shift - 1)
                 && (negb (v mod 2 ^ (shift - 1) =? 0) || Z.testbit v shift))
          else if vxrm =? 3 then
            b2z (negb (Z.testbit v shift) && negb (v mod 2 ^ shift =? 0))
          else 0).
Proof.
  intros Hs. unfold get_round.
  rewrite extract64_bit by lia. simpl bind.
  replace ((shift =? 0) || (64 <? shift)) with false
    by (symmetry; apply orb_false_iff; split;
        [apply Z.eqb_neq | apply Z.ltb_ge]; lia).
  rewrite extract64_bit by lia. simpl bind.
  rewrite extract64_low by lia. simpl bind.
  destruct (vxrm =? 0); [reflexivity |].
  destruct (vxrm =? 1).
  - destruct (Z.ltb_spec 1 shift) as [H1 | H1].
    + rewrite extract64_low by lia. simpl bind. f_equal. unfold bit.
      destruct (Z.testbit v (shift - 1)), (v mod 2 ^ (shift - 1) =? 0),
        (Z.testbit v shift); reflexivity.
    + replace shift with 1 by lia. change (1 - 1) with 0.
      change (2 ^ 0) with 1. rewrite Z.mod_1_r. f_equal. unfold bit.
      destruct (Z.testbit v 0), (Z.testbit v 1); reflexivity.
  - destruct (vxrm =? 3); [| reflexivity].
    f_equal. unfold bit.
    destruct (Z.testbit v shift), (v mod 2 ^ shift =? 0); reflexivity.
Qed.

(** C7 (amended). For every value [v] and every shift amount in
    [1, 63], [get_round] returns the rounding increment dictated by the
    selected mode, as [round_modes] spells out. *)
Theorem get_round_modes (v shift : Z) :
  1 <= shift <= 63 -> round_modes v shift.
Proof.
  intros Hs. unfold round_modes.
  rewrite !get_round_in_word by exact Hs. simpl.
  repeat split. now rewrite andb_comm.
Qed.

(** At shift 64 the first statement of [get_round] extracts the bit
    field (64, 1), which lies outside the word: the assertion of
    [extract64] fails before the range test on [shift] is reached. *)
Lemma get_round_shift64 (vxrm v : Z) : get_round vxrm v 64 = None.
Proof. reflexivity. Qed.

(** With shift 0 the range test returns 0 in every mode. *)
Lemma get_round_shift0 (vxrm v : Z) : get_round vxrm v 0 = Some 0.
Proof. reflexivity. Qed.

End Elem.

(** Boundary values of the scalar element operations. *)
Module ElemExamples.
Import Elem.

Definition env0 : CPURISCVState := mkEnv (fun _ => 0) 4 0 0 0 0.

(** The most negative byte divided by -1: quotient the dividend,
    remainder 0. *)
Lemma div_rem_never_trap_witness :
  vdiv i8 (-128) (-1) = Some (-128)
  /\ vrem i8 (-128) (-1) = Some 0
  /\ wrap 8 (conv i8 (-1)) = Z.ones 8.
Proof.
  refine (div_rem_never_trap i8 (-128) (-1) _ _ _).
  - vm_compute. tauto.
  - vm_compute. split; discriminate.
  - vm_compute. split; discriminate.
Defined.

Example div_by_zero :
  vdiv i32 7 0 = Some (-1) /\ vrem i32 7 0 = Some 7
  /\ vdivu u16 7 0 = Some 65535 /\ vremu u16 7 0 = Some 7.
Proof. repeat split; reflexivity. Qed.

Example div_truncates :
  vdiv i16 (-7) 2 = Some (-3) /\ vrem i16 (-7) 2 = Some (-1)
  /\ vdiv i64 (- 2 ^ 63) (-1) = Some (- 2 ^ 63)
  /\ vrem i64 (- 2 ^ 63) (-1) = Some 0.
Proof. repeat split; reflexivity. Qed.

(** Without the guards of [DO_DIV] the host division would trap. *)
Example unguarded_division_traps :
  c_div i32 7 0 = None /\ c_div i32 (- 2 ^ 31) (-1) = None.
Proof. split; reflexivity. Qed.

(** INT8_MAX + 1 saturates to INT8_MAX and sets vxsat. *)
Lemma saturating_add_witness :
  sadd 8 env0 127 1 = (127, set_vxsat 1 env0).
Proof.
  refine (proj1 (saturating_add 8 env0 127 1 _) _ _).
  - vm_compute. tauto.
  - vm_compute. split; discriminate.
  - vm_compute. split; discriminate.
Defined.

Example saturating_add_runs :
  sadd8 env0 100 27 = (127, env0)
  /\ sadd8 env0 (-100) (-29) = (-128, set_vxsat 1 env0)
  /\ saddu8 env0 200 55 = (255, env0)
  /\ saddu8 env0 200 56 = (255, set_vxsat 1 env0)
  /\ sadd64 env0 (2 ^ 63 - 1) 1 = (2 ^ 63 - 1, set_vxsat 1 env0).
Proof. repeat split; reflexivity. Qed.

(** Rounding 0b0110 by two places: the discarded bits are exactly one
    half and the kept part 0b01 is odd. *)
Lemma get_round_modes_witness : round_modes 6 2.
Proof. apply get_round_modes. lia. Defined.

Example get_round_half :
  get_round 0 6 2 = Some 1 /\ get_round 1 6 2 = Some 1
  /\ get_round 2 6 2 = Some 0 /\ get_round 3 6 2 = Some 0
  /\ get_round 1 2 2 = Some 0 /\ get_round 3 2 2 = Some 1.
Proof. repeat split; reflexivity. Qed.

(** C7 as stated, over shift amounts up to 64, fails at 64: [get_round]
    yields no value there. *)
Lemma get_round_shift64_counterexample :
  ~ (forall v shift, 1 <= shift <= 64 -> round_modes v shift).
Proof.
  intros H. destruct (H 0 64 ltac:(lia)) as [H0 _].
  rewrite get_round_shift64 in H0. discriminate.
Qed.

End ElemExamples.

(* ===================================================================== *)
(** * The vector register file and the element loops *)
(* ===================================================================== *)

Module VReg.
Import Elem.

(** A C [for] loop over [n] consecutive indices starting at [i]. *)
Fixpoint for_loop {S : Type} (n : nat) (i : Z) (body : Z -> S -> S) (s : S)
    : S :=
  match n with
  | O => s
  | S n' => for_loop n' (i + 1) body (body i s)
  end.

(** Assignment to one host word of the register file. *)
Definition upd (f : Z -> Z) (k v : Z) : Z -> Z :=
  fun j => if j =? k then v else f j.

(** Vector data is stored in host-endian 64-bit chunks; with the [H1],
    [H2], [H4], [H8] fix-ups, element [i] of width [bits] of the register
    at word [v] is the bit field at [(i * bits) mod 64] of word
    [v + (i * bits) / 64] on either host byte order. *)
Definition elem_word (bits v i : Z) : Z := v + (i * bits) / 64.
Definition elem_pos (bits i : Z) : Z := (i * bits) mod 64.

(** The raw bits of element [i]. *)
Definition raw_elem (bits : Z) (f : Z -> Z) (v i : Z) : Z :=
  bitfield (f (elem_word bits v i)) (elem_pos bits i) bits.

(** [*((ETYPE * )v + H(i))] read at type [t]. *)
Definition ld_elem (t : etype) (f : Z -> Z) (v i : Z) : Z :=
  conv t (raw_elem (et_bits t) f v i).

(** [*((ETYPE * )v + H(i)) = x]. *)
Definition st_elem (t : etype) (f : Z -> Z) (v i x : Z) : Z -> Z :=
  let k := elem_word (et_bits t) v i in
  upd f k (deposit64 (f k) (elem_pos (et_bits t) i) (et_bits t) x).

(** [vext_elem_mask]; [index] is an [int], so [/] and [%] truncate. *)
Definition vext_elem_mask (f : Z -> Z) (v0 index : Z) : Z :=
  let idx := Z.quot index 64 in
  let pos := Z.rem index 64 in
  Z.land (Z.shiftr (f (v0 + idx)) pos) 1.

(** [vext_set_elem_mask]. *)
Definition vext_set_elem_mask (f : Z -> Z) (v0 index value : Z) : Z -> Z :=
  let idx := Z.quot index 64 in
  let pos := Z.rem index 64 in
  let old := f (v0 + idx) in
  upd f (v0 + idx) (deposit64 old pos 1 value).

Section Desc.

(** [simd_data] and [simd_maxsz] of tcg/tcg-gvec-desc.h decode the
    operation descriptor; the helpers are verified for any decoding. *)
Variable simd_data : Z -> Z.
Variable simd_maxsz : Z -> Z.

(** C leaves [x << n] undefined for a negative count [n].  The helpers
    then go on with whatever the host's shift left in the register:
    [host_shl x n] stands for that value, and nothing is assumed of it. *)
Variable host_shl : Z -> Z -> Z.

(** The [VDATA] fields of internals.h. *)
Definition vext_vm (desc : Z) : Z := bitfield (simd_data desc) 0 1.
Definition vext_lmul (desc : Z) : Z :=
  sextract3 (bitfield (simd_data desc) 1 3).
Definition vext_nf (desc : Z) : Z := bitfield (simd_data desc) 7 4.

(** [vext_maxsz]: [simd_maxsz(desc) << vext_lmul(desc)], a [uint32_t].
    The shift is defined for a count in 0..3; for the negative counts of
    a fractional LMUL it is the host's. *)
Definition vext_maxsz (desc : Z) : Z :=
  if 0 <=? vext_lmul desc
  then uint32_t (Z.shiftl (simd_maxsz desc) (vext_lmul desc))
  else uint32_t (host_shl (simd_maxsz desc) (vext_lmul desc)).

(** [!vm && !vext_elem_mask(v0, i)]: element [i] is skipped. *)
Definition skipped (vm : Z) (f : Z -> Z) (v0 i : Z) : bool :=
  (vm =? 0) && (vext_elem_mask f v0 (int32_t i) =? 0).

(** [OPIVV2]: the element function [do_NAME] generated for the types
    [(TD, T1, T2, TX1, TX2)] and the operation [OP]. *)
Definition OPIVV2 (TD T1 T2 TX1 TX2 : etype) (OP : Z -> Z -> Z)
    (vd vs1 vs2 i : Z) (f : Z -> Z) : Z -> Z :=
  let s1 := conv TX1 (ld_elem T1 f vs1 i) in
  let s2 := conv TX2 (ld_elem T2 f vs2 i) in
  st_elem TD f vd i (conv TD (OP s2 s1)).

(** [do_vext_vv]. *)
Definition do_vext_vv (vd v0 vs1 vs2 : Z) (env : CPURISCVState) (desc : Z)
    (fn : Z -> Z -> Z -> Z -> (Z -> Z) -> Z -> Z) : CPURISCVState :=
  let vm := vext_vm desc in
  let vl := uint32_t (vl env) in
  let f :=
    for_loop (Z.to_nat vl) 0
      (fun i f => if skipped vm f v0 i then f else fn vd vs1 vs2 (int32_t i) f)
      (vreg env) in
  set_vreg f env.

(** One iteration of an element-wise loop writing register [vd] at type
    [td]: a skipped element is left alone, an active one is overwritten by
    the value [val] computed for it. *)
Definition step (td : etype) (vm v0 vd : Z) (val : Z -> (Z -> Z) -> Z)
    (i : Z) (f : Z -> Z) : Z -> Z :=
  if skipped vm f v0 i then f else st_elem td f vd (int32_t i) (val i f).

(** [DO_ADD] on operands of type [t], computed after integer
    promotion. *)
Definition DO_ADD (t : etype) (n m : Z) : Z := conv (promote t) (n + m).

(** [OP_SSS_B] .. [OP_SSS_D] and the [vadd_vv] helpers. *)
Definition OP_SSS (t : etype) := OPIVV2 t t t t t.

Definition vadd_vv (t : etype) (vd v0 vs1 vs2 : Z) (env : CPURISCVState)
    (desc : Z) : CPURISCVState :=
  do_vext_vv vd v0 vs1 vs2 env desc (OP_SSS t (DO_ADD t)).

Definition vadd_vv_b := vadd_vv i8.
Definition vadd_vv_h := vadd_vv i16.
Definition vadd_vv_w := vadd_vv i32.
Definition vadd_vv_d := vadd_vv i64.

(** [GEN_VEXT_CMP_VV]: the comparison helper for element type [t] and
    operation [DO_OP]; the second loop clears the tail. *)
Definition GEN_VEXT_CMP_VV (t : etype) (DO_OP : Z -> Z -> bool)
    (vd v0 vs1 vs2 : Z) (env : CPURISCVState) (desc : Z) : CPURISCVState :=
  let vm := vext_vm desc in
  let vl := uint32_t (vl env) in
  let vlmax := uint32_t (vext_maxsz desc / (et_bits t / 8)) in
  let f1 :=
    for_loop (Z.to_nat vl) 0
      (fun i f =>
         let s1 := ld_elem t f vs1 i in
         let s2 := ld_elem t f vs2 i in
         if skipped vm f v0 i then f
         else vext_set_elem_mask f vd (int32_t i) (b2z (DO_OP s2 s1)))
      (vreg env) in
  let f2 :=
    for_loop (Z.to_nat (vlmax - vl)) vl
      (fun i f => vext_set_elem_mask f vd (int32_t i) 0) f1 in
  set_vreg f2 env.

Definition DO_MSEQ (n m : Z) : bool := n =? m.
Definition DO_MSNE (n m : Z) : bool := negb (n =? m).
Definition DO_MSLT (n m : Z) : bool := n <? m.
Definition DO_MSLE (n m : Z) : bool := n <=? m.

Definition vmseq_vv_b := GEN_VEXT_CMP_VV u8 DO_MSEQ.
Definition vmseq_vv_h := GEN_VEXT_CMP_VV u16 DO_MSEQ.
Definition vmseq_vv_w := GEN_VEXT_CMP_VV u32 DO_MSEQ.
Definition vmseq_vv_d := GEN_VEXT_CMP_VV u64 DO_MSEQ.

(** [GEN_VEXT_VRGATHER_VV]: the local [vlmax] is initialised from
    [cfg.vlen]; [index] is a [uint32_t]. *)
Definition GEN_VEXT_VRGATHER_VV (t : etype) (cfg : RISCVCPUConfig)
    (vd v0 vs1 vs2 : Z) (env : CPURISCVState) (desc : Z) : CPURISCVState :=
  let vlmax := uint32_t (cfg_vlen cfg) in
  let vm := vext_vm desc in
  let vl := uint32_t (vl env) in
  let f :=
    for_loop (Z.to_nat vl) 0
      (fun i f =>
         if skipped vm f v0 i then f
         else
           let index := uint32_t (ld_elem t f vs1 i) in
           if vlmax <=? index then st_elem t f vd i 0
           else st_elem t f vd i (ld_elem t f vs2 index))
      (vreg env) in
  set_vreg f env.

(** [GEN_VEXT_VRGATHER_VX]: [index] is the scalar, truncated to
    [uint32_t]. *)
Definition GEN_VEXT_VRGATHER_VX (t : etype) (cfg : RISCVCPUConfig)
    (vd v0 s1 vs2 : Z) (env : CPURISCVState) (desc : Z) : CPURISCVState :=
  let vlmax := uint32_t (cfg_vlen cfg) in
  let vm := vext_vm desc in
  let vl := uint32_t (vl env) in
  let index := uint32_t s1 in
  let f :=
    for_loop (Z.to_nat vl) 0
      (fun i f =>
         if skipped vm f v0 i then f
         else if vlmax <=? index then st_elem t f vd i 0
         else st_elem t f vd i (ld_elem t f vs2 index))
      (vreg env) in
  set_vreg f env.

Definition vrgather_vv_b := GEN_VEXT_VRGATHER_VV u8.
Definition vrgather_vv_h := GEN_VEXT_VRGATHER_VV u16.
Definition vrgather_vv_w := GEN_VEXT_VRGATHER_VV u32.
Definition vrgather_vv_d := GEN_VEXT_VRGATHER_VV u64.
Definition vrgather_vx_b := GEN_VEXT_VRGATHER_VX u8.
Definition vrgather_vx_h := GEN_VEXT_VRGATHER_VX u16.
Definition vrgather_vx_w := GEN_VEXT_VRGATHER_VX u32.
Definition vrgather_vx_d := GEN_VEXT_VRGATHER_VX u64.

End Desc.

(** ** Bit fields of a word *)

Lemma testbit_bitfield (w s l i : Z) :
  0 <= s -> 0 <= l -> 0 <= i ->
  Z.testbit (bitfield w s l) i = (i <? l) && Z.testbit w (i + s).
Proof.
  intros Hs Hl Hi. unfold bitfield.
  rewrite Z.land_spec, Z.shiftr_spec, Z.testbit_ones_nonneg by lia.
  apply andb_comm.
Qed.

Lemma testbit_field_mask (s l i : Z) :
  0 <= s -> 0 <= l -> 0 <= i ->
  Z.testbit (Z.shiftl (Z.ones l) s) i = (s <=? i) && (i <? s + l).
Proof.
  intros Hs Hl Hi. rewrite Z.shiftl_spec by lia.
  destruct (Z.leb_spec s i) as [Hle | Hgt].
  - rewrite Z.testbit_ones_nonneg by lia.
    destruct (Z.ltb_spec (i - s) l), (Z.ltb_spec i (s + l)); lia || reflexivity.
  - rewrite Z.testbit_neg_r by lia. reflexivity.
Qed.

Lemma testbit_deposit64 (w s l v i : Z) :
  0 <= s -> 0 <= l -> 0 <= i ->
  Z.testbit (deposit64 w s l v) i
  = if (s <=? i) && (i <? s + l) then Z.testbit v (i - s) else Z.testbit w i.
Proof.
  intros Hs Hl Hi. unfold deposit64.
  rewrite Z.lor_spec, !Z.land_spec, Z.lnot_spec, testbit_field_mask by lia.
  rewrite Z.shiftl_spec by lia.
  destruct ((s <=? i) && (i <? s + l)); simpl.
  - rewrite andb_false_r, andb_true_r. reflexivity.
  - rewrite andb_true_r, andb_false_r, orb_false_r. reflexivity.
Qed.

(** Reading a field disjoint from the one just written. *)
Lemma bitfield_deposit64_other (w s l v s' l' : Z) :
  0 <= s -> 0 <= l -> 0 <= s' -> 0 <= l' ->
  s' + l' <= s \/ s + l <= s' ->
  bitfield (deposit64 w s l v) s' l' = bitfield w s' l'.
Proof.
  intros Hs Hl Hs' Hl' Hd. apply Z.bits_inj'. intros i Hi.
  rewrite !testbit_bitfield, testbit_deposit64 by lia.
  destruct (Z.ltb_spec i l') as [Hlt | Hge]; [| reflexivity].
  simpl.
  replace ((s <=? i + s') && (i + s' <? s + l)) with false; [reflexivity |].
  symmetry. apply andb_false_iff.
  destruct (Z.leb_spec s (i + s')), (Z.ltb_spec (i + s') (s + l)); auto; lia.
Qed.

(** Reading back the field just written. *)
Lemma bitfield_deposit64_same (w s l v : Z) :
  0 <= s -> 0 <= l ->
  bitfield (deposit64 w s l v) s l = bitfield v 0 l.
Proof.
  intros Hs Hl. apply Z.bits_inj'. intros i Hi.
  rewrite !testbit_bitfield, testbit_deposit64 by lia.
  destruct (Z.ltb_spec i l) as [Hlt | Hge]; [| reflexivity].
  simpl.
  replace ((s <=? i + s) && (i + s <? s + l)) with true.
  - f_equal. lia.
  - symmetry. apply andb_true_iff. split; [apply Z.leb_le | apply Z.ltb_lt]; lia.
Qed.

(** ** Words, elements and mask bits *)

Lemma upd_same (f : Z -> Z) (k v : Z) : upd f k v k = v.
Proof. unfold upd. now rewrite Z.eqb_refl. Qed.

Lemma upd_other (f : Z -> Z) (k v j : Z) : j <> k -> upd f k v j = f j.
Proof. intros H. unfold upd. now apply Z.eqb_neq in H; rewrite H. Qed.

Lemma elem_pos_bounds (bits i : Z) :
  std_width bits -> 0 <= elem_pos bits i /\ elem_pos bits i + bits <= 64.
Proof.
  intros Hw. unfold elem_pos.
  width_cases Hw; Z.div_mod_to_equations; lia.
Qed.

(** Two distinct elements of one word occupy disjoint fields. *)
Lemma elem_pos_disjoint (bits v i j : Z) :
  std_width bits -> i <> j ->
  elem_word bits v i = elem_word bits v j ->
  elem_pos bits j + bits <= elem_pos bits i
  \/ elem_pos bits i + bits <= elem_pos bits j.
Proof.
  intros Hw Hne. unfold elem_word, elem_pos.
  width_cases Hw; Z.div_mod_to_equations; lia.
Qed.

(** A store changes no word but the element's own. *)
Lemma st_elem_word (t : etype) (f : Z -> Z) (v i x k : Z) :
  k <> elem_word (et_bits t) v i -> st_elem t f v i x k = f k.
Proof. intros H. unfold st_elem. now apply upd_other. Qed.

(** A store leaves every other element of the register as it was. *)
Lemma raw_elem_st_other (t : etype) (f : Z -> Z) (v i j x : Z) :
  std_width (et_bits t) -> i <> j ->
  raw_elem (et_bits t) (st_elem t f v i x) v j = raw_elem (et_bits t) f v j.
Proof.
  intros Hw Hne. unfold raw_elem.
  destruct (Z.eq_dec (elem_word (et_bits t) v j) (elem_word (et_bits t) v i))
    as [E | E].
  - unfold st_elem. rewrite E, upd_same.
    pose proof (elem_pos_bounds _ i Hw). pose proof (elem_pos_bounds _ j Hw).
    pose proof (std_width_pos _ Hw).
    apply bitfield_deposit64_other; try lia.
    apply (elem_pos_disjoint _ v i j Hw Hne). congruence.
  - now rewrite st_elem_word.
Qed.

(** A mask bit is the one-bit field at its position. *)
Lemma vext_elem_mask_bitfield (f : Z -> Z) (v0 i : Z) :
  0 <= i ->
  vext_elem_mask f v0 i = bitfield (f (v0 + i / 64)) (i mod 64) 1.
Proof.
  intros Hi. unfold vext_elem_mask.
  rewrite Z.quot_div_nonneg, Z.rem_mod_nonneg by lia. reflexivity.
Qed.

Lemma vext_set_elem_mask_upd (f : Z -> Z) (v0 i x : Z) :
  0 <= i ->
  vext_set_elem_mask f v0 i x
  = upd f (v0 + i / 64) (deposit64 (f (v0 + i / 64)) (i mod 64) 1 x).
Proof.
  intros Hi. unfold vext_set_elem_mask.
  rewrite Z.quot_div_nonneg, Z.rem_mod_nonneg by lia. reflexivity.
Qed.

Lemma vext_elem_mask_set_same (f : Z -> Z) (v0 i x : Z) :
  0 <= i ->
  vext_elem_mask (vext_set_elem_mask f v0 i x) v0 i = bitfield x 0 1.
Proof.
  intros Hi.
  rewrite vext_elem_mask_bitfield, vext_set_elem_mask_upd, upd_same by lia.
  pose proof (Z.mod_pos_bound i 64 ltac:(lia)).
  apply bitfield_deposit64_same; lia.
Qed.

Lemma vext_elem_mask_set_other (f : Z -> Z) (v0 i j x : Z) :
  0 <= i -> 0 <= j -> i <> j ->
  vext_elem_mask (vext_set_elem_mask f v0 i x) v0 j = vext_elem_mask f v0 j.
Proof.
  intros Hi Hj Hne.
  rewrite !vext_elem_mask_bitfield, vext_set_elem_mask_upd by lia.
  pose proof (Z.mod_pos_bound i 64 ltac:(lia)).
  pose proof (Z.mod_pos_bound j 64 ltac:(lia)).
  destruct (Z.eq_dec (v0 + j / 64) (v0 + i / 64)) as [E | E].
  - rewrite E, upd_same.
    apply bitfield_deposit64_other; try lia.
    assert (i mod 64 <> j mod 64)
      by (Z.div_mod_to_equations; lia).
    lia.
  - now rewrite upd_other.
Qed.

Lemma int32_t_id (x : Z) : 0 <= x < 2 ^ 31 -> int32_t x = x.
Proof.
  intros H. unfold int32_t. apply swrap_small; [lia |].
  change (2 ^ (32 - 1)) with (2 ^ 31). lia.
Qed.

Lemma uint32_t_id (x : Z) : 0 <= x < 2 ^ 32 -> uint32_t x = x.
Proof. intros H. unfold uint32_t. now apply wrap_small. Qed.

(** ** The frame of an element-wise loop *)

Section Frame.

Variables (td : etype) (vm v0 vd vl : Z).
Variable val : Z -> (Z -> Z) -> Z.

Hypothesis Hw : std_width (et_bits td).
Hypothesis Hvl : vl <= 2 ^ 31.

(** The mask bits consulted by the loop lie in words the destination
    elements do not occupy (the translator's [require_vm] check). *)
Hypothesis Hdis :
  vm = 0 ->
  forall i j, 0 <= i < vl -> 0 <= j < vl ->
              v0 + i / 64 <> elem_word (et_bits td) vd j.

Lemma step_skipped (i j : Z) (f : Z -> Z) :
  0 <= i < vl -> 0 <= j < vl ->
  skipped vm (step td vm v0 vd val i f) v0 j = skipped vm f v0 j.
Proof.
  intros Hi Hj. unfold step.
  destruct (skipped vm f v0 i) eqn:E; [reflexivity |].
  unfold skipped. destruct (Z.eqb_spec vm 0) as [Hz | Hz]; [| reflexivity].
  simpl. f_equal.
  rewrite !int32_t_id by lia.
  rewrite !vext_elem_mask_bitfield by lia.
  rewrite st_elem_word; [reflexivity |].
  apply Hdis; auto.
Qed.

Lemma step_raw (i j : Z) (f : Z -> Z) :
  0 <= i < vl -> j <> i \/ skipped vm f v0 i = true ->
  raw_elem (et_bits td) (step td vm v0 vd val i f) vd j = raw_elem (et_bits td) f vd j.
Proof.
  intros Hi Hj. unfold step.
  destruct (skipped vm f v0 i) eqn:E; [reflexivity |].
  destruct Hj as [Hne | ?]; [| discriminate].
  rewrite int32_t_id by lia.
  apply raw_elem_st_other; auto.
Qed.

Lemma loop_frame (n : nat) :
  forall (i0 : Z) (f : Z -> Z),
    0 <= i0 -> i0 + Z.of_nat n <= vl ->
    (forall j, 0 <= j < vl ->
               skipped vm (for_loop n i0 (step td vm v0 vd val) f) v0 j = skipped vm f v0 j)
    /\ (forall j,
           j < i0 \/ i0 + Z.of_nat n <= j \/ skipped vm f v0 j = true ->
           raw_elem (et_bits td) (for_loop n i0 (step td vm v0 vd val) f) vd j
           = raw_elem (et_bits td) f vd j).
Proof.
  induction n as [| n IH]; intros i0 f Hi0 Hn; simpl for_loop.
  - split; reflexivity.
  - destruct (IH (i0 + 1) (step td vm v0 vd val i0 f)) as [IHs IHr]; [lia | lia |].
    split.
    + intros j Hj. rewrite IHs by exact Hj. apply step_skipped; lia.
    + intros j Hj.
      destruct (Z_lt_le_dec j i0) as [Hlo | Hlo].
      { rewrite IHr by lia. apply step_raw; lia. }
      destruct (Z_le_gt_dec (i0 + Z.of_nat (S n)) j) as [Hhi | Hhi].
      { rewrite IHr by lia. apply step_raw; lia. }
      destruct Hj as [? | [? | Hsk]]; try lia.
      destruct (Z.eq_dec j i0) as [-> | Hne].
      * rewrite IHr by lia. apply step_raw; [lia | now right].
      * rewrite IHr.
        -- apply step_raw; lia.
        -- right; right. rewrite step_skipped by lia. exact Hsk.
Qed.

End Frame.

(** What [require_vm] buys: with [words] host words per register, the
    mask bits of the first [vl <= VLEN] elements lie in register 0, below
    every element of a destination group starting at register [rd]. *)
Lemma require_vm_apart (bits words vm rd vl : Z) :
  Overlap.require_vm vm rd = true ->
  0 < bits -> 0 < words -> 0 <= rd -> vl <= 64 * words ->
  vm = 0 ->
  forall i j, 0 <= i < vl -> 0 <= j < vl ->
              0 + i / 64 <> elem_word bits (rd * words) j.
Proof.
  intros Hr Hb Hw Hrd Hvl Hvm i j Hi Hj.
  unfold Overlap.require_vm in Hr. subst vm. simpl in Hr.
  apply negb_true_iff, Z.eqb_neq in Hr.
  unfold elem_word.
  assert (0 <= j * bits / 64) by (apply Z.div_pos; nia).
  assert (i / 64 < words) by (apply Z.div_lt_upper_bound; lia).
  nia.
Qed.

(** ** The tail loop of a mask-producing helper *)

Lemma tail_loop_other (vd : Z) (n : nat) :
  forall (i0 : Z) (f : Z -> Z) (j : Z),
    0 <= i0 -> i0 + Z.of_nat n <= 2 ^ 31 -> 0 <= j ->
    j < i0 \/ i0 + Z.of_nat n <= j ->
    vext_elem_mask
      (for_loop n i0 (fun i f => vext_set_elem_mask f vd (int32_t i) 0) f)
      vd j
    = vext_elem_mask f vd j.
Proof.
  induction n as [| n IH]; intros i0 f j Hi0 Hn Hj Hout; simpl for_loop.
  - reflexivity.
  - rewrite IH by lia. rewrite int32_t_id by lia.
    apply vext_elem_mask_set_other; lia.
Qed.

Lemma tail_loop_zero (vd : Z) (n : nat) :
  forall (i0 : Z) (f : Z -> Z) (j : Z),
    0 <= i0 -> i0 + Z.of_nat n <= 2 ^ 31 ->
    i0 <= j < i0 + Z.of_nat n ->
    vext_elem_mask
      (for_loop n i0 (fun i f => vext_set_elem_mask f vd (int32_t i) 0) f)
      vd j
    = 0.
Proof.
  induction n as [| n IH]; intros i0 f j Hi0 Hn Hj; simpl for_loop.
  - lia.
  - destruct (Z.eq_dec j i0) as [-> | Hne].
    + rewrite tail_loop_other by lia. rewrite int32_t_id by lia.
      rewrite vext_elem_mask_set_same by lia. reflexivity.
    + apply IH; lia.
Qed.

(** The first loop of a mask-producing helper writes no bit outside
    its range. *)
Lemma cmp_loop_other (vm v0 vd : Z) (x : Z -> (Z -> Z) -> Z) (n : nat) :
  forall (i0 : Z) (f : Z -> Z) (j : Z),
    0 <= i0 -> i0 + Z.of_nat n <= 2 ^ 31 -> 0 <= j ->
    j < i0 \/ i0 + Z.of_nat n <= j ->
    vext_elem_mask
      (for_loop n i0
         (fun i f => if skipped vm f v0 i then f
                     else vext_set_elem_mask f vd (int32_t i) (x i f)) f)
      vd j
    = vext_elem_mask f vd j.
Proof.
  induction n as [| n IH]; intros i0 f j Hi0 Hn Hj Hout; simpl for_loop.
  - reflexivity.
  - rewrite IH by lia. destruct (skipped vm f v0 i0); [reflexivity |].
    rewrite int32_t_id by lia.
    apply vext_elem_mask_set_other; lia.
Qed.

(** With an integer LMUL (a shift count the C shift is defined for) and
    vl below the bound [(simd_maxsz << lmul) / sizeof(ETYPE)], a
    mask-producing comparison helper ([GEN_VEXT_CMP_VV], e.g. vmseq_vv)
    leaves 0 in every destination mask bit from vl up to the bound, and an
    ordinary arithmetic helper ([do_vext_vv] over an [OPIVV2] element
    function, e.g. vadd_vv) leaves every destination element that is
    masked off or has index at or beyond vl with the bits it had before
    the instruction (the mask register being, as the translator requires
    of a masked instruction, apart from the destination). *)
Lemma tail_zeroed_integer_lmul
    (simd_data simd_maxsz : Z -> Z) (host_shl : Z -> Z -> Z)
    (t : etype) (DO_OP : Z -> Z -> bool)
    (OP : Z -> Z -> Z) (vd v0 vs1 vs2 : Z) (env : CPURISCVState)
    (desc : Z) :
  let vlmax :=
    uint32_t (uint32_t (Z.shiftl (simd_maxsz desc)
                          (vext_lmul simd_data desc))
              / (et_bits t / 8)) in
  let vm := vext_vm simd_data desc in
  std_width (et_bits t) ->
  0 <= vext_lmul simd_data desc ->
  0 <= vl env < vlmax -> vlmax <= 2 ^ 31 ->
  (forall j, vl env <= j < vlmax ->
     vext_elem_mask
       (vreg (GEN_VEXT_CMP_VV simd_data simd_maxsz host_shl t DO_OP
                vd v0 vs1 vs2 env desc)) vd j = 0)
  /\ ((vm = 0 ->
       forall i j, 0 <= i < vl env -> 0 <= j < vl env ->
                   v0 + i / 64 <> elem_word (et_bits t) vd j) ->
      forall j, vl env <= j \/ skipped vm (vreg env) v0 j = true ->
        raw_elem (et_bits t)
          (vreg (do_vext_vv simd_data vd v0 vs1 vs2 env desc
                   (OP_SSS t OP))) vd j
        = raw_elem (et_bits t) (vreg env) vd j).
Proof.
  intros vlmax vm Hw Hl Hvl Hmax.
  assert (Hu : uint32_t (vl env) = vl env) by (apply uint32_t_id; lia).
  split.
  - intros j Hj. unfold GEN_VEXT_CMP_VV, vext_maxsz. simpl vreg.
    replace (0 <=? vext_lmul simd_data desc) with true
      by (symmetry; now apply Z.leb_le).
    fold vlmax. rewrite Hu.
    apply tail_loop_zero; lia.
  - intros Hdis j Hj. unfold do_vext_vv. simpl vreg. fold vm. rewrite Hu.
    pose (val := fun (i : Z) (f : Z -> Z) =>
                   conv t (OP (conv t (ld_elem t f vs2 (int32_t i)))
                              (conv t (ld_elem t f vs1 (int32_t i))))).
    change (for_loop (Z.to_nat (vl env)) 0
              (fun i f => if skipped vm f v0 i then f
                          else OP_SSS t OP vd vs1 vs2 (int32_t i) f)
              (vreg env))
      with (for_loop (Z.to_nat (vl env)) 0 (step t vm v0 vd val) (vreg env)).
    assert (Hvl' : vl env <= 2 ^ 31) by lia.
    apply (loop_frame t vm v0 vd (vl env) val Hw Hvl' Hdis
             (Z.to_nat (vl env)) 0 (vreg env)); try lia.
    destruct Hj as [Hj | Hj]; [right; left; lia | right; right; exact Hj].
Qed.

(** Whatever bound a mask-producing helper computed, it writes no
    destination bit at or beyond both vl and that bound: with a
    fractional LMUL the bits from the host's bound up to VLMAX keep the
    values they had. *)
Lemma tail_kept_beyond_bound
    (simd_data simd_maxsz : Z -> Z) (host_shl : Z -> Z -> Z)
    (t : etype) (DO_OP : Z -> Z -> bool)
    (vd v0 vs1 vs2 : Z) (env : CPURISCVState) (desc : Z) :
  let vlmax := uint32_t (vext_maxsz simd_data simd_maxsz host_shl desc
                         / (et_bits t / 8)) in
  0 <= vl env < 2 ^ 31 -> vlmax <= 2 ^ 31 ->
  forall j, vl env <= j -> vlmax <= j ->
    vext_elem_mask
      (vreg (GEN_VEXT_CMP_VV simd_data simd_maxsz host_shl t DO_OP
               vd v0 vs1 vs2 env desc)) vd j
    = vext_elem_mask (vreg env) vd j.
Proof.
  intros vlmax Hvl Hmax j Hj Hjm.
  assert (Hu : uint32_t (vl env) = vl env) by (apply uint32_t_id; lia).
  unfold GEN_VEXT_CMP_VV. simpl vreg. fold vlmax. rewrite Hu.
  rewrite tail_loop_other by lia.
  apply (cmp_loop_other _ v0 vd
           (fun i f => b2z (DO_OP (ld_elem t f vs2 i) (ld_elem t f vs1 i))));
    lia.
Qed.

End VReg.

(** Concrete runs of the element loops: VLEN = 128 (two host words per
    register), SEW = 32, LMUL = 1, hence VLMAX = 4. *)
Module VRegExamples.
Import Elem VReg.

(** The descriptor carries its data field directly; [maxsz] is VLEN in
    bytes. *)
Definition data_id (desc : Z) : Z := desc.
Definition maxsz16 (desc : Z) : Z := 16.

(** A host whose shift of a [w]-bit operand takes its count modulo [w],
    as the shift instructions of x86-64 and AArch64 do. *)
Definition shl_mod (w x n : Z) : Z := Z.shiftl x (n mod w).
Definition shl_mod32 := shl_mod 32.

(** Word address of register [n]. *)
Definition vr (n : Z) : Z := 2 * n.

(** Two 32-bit elements packed into one host word. *)
Definition pack32 (lo hi : Z) : Z := lo + hi * 2 ^ 32.

(** v0 = mask 0b0101; v2 = [4,0,1,2]; v4 = [10,11,12,13];
    v5 = [77,78,79,80]; v1 = [91,92,93,94]. *)
Definition regs : Z -> Z :=
  fun k =>
    if k =? 0 then 5
    else if k =? 2 then pack32 91 92
    else if k =? 3 then pack32 93 94
    else if k =? 4 then pack32 4 0
    else if k =? 5 then pack32 1 2
    else if k =? 8 then pack32 10 11
    else if k =? 9 then pack32 12 13
    else if k =? 10 then pack32 77 78
    else if k =? 11 then pack32 79 80
    else 0.

Definition env_vl (n : Z) : CPURISCVState := mkEnv regs n 16 0 0 0.

(** desc = 1: unmasked (vm = 1), lmul = 1; desc = 0: masked. *)
Definition unmasked : Z := 1.
Definition masked : Z := 0.

(** desc = 15: unmasked, the LMUL field 111, i.e. LMUL = 1/2. *)
Definition unmasked_mf2 : Z := 15.

(** The vtype of SEW = 8, LMUL = 1/2: vsew = 000, vlmul = 111. *)
Definition e8mf2 : Z := 7.

Example vlmax_is_4 :
  Cfg.vext_get_vlmax Cfg.vtype_rv64 CfgExamples.cfg128 CfgExamples.e32m1 = 4.
Proof. reflexivity. Qed.

(** vadd.vv v1, v4, v5, v0.t with vl = 3: elements 0 and 2 are active,
    element 1 is masked off, element 3 is in the tail. *)
Example vadd_masked_run :
  let f := vreg (vadd_vv_w data_id (vr 1) (vr 0) (vr 5) (vr 4)
                   (env_vl 3) masked) in
  map (ld_elem i32 f (vr 1)) [0; 1; 2; 3] = [87; 92; 91; 94].
Proof. vm_compute. reflexivity. Qed.

(** vmseq.vv v1, v4, v4 with vl = 2: two bits set, tail bits 2 and 3
    cleared although v1 held other data there. *)
Example vmseq_run :
  let f := vreg (vmseq_vv_w data_id maxsz16 shl_mod32 (vr 1) (vr 0) (vr 4)
                   (vr 4) (env_vl 2) unmasked) in
  map (vext_elem_mask f (vr 1)) [0; 1; 2; 3] = [1; 1; 0; 0]
  /\ map (vext_elem_mask regs (vr 1)) [0; 1; 2; 3] = [1; 1; 0; 1].
Proof. vm_compute. split; reflexivity. Qed.

(** With LMUL = 1 the tail of a comparison is cleared and the tail of
    an addition kept. *)
Example tail_zeroed_integer_lmul_run :
  vext_elem_mask
    (vreg (vmseq_vv_w data_id maxsz16 shl_mod32 (vr 1) (vr 0) (vr 4) (vr 4)
             (env_vl 2) unmasked)) (vr 1) 3 = 0
  /\ raw_elem 32
       (vreg (vadd_vv_w data_id (vr 1) (vr 0) (vr 5) (vr 4)
                (env_vl 2) masked)) (vr 1) 1
     = raw_elem 32 regs (vr 1) 1.
Proof.
  split.
  - refine (proj1 (tail_zeroed_integer_lmul data_id maxsz16 shl_mod32 u32
                     DO_MSEQ (DO_ADD u32) (vr 1) (vr 0) (vr 4) (vr 4)
                     (env_vl 2) unmasked _ _ _ _) 3 _).
    + unfold std_width. simpl. lia.
    + vm_compute. discriminate.
    + vm_compute. split; [discriminate | reflexivity].
    + vm_compute. discriminate.
    + vm_compute. split; [discriminate | reflexivity].
  - refine (proj2 (tail_zeroed_integer_lmul data_id maxsz16 shl_mod32 i32
                     DO_MSEQ (DO_ADD i32) (vr 1) (vr 0) (vr 5) (vr 4)
                     (env_vl 2) masked _ _ _ _) _ 1 _).
    + unfold std_width. simpl. lia.
    + vm_compute. discriminate.
    + vm_compute. split; [discriminate | reflexivity].
    + vm_compute. discriminate.
    + apply (require_vm_apart 32 2 _ 1 2); try lia. reflexivity.
    + right. vm_compute. reflexivity.
Qed.

(** C5 at a fractional LMUL.  vsetvl accepts SEW = 8, LMUL = 1/2 on
    VLEN = 128 and grants the requested vl = 2 of VLMAX = 8.  For
    vmseq.vv v1, v4, v2 the descriptor then carries lmul = -1, and
    [vext_maxsz] shifts [simd_maxsz] = 16 left by -1.  On a host that
    takes the count modulo the operand width, be it 32 or 64 bits, the
    result (16 << 31 or 16 << 63) is 0 as a [uint32_t], the helper's
    bound is 0 and its tail loop never runs: bits 0 and 1 receive the
    results 0 and 1 of the comparison, and the tail bits 2..7 keep the
    old contents of v1 (bits 3, 4 and 6 stay 1) instead of being
    cleared. *)
Theorem vmseq_fractional_lmul_tail :
  let run (host_shl : Z -> Z -> Z) :=
    vreg (vmseq_vv_b data_id maxsz16 host_shl (vr 1) (vr 0) (vr 2) (vr 4)
            (env_vl 2) unmasked_mf2) in
  let r := Cfg.helper_vsetvl Cfg.vtype_rv64 CfgExamples.cfg128
             CfgExamples.env0 2 e8mf2 in
  fst r = 2 /\ vtype (snd r) = e8mf2
  /\ Cfg.vext_get_vlmax Cfg.vtype_rv64 CfgExamples.cfg128 e8mf2 = 8
  /\ vext_lmul data_id unmasked_mf2 = -1
  /\ vext_maxsz data_id maxsz16 (shl_mod 32) unmasked_mf2 = 0
  /\ vext_maxsz data_id maxsz16 (shl_mod 64) unmasked_mf2 = 0
  /\ map (vext_elem_mask regs (vr 1)) [0; 1; 2; 3; 4; 5; 6; 7]
     = [1; 1; 0; 1; 1; 0; 1; 0]
  /\ map (vext_elem_mask (run (shl_mod 32)) (vr 1)) [0; 1; 2; 3; 4; 5; 6; 7]
     = [0; 1; 0; 1; 1; 0; 1; 0]
  /\ map (vext_elem_mask (run (shl_mod 64)) (vr 1)) [0; 1; 2; 3; 4; 5; 6; 7]
     = [0; 1; 0; 1; 1; 0; 1; 0].
Proof. vm_compute. repeat split; reflexivity. Qed.

(** The same on any host: a bit at or beyond both vl and the bound the
    host's shift led to is not written. *)
Example vmseq_fractional_lmul_any_host (host_shl : Z -> Z -> Z) :
  uint32_t (host_shl 16 (-1)) <= 3 ->
  vext_elem_mask
    (vreg (vmseq_vv_b data_id maxsz16 host_shl (vr 1) (vr 0) (vr 2)
             (vr 4) (env_vl 2) unmasked_mf2)) (vr 1) 3 = 1.
Proof.
  intros H.
  assert (E : vext_maxsz data_id maxsz16 host_shl unmasked_mf2
              = uint32_t (host_shl 16 (-1))) by reflexivity.
  assert (Hb : 0 <= uint32_t (host_shl 16 (-1)))
    by (unfold uint32_t, Bits.wrap; apply Z.mod_pos_bound; reflexivity).
  unfold vmseq_vv_b.
  rewrite (tail_kept_beyond_bound data_id maxsz16 host_shl u8 DO_MSEQ).
  - reflexivity.
  - vm_compute. split; [discriminate | reflexivity].
  - rewrite E. change (et_bits u8 / 8) with 1. rewrite Z.div_1_r.
    rewrite uint32_t_id; [change (2 ^ 31) with 2147483648; lia |].
    change (2 ^ 32) with 4294967296; lia.
  - simpl. lia.
  - rewrite E. change (et_bits u8 / 8) with 1. rewrite Z.div_1_r.
    rewrite uint32_t_id; [lia |].
    change (2 ^ 32) with 4294967296; lia.
Qed.

(** C9 at VLMAX = 4: the index 4 held in vs1[0] is not below VLMAX, yet
    the helper compares it with [cfg.vlen] = 128 and fetches element 4
    counted from v4, which is element 0 of the next register v5. *)
Theorem vrgather_vv_beyond_vlmax :
  let f := vreg (vrgather_vv_w data_id CfgExamples.cfg128
                   (vr 1) (vr 0) (vr 2) (vr 4) (env_vl 4) unmasked) in
  ld_elem u32 regs (vr 2) 0 = 4
  /\ Cfg.vext_get_vlmax Cfg.vtype_rv64 CfgExamples.cfg128 CfgExamples.e32m1
     = 4
  /\ ld_elem u32 f (vr 1) 0 = 77
  /\ map (ld_elem u32 f (vr 1)) [1; 2; 3] = [10; 11; 12].
Proof. vm_compute. repeat split; reflexivity. Qed.

(** The scalar form truncates the index to 32 bits: x[rs1] = 2^32 is not
    below VLMAX, yet element 0 of the source is copied. *)
Example vrgather_vx_truncated_index :
  let f := vreg (vrgather_vx_w data_id CfgExamples.cfg128
                   (vr 1) (vr 0) (2 ^ 32) (vr 4) (env_vl 4) unmasked) in
  map (ld_elem u32 f (vr 1)) [0; 1; 2; 3] = [10; 10; 10; 10].
Proof. vm_compute. reflexivity. Qed.

End VRegExamples.

(* ===================================================================== *)
(** * The element memory engine *)
(* ===================================================================== *)

Module Mem.
Import Elem VReg.

Inductive MMUAccessType : Type := MMU_DATA_LOAD | MMU_DATA_STORE.

(** The CPU state together with guest memory (one byte per address). *)
Record machine : Type := mkMachine { env : CPURISCVState; ram : Z -> Z }.

(** A helper either returns, or raises a guest exception and unwinds
    ([cpu_loop_exit]); either way the machine is left as the helper's
    writes made it up to that point. *)
Inductive outcome (A : Type) : Type :=
| Done (a : A) (m : machine)
| Raise (m : machine).
Arguments Done {A} a m.
Arguments Raise {A} m.

Definition M (A : Type) : Type := machine -> outcome A.

Definition ret {A : Type} (a : A) : M A := fun m => Done a m.

Definition bind {A B : Type} (c : M A) (k : A -> M B) : M B :=
  fun m => match c m with
           | Done a m' => k a m'
           | Raise m' => Raise m'
           end.

Notation "x <- c ;; k" := (bind c (fun x => k))
  (at level 61, c at next level, right associativity).
Notation "c ;; k" := (bind c (fun _ => k))
  (at level 61, right associativity).

(** A [for] loop whose body may raise. *)
Fixpoint for_loopM (n : nat) (i : Z) (body : Z -> M unit) : M unit :=
  match n with
  | O => ret tt
  | S n' => body i ;; for_loopM n' (i + 1) body
  end.

(** [TARGET_PAGE_BITS] of the RISC-V target, and [TARGET_PAGE_MASK]. *)
Definition TARGET_PAGE_BITS : Z := 12.
Definition TARGET_PAGE_MASK : Z := - 2 ^ TARGET_PAGE_BITS.

(** [-(addr | TARGET_PAGE_MASK)]: the bytes left on the page of [addr]. *)
Definition page_left (addr : Z) : Z :=
  target_ulong (- (Z.lor addr TARGET_PAGE_MASK)).

(** An element access function, [vext_ldst_elem_fn]: given the address,
    the element index and the register, it works on the register file and
    guest memory, or faults ([None]) before writing anything. *)
Definition vext_ldst_elem_fn : Type :=
  Z -> Z -> Z -> (Z -> Z) * (Z -> Z) -> option ((Z -> Z) * (Z -> Z)).

(** The call [ldst_elem(env, addr, idx, vd, ra)]. *)
Definition call_elem (ldst_elem : vext_ldst_elem_fn) (addr idx vd : Z)
    : M unit :=
  fun m =>
    match ldst_elem addr idx vd (vreg (env m), ram m) with
    | Some (f, r) => Done tt (mkMachine (set_vreg f (env m)) r)
    | None => Raise m
    end.

Section Engine.

Variable simd_data : Z -> Z.
Variable simd_maxsz : Z -> Z.

(** What the host leaves for a shift by a negative count (see
    [vext_maxsz]); nothing is assumed of it. *)
Variable host_shl : Z -> Z -> Z.

(** The guest memory subsystem.  [probe_access] returns ([true]) or
    raises the fault of the access ([false]); [tlb_vaddr_to_host] finds a
    host pointer ([true]) or yields NULL; [page_check_range] returns a
    negative number when part of the range is not readable;
    [cpu_ld]/[cpu_st] are the [cpu_*_data_ra] accessors, [None] when the
    access faults. *)
Variable probe_access : Z -> Z -> MMUAccessType -> bool.
Variable tlb_vaddr_to_host : Z -> bool.
Variable page_check_range : Z -> Z -> Z.
Variable cpu_ld : etype -> Z -> (Z -> Z) -> option Z.
Variable cpu_st : etype -> Z -> Z -> (Z -> Z) -> option (Z -> Z).

(** Built for user-mode emulation ([CONFIG_USER_ONLY]) or for system
    emulation. *)
Variable CONFIG_USER_ONLY : bool.

Definition probe (addr len : Z) (access_type : MMUAccessType) : M unit :=
  fun m => if probe_access addr len access_type then Done tt m else Raise m.

(** [probe_pages]. *)
Definition probe_pages (addr len : Z) (access_type : MMUAccessType)
    : M unit :=
  let pagelen := page_left addr in
  let curlen := Z.min pagelen len in
  probe addr curlen access_type ;;
  if curlen <? len then
    let addr := target_ulong (addr + curlen) in
    let curlen := target_ulong (len - curlen) in
    probe addr curlen access_type
  else ret tt.

(** [GEN_VEXT_LD_ELEM]: [lde_b], [lde_h], [lde_w], [lde_d]. *)
Definition GEN_VEXT_LD_ELEM (t : etype) : vext_ldst_elem_fn :=
  fun addr idx vd s =>
    match cpu_ld t addr (snd s) with
    | Some x => Some (st_elem t (fst s) vd idx x, snd s)
    | None => None
    end.

(** [GEN_VEXT_ST_ELEM]: [ste_b], [ste_h], [ste_w], [ste_d]. *)
Definition GEN_VEXT_ST_ELEM (t : etype) : vext_ldst_elem_fn :=
  fun addr idx vd s =>
    let data := ld_elem t (fst s) vd idx in
    match cpu_st t addr data (snd s) with
    | Some r => Some (fst s, r)
    | None => None
    end.

Definition lde_b := GEN_VEXT_LD_ELEM i8.
Definition lde_h := GEN_VEXT_LD_ELEM i16.
Definition lde_w := GEN_VEXT_LD_ELEM i32.
Definition lde_d := GEN_VEXT_LD_ELEM i64.
Definition ste_b := GEN_VEXT_ST_ELEM i8.
Definition ste_h := GEN_VEXT_ST_ELEM i16.
Definition ste_w := GEN_VEXT_ST_ELEM i32.
Definition ste_d := GEN_VEXT_ST_ELEM i64.

(** [!vm && !vext_elem_mask(v0, i)] on the current register file. *)
Definition inactive (vm v0 i : Z) (m : machine) : bool :=
  skipped vm (vreg (env m)) v0 i.

(** The inner [while (k < nf)] loop of the access phase; [addr_of k] is
    the address of field [k]. *)
Definition fields (ldst_elem : vext_ldst_elem_fn) (nf vlmax vd i : Z)
    (addr_of : Z -> Z) : M unit :=
  for_loopM (Z.to_nat nf) 0
    (fun k => call_elem ldst_elem (addr_of k)
                (uint32_t (i + uint32_t (k * vlmax))) vd).

(** [vext_ldst_stride].  The loop bound [env->vl] is not written by an
    element access, so each loop runs [vl] times. *)
Definition vext_ldst_stride (vd v0 base stride desc vm : Z)
    (ldst_elem : vext_ldst_elem_fn) (esz : Z) (access_type : MMUAccessType)
    : M unit :=
  let nf := vext_nf simd_data desc in
  let vlmax :=
    uint32_t (vext_maxsz simd_data simd_maxsz host_shl desc / esz) in
  fun m =>
    ((* probe every access *)
     for_loopM (Z.to_nat (vl (env m))) 0
       (fun i m' =>
          if inactive vm v0 i m' then Done tt m'
          else probe_pages (target_ulong (base + stride * i))
                 (uint32_t (nf * esz)) access_type m') ;;
     (* do real access *)
     for_loopM (Z.to_nat (vl (env m))) 0
       (fun i m' =>
          if inactive vm v0 i m' then Done tt m'
          else fields ldst_elem nf vlmax vd i
                 (fun k => target_ulong (base + stride * i
                                         + uint32_t (k * esz))) m')) m.

(** [vext_ldst_us]: unmasked unit-stride load and store. *)
Definition vext_ldst_us (vd base desc : Z) (ldst_elem : vext_ldst_elem_fn)
    (esz : Z) (access_type : MMUAccessType) : M unit :=
  let nf := vext_nf simd_data desc in
  let vlmax :=
    uint32_t (vext_maxsz simd_data simd_maxsz host_shl desc / esz) in
  fun m =>
    ((* probe every access *)
     probe_pages base (target_ulong (vl (env m) * nf * esz)) access_type ;;
     (* load bytes from guest memory *)
     for_loopM (Z.to_nat (vl (env m))) 0
       (fun i =>
          fields ldst_elem nf vlmax vd i
            (fun k => target_ulong
                        (base + uint32_t (uint32_t (i * nf + k) * esz))))) m.

(** [GEN_VEXT_GET_INDEX_ADDR]: [idx_b], [idx_h], [idx_w], [idx_d]. *)
Definition GEN_VEXT_GET_INDEX_ADDR (t : etype) (base idx vs2 : Z)
    (f : Z -> Z) : Z :=
  target_ulong (base + ld_elem t f vs2 idx).

Definition idx_b := GEN_VEXT_GET_INDEX_ADDR i8.
Definition idx_h := GEN_VEXT_GET_INDEX_ADDR i16.
Definition idx_w := GEN_VEXT_GET_INDEX_ADDR i32.
Definition idx_d := GEN_VEXT_GET_INDEX_ADDR i64.

(** [vext_ldst_index]. *)
Definition vext_ldst_index (vd v0 base vs2 desc : Z)
    (get_index_addr : Z -> Z -> Z -> (Z -> Z) -> Z)
    (ldst_elem : vext_ldst_elem_fn) (esz : Z) (access_type : MMUAccessType)
    : M unit :=
  let nf := vext_nf simd_data desc in
  let vm := vext_vm simd_data desc in
  let vlmax :=
    uint32_t (vext_maxsz simd_data simd_maxsz host_shl desc / esz) in
  fun m =>
    ((* probe every access *)
     for_loopM (Z.to_nat (vl (env m))) 0
       (fun i m' =>
          if inactive vm v0 i m' then Done tt m'
          else probe_pages (get_index_addr base i vs2 (vreg (env m')))
                 (uint32_t (nf * esz)) access_type m') ;;
     (* load bytes from guest memory *)
     for_loopM (Z.to_nat (vl (env m))) 0
       (fun i m' =>
          if inactive vm v0 i m' then Done tt m'
          else fields ldst_elem nf vlmax vd i
                 (fun k => target_ulong
                             (get_index_addr base i vs2 (vreg (env m'))
                              + uint32_t (k * esz))) m')) m.

(** The helpers generated by [GEN_VEXT_LD_STRIDE], [GEN_VEXT_ST_STRIDE],
    [GEN_VEXT_LD_US], [GEN_VEXT_ST_US], [GEN_VEXT_LD_INDEX] and
    [GEN_VEXT_ST_INDEX] for the element type [t]. *)
Definition GEN_VEXT_LD_STRIDE (t : etype) (vd v0 base stride desc : Z) :=
  vext_ldst_stride vd v0 base stride desc (vext_vm simd_data desc)
    (GEN_VEXT_LD_ELEM t) (et_bits t / 8) MMU_DATA_LOAD.

Definition GEN_VEXT_ST_STRIDE (t : etype) (vd v0 base stride desc : Z) :=
  vext_ldst_stride vd v0 base stride desc (vext_vm simd_data desc)
    (GEN_VEXT_ST_ELEM t) (et_bits t / 8) MMU_DATA_STORE.

Definition GEN_VEXT_LD_US_mask (t : etype) (vd v0 base desc : Z) :=
  let stride := uint32_t (vext_nf simd_data desc * (et_bits t / 8)) in
  vext_ldst_stride vd v0 base stride desc 0
    (GEN_VEXT_LD_ELEM t) (et_bits t / 8) MMU_DATA_LOAD.

Definition GEN_VEXT_LD_US (t : etype) (vd v0 base desc : Z) :=
  vext_ldst_us vd base desc (GEN_VEXT_LD_ELEM t) (et_bits t / 8)
    MMU_DATA_LOAD.

Definition GEN_VEXT_ST_US_mask (t : etype) (vd v0 base desc : Z) :=
  let stride := uint32_t (vext_nf simd_data desc * (et_bits t / 8)) in
  vext_ldst_stride vd v0 base stride desc 0
    (GEN_VEXT_ST_ELEM t) (et_bits t / 8) MMU_DATA_STORE.

Definition GEN_VEXT_ST_US (t : etype) (vd v0 base desc : Z) :=
  vext_ldst_us vd base desc (GEN_VEXT_ST_ELEM t) (et_bits t / 8)
    MMU_DATA_STORE.

Definition GEN_VEXT_LD_INDEX (t ti : etype) (vd v0 base vs2 desc : Z) :=
  vext_ldst_index vd v0 base vs2 desc (GEN_VEXT_GET_INDEX_ADDR ti)
    (GEN_VEXT_LD_ELEM t) (et_bits t / 8) MMU_DATA_LOAD.

Definition GEN_VEXT_ST_INDEX (t ti : etype) (vd v0 base vs2 desc : Z) :=
  vext_ldst_index vd v0 base vs2 desc (GEN_VEXT_GET_INDEX_ADDR ti)
    (GEN_VEXT_ST_ELEM t) (et_bits t / 8) MMU_DATA_STORE.

(** ** Fault-only-first *)

(** How the probe of one element of [vext_ldff] ends: go on to the next
    element, or [vl = i; goto ProbeSuccess]. *)
Inductive ff_step : Type := ff_next | ff_stop.

(** The [while (remain > 0)] loop probing element [i >= 1].  [remain]
    shrinks by at least one byte per turn, so [fuel] = [remain] turns
    always suffice; with no fuel left [remain > 0] is false. *)
Fixpoint ff_while (fuel : nat) (nfmsz addr remain : Z) : M ff_step :=
  match fuel with
  | O => ret ff_next
  | S fuel' =>
      if 0 <? remain then
        let offset := page_left addr in
        let host := tlb_vaddr_to_host addr in
        r <- (if host then
                if CONFIG_USER_ONLY then
                  if page_check_range addr nfmsz <? 0 then ret ff_stop
                  else ret ff_next
                else
                  probe_pages addr nfmsz MMU_DATA_LOAD ;; ret ff_next
              else ret ff_stop) ;;
        match r with
        | ff_stop => ret ff_stop
        | ff_next =>
            if remain <=? offset then ret ff_next
            else ff_while fuel' nfmsz (target_ulong (addr + offset))
                   (target_ulong (remain - offset))
        end
      else ret ff_next
  end.

(** The probe loop of [vext_ldff]; it returns the local [vl]: 0 when
    every probe passed, [i] when the probe of element [i] stopped it. *)
Fixpoint ff_probe (n : nat) (i : Z) (v0 base nf vm msz : Z) : M Z :=
  match n with
  | O => ret 0
  | S n' =>
      fun m =>
        if inactive vm v0 i m then ff_probe n' (i + 1) v0 base nf vm msz m
        else
          let addr := target_ulong (base + uint32_t (uint32_t (nf * i) * msz)) in
          let nfmsz := uint32_t (nf * msz) in
          if i =? 0 then
            (probe_pages addr nfmsz MMU_DATA_LOAD ;;
             ff_probe n' (i + 1) v0 base nf vm msz) m
          else
            (r <- ff_while (Z.to_nat nfmsz) nfmsz addr nfmsz ;;
             match r with
             | ff_stop => ret i
             | ff_next => ff_probe n' (i + 1) v0 base nf vm msz
             end) m
  end.

Definition store_vl (v : Z) : M unit :=
  fun m => Done tt (mkMachine (set_vl v (env m)) (ram m)).

(** The access loop of [vext_ldff], run once [env->vl] is settled. *)
Definition ff_access (vd v0 base nf vm vlmax : Z)
    (ldst_elem : vext_ldst_elem_fn) (msz : Z) : M unit :=
  fun m =>
    for_loopM (Z.to_nat (vl (env m))) 0
      (fun i m' =>
         if inactive vm v0 i m' then Done tt m'
         else fields ldst_elem nf vlmax vd i
                (fun k => target_ulong
                            (base + uint32_t (uint32_t (i * nf + k) * msz)))
                m') m.

(** [vext_ldff]. *)
Definition vext_ldff (vd v0 base desc : Z) (ldst_elem : vext_ldst_elem_fn)
    (esz msz : Z) : M unit :=
  let nf := vext_nf simd_data desc in
  let vm := vext_vm simd_data desc in
  let vlmax :=
    uint32_t (vext_maxsz simd_data simd_maxsz host_shl desc / esz) in
  fun m =>
    ((* probe every access *)
     vl' <- ff_probe (Z.to_nat (vl (env m))) 0 v0 base nf vm msz ;;
     (* ProbeSuccess: *)
     (if negb (vl' =? 0) then store_vl vl' else ret tt) ;;
     (* load bytes from guest memory *)
     ff_access vd v0 base nf vm vlmax ldst_elem msz) m.

(** [GEN_VEXT_LDFF] for memory type [mt] and element type [t]. *)
Definition GEN_VEXT_LDFF (mt t : etype) (vd v0 base desc : Z) : M unit :=
  vext_ldff vd v0 base desc (GEN_VEXT_LD_ELEM t)
    (et_bits t / 8) (et_bits mt / 8).

(** ** Vocabulary of the statements *)

(** A computation that only checks: it returns or raises, and leaves the
    machine as it found it. *)
Definition checks (c : M unit) : Prop :=
  forall m, c m = Done tt m \/ c m = Raise m.

(** The probe of element [i] in the strided and indexed helpers. *)
Definition probe_elem (vm v0 : Z) (addr_of : Z -> machine -> Z) (len : Z)
    (a : MMUAccessType) (i : Z) : M unit :=
  fun m' =>
    if inactive vm v0 i m' then Done tt m'
    else probe_pages (addr_of i m') len a m'.

(** The address of element [i] and the probe applied to it when
    [i >= 1]. *)
Definition ff_addr (base nf msz i : Z) : Z :=
  target_ulong (base + uint32_t (uint32_t (nf * i) * msz)).

Definition ff_elem (base nf msz i : Z) : M ff_step :=
  ff_while (Z.to_nat (uint32_t (nf * msz))) (uint32_t (nf * msz))
    (ff_addr base nf msz i) (uint32_t (nf * msz)).

(** Element [i] does not stop the probe loop: it is inactive, or its
    probe passes. *)
Definition ff_passes (v0 base nf vm msz i : Z) (m : machine) : Prop :=
  inactive vm v0 i m = true
  \/ (i = 0 /\ probe_pages (ff_addr base nf msz 0) (uint32_t (nf * msz))
                 MMU_DATA_LOAD m = Done tt m)
  \/ (i <> 0 /\ ff_elem base nf msz i m = Done ff_next m).

(** ** The probe phase *)

Lemma checks_probe (addr len : Z) (a : MMUAccessType) :
  checks (probe addr len a).
Proof. intros m. unfold probe. destruct (probe_access addr len a); auto. Qed.

Lemma checks_bind (c : M unit) (k : M unit) :
  checks c -> checks k -> checks (c ;; k).
Proof.
  intros Hc Hk m. unfold bind.
  destruct (Hc m) as [-> | ->]; [apply Hk | now right].
Qed.

Lemma checks_ret : checks (ret tt).
Proof. intros m. now left. Qed.

Lemma checks_probe_pages (addr len : Z) (a : MMUAccessType) :
  checks (probe_pages addr len a).
Proof.
  unfold probe_pages. apply checks_bind; [apply checks_probe |].
  destruct (_ <? _); [apply checks_probe | apply checks_ret].
Qed.

(** A raise of [probe_pages] leaves the machine untouched. *)
Lemma probe_pages_raise (addr len : Z) (a : MMUAccessType) (m m' : machine) :
  probe_pages addr len a m = Raise m' -> probe_pages addr len a m = Raise m.
Proof.
  intros H. destruct (checks_probe_pages addr len a m) as [E | E].
  - rewrite E in H. discriminate.
  - exact E.
Qed.

Lemma for_loopM_checks (n : nat) :
  forall (i0 : Z) (body : Z -> M unit),
    (forall i, checks (body i)) -> checks (for_loopM n i0 body).
Proof.
  induction n as [| n IH]; intros i0 body Hb; simpl for_loopM.
  - apply checks_ret.
  - apply checks_bind; [apply Hb | now apply IH].
Qed.

(** A loop of checks raises as soon as one of its checks does. *)
Lemma for_loopM_raise (n : nat) :
  forall (i0 : Z) (body : Z -> M unit) (m : machine) (i : Z),
    (forall j, checks (body j)) ->
    i0 <= i < i0 + Z.of_nat n -> body i m = Raise m ->
    for_loopM n i0 body m = Raise m.
Proof.
  induction n as [| n IH]; intros i0 body m i Hb Hi Hr; simpl for_loopM.
  - lia.
  - unfold bind at 1. destruct (Hb i0 m) as [E | E]; rewrite E.
    + apply (IH (i0 + 1) body m i Hb); [| exact Hr].
      destruct (Z.eq_dec i i0) as [-> | Hne]; [congruence | lia].
    + reflexivity.
Qed.

(** A loop of checks that all pass returns. *)
Lemma for_loopM_pass (n : nat) :
  forall (i0 : Z) (body : Z -> M unit) (m : machine),
    (forall i, i0 <= i < i0 + Z.of_nat n -> body i m = Done tt m) ->
    for_loopM n i0 body m = Done tt m.
Proof.
  induction n as [| n IH]; intros i0 body m Hb; simpl for_loopM.
  - reflexivity.
  - unfold bind at 1. rewrite Hb by lia. apply IH. intros i Hi. apply Hb. lia.
Qed.

Lemma checks_probe_elem vm v0 addr_of len a i :
  checks (probe_elem vm v0 addr_of len a i).
Proof.
  intros m. unfold probe_elem.
  destruct (inactive vm v0 i m); [now left | apply checks_probe_pages].
Qed.

Lemma vext_ldst_stride_probed
    (vd v0 base stride desc vm : Z) (ldst_elem : vext_ldst_elem_fn)
    (esz : Z) (a : MMUAccessType) (m m' : machine) (i : Z) :
  0 <= i < vl (env m) ->
  inactive vm v0 i m = false ->
  probe_pages (target_ulong (base + stride * i))
    (uint32_t (vext_nf simd_data desc * esz)) a m = Raise m' ->
  vext_ldst_stride vd v0 base stride desc vm ldst_elem esz a m = Raise m.
Proof.
  intros Hi Hact Hp. apply probe_pages_raise in Hp.
  unfold vext_ldst_stride. unfold bind at 1.
  set (body := fun (i : Z) (m' : machine) => if inactive vm v0 i m' then _ else _).
  rewrite (for_loopM_raise _ 0 body m i); [reflexivity | | lia |].
  - intros j. apply (checks_probe_elem vm v0
                       (fun i _ => target_ulong (base + stride * i))).
  - unfold body. now rewrite Hact.
Qed.

Lemma vext_ldst_us_probed
    (vd base desc : Z) (ldst_elem : vext_ldst_elem_fn)
    (esz : Z) (a : MMUAccessType) (m m' : machine) :
  probe_pages base
    (target_ulong (vl (env m) * vext_nf simd_data desc * esz)) a m
  = Raise m' ->
  vext_ldst_us vd base desc ldst_elem esz a m = Raise m.
Proof.
  intros Hp. apply probe_pages_raise in Hp.
  unfold vext_ldst_us. unfold bind at 1. now rewrite Hp.
Qed.

Lemma vext_ldst_index_probed
    (vd v0 base vs2 desc : Z)
    (get_index_addr : Z -> Z -> Z -> (Z -> Z) -> Z)
    (ldst_elem : vext_ldst_elem_fn)
    (esz : Z) (a : MMUAccessType) (m m' : machine) (i : Z) :
  0 <= i < vl (env m) ->
  inactive (vext_vm simd_data desc) v0 i m = false ->
  probe_pages (get_index_addr base i vs2 (vreg (env m)))
    (uint32_t (vext_nf simd_data desc * esz)) a m = Raise m' ->
  vext_ldst_index vd v0 base vs2 desc get_index_addr ldst_elem esz a m
  = Raise m.
Proof.
  intros Hi Hact Hp. apply probe_pages_raise in Hp.
  unfold vext_ldst_index. unfold bind at 1.
  set (body := fun (i : Z) (m' : machine) =>
                 if inactive _ v0 i m' then Done tt m' else probe_pages _ _ _ _).
  rewrite (for_loopM_raise _ 0 body m i); [reflexivity | | lia |].
  - intros j. apply (checks_probe_elem (vext_vm simd_data desc) v0
                       (fun i m' => get_index_addr base i vs2 (vreg (env m')))).
  - unfold body. now rewrite Hact.
Qed.

(** When every probe passes, the strided helper is its access loop. *)
Lemma vext_ldst_stride_passed
    (vd v0 base stride desc vm : Z) (ldst_elem : vext_ldst_elem_fn)
    (esz : Z) (a : MMUAccessType) (m : machine) :
  (forall i, 0 <= i < vl (env m) -> inactive vm v0 i m = false ->
     probe_pages (target_ulong (base + stride * i))
       (uint32_t (vext_nf simd_data desc * esz)) a m = Done tt m) ->
  vext_ldst_stride vd v0 base stride desc vm ldst_elem esz a m
  = for_loopM (Z.to_nat (vl (env m))) 0
      (fun i m' =>
         if inactive vm v0 i m' then Done tt m'
         else fields ldst_elem (vext_nf simd_data desc)
                (uint32_t (vext_maxsz simd_data simd_maxsz host_shl desc
                           / esz)) vd i
                (fun k => target_ulong (base + stride * i
                                        + uint32_t (k * esz))) m') m.
Proof.
  intros Hp. unfold vext_ldst_stride. unfold bind at 1.
  rewrite for_loopM_pass; [reflexivity |].
  intros i Hi. destruct (inactive vm v0 i m) eqn:E; [reflexivity |].
  apply Hp; [lia | exact E].
Qed.

(** C1. In the strided, unit-stride and indexed load/store helpers the
    accessibility probes of all active elements come before any element
    access: if the probe of an active element (for the unmasked
    unit-stride form, the probe of the whole range) raises a memory
    fault, the helper raises with the machine -- vector register file and
    guest memory -- exactly as it was on entry. *)
Theorem probe_before_access
    (vd v0 base stride vs2 desc vm : Z)
    (get_index_addr : Z -> Z -> Z -> (Z -> Z) -> Z)
    (ldst_elem : vext_ldst_elem_fn)
    (esz : Z) (a : MMUAccessType) (m : machine) :
  let nf := vext_nf simd_data desc in
  (forall i m',
      0 <= i < vl (env m) -> inactive vm v0 i m = false ->
      probe_pages (target_ulong (base + stride * i)) (uint32_t (nf * esz)) a m
      = Raise m' ->
      vext_ldst_stride vd v0 base stride desc vm ldst_elem esz a m = Raise m)
  /\ (forall m',
         probe_pages base (target_ulong (vl (env m) * nf * esz)) a m
         = Raise m' ->
         vext_ldst_us vd base desc ldst_elem esz a m = Raise m)
  /\ (forall i m',
         0 <= i < vl (env m) ->
         inactive (vext_vm simd_data desc) v0 i m = false ->
         probe_pages (get_index_addr base i vs2 (vreg (env m)))
           (uint32_t (nf * esz)) a m = Raise m' ->
         vext_ldst_index vd v0 base vs2 desc get_index_addr ldst_elem esz a m
         = Raise m).
Proof.
  intros nf. repeat split.
  - intros i m'. apply vext_ldst_stride_probed.
  - intros m'. apply vext_ldst_us_probed.
  - intros i m'. apply vext_ldst_index_probed.
Qed.

(** ** The fault-only-first probe *)

Lemma lor_page_mask (addr : Z) :
  Z.lor addr TARGET_PAGE_MASK
  = addr mod 2 ^ TARGET_PAGE_BITS - 2 ^ TARGET_PAGE_BITS.
Proof.
  unfold TARGET_PAGE_MASK. set (k := TARGET_PAGE_BITS).
  assert (Hk : 0 <= k) by (unfold k, TARGET_PAGE_BITS; lia).
  assert (Hland : Z.land (addr mod 2 ^ k) (- 2 ^ k) = 0).
  { apply Z.bits_inj'. intros i Hi.
    rewrite Z.land_spec, testbit_neg_pow2, Z.testbit_0_l by lia.
    destruct (Z.leb_spec k i) as [Hhi | Hlo].
    - rewrite Z.mod_pow2_bits_high by lia. reflexivity.
    - apply andb_false_r. }
  replace (addr mod 2 ^ k - 2 ^ k) with (addr mod 2 ^ k + - 2 ^ k) by lia.
  rewrite (Z.add_nocarry_lxor _ _ Hland), (Z.lxor_lor _ _ Hland).
  apply Z.bits_inj'. intros i Hi.
  rewrite !Z.lor_spec, testbit_neg_pow2 by lia.
  destruct (Z.leb_spec k i) as [Hhi | Hlo].
  - now rewrite !orb_true_r.
  - rewrite Z.mod_pow2_bits_low by lia. reflexivity.
Qed.

(** Between 1 and a page of bytes are left on the page of any address. *)
Lemma page_left_bounds (addr : Z) :
  0 < page_left addr <= 2 ^ TARGET_PAGE_BITS.
Proof.
  unfold page_left. rewrite lor_page_mask.
  pose proof (Z.mod_pos_bound addr (2 ^ TARGET_PAGE_BITS) ltac:(reflexivity)).
  unfold target_ulong, TARGET_LONG_BITS.
  rewrite wrap_small.
  - lia.
  - change (2 ^ TARGET_PAGE_BITS) with 4096 in *.
    change (2 ^ 64) with 18446744073709551616. lia.
Qed.

(** [probe_pages] probes every page of its range.  When [probe_access]
    answers for the page of the address it is given, and the range is at
    most a page long, a passing [probe_pages] has found the page of every
    byte of the range accessible. *)
Lemma probe_pages_covers (page_ok : Z -> MMUAccessType -> bool)
    (addr len : Z) (a : MMUAccessType) (m : machine) :
  (forall x l, probe_access x l a = page_ok (x / 2 ^ TARGET_PAGE_BITS) a) ->
  0 <= addr -> addr + len < 2 ^ 64 -> len <= 2 ^ TARGET_PAGE_BITS ->
  probe_pages addr len a m = Done tt m ->
  forall x, addr <= x < addr + len ->
            page_ok (x / 2 ^ TARGET_PAGE_BITS) a = true.
Proof.
  intros Hpa Haddr Hend Hlen Hp x Hx.
  unfold probe_pages, probe, bind, ret in Hp.
  rewrite !Hpa in Hp.
  assert (Hleft : page_left addr
                  = 2 ^ TARGET_PAGE_BITS - addr mod 2 ^ TARGET_PAGE_BITS).
  { unfold page_left. rewrite lor_page_mask.
    pose proof (Z.mod_pos_bound addr (2 ^ TARGET_PAGE_BITS) ltac:(reflexivity)).
    unfold target_ulong, TARGET_LONG_BITS. rewrite wrap_small; [lia |].
    change (2 ^ TARGET_PAGE_BITS) with 4096 in *.
    change (2 ^ 64) with 18446744073709551616. lia. }
  rewrite Hleft in Hp.
  change (2 ^ TARGET_PAGE_BITS) with 4096 in *.
  change (2 ^ 64) with 18446744073709551616 in *.
  destruct (page_ok (addr / 4096) a) eqn:E0; [| discriminate].
  destruct (Z.eq_dec (x / 4096) (addr / 4096)) as [-> | Hne]; [exact E0 |].
  assert (Hx1 : x / 4096 = addr / 4096 + 1)
    by (Z.div_mod_to_equations; lia).
  assert (Hcross : Z.min (4096 - addr mod 4096) len = 4096 - addr mod 4096)
    by (apply Z.min_l; Z.div_mod_to_equations; lia).
  rewrite Hcross in Hp.
  replace (4096 - addr mod 4096 <? len) with true in Hp
    by (symmetry; apply Z.ltb_lt; Z.div_mod_to_equations; lia).
  unfold target_ulong, TARGET_LONG_BITS in Hp.
  rewrite (wrap_small 64 (addr + (4096 - addr mod 4096))) in Hp
    by (change (2 ^ 64) with 18446744073709551616;
        Z.div_mod_to_equations; lia).
  replace ((addr + (4096 - addr mod 4096)) / 4096) with (addr / 4096 + 1) in Hp
    by (Z.div_mod_to_equations; lia).
  rewrite Hx1.
  destruct (page_ok (addr / 4096 + 1) a); [reflexivity | discriminate].
Qed.

(** [ff_while] does not depend on its fuel once there is as much of it
    as bytes remain: the loop always reaches its own exit. *)
Lemma ff_while_fuel (fuel : nat) :
  forall (fuel' : nat) (nfmsz addr remain : Z) (m : machine),
    remain < 2 ^ 64 ->
    (Z.to_nat remain <= fuel)%nat -> (Z.to_nat remain <= fuel')%nat ->
    ff_while fuel nfmsz addr remain m = ff_while fuel' nfmsz addr remain m.
Proof.
  induction fuel as [| fuel IH]; intros fuel' nfmsz addr remain m Hr Hf Hf'.
  - assert (remain <= 0) by lia.
    destruct fuel'; simpl; [reflexivity |].
    replace (0 <? remain) with false by (symmetry; apply Z.ltb_ge; lia).
    reflexivity.
  - destruct fuel' as [| fuel'].
    + assert (remain <= 0) by lia. simpl.
      replace (0 <? remain) with false by (symmetry; apply Z.ltb_ge; lia).
      reflexivity.
    + simpl. destruct (Z.ltb_spec 0 remain) as [Hpos | Hneg]; [| reflexivity].
      unfold bind at 1 3.
      destruct (_ m) as [[|] m1 | m1]; try reflexivity.
      destruct (Z.leb_spec remain (page_left addr)) as [Hle | Hgt];
        [reflexivity |].
      pose proof (page_left_bounds addr) as Hb.
      assert (E : target_ulong (remain - page_left addr)
                  = remain - page_left addr).
      { unfold target_ulong, TARGET_LONG_BITS. apply wrap_small. lia. }
      apply IH; rewrite E; lia.
Qed.

Lemma ff_probe_step (n : nat) (i v0 base nf vm msz : Z) (m : machine) :
  ff_passes v0 base nf vm msz i m ->
  ff_probe (S n) i v0 base nf vm msz m
  = ff_probe n (i + 1) v0 base nf vm msz m.
Proof.
  intros [Hin | [[-> Hp] | [Hne Hp]]]; simpl ff_probe.
  - now rewrite Hin.
  - destruct (inactive vm v0 0 m); [reflexivity |].
    simpl. unfold bind. unfold ff_addr in Hp. now rewrite Hp.
  - destruct (inactive vm v0 i m); [reflexivity |].
    replace (i =? 0) with false by (symmetry; now apply Z.eqb_neq).
    unfold bind. unfold ff_elem, ff_addr in Hp. now rewrite Hp.
Qed.

(** Every element passes: the local [vl] stays 0. *)
Lemma ff_probe_pass (n : nat) :
  forall (i0 v0 base nf vm msz : Z) (m : machine),
    (forall i, i0 <= i < i0 + Z.of_nat n ->
               ff_passes v0 base nf vm msz i m) ->
    ff_probe n i0 v0 base nf vm msz m = Done 0 m.
Proof.
  induction n as [| n IH]; intros i0 v0 base nf vm msz m Hp.
  - reflexivity.
  - rewrite ff_probe_step by (apply Hp; lia).
    apply IH. intros i Hi. apply Hp. lia.
Qed.

(** The first element that fails, if it is not element 0, ends the probe
    loop with the local [vl] set to its index. *)
Lemma ff_probe_stop (n : nat) :
  forall (i0 v0 base nf vm msz : Z) (m : machine) (k : Z),
    i0 <= k < i0 + Z.of_nat n -> k <> 0 ->
    (forall i, i0 <= i < k -> ff_passes v0 base nf vm msz i m) ->
    inactive vm v0 k m = false ->
    ff_elem base nf msz k m = Done ff_stop m ->
    ff_probe n i0 v0 base nf vm msz m = Done k m.
Proof.
  induction n as [| n IH]; intros i0 v0 base nf vm msz m k Hk Hk0 Hp Hact Hs.
  - lia.
  - destruct (Z.eq_dec i0 k) as [-> | Hne].
    + simpl ff_probe. rewrite Hact.
      replace (k =? 0) with false by (symmetry; now apply Z.eqb_neq).
      unfold bind. unfold ff_elem, ff_addr in Hs. now rewrite Hs.
    + rewrite ff_probe_step by (apply Hp; lia).
      apply IH; auto; try lia. intros i Hi. apply Hp. lia.
Qed.

(** A failing probe of an active element 0 raises. *)
Lemma ff_probe_first (n : nat) (v0 base nf vm msz : Z) (m m' : machine) :
  inactive vm v0 0 m = false ->
  probe_pages (ff_addr base nf msz 0) (uint32_t (nf * msz)) MMU_DATA_LOAD m
  = Raise m' ->
  ff_probe (S n) 0 v0 base nf vm msz m = Raise m.
Proof.
  intros Hact Hp. apply probe_pages_raise in Hp.
  simpl ff_probe. rewrite Hact. simpl. unfold bind.
  unfold ff_addr in Hp. now rewrite Hp.
Qed.

(** What [vext_ldff] does, by the outcome of its probes: a fault on the
    active element 0 is raised with the machine untouched; a stop at an
    element [k >= 1] stores [k] into [vl] and runs the access loop over
    the elements below [k]; with no failure [vl] is kept and the access
    loop runs over all [vl] elements. *)
Lemma vext_ldff_cases (vd v0 base desc : Z) (ldst_elem : vext_ldst_elem_fn)
    (esz msz : Z) (m : machine) :
  let nf := vext_nf simd_data desc in
  let vm := vext_vm simd_data desc in
  let vlmax :=
    uint32_t (vext_maxsz simd_data simd_maxsz host_shl desc / esz) in
  (forall m', 0 < vl (env m) -> inactive vm v0 0 m = false ->
     probe_pages (ff_addr base nf msz 0) (uint32_t (nf * msz))
       MMU_DATA_LOAD m = Raise m' ->
     vext_ldff vd v0 base desc ldst_elem esz msz m = Raise m)
  /\ (forall k, 1 <= k < vl (env m) ->
        (forall i, 0 <= i < k -> ff_passes v0 base nf vm msz i m) ->
        inactive vm v0 k m = false ->
        ff_elem base nf msz k m = Done ff_stop m ->
        vext_ldff vd v0 base desc ldst_elem esz msz m
        = ff_access vd v0 base nf vm vlmax ldst_elem msz
            (mkMachine (set_vl k (env m)) (ram m)))
  /\ ((forall i, 0 <= i < vl (env m) -> ff_passes v0 base nf vm msz i m) ->
      vext_ldff vd v0 base desc ldst_elem esz msz m
      = ff_access vd v0 base nf vm vlmax ldst_elem msz m).
Proof.
  intros nf vm vlmax. unfold vext_ldff. fold nf vm vlmax.
  repeat split.
  - intros m' Hvl Hact Hp. unfold bind at 1.
    destruct (Z.to_nat (vl (env m))) as [| n] eqn:E; [lia |].
    now rewrite (ff_probe_first n v0 base nf vm msz m m').
  - intros k Hk Hp Hact Hs. unfold bind at 1.
    rewrite (ff_probe_stop _ 0 v0 base nf vm msz m k); auto; try lia.
    replace (k =? 0) with false by (symmetry; apply Z.eqb_neq; lia).
    reflexivity.
  - intros Hp. unfold bind at 1.
    rewrite ff_probe_pass; [reflexivity |].
    intros i Hi. apply Hp. lia.
Qed.

Hypothesis user_only : CONFIG_USER_ONLY = true.

(** In the user-mode build the probe of an element after the first
    never raises: it passes or it stops the probe loop. *)
Lemma ff_while_user_only (fuel : nat) :
  forall (nfmsz addr remain : Z) (m : machine),
    ff_while fuel nfmsz addr remain m = Done ff_next m
    \/ ff_while fuel nfmsz addr remain m = Done ff_stop m.
Proof.
  induction fuel as [| fuel IH]; intros nfmsz addr remain m; simpl.
  - now left.
  - destruct (0 <? remain); [| now left].
    rewrite user_only. unfold bind, ret.
    destruct (tlb_vaddr_to_host addr); [| now right].
    destruct (page_check_range addr nfmsz <? 0); [now right |].
    destruct (remain <=? page_left addr); [now left | apply IH].
Qed.

(** In the user-mode build, then, any failure of the probe of an active
    element [k >= 1] whose predecessors passed truncates [vl] to [k] and
    goes on to load the elements below [k]; nothing is raised by the
    probes. *)
Lemma vext_ldff_user_only (vd v0 base desc : Z)
    (ldst_elem : vext_ldst_elem_fn) (esz msz : Z) (m : machine) (k : Z) :
  let nf := vext_nf simd_data desc in
  let vm := vext_vm simd_data desc in
  let vlmax :=
    uint32_t (vext_maxsz simd_data simd_maxsz host_shl desc / esz) in
  1 <= k < vl (env m) ->
  (forall i, 0 <= i < k -> ff_passes v0 base nf vm msz i m) ->
  inactive vm v0 k m = false ->
  ff_elem base nf msz k m <> Done ff_next m ->
  vext_ldff vd v0 base desc ldst_elem esz msz m
  = ff_access vd v0 base nf vm vlmax ldst_elem msz
      (mkMachine (set_vl k (env m)) (ram m)).
Proof.
  intros nf vm vlmax Hk Hp Hact Hfail.
  apply (proj1 (proj2 (vext_ldff_cases vd v0 base desc ldst_elem esz msz m)));
    auto.
  unfold ff_elem in *.
  destruct (ff_while_user_only (Z.to_nat (uint32_t (nf * msz)))
              (uint32_t (nf * msz)) (ff_addr base nf msz k)
              (uint32_t (nf * msz)) m) as [E | E]; [contradiction | exact E].
Qed.

End Engine.

End Mem.

(** Concrete runs of the memory engine on a guest with one mapped page,
    [0x1000, 0x2000), VLEN = 128 and 32-bit elements. *)
Module MemExamples.
Import Elem VReg Mem VRegExamples.

Definition page_of (addr : Z) : Z := Z.shiftr addr TARGET_PAGE_BITS.
Definition mapped (page : Z) : bool := page =? 1.

(** Probing an address succeeds when its page is mapped. *)
Definition probe_access (addr len : Z) (a : MMUAccessType) : bool :=
  mapped (page_of addr).
Definition tlb_vaddr_to_host (addr : Z) : bool := mapped (page_of addr).
Definition page_check_range (addr len : Z) : Z :=
  if mapped (page_of addr) && mapped (page_of (addr + len - 1)) then 0
  else -1.

Fixpoint load_le (n : nat) (addr : Z) (r : Z -> Z) : Z :=
  match n with
  | O => 0
  | S n' => r addr + 256 * load_le n' (addr + 1) r
  end.

Fixpoint store_le (n : nat) (addr x : Z) (r : Z -> Z) : Z -> Z :=
  match n with
  | O => r
  | S n' => store_le n' (addr + 1) (x / 256) (upd r addr (x mod 256))
  end.

Definition bytes_ok (t : etype) (addr : Z) : bool :=
  mapped (page_of addr) && mapped (page_of (addr + et_bits t / 8 - 1)).

Definition cpu_ld (t : etype) (addr : Z) (r : Z -> Z) : option Z :=
  if bytes_ok t addr
  then Some (conv t (load_le (Z.to_nat (et_bits t / 8)) addr r))
  else None.

Definition cpu_st (t : etype) (addr x : Z) (r : Z -> Z) : option (Z -> Z) :=
  if bytes_ok t addr
  then Some (store_le (Z.to_nat (et_bits t / 8)) addr
               (wrap (et_bits t) x) r)
  else None.

(** Guest memory: the 32-bit word at address [a] reads [a]. *)
Definition ram0 (addr : Z) : Z :=
  let w := 4 * (addr / 4) in (w / 256 ^ (addr mod 4)) mod 256.

Definition m0 (n : Z) : machine := mkMachine (env_vl n) ram0.

(** The element values of register [v] as 32-bit unsigned numbers. *)
Definition elems (m : machine) (v : Z) : list Z :=
  map (ld_elem u32 (vreg (env m)) v) [0; 1; 2; 3].

Definition vl_of {A : Type} (o : outcome A) : Z :=
  match o with Done _ m => vl (env m) | Raise m => vl (env m) end.

Definition machine_of {A : Type} (o : outcome A) : machine :=
  match o with Done _ m => m | Raise m => m end.

Definition raised {A : Type} (o : outcome A) : bool :=
  match o with Done _ _ => false | Raise _ => true end.

(** vle32.v v8, (0x1ff8) with vl = 4: elements 2 and 3 lie on the
    unmapped page 2. *)
Definition vle32_cross : outcome unit :=
  GEN_VEXT_LD_US data_id maxsz16 shl_mod32 probe_access cpu_ld i32
    (vr 8) (vr 0) 8184 (1 + 128) (m0 4).

(** A two-field segment fault-only-first load (nf = 2, 32-bit fields) at
    0x1ff4 with vl = 4.  Segment 0 occupies 0x1ff4..0x1ffb; segment 1
    occupies 0x1ffc..0x2003 and so straddles into the unmapped page. *)
Definition ldff_straddle (user_only : bool) : outcome unit :=
  GEN_VEXT_LDFF data_id maxsz16 shl_mod32 probe_access tlb_vaddr_to_host
    page_check_range cpu_ld user_only i32 i32
    (vr 8) (vr 0) 8180 (1 + 2 * 128) (m0 4).

Example vle32_cross_faults_clean :
  raised vle32_cross = true
  /\ elems (machine_of vle32_cross) (vr 8) = [0; 0; 0; 0].
Proof. vm_compute. split; reflexivity. Qed.

(** The same load entirely on the mapped page. *)
Example vle32_run :
  let o := GEN_VEXT_LD_US data_id maxsz16 shl_mod32 probe_access cpu_ld i32
             (vr 8) (vr 0) 8176 (1 + 128) (m0 4) in
  raised o = false /\ elems (machine_of o) (vr 8) = [8176; 8180; 8184; 8188].
Proof. vm_compute. split; reflexivity. Qed.

(** A memory system whose probes pass although the loads of page 2 fault
    shows what the probe phase is for: without it the load stops half
    way with v8 partly written. *)
Example unprobed_partial_write :
  let o := GEN_VEXT_LD_US data_id maxsz16 shl_mod32 (fun _ _ _ => true) cpu_ld i32
             (vr 8) (vr 0) 8184 (1 + 128) (m0 4) in
  raised o = true /\ elems (machine_of o) (vr 8) = [8184; 8188; 0; 0].
Proof. vm_compute. split; reflexivity. Qed.

(** Fault-only-first load of 8 halfwords at 0x1ffa in system emulation:
    elements 0-2 are mapped, element 3 is wholly on the unmapped page;
    vl becomes 3, elements 0-2 are loaded and nothing is raised. *)
Example ldff_whole_element_unmapped :
  let o := GEN_VEXT_LDFF data_id maxsz16 shl_mod32 probe_access tlb_vaddr_to_host
             page_check_range cpu_ld false i16 i16
             (vr 8) (vr 0) 8186 (1 + 128) (m0 8) in
  raised o = false /\ vl_of o = 3
  /\ map (ld_elem u16 (vreg (env (machine_of o))) (vr 8)) [0; 1; 2; 3; 4]
     = [0; 8188; 0; 0; 0].
Proof. vm_compute. repeat split; reflexivity. Qed.

(** vse32.v v4, (0x1ff8) with vl = 4 across the page boundary: the store
    raises and guest memory is as before. *)
Example vse32_cross_faults_clean :
  let o := GEN_VEXT_ST_US data_id maxsz16 shl_mod32 probe_access cpu_st i32
             (vr 4) (vr 0) 8184 (1 + 128) (m0 4) in
  raised o = true
  /\ map (ram (machine_of o)) [8184; 8185; 8188] = map ram0 [8184; 8185; 8188].
Proof. vm_compute. split; reflexivity. Qed.

(** The same store on the mapped page writes v4 = [10,11,12,13]. *)
Example vse32_run :
  let o := GEN_VEXT_ST_US data_id maxsz16 shl_mod32 probe_access cpu_st i32
             (vr 4) (vr 0) 8176 (1 + 128) (m0 4) in
  raised o = false
  /\ map (ram (machine_of o)) [8176; 8180; 8184; 8188; 8189] = [10; 11; 12; 13; 0].
Proof. vm_compute. split; reflexivity. Qed.

(** C2 in system emulation: the probe of element 1 finds its first page
    mapped and calls [probe_pages] on the whole segment, which raises the
    fault of the second page; vl is still 4 and nothing was loaded. *)
Theorem vext_ldff_softmmu_straddle :
  raised (ldff_straddle false) = true
  /\ vl_of (ldff_straddle false) = 4
  /\ elems (machine_of (ldff_straddle false)) (vr 8) = [0; 0; 0; 0].
Proof. vm_compute. repeat split; reflexivity. Qed.

(** The user-mode build on the same input does what the claim says:
    vl = 1, segment 0 loaded (field 0 into v8, field 1 into v9). *)
Example vext_ldff_user_straddle :
  raised (ldff_straddle true) = false
  /\ vl_of (ldff_straddle true) = 1
  /\ elems (machine_of (ldff_straddle true)) (vr 8) = [8180; 0; 0; 0]
  /\ elems (machine_of (ldff_straddle true)) (vr 9) = [8184; 0; 0; 0].
Proof. vm_compute. repeat split; reflexivity. Qed.

(** Unit-stride load of 4 elements whose element 2 is unmapped: the
    helper raises before any register write. *)
Lemma probe_before_access_witness :
  GEN_VEXT_LD_US data_id maxsz16 shl_mod32 probe_access cpu_ld i32
    (vr 8) (vr 0) 8184 (1 + 128) (m0 4) = Raise (m0 4).
Proof.
  refine (proj1 (proj2 (probe_before_access data_id maxsz16 shl_mod32 probe_access
                          (vr 8) (vr 0) 8184 0 0 (1 + 128) 1
                          (fun _ _ _ _ => 0) (GEN_VEXT_LD_ELEM cpu_ld i32)
                          (et_bits i32 / 8) MMU_DATA_LOAD (m0 4)))
            (m0 4) _).
  vm_compute. reflexivity.
Defined.

End MemExamples.

(* ===================================================================== *)
(** * Fixed-point arithmetic: saturating subtract, averaging, scaling *)
(* ===================================================================== *)

Module Fixed.
Import Elem.

Local Notation "x <- e ;; k" := (Elem.bind e (fun x => k))
  (at level 61, e at next level, right associativity).

Definition int64_t := swrap 64.

(** [ssubu8] .. [ssubu64] at width [w]. *)
Definition ssubu (w : Z) (env : CPURISCVState) (a b : Z)
    : Z * CPURISCVState :=
  let res := wrap w (a - b) in
  if a <? res then (0, set_vxsat 1 env) else (res, env).

(** [ssub8] .. [ssub64] at width [w]. *)
Definition ssub (w : Z) (env : CPURISCVState) (a b : Z)
    : Z * CPURISCVState :=
  let res := swrap w (a - b) in
  if negb (Z.land (Z.land (Z.lxor res a) (Z.lxor a b)) (INT_MIN w) =? 0)
  then ((if 0 <? a then INT_MAX w else INT_MIN w), set_vxsat 1 env)
  else (res, env).

Definition ssubu8 := ssubu 8.
Definition ssubu16 := ssubu 16.
Definition ssubu32 := ssubu 32.
Definition ssubu64 := ssubu 64.
Definition ssub8 := ssub 8.
Definition ssub16 := ssub 16.
Definition ssub32 := ssub 32.
Definition ssub64 := ssub 64.

(** [aadd32]: the sum is formed in [int64_t]. *)
Definition aadd32 (env : CPURISCVState) (vxrm a b : Z) : option Z :=
  let res := int64_t (a + b) in
  round <- get_round vxrm (uint64_t res) 1 ;;
  Some (int32_t (int64_t (Z.shiftr res 1 + round))).

(** [aadd64]. *)
Definition aadd64 (env : CPURISCVState) (vxrm a b : Z) : option Z :=
  let res := int64_t (a + b) in
  round <- get_round vxrm (uint64_t res) 1 ;;
  let over := Z.land (Z.land (Z.lxor res a) (Z.lxor res b)) (INT_MIN 64) in
  Some (int64_t (Z.lxor (Z.shiftr res 1) over + round)).

(** [asub32]. *)
Definition asub32 (env : CPURISCVState) (vxrm a b : Z) : option Z :=
  let res := int64_t (a - b) in
  round <- get_round vxrm (uint64_t res) 1 ;;
  Some (int32_t (int64_t (Z.shiftr res 1 + round))).

(** [asub64]. *)
Definition asub64 (env : CPURISCVState) (vxrm a b : Z) : option Z :=
  let res := int64_t (a - b) in
  round <- get_round vxrm (uint64_t res) 1 ;;
  let over := Z.land (Z.land (Z.lxor res a) (Z.lxor a b)) (INT_MIN 64) in
  Some (int64_t (Z.lxor (Z.shiftr res 1) over + round)).

(** The element functions [do_vaadd_vv_b] .. [do_vaadd_vv_d] generated by
    [OPIVV2_RM] with [OP_SSS_B] .. [OP_SSS_D]: widths 8, 16 and 32 go
    through [aadd32], width 64 through [aadd64]; the result is converted
    to the destination element type. *)
Definition vaadd (w : Z) (env : CPURISCVState) (vxrm s2 s1 : Z) : option Z :=
  option_map (conv (ET true w))
    (if w =? 64 then aadd64 env vxrm s2 s1 else aadd32 env vxrm s2 s1).

Definition vasub (w : Z) (env : CPURISCVState) (vxrm s2 s1 : Z) : option Z :=
  option_map (conv (ET true w))
    (if w =? 64 then asub64 env vxrm s2 s1 else asub32 env vxrm s2 s1).

(** [vsmul8], [vsmul16], [vsmul32] at width [w]: the product is formed
    in the type of twice the width. *)
Definition vsmul (w : Z) (env : CPURISCVState) (vxrm a b : Z)
    : option (Z * CPURISCVState) :=
  let res := swrap (2 * w) (a * b) in
  round <- get_round vxrm (uint64_t res) (w - 1) ;;
  let res := swrap (2 * w) (Z.shiftr res (w - 1) + round) in
  if INT_MAX w <? res then Some (INT_MAX w, set_vxsat 1 env)
  else if res <? INT_MIN w then Some (INT_MIN w, set_vxsat 1 env)
  else Some (swrap w res, env).

Definition vsmul8 := vsmul 8.
Definition vsmul16 := vsmul 16.
Definition vsmul32 := vsmul 32.

(** [vssrl8] .. [vssrl64] at width [w]; the shift amount is
    [b & (w - 1)], held in a [uint8_t]. *)
Definition vssrl (w : Z) (env : CPURISCVState) (vxrm a b : Z) : option Z :=
  let shift := uint8_t (Z.land b (w - 1)) in
  round <- get_round vxrm (uint64_t a) shift ;;
  Some (wrap w (Z.shiftr a shift + round)).

Definition vssrl8 := vssrl 8.
Definition vssrl16 := vssrl 16.
Definition vssrl32 := vssrl 32.
Definition vssrl64 := vssrl 64.

(** [vssra8] .. [vssra64] at width [w]. *)
Definition vssra (w : Z) (env : CPURISCVState) (vxrm a b : Z) : option Z :=
  let shift := uint8_t (Z.land b (w - 1)) in
  round <- get_round vxrm (uint64_t a) shift ;;
  Some (swrap w (Z.shiftr a shift + round)).

Definition vssra8 := vssra 8.
Definition vssra16 := vssra 16.
Definition vssra32 := vssra 32.
Definition vssra64 := vssra 64.

(** [vnclip8], [vnclip16], [vnclip32] at destination width [w]; the
    source [a] has twice the width. *)
Definition vnclip (w : Z) (env : CPURISCVState) (vxrm a b : Z)
    : option (Z * CPURISCVState) :=
  let shift := uint8_t (Z.land b (2 * w - 1)) in
  round <- get_round vxrm (uint64_t a) shift ;;
  let res := swrap (2 * w) (Z.shiftr a shift + round) in
  if INT_MAX w <? res then Some (INT_MAX w, set_vxsat 1 env)
  else if res <? INT_MIN w then Some (INT_MIN w, set_vxsat 1 env)
  else Some (swrap w res, env).

Definition vnclip8 := vnclip 8.
Definition vnclip16 := vnclip 16.
Definition vnclip32 := vnclip 32.

(** [vnclipu8], [vnclipu16], [vnclipu32].  The local [res] is a
    [uint16_t], a [uint32_t] and, in [vnclipu32], an [int64_t]. *)
Definition vnclipu_res (w : Z) : Z -> Z :=
  if w =? 32 then int64_t else wrap (2 * w).

Definition vnclipu (w : Z) (env : CPURISCVState) (vxrm a b : Z)
    : option (Z * CPURISCVState) :=
  let shift := uint8_t (Z.land b (2 * w - 1)) in
  round <- get_round vxrm (uint64_t a) shift ;;
  let res := vnclipu_res w (Z.shiftr a shift + round) in
  if UINT_MAX w <? res then Some (UINT_MAX w, set_vxsat 1 env)
  else Some (wrap w res, env).

Definition vnclipu8 := vnclipu 8.
Definition vnclipu16 := vnclipu 16.
Definition vnclipu32 := vnclipu 32.

(** The widths that have a type of twice the width. *)
Definition narrow_width (w : Z) : Prop := w = 8 \/ w = 16 \/ w = 32.

(** ** Saturating subtract *)

Lemma ssubu_spec (w : Z) (env : CPURISCVState) (a b : Z) :
  0 <= w -> 0 <= a < 2 ^ w -> 0 <= b < 2 ^ w ->
  ssubu w env a b
  = if a <? b then (0, set_vxsat 1 env) else (a - b, env).
Proof.
  intros Hw Ha Hb. unfold ssubu.
  destruct (Z.ltb_spec a b) as [Hlt | Hge].
  - assert (E : wrap w (a - b) = a - b + 2 ^ w).
    { unfold wrap. rewrite <- (Z.mod_add (a - b) 1 (2 ^ w)) by lia.
      rewrite Z.mod_small; lia. }
    rewrite E.
    replace (a <? a - b + 2 ^ w) with true by (symmetry; apply Z.ltb_lt; lia).
    reflexivity.
  - rewrite wrap_small by lia.
    replace (a <? a - b) with false by (symmetry; apply Z.ltb_ge; lia).
    reflexivity.
Qed.

Lemma ssub_spec (w : Z) (env : CPURISCVState) (a b : Z) :
  0 < w ->
  - 2 ^ (w - 1) <= a < 2 ^ (w - 1) ->
  - 2 ^ (w - 1) <= b < 2 ^ (w - 1) ->
  ssub w env a b
  = if INT_MAX w <? a - b
    then ((if a =? 0 then INT_MIN w else INT_MAX w), set_vxsat 1 env)
    else if a - b <? INT_MIN w then (INT_MIN w, set_vxsat 1 env)
    else (a - b, env).
Proof.
  intros Hw Ha Hb.
  pose proof (pow2_pos (w - 1) ltac:(lia)) as Hp.
  pose proof (pow2_half w Hw) as Hh.
  unfold ssub.
  assert (Hres : swrap w (a - b)
                 = if INT_MAX w <? a - b then a - b - 2 ^ w
                   else if a - b <? INT_MIN w then a - b + 2 ^ w
                   else a - b).
  { unfold INT_MAX, INT_MIN.
    destruct (Z.ltb_spec (2 ^ (w - 1) - 1) (a - b)) as [Ho | Ho].
    - apply swrap_over; lia.
    - destruct (Z.ltb_spec (a - b) (- 2 ^ (w - 1))) as [Hu | Hu].
      + apply swrap_under; lia.
      + apply swrap_small; lia. }
  assert (Hr : - 2 ^ (w - 1) <= swrap w (a - b) < 2 ^ (w - 1)).
  { rewrite Hres. unfold INT_MAX, INT_MIN.
    destruct (Z.ltb_spec (2 ^ (w - 1) - 1) (a - b));
      [| destruct (Z.ltb_spec (a - b) (- 2 ^ (w - 1)))]; lia. }
  rewrite (Z.lxor_comm (swrap w (a - b)) a).
  rewrite (sadd_sign_test w a _ b Hw Ha Hr Hb).
  rewrite Hres. unfold INT_MAX, INT_MIN in *.
  destruct (Z.ltb_spec (2 ^ (w - 1) - 1) (a - b)) as [Ho | Ho].
  - replace (a - b - 2 ^ w <? 0) with true by (symmetry; apply Z.ltb_lt; lia).
    replace (a <? 0) with false by (symmetry; apply Z.ltb_ge; lia).
    replace (b <? 0) with true by (symmetry; apply Z.ltb_lt; lia).
    simpl. replace (- 2 ^ (w - 1) =? 0) with false
      by (symmetry; apply Z.eqb_neq; lia).
    simpl. destruct (Z.eqb_spec a 0) as [-> | Hnz]; [reflexivity |].
    replace (0 <? a) with true by (symmetry; apply Z.ltb_lt; lia).
    reflexivity.
  - destruct (Z.ltb_spec (a - b) (- 2 ^ (w - 1))) as [Hu | Hu].
    + replace (a - b + 2 ^ w <? 0) with false
        by (symmetry; apply Z.ltb_ge; lia).
      replace (a <? 0) with true by (symmetry; apply Z.ltb_lt; lia).
      replace (b <? 0) with false by (symmetry; apply Z.ltb_ge; lia).
      simpl. replace (- 2 ^ (w - 1) =? 0) with false
        by (symmetry; apply Z.eqb_neq; lia).
      simpl. replace (0 <? a) with false by (symmetry; apply Z.ltb_ge; lia).
      reflexivity.
    + replace (xorb (a <? 0) (a - b <? 0) && xorb (a <? 0) (b <? 0))
        with false; [reflexivity |].
      destruct (Z.ltb_spec (a - b) 0), (Z.ltb_spec a 0), (Z.ltb_spec b 0);
        simpl; lia || reflexivity.
Qed.

(** X1. Saturating subtract at each element width.  The unsigned
    difference is exact when a >= b and is clamped to 0 with vxsat = 1
    otherwise.  The signed difference is exact when it fits the element
    type; below the minimum it is clamped to the minimum with vxsat = 1;
    above the maximum vxsat is set and the result is the maximum, except
    for a = 0 (then b is the minimum), where the saturation test
    [a > 0] selects the minimum. *)
Theorem saturating_sub (w : Z) (env : CPURISCVState) (a b : Z) :
  std_width w ->
  (in_range (ET false w) a -> in_range (ET false w) b ->
   ssubu w env a b
   = if a <? b then (0, set_vxsat 1 env) else (a - b, env))
  /\ (in_range (ET true w) a -> in_range (ET true w) b ->
      ssub w env a b
      = if INT_MAX w <? a - b
        then ((if a =? 0 then INT_MIN w else INT_MAX w), set_vxsat 1 env)
        else if a - b <? INT_MIN w then (INT_MIN w, set_vxsat 1 env)
        else (a - b, env))
  /\ ssub w env 0 (INT_MIN w) = (INT_MIN w, set_vxsat 1 env).
Proof.
  intros Hw. pose proof (std_width_pos w Hw) as Hpos.
  split; [| split].
  - intros Ha Hb. apply in_range_unsigned in Ha, Hb.
    apply ssubu_spec; lia.
  - intros Ha Hb. apply in_range_signed in Ha, Hb.
    now apply ssub_spec.
  - width_cases Hw; reflexivity.
Qed.

(** ** The rounding increment as a number *)

Lemma wrap_swrap (w x : Z) : wrap w (swrap w x) = wrap w x.
Proof.
  unfold wrap, swrap.
  rewrite Zminus_mod_idemp_l. f_equal. lia.
Qed.

Lemma mod_mod_pow2 (v k n : Z) :
  0 <= k <= n -> (v mod 2 ^ n) mod 2 ^ k = v mod 2 ^ k.
Proof.
  intros H. apply Z.mod_mod_divide.
  exists (2 ^ (n - k)). rewrite <- Z.pow_add_r by lia. f_equal. lia.
Qed.

(** [get_round] looks at the low 64 bits of its argument only. *)
Lemma get_round_congr (vxrm v v' shift : Z) :
  0 <= shift <= 63 -> v mod 2 ^ 64 = v' mod 2 ^ 64 ->
  get_round vxrm v shift = get_round vxrm v' shift.
Proof.
  intros Hs E.
  destruct (Z.eq_dec shift 0) as [-> | Hnz]; [reflexivity |].
  assert (Hb : forall i, 0 <= i < 64 -> Z.testbit v i = Z.testbit v' i).
  { intros i Hi.
    rewrite <- (Z.mod_pow2_bits_low v 64 i), <- (Z.mod_pow2_bits_low v' 64 i)
      by lia.
    now rewrite E. }
  assert (Hm : forall k, 0 <= k <= 64 -> v mod 2 ^ k = v' mod 2 ^ k).
  { intros k Hk.
    rewrite <- (mod_mod_pow2 v k 64), <- (mod_mod_pow2 v' k 64) by lia.
    now rewrite E. }
  rewrite !get_round_in_word by lia. unfold bit.
  rewrite (Hb (shift - 1)), (Hb shift), (Hm (shift - 1)), (Hm shift) by lia.
  reflexivity.
Qed.

Lemma get_round_uint64 (vxrm v shift : Z) :
  0 <= shift <= 63 ->
  get_round vxrm (uint64_t v) shift = get_round vxrm v shift.
Proof.
  intros Hs. apply get_round_congr; [exact Hs |].
  unfold uint64_t, wrap. apply Z.mod_mod. lia.
Qed.

Lemma get_round_int64 (vxrm v shift : Z) :
  0 <= shift <= 63 ->
  get_round vxrm (uint64_t (int64_t v)) shift = get_round vxrm v shift.
Proof.
  intros Hs. apply get_round_congr; [exact Hs |].
  unfold uint64_t, int64_t. rewrite wrap_swrap. unfold wrap.
  apply Z.mod_mod. lia.
Qed.

(** Bit [s - 1] tells whether the [s] low bits reach one half. *)
Lemma testbit_half (v s : Z) :
  1 <= s -> Z.testbit v (s - 1) = (2 ^ (s - 1) <=? v mod 2 ^ s).
Proof.
  intros Hs.
  pose proof (pow2_pos (s - 1) ltac:(lia)) as Hp.
  pose proof (pow2_half s ltac:(lia)) as Hh.
  pose proof (Z.mod_pos_bound v (2 ^ s) ltac:(lia)) as Hl.
  rewrite <- (Z.mod_pow2_bits_low v s (s - 1)) by lia.
  set (l := v mod 2 ^ s) in *.
  destruct (Z.leb_spec (2 ^ (s - 1)) l) as [Hge | Hlt].
  - apply Z.testbit_true; [lia |].
    replace (l / 2 ^ (s - 1)) with 1; [reflexivity |].
    apply Z.div_unique with (r := l - 2 ^ (s - 1)); lia.
  - destruct (Z.eq_dec l 0) as [E | Hnz]; [rewrite E; apply Z.testbit_0_l |].
    apply Z.bits_above_log2; [lia |].
    apply Z.log2_lt_pow2; lia.
Qed.

(** The increment is 0 or 1, and 0 on a value whose discarded bits are
    all zero. *)
Lemma get_round_bounds (vxrm v shift : Z) :
  1 <= shift <= 63 ->
  exists r, get_round vxrm v shift = Some r
            /\ 0 <= r <= 1 /\ (v mod 2 ^ shift = 0 -> r = 0).
Proof.
  intros Hs. rewrite get_round_in_word by exact Hs.
  eexists. split; [reflexivity |].
  pose proof (pow2_pos (shift - 1) ltac:(lia)) as Hp.
  unfold bit. rewrite (testbit_half v shift) by lia.
  destruct (vxrm =? 0); [| destruct (vxrm =? 1); [| destruct (vxrm =? 3)]].
  - destruct (Z.leb_spec (2 ^ (shift - 1)) (v mod 2 ^ shift));
      simpl; split; lia.
  - destruct (Z.leb_spec (2 ^ (shift - 1)) (v mod 2 ^ shift)).
    + destruct (negb (v mod 2 ^ (shift - 1) =? 0) || Z.testbit v shift);
        simpl; split; lia.
    + simpl; split; lia.
  - destruct (Z.eqb_spec (v mod 2 ^ shift) 0) as [E | E].
    + rewrite andb_false_r. simpl. split; lia.
    + destruct (Z.testbit v shift); simpl; split; lia.
  - split; lia.
Qed.

(** X2. The rounding increment as a number.  For a shift amount in
    [1, 63] the increment r is 0 or 1 and is 0 when the discarded bits
    are all zero.  In the two round-to-nearest modes (0 and 1) the
    rounded quotient (v >> shift) + r is a nearest one: it differs from
    v / 2^shift by at most one half; in mode 1 a tie gives an even
    quotient.  In mode 3 an inexact quotient is made odd. *)
Theorem get_round_nearest (vxrm v shift : Z) :
  1 <= shift <= 63 ->
  exists r,
    get_round vxrm v shift = Some r
    /\ 0 <= r <= 1
    /\ (v mod 2 ^ shift = 0 -> r = 0)
    /\ (vxrm = 0 \/ vxrm = 1 ->
        2 * Z.abs (v - (Z.shiftr v shift + r) * 2 ^ shift) <= 2 ^ shift)
    /\ (vxrm = 1 -> 2 * (v mod 2 ^ shift) = 2 ^ shift ->
        Z.even (Z.shiftr v shift + r) = true)
    /\ (vxrm = 3 -> v mod 2 ^ shift <> 0 ->
        Z.odd (Z.shiftr v shift + r) = true).
Proof.
  intros Hs. rewrite get_round_in_word by exact Hs.
  eexists. split; [reflexivity |].
  pose proof (pow2_pos (shift - 1) ltac:(lia)) as Hp.
  pose proof (pow2_half shift ltac:(lia)) as Hh.
  pose proof (Z.mod_pos_bound v (2 ^ shift) ltac:(lia)) as Hl.
  assert (Hv : v = 2 ^ shift * Z.shiftr v shift + v mod 2 ^ shift)
    by (rewrite Z.shiftr_div_pow2 by lia; apply Z.div_mod; lia).
  assert (Hodd : Z.testbit v shift = Z.odd (Z.shiftr v shift))
    by (rewrite <- Z.bit0_odd, Z.shiftr_spec by lia; f_equal; lia).
  assert (Hlow : v mod 2 ^ (shift - 1)
                 = (v mod 2 ^ shift) mod 2 ^ (shift - 1))
    by (symmetry; apply mod_mod_pow2; lia).
  unfold bit. rewrite testbit_half by lia. rewrite Hodd, Hlow.
  set (q := Z.shiftr v shift) in *. set (l := v mod 2 ^ shift) in *.
  set (P := 2 ^ shift) in *. set (H := 2 ^ (shift - 1)) in *.
  assert (Hlm : l mod H = if H <=? l then l - H else l).
  { destruct (Z.leb_spec H l).
    - rewrite <- (Z.mod_add l (-1) H) by lia. apply Z.mod_small. lia.
    - apply Z.mod_small. lia. }
  assert (He1 : Z.even (q + 1) = Z.odd q)
    by (rewrite Z.add_1_r; apply Z.even_succ).
  assert (Ho1 : Z.odd (q + 1) = negb (Z.odd q))
    by (rewrite Z.add_1_r, Z.odd_succ; symmetry; apply Z.negb_odd).
  assert (He0 : Z.even (q + 0) = negb (Z.odd q))
    by (rewrite Z.add_0_r; symmetry; apply Z.negb_odd).
  assert (Ho0 : Z.odd (q + 0) = Z.odd q) by (now rewrite Z.add_0_r).
  rewrite Hlm.
  destruct (Z.eqb_spec vxrm 0) as [V0 | V0];
    [| destruct (Z.eqb_spec vxrm 1) as [V1 | V1];
       [| destruct (Z.eqb_spec vxrm 3) as [V3 | V3]]].
  - destruct (Z.leb_spec H l); cbn [b2z Z.b2z andb orb negb]; repeat split; intros; lia.
  - destruct (Z.leb_spec H l) as [Hge | Hlt].
    + destruct (Z.eqb_spec (l - H) 0) as [E | E];
        destruct (Z.odd q) eqn:Eo; cbn [b2z Z.b2z andb orb negb]; repeat split; intros;
        try rewrite He1; try rewrite He0; try rewrite Eo;
        try reflexivity; lia.
    + cbn [b2z Z.b2z andb orb negb]. repeat split; intros; lia.
  - destruct (Z.eqb_spec l 0) as [E | E];
      destruct (Z.odd q) eqn:Eo; cbn [b2z Z.b2z andb orb negb]; repeat split; intros;
      try rewrite Ho1; try rewrite Ho0; try rewrite Eo;
      try reflexivity; lia.
  - repeat split; intros; lia.
Qed.

(** ** Averaging add and subtract *)

Lemma swrap_idem (w x : Z) : 0 <= w -> swrap w (swrap w x) = swrap w x.
Proof.
  intros Hw. unfold swrap.
  replace ((x + 2 ^ (w - 1)) mod 2 ^ w - 2 ^ (w - 1) + 2 ^ (w - 1))
    with ((x + 2 ^ (w - 1)) mod 2 ^ w) by lia.
  rewrite Z.mod_mod by (pose proof (pow2_pos w Hw); lia). reflexivity.
Qed.

(** Flipping the sign bit of a signed [w]-bit number. *)
Lemma lxor_sign (w x : Z) :
  0 < w -> - 2 ^ (w - 1) <= x < 2 ^ (w - 1) ->
  Z.lxor x (INT_MIN w)
  = if x <? 0 then x + 2 ^ (w - 1) else x - 2 ^ (w - 1).
Proof.
  intros Hw Hx. unfold INT_MIN.
  pose proof (pow2_pos (w - 1) ltac:(lia)) as Hp.
  apply Z.bits_inj'. intros i Hi.
  rewrite Z.lxor_spec, testbit_neg_pow2 by lia.
  destruct (Z.leb_spec (w - 1) i) as [Hhi | Hlo].
  - rewrite (testbit_signed_high w x i) by lia.
    destruct (Z.ltb_spec x 0) as [Hn | Hn].
    + rewrite (testbit_signed_high w _ i) by lia.
      symmetry. apply Z.ltb_ge. lia.
    + rewrite (testbit_signed_high w _ i) by lia.
      symmetry. apply Z.ltb_lt. lia.
  - rewrite xorb_false_r.
    rewrite <- (Z.mod_pow2_bits_low x (w - 1) i) by lia.
    destruct (Z.ltb_spec x 0) as [Hn | Hn].
    + rewrite <- (Z.mod_pow2_bits_low (x + 2 ^ (w - 1)) (w - 1) i) by lia.
      replace ((x + 2 ^ (w - 1)) mod 2 ^ (w - 1)) with (x mod 2 ^ (w - 1));
        [reflexivity |].
      rewrite <- (Z.mod_add x 1 (2 ^ (w - 1))) by lia. f_equal; lia.
    + rewrite <- (Z.mod_pow2_bits_low (x - 2 ^ (w - 1)) (w - 1) i) by lia.
      replace ((x - 2 ^ (w - 1)) mod 2 ^ (w - 1)) with (x mod 2 ^ (w - 1));
        [reflexivity |].
      rewrite <- (Z.mod_add x (-1) (2 ^ (w - 1))) by lia. f_equal; lia.
Qed.

(** The overflow tests of [aadd64] and [asub64] as conditions on the
    exact sum and difference. *)
Lemma add_over_test (w a b : Z) :
  0 < w ->
  - 2 ^ (w - 1) <= a < 2 ^ (w - 1) ->
  - 2 ^ (w - 1) <= b < 2 ^ (w - 1) ->
  Z.land (Z.land (Z.lxor (swrap w (a + b)) a) (Z.lxor (swrap w (a + b)) b))
         (INT_MIN w)
  = if (INT_MAX w <? a + b) || (a + b <? INT_MIN w) then INT_MIN w else 0.
Proof.
  intros Hw Ha Hb.
  pose proof (pow2_pos (w - 1) ltac:(lia)) as Hp.
  pose proof (pow2_half w Hw) as Hh.
  unfold INT_MAX, INT_MIN.
  destruct (Z.ltb_spec (2 ^ (w - 1) - 1) (a + b)) as [Ho | Ho];
    [| destruct (Z.ltb_spec (a + b) (- 2 ^ (w - 1))) as [Hu | Hu]].
  - assert (E : swrap w (a + b) = a + b - 2 ^ w) by (apply swrap_over; lia).
    rewrite (sadd_sign_test w _ a b Hw) by lia. rewrite E.
    replace (a + b - 2 ^ w <? 0) with true by (symmetry; apply Z.ltb_lt; lia).
    replace (a <? 0) with false by (symmetry; apply Z.ltb_ge; lia).
    replace (b <? 0) with false by (symmetry; apply Z.ltb_ge; lia).
    reflexivity.
  - assert (E : swrap w (a + b) = a + b + 2 ^ w) by (apply swrap_under; lia).
    rewrite (sadd_sign_test w _ a b Hw) by lia. rewrite E.
    replace (a + b + 2 ^ w <? 0) with false by (symmetry; apply Z.ltb_ge; lia).
    replace (a <? 0) with true by (symmetry; apply Z.ltb_lt; lia).
    replace (b <? 0) with true by (symmetry; apply Z.ltb_lt; lia).
    reflexivity.
  - assert (E : swrap w (a + b) = a + b) by (apply swrap_small; lia).
    rewrite (sadd_sign_test w _ a b Hw) by lia. rewrite E.
    destruct (Z.ltb_spec (a + b) 0), (Z.ltb_spec a 0), (Z.ltb_spec b 0);
      simpl; lia || reflexivity.
Qed.

Lemma sub_over_test (w a b : Z) :
  0 < w ->
  - 2 ^ (w - 1) <= a < 2 ^ (w - 1) ->
  - 2 ^ (w - 1) <= b < 2 ^ (w - 1) ->
  Z.land (Z.land (Z.lxor (swrap w (a - b)) a) (Z.lxor a b)) (INT_MIN w)
  = if (INT_MAX w <? a - b) || (a - b <? INT_MIN w) then INT_MIN w else 0.
Proof.
  intros Hw Ha Hb.
  pose proof (pow2_pos (w - 1) ltac:(lia)) as Hp.
  pose proof (pow2_half w Hw) as Hh.
  rewrite (Z.lxor_comm (swrap w (a - b)) a).
  unfold INT_MAX, INT_MIN.
  destruct (Z.ltb_spec (2 ^ (w - 1) - 1) (a - b)) as [Ho | Ho];
    [| destruct (Z.ltb_spec (a - b) (- 2 ^ (w - 1))) as [Hu | Hu]].
  - assert (E : swrap w (a - b) = a - b - 2 ^ w) by (apply swrap_over; lia).
    rewrite (sadd_sign_test w a _ b Hw) by lia. rewrite E.
    replace (a - b - 2 ^ w <? 0) with true by (symmetry; apply Z.ltb_lt; lia).
    replace (a <? 0) with false by (symmetry; apply Z.ltb_ge; lia).
    replace (b <? 0) with true by (symmetry; apply Z.ltb_lt; lia).
    reflexivity.
  - assert (E : swrap w (a - b) = a - b + 2 ^ w) by (apply swrap_under; lia).
    rewrite (sadd_sign_test w a _ b Hw) by lia. rewrite E.
    replace (a - b + 2 ^ w <? 0) with false by (symmetry; apply Z.ltb_ge; lia).
    replace (a <? 0) with true by (symmetry; apply Z.ltb_lt; lia).
    replace (b <? 0) with false by (symmetry; apply Z.ltb_ge; lia).
    reflexivity.
  - assert (E : swrap w (a - b) = a - b) by (apply swrap_small; lia).
    rewrite (sadd_sign_test w a _ b Hw) by lia. rewrite E.
    destruct (Z.ltb_spec (a - b) 0), (Z.ltb_spec a 0), (Z.ltb_spec b 0);
      simpl; lia || reflexivity.
Qed.

(** "With signed overflow, bit 64 is inverse of bit 63": the halved
    wrapped value with its sign bit flipped on overflow is the half of
    the exact value. *)
Lemma half_fix (s : Z) :
  - 2 ^ 64 <= s < 2 ^ 64 ->
  Z.lxor (Z.shiftr (int64_t s) 1)
         (if (INT_MAX 64 <? s) || (s <? INT_MIN 64) then INT_MIN 64 else 0)
  = s / 2.
Proof.
  intros Hs. unfold int64_t, INT_MAX.
  change (2 ^ (64 - 1) - 1) with 9223372036854775807.
  change (2 ^ 64) with 18446744073709551616 in Hs.
  rewrite Z.shiftr_div_pow2 by lia. change (2 ^ 1) with 2.
  pose proof (Z.div_mod s 2 ltac:(lia)) as Hd.
  pose proof (Z.mod_pos_bound s 2 ltac:(lia)) as Hm.
  destruct (Z.ltb_spec 9223372036854775807 s) as [Ho | Ho];
    [| destruct (Z.ltb_spec s (INT_MIN 64)) as [Hu | Hu]];
    cbn [orb].
  - rewrite swrap_over by (concrete_pows; lia). concrete_pows.
    replace (s - 18446744073709551616)
      with (s + (-9223372036854775808) * 2) by lia.
    rewrite Z.div_add by lia.
    rewrite lxor_sign by (concrete_pows; lia). concrete_pows.
    replace (s / 2 + -9223372036854775808 <? 0) with true
      by (symmetry; apply Z.ltb_lt; lia).
    lia.
  - unfold INT_MIN in Hu. concrete_pows.
    rewrite swrap_under by (concrete_pows; lia). concrete_pows.
    replace (s + 18446744073709551616)
      with (s + 9223372036854775808 * 2) by lia.
    rewrite Z.div_add by lia.
    rewrite lxor_sign by (concrete_pows; lia). concrete_pows.
    replace (s / 2 + 9223372036854775808 <? 0) with false
      by (symmetry; apply Z.ltb_ge; lia).
    lia.
  - unfold INT_MIN in Hu. concrete_pows.
    rewrite swrap_small by (concrete_pows; lia).
    apply Z.lxor_0_r.
Qed.

Lemma avg_narrow (w vxrm s r : Z) :
  narrow_width w -> - 2 ^ w <= s < 2 ^ w ->
  get_round vxrm s 1 = Some r -> 0 <= r <= 1 ->
  option_map (conv (ET true w))
    (round <- get_round vxrm (uint64_t (int64_t s)) 1 ;;
     Some (int32_t (int64_t (Z.shiftr (int64_t s) 1 + round))))
  = Some (swrap w (s / 2 + r)).
Proof.
  intros Hw Hs Hr Hr01.
  rewrite get_round_int64, Hr by lia. cbn [Elem.bind option_map]. f_equal.
  pose proof (Z.div_mod s 2 ltac:(lia)) as Hd.
  pose proof (Z.mod_pos_bound s 2 ltac:(lia)) as Hm.
  assert (Hs64 : int64_t s = s).
  { unfold int64_t. apply swrap_small; [lia |].
    destruct Hw as [-> | [-> | ->]]; concrete_pows; lia. }
  rewrite Hs64, Z.shiftr_div_pow2 by lia. change (2 ^ 1) with 2.
  assert (Hx64 : int64_t (s / 2 + r) = s / 2 + r).
  { unfold int64_t. apply swrap_small; [lia |].
    destruct Hw as [-> | [-> | ->]]; concrete_pows; lia. }
  rewrite Hx64. unfold conv, int32_t. cbn [et_signed et_bits].
  destruct Hw as [-> | [-> | ->]].
  - rewrite (swrap_small 32) by (concrete_pows; lia). reflexivity.
  - rewrite (swrap_small 32) by (concrete_pows; lia). reflexivity.
  - apply swrap_idem. lia.
Qed.

Lemma avg_wide (vxrm s r : Z) :
  - 2 ^ 64 <= s < 2 ^ 64 ->
  get_round vxrm s 1 = Some r ->
  option_map (conv (ET true 64))
    (round <- get_round vxrm (uint64_t (int64_t s)) 1 ;;
     Some (int64_t
             (Z.lxor (Z.shiftr (int64_t s) 1)
                     (if (INT_MAX 64 <? s) || (s <? INT_MIN 64)
                      then INT_MIN 64 else 0) + round)))
  = Some (swrap 64 (s / 2 + r)).
Proof.
  intros Hs Hr.
  rewrite get_round_int64, Hr by lia. cbn [Elem.bind option_map]. f_equal.
  rewrite half_fix by exact Hs.
  unfold conv, int64_t. cbn [et_signed et_bits]. apply swrap_idem. lia.
Qed.

(** X3. Averaging add at each element width: the helper returns
    floor((a + b) / 2) plus the rounding increment of the exact sum at
    shift 1, with no overflow even where a + b does not fit the element
    type (the 64-bit version repairs the lost carry), and the result lies
    between the smaller and the larger operand. *)
Theorem vaadd_average (w : Z) (env : CPURISCVState) (vxrm a b : Z) :
  std_width w -> in_range (ET true w) a -> in_range (ET true w) b ->
  exists r,
    get_round vxrm (a + b) 1 = Some r
    /\ vaadd w env vxrm a b = Some ((a + b) / 2 + r)
    /\ Z.min a b <= (a + b) / 2 + r <= Z.max a b.
Proof.
  intros Hw Ha Hb. pose proof (std_width_pos w Hw) as Hpos.
  apply in_range_signed in Ha, Hb.
  pose proof (pow2_half w Hpos) as Hh.
  destruct (get_round_bounds vxrm (a + b) 1 ltac:(lia))
    as (r & Hr & Hr01 & Hz).
  change (2 ^ 1) with 2 in Hz.
  pose proof (Z.div_mod (a + b) 2 ltac:(lia)) as Hd.
  pose proof (Z.mod_pos_bound (a + b) 2 ltac:(lia)) as Hm.
  assert (Hb2 : Z.min a b <= (a + b) / 2 + r <= Z.max a b).
  { destruct (Z.eq_dec ((a + b) mod 2) 0) as [E | E].
    - rewrite (Hz E). lia.
    - lia. }
  exists r. split; [exact Hr |]. split; [| exact Hb2].
  assert (Hfit : swrap w ((a + b) / 2 + r) = (a + b) / 2 + r)
    by (apply swrap_small; lia).
  unfold vaadd.
  destruct (Z.eqb_spec w 64) as [-> | Hne].
  - unfold aadd64. cbv zeta.
    pose proof (add_over_test 64 a b ltac:(lia) Ha Hb) as Ho.
    change (swrap 64) with int64_t in Ho. rewrite Ho.
    rewrite (avg_wide vxrm (a + b) r) by (concrete_pows; lia || exact Hr).
    now rewrite Hfit.
  - unfold aadd32. cbv zeta.
    rewrite (avg_narrow w vxrm (a + b) r); [now rewrite Hfit | | lia | exact Hr | exact Hr01].
    unfold std_width, narrow_width in *. lia.
Qed.

(** X4. Averaging subtract at each element width: the helper returns
    floor((a - b) / 2) plus the rounding increment of the exact
    difference at shift 1.  The only operands for which this value does
    not fit the element type are a = INT_MAX and b = INT_MIN with an
    increment of 1; the result then wraps to INT_MIN. *)
Theorem vasub_average (w : Z) (env : CPURISCVState) (vxrm a b : Z) :
  std_width w -> in_range (ET true w) a -> in_range (ET true w) b ->
  exists r,
    get_round vxrm (a - b) 1 = Some r
    /\ vasub w env vxrm a b
       = Some (if (a =? INT_MAX w) && (b =? INT_MIN w) && (r =? 1)
               then INT_MIN w else (a - b) / 2 + r).
Proof.
  intros Hw Ha Hb. pose proof (std_width_pos w Hw) as Hpos.
  apply in_range_signed in Ha, Hb.
  pose proof (pow2_half w Hpos) as Hh.
  pose proof (pow2_pos (w - 1) ltac:(lia)) as Hp.
  destruct (get_round_bounds vxrm (a - b) 1 ltac:(lia))
    as (r & Hr & Hr01 & Hz).
  change (2 ^ 1) with 2 in Hz.
  pose proof (Z.div_mod (a - b) 2 ltac:(lia)) as Hd.
  pose proof (Z.mod_pos_bound (a - b) 2 ltac:(lia)) as Hm.
  exists r. split; [exact Hr |].
  assert (Hfit : swrap w ((a - b) / 2 + r)
                 = if (a =? INT_MAX w) && (b =? INT_MIN w) && (r =? 1)
                   then INT_MIN w else (a - b) / 2 + r).
  { unfold INT_MAX, INT_MIN.
    destruct (Z.eqb_spec a (2 ^ (w - 1) - 1)) as [Ea | Ea];
      [destruct (Z.eqb_spec b (- 2 ^ (w - 1))) as [Eb | Eb];
       [destruct (Z.eqb_spec r 1) as [Er | Er] |] |]; cbn [andb].
    - rewrite swrap_over by lia. lia.
    - apply swrap_small; lia.
    - apply swrap_small; lia.
    - destruct (Z.eq_dec ((a - b) mod 2) 0) as [E | E].
      + rewrite (Hz E). apply swrap_small; lia.
      + apply swrap_small; lia. }
  unfold vasub.
  destruct (Z.eqb_spec w 64) as [-> | Hne].
  - unfold asub64. cbv zeta.
    pose proof (sub_over_test 64 a b ltac:(lia) Ha Hb) as Ho.
    change (swrap 64) with int64_t in Ho. rewrite Ho.
    rewrite (avg_wide vxrm (a - b) r) by (concrete_pows; lia || exact Hr).
    now rewrite Hfit.
  - unfold asub32. cbv zeta.
    rewrite (avg_narrow w vxrm (a - b) r); [now rewrite Hfit | | lia | exact Hr | exact Hr01].
    unfold std_width, narrow_width in *. lia.
Qed.

(** ** Fractional multiply *)

Lemma get_round_bounds0 (vxrm v shift : Z) :
  0 <= shift <= 63 ->
  exists r, get_round vxrm v shift = Some r
            /\ 0 <= r <= 1 /\ (v mod 2 ^ shift = 0 -> r = 0).
Proof.
  intros Hs. destruct (Z.eq_dec shift 0) as [-> | Hnz].
  - exists 0. repeat split; lia.
  - apply get_round_bounds. lia.
Qed.

(** The product of two signed [w]-bit numbers other than the pair of
    minima stays below 2^(2w-2) by a margin. *)
Lemma mul_signed_bound (H a b : Z) :
  0 < H -> - H <= a < H -> - H <= b < H ->
  - (H * (H - 1)) <= a * b <= H * H
  /\ (~ (a = - H /\ b = - H) -> a * b <= H * (H - 1)).
Proof.
  intros HH Ha Hb.
  assert (M : forall x y X Y, 0 <= x <= X -> 0 <= y <= Y -> x * y <= X * Y)
    by (intros; apply Z.mul_le_mono_nonneg; lia).
  destruct (Z.le_gt_cases 0 a) as [Sa | Sa];
    destruct (Z.le_gt_cases 0 b) as [Sb | Sb].
  - pose proof (M a b (H - 1) (H - 1) ltac:(lia) ltac:(lia)).
    pose proof (Z.mul_nonneg_nonneg a b Sa Sb). nia.
  - pose proof (M a (- b) (H - 1) H ltac:(lia) ltac:(lia)).
    pose proof (Z.mul_nonneg_nonneg a (- b) ltac:(lia) ltac:(lia)). nia.
  - pose proof (M (- a) b H (H - 1) ltac:(lia) ltac:(lia)).
    pose proof (Z.mul_nonneg_nonneg (- a) b ltac:(lia) ltac:(lia)). nia.
  - pose proof (M (- a) (- b) H H ltac:(lia) ltac:(lia)).
    pose proof (Z.mul_nonneg_nonneg (- a) (- b) ltac:(lia) ltac:(lia)).
    split; [nia |]. intros Hn.
    destruct (Z.eq_dec a (- H)) as [Ea | Ea].
    + pose proof (M (- a) (- b) H (H - 1) ltac:(lia) ltac:(lia)). nia.
    + pose proof (M (- a) (- b) (H - 1) H ltac:(lia) ltac:(lia)). nia.
Qed.

(** One width of [vsmul]: [H] is 2^(w-1). *)
Lemma vsmul_at (w H : Z) (env : CPURISCVState) (vxrm a b r : Z) :
  narrow_width w -> H = 2 ^ (w - 1) ->
  - H <= a < H -> - H <= b < H ->
  get_round vxrm (a * b) (w - 1) = Some r ->
  0 <= r <= 1 -> ((a * b) mod H = 0 -> r = 0) ->
  vsmul w env vxrm a b
  = (if (a =? - H) && (b =? - H) then Some (H - 1, set_vxsat 1 env)
     else Some ((a * b) / H + r, env))
  /\ (~ (a = - H /\ b = - H) -> - H <= (a * b) / H + r < H).
Proof.
  intros Hw HH Ha Hb Hr Hr01 Hz.
  assert (Hpos : 0 < H) by lia.
  destruct (mul_signed_bound H a b Hpos Ha Hb) as [Hp Hp'].
  pose proof (Z.div_mod (a * b) H ltac:(lia)) as Hd.
  pose proof (Z.mod_pos_bound (a * b) H ltac:(lia)) as Hm.
  assert (Hq : - H <= (a * b) / H <= H) by nia.
  assert (Hq' : ~ (a = - H /\ b = - H) -> - H <= (a * b) / H + r < H).
  { intros Hn. specialize (Hp' Hn).
    destruct (Z.eq_dec ((a * b) mod H) 0) as [E | E].
    - rewrite (Hz E). nia.
    - nia. }
  split; [| exact Hq'].
  assert (H2 : 2 ^ (2 * w - 1) = 2 * H * H).
  { subst H. rewrite <- Z.pow_succ_r, <- Z.pow_add_r
      by (unfold narrow_width in Hw; lia).
    f_equal. lia. }
  assert (Hw0 : 0 < w) by (unfold narrow_width in Hw; lia).
  unfold vsmul.
  rewrite (swrap_small (2 * w) (a * b)) by (rewrite ?H2; nia).
  rewrite get_round_uint64 by (unfold narrow_width in Hw; lia).
  rewrite Hr. cbn [Elem.bind].
  rewrite Z.shiftr_div_pow2 by lia. rewrite <- HH.
  rewrite (swrap_small (2 * w)) by (rewrite ?H2; nia).
  unfold INT_MAX, INT_MIN. rewrite <- HH.
  destruct (Z.eqb_spec a (- H)) as [Ea | Ea];
    [destruct (Z.eqb_spec b (- H)) as [Eb | Eb] |]; cbn [andb].
  - assert (Er : r = 0).
    { apply Hz. subst a b.
      replace (- H * - H) with (H * H) by lia. apply Z.mod_mul. lia. }
    assert (Eq : a * b / H = H).
    { subst a b. replace (- H * - H) with (H * H) by lia.
      apply Z.div_mul. lia. }
    rewrite Eq, Er.
    replace (H - 1 <? H + 0) with true by (symmetry; apply Z.ltb_lt; lia).
    reflexivity.
  - specialize (Hq' ltac:(tauto)).
    replace (H - 1 <? a * b / H + r) with false
      by (symmetry; apply Z.ltb_ge; lia).
    replace (a * b / H + r <? - H) with false
      by (symmetry; apply Z.ltb_ge; lia).
    rewrite swrap_small by (rewrite <- ?HH; lia). reflexivity.
  - specialize (Hq' ltac:(tauto)).
    replace (H - 1 <? a * b / H + r) with false
      by (symmetry; apply Z.ltb_ge; lia).
    replace (a * b / H + r <? - H) with false
      by (symmetry; apply Z.ltb_ge; lia).
    rewrite swrap_small by (rewrite <- ?HH; lia). reflexivity.
Qed.

(** X5. Fractional multiply at the widths 8, 16 and 32: the helper
    returns the exact product shifted right by w - 1 plus the rounding
    increment, which always fits the element type, and leaves vxsat
    alone, except when both operands are the minimum: then it returns
    the maximum and sets vxsat.  The low clamp is never taken. *)
Theorem vsmul_saturates_once (w : Z) (env : CPURISCVState) (vxrm a b : Z) :
  narrow_width w -> in_range (ET true w) a -> in_range (ET true w) b ->
  exists r,
    get_round vxrm (a * b) (w - 1) = Some r
    /\ vsmul w env vxrm a b
       = (if (a =? INT_MIN w) && (b =? INT_MIN w)
          then Some (INT_MAX w, set_vxsat 1 env)
          else Some (Z.shiftr (a * b) (w - 1) + r, env))
    /\ (~ (a = INT_MIN w /\ b = INT_MIN w) ->
        in_range (ET true w) (Z.shiftr (a * b) (w - 1) + r)).
Proof.
  intros Hw Ha Hb. apply in_range_signed in Ha, Hb.
  assert (Hw0 : 8 <= w <= 32) by (unfold narrow_width in Hw; lia).
  destruct (get_round_bounds vxrm (a * b) (w - 1) ltac:(lia))
    as (r & Hr & Hr01 & Hz).
  exists r. split; [exact Hr |].
  rewrite Z.shiftr_div_pow2 by lia.
  destruct (vsmul_at w (2 ^ (w - 1)) env vxrm a b r Hw eq_refl Ha Hb Hr
              Hr01 Hz) as [E R].
  split; [exact E |].
  intros Hn. apply in_range_signed. apply R. exact Hn.
Qed.

(** ** Scaling shifts and narrowing clips *)

(** Masking with 2^k - 1 keeps the shift amount below 2^k. *)
Lemma land_mask (b k : Z) :
  0 <= k <= 7 -> uint8_t (Z.land b (2 ^ k - 1)) = b mod 2 ^ k.
Proof.
  intros Hk.
  replace (2 ^ k - 1) with (Z.ones k) by (rewrite Z.ones_equiv; lia).
  rewrite Z.land_ones by lia.
  pose proof (Z.mod_pos_bound b (2 ^ k) ltac:(apply pow2_pos; lia)) as Hb.
  assert (2 ^ k <= 2 ^ 7) by (apply Z.pow_le_mono_r; lia).
  apply wrap_small. change (2 ^ 8) with 256. change (2 ^ 7) with 128 in *.
  lia.
Qed.

Lemma shift_mask (w b : Z) :
  w = 8 \/ w = 16 \/ w = 32 \/ w = 64 ->
  uint8_t (Z.land b (w - 1)) = b mod w /\ 0 <= b mod w < w.
Proof.
  intros Hw. split; [| apply Z.mod_pos_bound; lia].
  destruct Hw as [-> | [-> | [-> | ->]]].
  - apply (land_mask b 3). lia.
  - apply (land_mask b 4). lia.
  - apply (land_mask b 5). lia.
  - apply (land_mask b 6). lia.
Qed.

(** A rounded right shift stays between the shifted value and zero. *)
Lemma roundoff_bounds (a s r : Z) :
  0 <= s -> 0 <= r <= 1 -> (a mod 2 ^ s = 0 -> r = 0) ->
  Z.min a 0 <= Z.shiftr a s + r <= Z.max a 0.
Proof.
  intros Hs Hr Hz. rewrite Z.shiftr_div_pow2 by lia.
  pose proof (pow2_pos s Hs) as Hp.
  pose proof (Z.div_mod a (2 ^ s) ltac:(lia)) as Hd.
  pose proof (Z.mod_pos_bound a (2 ^ s) ltac:(lia)) as Hm.
  set (P := 2 ^ s) in *. set (q := a / P) in *. set (m := a mod P) in *.
  destruct (Z.eq_dec m 0) as [E | E].
  - rewrite (Hz E). nia.
  - destruct (Z.le_gt_cases 0 q) as [Sq | Sq].
    + destruct (Z.eq_dec q 0) as [Eq | Eq]; nia.
    + nia.
Qed.

(** X6. Scaling shifts at each element width: only the low log2(w) bits
    of the shift operand are used, so the rounding increment is always
    defined, and the result, the shifted value plus the increment, fits
    the element type without wrapping. *)
Theorem scaling_shift_exact (w : Z) (env : CPURISCVState) (vxrm a b : Z) :
  std_width w ->
  exists r,
    get_round vxrm a (b mod w) = Some r
    /\ (in_range (ET false w) a ->
        vssrl w env vxrm a b = Some (Z.shiftr a (b mod w) + r)
        /\ in_range (ET false w) (Z.shiftr a (b mod w) + r))
    /\ (in_range (ET true w) a ->
        vssra w env vxrm a b = Some (Z.shiftr a (b mod w) + r)
        /\ in_range (ET true w) (Z.shiftr a (b mod w) + r)).
Proof.
  intros Hw. pose proof (std_width_pos w Hw) as Hpos.
  destruct (shift_mask w b Hw) as [Hsh Hrange].
  assert (Hw64 : w <= 64) by (unfold std_width in Hw; lia).
  destruct (get_round_bounds0 vxrm a (b mod w) ltac:(lia))
    as (r & Hr & Hr01 & Hz).
  pose proof (roundoff_bounds a (b mod w) r ltac:(lia) Hr01 Hz) as Hb.
  exists r. split; [exact Hr |]. split; intros Ha.
  - apply in_range_unsigned in Ha.
    assert (Hx : 0 <= Z.shiftr a (b mod w) + r < 2 ^ w) by lia.
    split; [| now apply in_range_unsigned].
    unfold vssrl. rewrite Hsh, get_round_uint64, Hr by lia.
    cbn [Elem.bind]. now rewrite wrap_small.
  - apply in_range_signed in Ha.
    assert (Hx : - 2 ^ (w - 1) <= Z.shiftr a (b mod w) + r < 2 ^ (w - 1))
      by lia.
    split; [| now apply in_range_signed].
    unfold vssra. rewrite Hsh, get_round_uint64, Hr by lia.
    cbn [Elem.bind]. now rewrite swrap_small.
Qed.

Lemma wrap_low_swrap (k w x : Z) :
  0 <= k <= w -> wrap k (swrap w x) = wrap k x.
Proof.
  intros H. unfold wrap.
  rewrite <- (mod_mod_pow2 (swrap w x) k w), <- (mod_mod_pow2 x k w) by lia.
  f_equal. apply wrap_swrap.
Qed.

(** X7. Narrowing clips to the widths 8, 16 and 32 of a source of twice
    the width: the shift amount is the shift operand modulo 2w, and the
    shifted value plus the rounding increment is clamped to the range of
    the destination type, vxsat being set when it is clamped.  In
    [vnclipu32] the intermediate is a signed 64-bit number: a rounded
    value of 2^63 or more is not clamped, its low 32 bits are returned
    and vxsat is left alone. *)
Theorem narrowing_clip (w : Z) (env : CPURISCVState) (vxrm a b : Z) :
  narrow_width w ->
  exists r,
    get_round vxrm a (b mod (2 * w)) = Some r
    /\ (in_range (ET true (2 * w)) a ->
        vnclip w env vxrm a b
        = Some (let x := Z.shiftr a (b mod (2 * w)) + r in
                if INT_MAX w <? x then (INT_MAX w, set_vxsat 1 env)
                else if x <? INT_MIN w then (INT_MIN w, set_vxsat 1 env)
                else (x, env)))
    /\ (in_range (ET false (2 * w)) a ->
        vnclipu w env vxrm a b
        = Some (let x := Z.shiftr a (b mod (2 * w)) + r in
                if (w =? 32) && (2 ^ 63 <=? x) then (x mod 2 ^ 32, env)
                else if UINT_MAX w <? x then (UINT_MAX w, set_vxsat 1 env)
                else (x, env))).
Proof.
  intros Hw.
  assert (Hw2 : 2 * w = 8 \/ 2 * w = 16 \/ 2 * w = 32 \/ 2 * w = 64)
    by (unfold narrow_width in Hw; lia).
  assert (Hw0 : 8 <= w <= 32) by (unfold narrow_width in Hw; lia).
  destruct (shift_mask (2 * w) b Hw2) as [Hsh Hrange].
  destruct (get_round_bounds0 vxrm a (b mod (2 * w)) ltac:(lia))
    as (r & Hr & Hr01 & Hz).
  pose proof (roundoff_bounds a (b mod (2 * w)) r ltac:(lia) Hr01 Hz) as Hb.
  pose proof (pow2_pos (w - 1) ltac:(lia)) as Hp.
  pose proof (pow2_half w ltac:(lia)) as Hh.
  assert (Hlt : 2 ^ w < 2 ^ (2 * w - 1))
    by (apply Z.pow_lt_mono_r; lia).
  pose proof (pow2_half (2 * w) ltac:(lia)) as Hh2.
  exists r. split; [exact Hr |]. cbv zeta. split; intros Ha.
  - apply in_range_signed in Ha.
    unfold vnclip. rewrite Hsh, get_round_uint64, Hr by lia.
    cbn [Elem.bind].
    rewrite (swrap_small (2 * w)) by lia.
    unfold INT_MAX, INT_MIN.
    destruct (Z.ltb_spec (2 ^ (w - 1) - 1) (Z.shiftr a (b mod (2 * w)) + r));
      [reflexivity |].
    destruct (Z.ltb_spec (Z.shiftr a (b mod (2 * w)) + r) (- 2 ^ (w - 1)));
      [reflexivity |].
    rewrite swrap_small by lia. reflexivity.
  - apply in_range_unsigned in Ha.
    unfold vnclipu. rewrite Hsh, get_round_uint64, Hr by lia.
    cbn [Elem.bind]. unfold vnclipu_res, UINT_MAX.
    set (x := Z.shiftr a (b mod (2 * w)) + r) in *.
    destruct (Z.eqb_spec w 32) as [-> | Hne]; cbn [andb].
    + change (2 * 32) with 64 in *. unfold int64_t.
      change (2 ^ 63) with 9223372036854775808.
      destruct (Z.leb_spec 9223372036854775808 x) as [Hhi | Hlo].
      * rewrite (wrap_low_swrap 32 64) by lia.
        rewrite swrap_over by (concrete_pows; lia).
        destruct (Z.ltb_spec (2 ^ 32 - 1) (x - 2 ^ 64)) as [Hc | Hc];
          [concrete_pows; lia | reflexivity].
      * rewrite swrap_small by (concrete_pows; lia).
        destruct (Z.ltb_spec (2 ^ 32 - 1) x); [reflexivity |].
        rewrite wrap_small by lia. reflexivity.
    + rewrite (wrap_small (2 * w)) by lia.
      destruct (Z.ltb_spec (2 ^ w - 1) x); [reflexivity |].
      rewrite wrap_small by lia. reflexivity.
Qed.

End Fixed.

(** Boundary values of the fixed-point operations. *)
Module FixedExamples.
Import Elem Fixed.

Definition env0 : CPURISCVState := mkEnv (fun _ => 0) 4 0 0 0 0.

(** INT8_MIN - 1 saturates to INT8_MIN and sets vxsat. *)
Lemma saturating_sub_witness :
  ssub 8 env0 (-128) 1 = (-128, set_vxsat 1 env0).
Proof.
  refine (proj1 (proj2 (saturating_sub 8 env0 (-128) 1 _)) _ _).
  - vm_compute. tauto.
  - vm_compute. split; discriminate.
  - vm_compute. split; discriminate.
Defined.

Example saturating_sub_runs :
  ssubu8 env0 3 5 = (0, set_vxsat 1 env0)
  /\ ssubu8 env0 5 3 = (2, env0)
  /\ ssub8 env0 100 (-28) = (127, set_vxsat 1 env0)
  /\ ssub8 env0 0 (-128) = (-128, set_vxsat 1 env0)
  /\ ssub8 env0 1 (-128) = (127, set_vxsat 1 env0)
  /\ ssub64 env0 0 (- 2 ^ 63) = (- 2 ^ 63, set_vxsat 1 env0).
Proof. repeat split; reflexivity. Qed.

(** Rounding 0b0110 by two places to nearest-even. *)
Lemma get_round_nearest_witness :
  exists r,
    get_round 1 6 2 = Some r
    /\ 0 <= r <= 1
    /\ (6 mod 2 ^ 2 = 0 -> r = 0)
    /\ (1 = 0 \/ 1 = 1 ->
        2 * Z.abs (6 - (Z.shiftr 6 2 + r) * 2 ^ 2) <= 2 ^ 2)
    /\ (1 = 1 -> 2 * (6 mod 2 ^ 2) = 2 ^ 2 ->
        Z.even (Z.shiftr 6 2 + r) = true)
    /\ (1 = 3 -> 6 mod 2 ^ 2 <> 0 -> Z.odd (Z.shiftr 6 2 + r) = true).
Proof. apply (get_round_nearest 1 6 2). lia. Defined.

(** The average of the two largest 64-bit numbers. *)
Lemma vaadd_average_witness :
  exists r,
    get_round 0 (2 ^ 63 - 1 + (2 ^ 63 - 1)) 1 = Some r
    /\ vaadd 64 env0 0 (2 ^ 63 - 1) (2 ^ 63 - 1)
       = Some ((2 ^ 63 - 1 + (2 ^ 63 - 1)) / 2 + r)
    /\ Z.min (2 ^ 63 - 1) (2 ^ 63 - 1)
       <= (2 ^ 63 - 1 + (2 ^ 63 - 1)) / 2 + r
       <= Z.max (2 ^ 63 - 1) (2 ^ 63 - 1).
Proof.
  refine (vaadd_average 64 env0 0 (2 ^ 63 - 1) (2 ^ 63 - 1) _ _ _).
  - vm_compute. tauto.
  - vm_compute. split; discriminate.
  - vm_compute. split; discriminate.
Defined.

Example vaadd_runs :
  vaadd 64 env0 0 (2 ^ 63 - 1) (2 ^ 63 - 1) = Some (2 ^ 63 - 1)
  /\ vaadd 64 env0 0 (- 2 ^ 63) (- 2 ^ 63) = Some (- 2 ^ 63)
  /\ vaadd 8 env0 0 127 126 = Some 127
  /\ vaadd 8 env0 2 127 126 = Some 126
  /\ vaadd 8 env0 1 1 2 = Some 2
  /\ vaadd 8 env0 3 1 2 = Some 1.
Proof. repeat split; reflexivity. Qed.

(** INT8_MAX - INT8_MIN rounded up does not fit a byte. *)
Lemma vasub_average_witness :
  exists r,
    get_round 0 (127 - -128) 1 = Some r
    /\ vasub 8 env0 0 127 (-128)
       = Some (if (127 =? INT_MAX 8) && (-128 =? INT_MIN 8) && (r =? 1)
               then INT_MIN 8 else (127 - -128) / 2 + r).
Proof.
  refine (vasub_average 8 env0 0 127 (-128) _ _ _).
  - vm_compute. tauto.
  - vm_compute. split; discriminate.
  - vm_compute. split; discriminate.
Defined.

Example vasub_runs :
  vasub 8 env0 0 127 (-128) = Some (-128)
  /\ vasub 8 env0 2 127 (-128) = Some 127
  /\ vasub 64 env0 0 (2 ^ 63 - 1) (- 2 ^ 63) = Some (- 2 ^ 63)
  /\ vasub 64 env0 2 (- 2 ^ 63) (2 ^ 63 - 1) = Some (- 2 ^ 63)
  /\ vasub 16 env0 1 7 2 = Some 2.
Proof. repeat split; reflexivity. Qed.

(** (-1.0) * (-1.0) in Q7 is the one product that saturates. *)
Lemma vsmul_saturates_once_witness :
  exists r,
    get_round 0 (-128 * -128) (8 - 1) = Some r
    /\ vsmul 8 env0 0 (-128) (-128)
       = (if (-128 =? INT_MIN 8) && (-128 =? INT_MIN 8)
          then Some (INT_MAX 8, set_vxsat 1 env0)
          else Some (Z.shiftr (-128 * -128) (8 - 1) + r, env0))
    /\ (~ (-128 = INT_MIN 8 /\ -128 = INT_MIN 8) ->
        in_range (ET true 8) (Z.shiftr (-128 * -128) (8 - 1) + r)).
Proof.
  refine (vsmul_saturates_once 8 env0 0 (-128) (-128) _ _ _).
  - vm_compute. tauto.
  - vm_compute. split; discriminate.
  - vm_compute. split; discriminate.
Defined.

Example vsmul_runs :
  vsmul8 env0 0 (-128) (-128) = Some (127, set_vxsat 1 env0)
  /\ vsmul8 env0 0 (-128) 127 = Some (-127, env0)
  /\ vsmul8 env0 0 64 64 = Some (32, env0)
  /\ vsmul32 env0 2 (- 2 ^ 31) (2 ^ 31 - 1) = Some (- 2 ^ 31 + 1, env0).
Proof. repeat split; reflexivity. Qed.

(** A shift operand of 9 on bytes shifts by 1. *)
Lemma scaling_shift_exact_witness :
  exists r,
    get_round 0 255 (9 mod 8) = Some r
    /\ vssrl 8 env0 0 255 9 = Some (Z.shiftr 255 (9 mod 8) + r)
    /\ in_range (ET false 8) (Z.shiftr 255 (9 mod 8) + r).
Proof.
  destruct (scaling_shift_exact 8 env0 0 255 9) as (r & Hr & Hu & _).
  - vm_compute. tauto.
  - exists r. split; [exact Hr |]. apply Hu.
    vm_compute. split; discriminate.
Defined.

Example scaling_shift_runs :
  vssrl 8 env0 0 255 9 = Some 128
  /\ vssrl 8 env0 2 255 9 = Some 127
  /\ vssra 8 env0 0 (-1) 7 = Some 0
  /\ vssra 8 env0 2 (-1) 7 = Some (-1)
  /\ vssrl 64 env0 0 (2 ^ 64 - 1) 63 = Some 2.
Proof. repeat split; reflexivity. Qed.

Lemma narrowing_clip_witness :
  exists r,
    get_round 0 1000 (1 mod (2 * 8)) = Some r
    /\ vnclip 8 env0 0 1000 1
       = Some (let x := Z.shiftr 1000 (1 mod (2 * 8)) + r in
               if INT_MAX 8 <? x then (INT_MAX 8, set_vxsat 1 env0)
               else if x <? INT_MIN 8 then (INT_MIN 8, set_vxsat 1 env0)
               else (x, env0))
    /\ vnclipu 8 env0 0 1000 1
       = Some (let x := Z.shiftr 1000 (1 mod (2 * 8)) + r in
               if (8 =? 32) && (2 ^ 63 <=? x) then (x mod 2 ^ 32, env0)
               else if UINT_MAX 8 <? x then (UINT_MAX 8, set_vxsat 1 env0)
               else (x, env0)).
Proof.
  destruct (narrowing_clip 8 env0 0 1000 1) as (r & Hr & Hs & Hu).
  - vm_compute. tauto.
  - exists r. split; [exact Hr |]. split.
    + apply Hs. vm_compute. split; discriminate.
    + apply Hu. vm_compute. split; discriminate.
Defined.

(** [vnclipu32] on a source of 2^63 or more with shift 0: no clamp. *)
Example narrowing_clip_runs :
  vnclip8 env0 0 1000 1 = Some (127, set_vxsat 1 env0)
  /\ vnclip8 env0 0 (-1000) 1 = Some (-128, set_vxsat 1 env0)
  /\ vnclip8 env0 0 200 1 = Some (100, env0)
  /\ vnclipu8 env0 0 1000 1 = Some (255, set_vxsat 1 env0)
  /\ vnclipu32 env0 0 (2 ^ 63 - 1) 0 = Some (2 ^ 32 - 1, set_vxsat 1 env0)
  /\ vnclipu32 env0 0 (2 ^ 63) 0 = Some (0, env0)
  /\ vnclipu32 env0 0 (2 ^ 64 - 1) 1 = Some (0, env0).
Proof. repeat split; reflexivity. Qed.

End FixedExamples.

(* ===================================================================== *)
(** * Integer carries and high products *)
(* ===================================================================== *)

Module IntOps.
Import Elem.

(** [DO_VADC] and [DO_VSBC] on operands of the unsigned type of width
    [w], as stored into an element of that type. *)
Definition DO_VADC (w n m c : Z) : Z := wrap w (n + m + c).
Definition DO_VSBC (w n m c : Z) : Z := wrap w (n - m - c).

(** [DO_MADC]: [C ? (__typeof(N))(N + M + 1) <= N
                  : (__typeof(N))(N + M) < N]. *)
Definition DO_MADC (w n m c : Z) : bool :=
  if negb (c =? 0) then wrap w (n + m + 1) <=? n else wrap w (n + m) <? n.

(** [DO_MSBC]: [C ? N <= M : N < M]. *)
Definition DO_MSBC (n m c : Z) : bool :=
  if negb (c =? 0) then n <=? m else n <? m.

(** [do_mulh_b], [do_mulh_h], [do_mulh_w]: the operands are cast to the
    signed type of twice the width (and promoted to [int] below that),
    multiplied and shifted right. *)
Definition do_mulh (w s2 s1 : Z) : Z :=
  swrap w (Z.shiftr (conv (promote (ET true (2 * w))) (s2 * s1)) w).

(** [do_mulhu_b], [do_mulhu_h], [do_mulhu_w]. *)
Definition do_mulhu (w s2 s1 : Z) : Z :=
  wrap w (Z.shiftr (conv (promote (ET false (2 * w))) (s2 * s1)) w).

(** [do_mulhsu_b], [do_mulhsu_h], [do_mulhsu_w].  In [do_mulhsu_b] both
    casts promote to [int]; in the other two the signed operand is
    converted to the unsigned type of the other and the product is
    formed in that type. *)
Definition do_mulhsu (w s2 s1 : Z) : Z :=
  swrap w
    (Z.shiftr (conv (if w =? 8 then i32 else ET false (2 * w)) (s2 * s1)) w).

Definition do_mulh_b := do_mulh 8.
Definition do_mulh_h := do_mulh 16.
Definition do_mulh_w := do_mulh 32.
Definition do_mulhu_b := do_mulhu 8.
Definition do_mulhu_h := do_mulhu 16.
Definition do_mulhu_w := do_mulhu 32.
Definition do_mulhsu_b := do_mulhsu 8.
Definition do_mulhsu_h := do_mulhsu 16.
Definition do_mulhsu_w := do_mulhsu 32.

(** [do_mulhsu_d].  [mulu64] of qemu/host-utils.h is a parameter; it
    receives its operands converted to [uint64_t] and yields the pair
    (low word, high word). *)
Definition do_mulhsu_d (mulu64 : Z -> Z -> Z * Z) (s2 s1 : Z) : Z :=
  let hi_64 := snd (mulu64 (uint64_t s2) s1) in
  let hi_64 := uint64_t (hi_64 - (if s2 <? 0 then s1 else 0)) in
  swrap 64 hi_64.

(** The 128-bit product as (low word, high word). *)
Definition mul128 (a b : Z) : Z * Z := ((a * b) mod 2 ^ 64, (a * b) / 2 ^ 64).

(** X8. Carry and borrow of the add-with-carry family on unsigned
    operands of every element width: [DO_MADC] is the carry out of
    n + m + c and [DO_MSBC] the borrow out of n - m - c, so that together
    with the wrapped results of [DO_VADC] and [DO_VSBC] they give the
    exact sum and difference. *)
Theorem carry_borrow_exact (w n m c : Z) :
  std_width w ->
  in_range (ET false w) n -> in_range (ET false w) m -> 0 <= c <= 1 ->
  DO_MADC w n m c = (2 ^ w <=? n + m + c)
  /\ DO_MSBC n m c = (n - m - c <? 0)
  /\ n + m + c = 2 ^ w * b2z (DO_MADC w n m c) + DO_VADC w n m c
  /\ n - m - c = DO_VSBC w n m c - 2 ^ w * b2z (DO_MSBC n m c).
Proof.
  intros Hw Hn Hm Hc. pose proof (std_width_pos w Hw) as Hpos.
  apply in_range_unsigned in Hn, Hm.
  assert (Hadd : forall x, 0 <= x < 2 * 2 ^ w ->
            wrap w x = if 2 ^ w <=? x then x - 2 ^ w else x).
  { intros x Hx. destruct (Z.leb_spec (2 ^ w) x).
    - apply wrap_over; lia.
    - apply wrap_small; lia. }
  assert (Hsub : forall x, - 2 ^ w <= x < 2 ^ w ->
            wrap w x = if x <? 0 then x + 2 ^ w else x).
  { intros x Hx. destruct (Z.ltb_spec x 0).
    - unfold wrap. rewrite <- (Z.mod_add x 1 (2 ^ w)) by lia.
      rewrite Z.mod_small; lia.
    - apply wrap_small; lia. }
  assert (E1 : DO_MADC w n m c = (2 ^ w <=? n + m + c)).
  { unfold DO_MADC. destruct (Z.eqb_spec c 0) as [-> | Hc1]; cbn [negb].
    - rewrite Z.add_0_r, Hadd by lia.
      destruct (Z.leb_spec (2 ^ w) (n + m));
        [apply Z.ltb_lt | apply Z.ltb_ge]; lia.
    - replace c with 1 by lia. rewrite Hadd by lia.
      destruct (Z.leb_spec (2 ^ w) (n + m + 1));
        [apply Z.leb_le | apply Z.leb_gt]; lia. }
  assert (E2 : DO_MSBC n m c = (n - m - c <? 0)).
  { unfold DO_MSBC. destruct (Z.eqb_spec c 0) as [-> | Hc1]; cbn [negb].
    - destruct (Z.ltb_spec n m), (Z.ltb_spec (n - m - 0) 0);
        lia || reflexivity.
    - destruct (Z.leb_spec n m), (Z.ltb_spec (n - m - c) 0);
        lia || reflexivity. }
  split; [exact E1 |]. split; [exact E2 |].
  rewrite E1, E2. unfold DO_VADC, DO_VSBC.
  rewrite Hadd, Hsub by lia.
  destruct (Z.leb_spec (2 ^ w) (n + m + c)), (Z.ltb_spec (n - m - c) 0);
    cbn [b2z Z.b2z]; lia.
Qed.

(** ** High halves of products *)

Ltac wide_pows :=
  change (2 ^ (2 * 8 - 1)) with 32768 in *;
  change (2 ^ (2 * 16 - 1)) with 2147483648 in *;
  change (2 ^ (2 * 32 - 1)) with 9223372036854775808 in *;
  change (2 ^ (2 * 8)) with 65536 in *;
  change (2 ^ (2 * 16)) with 4294967296 in *;
  change (2 ^ (2 * 32)) with 18446744073709551616 in *;
  concrete_pows.

Lemma swrap_wrap (w x : Z) : swrap w (wrap w x) = swrap w x.
Proof. unfold swrap, wrap. now rewrite Zplus_mod_idemp_l. Qed.

(** The high word of a double-width unsigned value. *)
Lemma high_div_mod (w p : Z) :
  0 < w -> Z.shiftr (wrap (2 * w) p) w = wrap w (p / 2 ^ w).
Proof.
  intros Hw. pose proof (pow2_pos w ltac:(lia)) as Hp.
  rewrite Z.shiftr_div_pow2 by lia. unfold wrap.
  replace (2 * w) with (w + w) by lia. rewrite Z.pow_add_r by lia.
  rewrite Z.rem_mul_r by lia.
  rewrite (Z.add_comm (p mod 2 ^ w)), (Z.mul_comm (2 ^ w)).
  rewrite Z.div_add_l by lia.
  rewrite (Z.div_small (p mod 2 ^ w)) by (apply Z.mod_pos_bound; lia).
  lia.
Qed.

Lemma mul_mixed_bound (H a b : Z) :
  0 < H -> - H <= a < H -> 0 <= b < 2 * H ->
  - (H * (2 * H - 1)) <= a * b <= (H - 1) * (2 * H - 1).
Proof.
  intros HH Ha Hb.
  assert (M : forall x y X Y, 0 <= x <= X -> 0 <= y <= Y -> x * y <= X * Y)
    by (intros; apply Z.mul_le_mono_nonneg; lia).
  destruct (Z.le_gt_cases 0 a) as [Sa | Sa].
  - pose proof (M a b (H - 1) (2 * H - 1) ltac:(lia) ltac:(lia)).
    pose proof (Z.mul_nonneg_nonneg a b Sa ltac:(lia)). nia.
  - pose proof (M (- a) b H (2 * H - 1) ltac:(lia) ltac:(lia)).
    pose proof (Z.mul_nonneg_nonneg (- a) b ltac:(lia) ltac:(lia)). nia.
Qed.

Lemma mul_unsigned_bound (M a b : Z) :
  0 <= a < M -> 0 <= b < M -> 0 <= a * b <= (M - 1) * (M - 1).
Proof.
  intros Ha Hb. split.
  - apply Z.mul_nonneg_nonneg; lia.
  - apply Z.mul_le_mono_nonneg; lia.
Qed.

(** A product that fits the signed type of twice the width has its high
    half in the signed type of the width. *)
Lemma high_signed (w p : Z) (T : etype) :
  0 < w -> - 2 ^ (2 * w - 1) <= p < 2 ^ (2 * w - 1) -> conv T p = p ->
  swrap w (Z.shiftr (conv T p) w) = p / 2 ^ w.
Proof.
  intros Hw Hp Hc. rewrite Hc, Z.shiftr_div_pow2 by lia.
  pose proof (pow2_pos (w - 1) ltac:(lia)) as Hh.
  assert (E : 2 ^ (2 * w - 1) = 2 ^ w * 2 ^ (w - 1))
    by (rewrite <- Z.pow_add_r by lia; f_equal; lia).
  pose proof (pow2_pos w ltac:(lia)) as Hpw.
  apply swrap_small; [exact Hw |]. split.
  - apply Z.div_le_lower_bound; lia.
  - apply Z.div_lt_upper_bound; lia.
Qed.

Lemma high_unsigned (w p : Z) (T : etype) :
  0 < w -> 0 <= p < 2 ^ (2 * w) -> conv T p = p ->
  wrap w (Z.shiftr (conv T p) w) = p / 2 ^ w.
Proof.
  intros Hw Hp Hc. rewrite Hc, Z.shiftr_div_pow2 by lia.
  assert (E : 2 ^ (2 * w) = 2 ^ w * 2 ^ w)
    by (rewrite <- Z.pow_add_r by lia; f_equal; lia).
  pose proof (pow2_pos w ltac:(lia)) as Hpw.
  apply wrap_small. split.
  - apply Z.div_pos; lia.
  - apply Z.div_lt_upper_bound; lia.
Qed.

(** The same through the unsigned type of twice the width. *)
Lemma high_mixed (w p : Z) :
  0 < w -> - 2 ^ (2 * w - 1) <= p < 2 ^ (2 * w - 1) ->
  swrap w (Z.shiftr (conv (ET false (2 * w)) p) w) = p / 2 ^ w.
Proof.
  intros Hw Hp. unfold conv. cbn [et_signed et_bits].
  rewrite high_div_mod, swrap_wrap by lia.
  pose proof (pow2_pos (w - 1) ltac:(lia)) as Hh.
  assert (E : 2 ^ (2 * w - 1) = 2 ^ w * 2 ^ (w - 1))
    by (rewrite <- Z.pow_add_r by lia; f_equal; lia).
  pose proof (pow2_pos w ltac:(lia)) as Hpw.
  apply swrap_small; [exact Hw |]. split.
  - apply Z.div_le_lower_bound; lia.
  - apply Z.div_lt_upper_bound; lia.
Qed.

(** X9. High halves of products at the widths 8, 16 and 32: [do_mulh]
    (signed by signed), [do_mulhu] (unsigned by unsigned) and
    [do_mulhsu] (signed by unsigned) return floor(s2 * s1 / 2^w) of the
    exact product; the conversion of the signed operand of
    [do_mulhsu_h] and [do_mulhsu_w] to the unsigned type loses
    nothing. *)
Theorem mulh_high_half (w s2 s1 : Z) :
  w = 8 \/ w = 16 \/ w = 32 ->
  (in_range (ET true w) s2 -> in_range (ET true w) s1 ->
   do_mulh w s2 s1 = (s2 * s1) / 2 ^ w)
  /\ (in_range (ET false w) s2 -> in_range (ET false w) s1 ->
      do_mulhu w s2 s1 = (s2 * s1) / 2 ^ w)
  /\ (in_range (ET true w) s2 -> in_range (ET false w) s1 ->
      do_mulhsu w s2 s1 = (s2 * s1) / 2 ^ w).
Proof.
  intros Hw.
  assert (Hpos : 0 < w) by lia.
  pose proof (pow2_pos (w - 1) ltac:(lia)) as Hh.
  pose proof (pow2_half w Hpos) as Hhalf.
  split; [| split]; intros H2 H1.
  - apply in_range_signed in H2, H1.
    pose proof (Fixed.mul_signed_bound (2 ^ (w - 1)) s2 s1 Hh H2 H1)
      as [Hp _].
    unfold do_mulh.
    destruct Hw as [-> | [-> | ->]]; wide_pows.
    + change (promote (ET true (2 * 8))) with i32.
      apply high_signed; [lia | wide_pows; lia | apply conv_i32_small; lia].
    + change (promote (ET true (2 * 16))) with i32.
      apply high_signed; [lia | wide_pows; lia | apply conv_i32_small; lia].
    + change (promote (ET true (2 * 32))) with i64.
      apply high_signed;
        [lia | wide_pows; lia
         | apply conv_signed_small; [lia | wide_pows; lia]].
  - apply in_range_unsigned in H2, H1.
    pose proof (mul_unsigned_bound (2 ^ w) s2 s1 H2 H1) as Hp.
    unfold do_mulhu.
    destruct Hw as [-> | [-> | ->]]; wide_pows.
    + change (promote (ET false (2 * 8))) with i32.
      apply high_unsigned;
        [lia | wide_pows; lia | apply conv_i32_small; lia].
    + change (promote (ET false (2 * 16))) with u32.
      apply high_unsigned;
        [lia | wide_pows; lia
         | apply conv_unsigned_small; wide_pows; lia].
    + change (promote (ET false (2 * 32))) with u64.
      apply high_unsigned;
        [lia | wide_pows; lia
         | apply conv_unsigned_small; wide_pows; lia].
  - apply in_range_signed in H2. apply in_range_unsigned in H1.
    pose proof (mul_mixed_bound (2 ^ (w - 1)) s2 s1 Hh H2 ltac:(lia))
      as Hp.
    unfold do_mulhsu.
    destruct Hw as [-> | [-> | ->]]; wide_pows.
    + change (8 =? 8) with true. cbv iota.
      apply high_signed; [lia | wide_pows; lia | apply conv_i32_small; lia].
    + change (16 =? 8) with false. cbv iota.
      apply high_mixed; [lia | wide_pows; lia].
    + change (32 =? 8) with false. cbv iota.
      apply high_mixed; [lia | wide_pows; lia].
Qed.

(** X10. [do_mulhsu_d]: given a [mulu64] that returns the 128-bit
    product of two unsigned 64-bit numbers, subtracting the unsigned
    operand from the high word when the signed operand is negative yields
    floor(s2 * s1 / 2^64) of the exact signed-by-unsigned product. *)
Theorem mulhsu_d_high_half (mulu64 : Z -> Z -> Z * Z) (s2 s1 : Z) :
  (forall a b, 0 <= a < 2 ^ 64 -> 0 <= b < 2 ^ 64 ->
               mulu64 a b = mul128 a b) ->
  in_range i64 s2 -> in_range u64 s1 ->
  do_mulhsu_d mulu64 s2 s1 = (s2 * s1) / 2 ^ 64.
Proof.
  intros Hmul H2 H1.
  apply in_range_signed in H2. apply in_range_unsigned in H1.
  pose proof (mul_mixed_bound (2 ^ (64 - 1)) s2 s1
                ltac:(apply pow2_pos; lia) H2
                ltac:(concrete_pows; lia)) as Hp.
  concrete_pows.
  assert (Hq : - 9223372036854775808 <= s2 * s1 / 18446744073709551616
               < 9223372036854775808).
  { split.
    - apply Z.div_le_lower_bound; lia.
    - apply Z.div_lt_upper_bound; lia. }
  unfold do_mulhsu_d.
  assert (HA : uint64_t s2
               = if s2 <? 0 then s2 + 18446744073709551616 else s2).
  { unfold uint64_t, wrap. concrete_pows.
    destruct (Z.ltb_spec s2 0).
    - rewrite <- (Z.mod_add s2 1) by lia. apply Z.mod_small. lia.
    - apply Z.mod_small. lia. }
  rewrite Hmul by (rewrite ?HA; concrete_pows;
                   try destruct (Z.ltb_spec s2 0); lia).
  unfold mul128. cbn [snd]. rewrite HA. concrete_pows.
  unfold uint64_t. rewrite swrap_wrap.
  destruct (Z.ltb_spec s2 0) as [Hn | Hn].
  - replace ((s2 + 18446744073709551616) * s1)
      with (s2 * s1 + s1 * 18446744073709551616) by lia.
    rewrite Z.div_add by lia.
    replace (s2 * s1 / 18446744073709551616 + s1 - s1)
      with (s2 * s1 / 18446744073709551616) by lia.
    apply swrap_small; [lia | concrete_pows; lia].
  - rewrite Z.sub_0_r. apply swrap_small; [lia | concrete_pows; lia].
Qed.

End IntOps.

(** Boundary values of the carries and high products. *)
Module IntOpsExamples.
Import Elem IntOps.

(** 255 + 255 + 1 on bytes: carry 1, sum 255. *)
Lemma carry_borrow_exact_witness :
  DO_MADC 8 255 255 1 = (2 ^ 8 <=? 255 + 255 + 1)
  /\ DO_MSBC 255 255 1 = (255 - 255 - 1 <? 0)
  /\ 255 + 255 + 1 = 2 ^ 8 * b2z (DO_MADC 8 255 255 1) + DO_VADC 8 255 255 1
  /\ 255 - 255 - 1 = DO_VSBC 8 255 255 1 - 2 ^ 8 * b2z (DO_MSBC 255 255 1).
Proof.
  refine (carry_borrow_exact 8 255 255 1 _ _ _ _).
  - vm_compute. tauto.
  - vm_compute. split; discriminate.
  - vm_compute. split; discriminate.
  - lia.
Defined.

Example carry_borrow_runs :
  DO_MADC 8 255 0 1 = true /\ DO_MADC 8 255 0 0 = false
  /\ DO_MADC 64 (2 ^ 64 - 1) (2 ^ 64 - 1) 1 = true
  /\ DO_MSBC 0 0 1 = true /\ DO_MSBC 5 5 0 = false
  /\ DO_VADC 8 255 255 1 = 255 /\ DO_VSBC 8 0 0 1 = 255.
Proof. repeat split; reflexivity. Qed.

(** -1 times 0xffff on halfwords, through the unsigned 32-bit type. *)
Lemma mulh_high_half_witness :
  do_mulhsu 16 (-1) 65535 = (-1 * 65535) / 2 ^ 16.
Proof.
  refine (proj2 (proj2 (mulh_high_half 16 (-1) 65535 _)) _ _).
  - lia.
  - vm_compute. split; discriminate.
  - vm_compute. split; discriminate.
Defined.

Example mulh_runs :
  do_mulh_b (-128) (-128) = 64 /\ do_mulh_b (-128) 127 = -64
  /\ do_mulhu_b 255 255 = 254
  /\ do_mulhsu_b (-128) 255 = -128 /\ do_mulhsu_h (-1) 65535 = -1
  /\ do_mulhsu_w (- 2 ^ 31) (2 ^ 32 - 1) = - 2 ^ 31
  /\ do_mulhsu_w (2 ^ 31 - 1) (2 ^ 32 - 1) = 2 ^ 31 - 2.
Proof. repeat split; reflexivity. Qed.

(** -1 times the largest unsigned 64-bit number. *)
Lemma mulhsu_d_high_half_witness :
  do_mulhsu_d mul128 (-1) (2 ^ 64 - 1) = (-1 * (2 ^ 64 - 1)) / 2 ^ 64.
Proof.
  refine (mulhsu_d_high_half mul128 (-1) (2 ^ 64 - 1) _ _ _).
  - intros a b _ _. reflexivity.
  - vm_compute. split; discriminate.
  - vm_compute. split; discriminate.
Defined.

Example mulhsu_d_runs :
  do_mulhsu_d mul128 (-1) (2 ^ 64 - 1) = -1
  /\ do_mulhsu_d mul128 (- 2 ^ 63) (2 ^ 64 - 1) = - 2 ^ 63
  /\ do_mulhsu_d mul128 (2 ^ 63 - 1) (2 ^ 64 - 1) = 2 ^ 63 - 2.
Proof. repeat split; reflexivity. Qed.

End IntOpsExamples.

(* ===================================================================== *)
(** * Element-wise helpers: what each destination element becomes *)
(* ===================================================================== *)

Module Loop.
Import Elem VReg.

(** Register files that agree except on the elements [lo, i) of the
    register at [vd]: the same words outside those elements' words, the
    same bits in every other element of [vd]. *)
Definition same_but (bits vd lo i : Z) (f g : Z -> Z) : Prop :=
  (forall k, (forall j, lo <= j < i -> k <> elem_word bits vd j) -> f k = g k)
  /\ (forall j, j < lo \/ i <= j ->
                raw_elem bits f vd j = raw_elem bits g vd j).

(** The first [n] elements of the register at [vs] share no host word
    with the first [m] elements of the register at [vd]. *)
Definition apart (bits vs n vd m : Z) : Prop :=
  forall i j, 0 <= i < n -> 0 <= j < m ->
              elem_word bits vs i <> elem_word bits vd j.

(** A source operand is the destination itself or apart from it. *)
Definition src_ok (bits vs vd n : Z) : Prop :=
  vs = vd \/ apart bits vs n vd n.

(** The mask bits below [n] share no host word with the first [n]
    elements of the register at [vd]. *)
Definition mask_apart (bits v0 vd n : Z) : Prop :=
  forall i j, 0 <= i < n -> 0 <= j < n ->
              v0 + i / 64 <> elem_word bits vd j.

(** The bits an element-wise loop leaves in element [j] of the
    destination: those it had when the element is skipped, else the low
    bits of the value computed from the register file on entry. *)
Definition expected (td : etype) (vm v0 vd : Z) (val : Z -> (Z -> Z) -> Z)
    (f0 : Z -> Z) (j : Z) : Z :=
  if skipped vm f0 v0 j then raw_elem (et_bits td) f0 vd j
  else bitfield (val j f0) 0 (et_bits td).

Definition loop_inv (td : etype) (vm v0 vd lo hi : Z)
    (val : Z -> (Z -> Z) -> Z) (f0 : Z -> Z) (i : Z) (f : Z -> Z) : Prop :=
  same_but (et_bits td) vd lo i f0 f
  /\ (forall j, lo <= j < i ->
        raw_elem (et_bits td) f vd j = expected td vm v0 vd val f0 j)
  /\ (forall j, 0 <= j < hi -> skipped vm f v0 j = skipped vm f0 v0 j).

Section Desc.

Variable simd_data : Z -> Z.

(** [GEN_VEXT_VID_V]; the loop index is an [int]. *)
Definition GEN_VEXT_VID_V (t : etype) (vd v0 : Z) (env : CPURISCVState)
    (desc : Z) : CPURISCVState :=
  let vm := vext_vm simd_data desc in
  let vl := uint32_t (vl env) in
  set_vreg
    (for_loop (Z.to_nat vl) 0
       (fun i f => if skipped vm f v0 i then f
                   else st_elem t f vd (int32_t i) (conv t (int32_t i)))
       (vreg env)) env.

(** [GEN_VEXT_VMV_VV]. *)
Definition GEN_VEXT_VMV_VV (t : etype) (vd vs1 : Z) (env : CPURISCVState)
    (desc : Z) : CPURISCVState :=
  let vl := uint32_t (vl env) in
  set_vreg
    (for_loop (Z.to_nat vl) 0
       (fun i f => let s1 := ld_elem t f vs1 i in st_elem t f vd i s1)
       (vreg env)) env.

(** [GEN_VEXT_VMV_VX]; [s1] is a [uint64_t]. *)
Definition GEN_VEXT_VMV_VX (t : etype) (vd s1 : Z) (env : CPURISCVState)
    (desc : Z) : CPURISCVState :=
  let vl := uint32_t (vl env) in
  set_vreg
    (for_loop (Z.to_nat vl) 0
       (fun i f => st_elem t f vd i (conv t (uint64_t s1)))
       (vreg env)) env.

(** [GEN_VEXT_VMERGE_VV]. *)
Definition GEN_VEXT_VMERGE_VV (t : etype) (vd v0 vs1 vs2 : Z)
    (env : CPURISCVState) (desc : Z) : CPURISCVState :=
  let vl := uint32_t (vl env) in
  set_vreg
    (for_loop (Z.to_nat vl) 0
       (fun i f =>
          let vt := if vext_elem_mask f v0 (int32_t i) =? 0
                    then vs2 else vs1 in
          st_elem t f vd i (ld_elem t f vt i))
       (vreg env)) env.

(** [GEN_VEXT_VMERGE_VX]; the scalar is converted through
    [target_long]. *)
Definition GEN_VEXT_VMERGE_VX (t : etype) (vd v0 s1 vs2 : Z)
    (env : CPURISCVState) (desc : Z) : CPURISCVState :=
  let vl := uint32_t (vl env) in
  set_vreg
    (for_loop (Z.to_nat vl) 0
       (fun i f =>
          let s2 := ld_elem t f vs2 i in
          let d := if vext_elem_mask f v0 (int32_t i) =? 0 then s2
                   else conv t (swrap TARGET_LONG_BITS (target_ulong s1)) in
          st_elem t f vd i d)
       (vreg env)) env.

(** [GEN_VEXT_VADC_VVM]: the mask bit is the carry, no element is
    skipped. *)
Definition GEN_VEXT_VADC_VVM (t : etype) (DO_OP : Z -> Z -> Z -> Z)
    (vd v0 vs1 vs2 : Z) (env : CPURISCVState) (desc : Z) : CPURISCVState :=
  let vl := uint32_t (vl env) in
  set_vreg
    (for_loop (Z.to_nat vl) 0
       (fun i f =>
          let s1 := ld_elem t f vs1 i in
          let s2 := ld_elem t f vs2 i in
          let carry := uint8_t (vext_elem_mask f v0 (int32_t i)) in
          st_elem t f vd i (conv t (DO_OP s2 s1 carry)))
       (vreg env)) env.

Definition vadc_vvm (w : Z) :=
  GEN_VEXT_VADC_VVM (ET false w) (IntOps.DO_VADC w).
Definition vsbc_vvm (w : Z) :=
  GEN_VEXT_VADC_VVM (ET false w) (IntOps.DO_VSBC w).

(** [GEN_VEXT_VSLIDEUP_VX]: [offset] and the loop index are
    [target_ulong]s, the loop starts at [offset]. *)
Definition GEN_VEXT_VSLIDEUP_VX (t : etype) (vd v0 s1 vs2 : Z)
    (env : CPURISCVState) (desc : Z) : CPURISCVState :=
  let vm := vext_vm simd_data desc in
  let vl := uint32_t (vl env) in
  let offset := target_ulong s1 in
  set_vreg
    (for_loop (Z.to_nat (vl - offset)) offset
       (fun i f => if skipped vm f v0 i then f
                   else st_elem t f vd i
                          (ld_elem t f vs2 (target_ulong (i - offset))))
       (vreg env)) env.

(** [GEN_VEXT_VSLIDEDOWN_VX]: the source index [j] is a
    [target_ulong] and is compared with [cfg.vlen]. *)
Definition GEN_VEXT_VSLIDEDOWN_VX (t : etype) (cfg : RISCVCPUConfig)
    (vd v0 s1 vs2 : Z) (env : CPURISCVState) (desc : Z) : CPURISCVState :=
  let vlmax := uint32_t (cfg_vlen cfg) in
  let vm := vext_vm simd_data desc in
  let vl := uint32_t (vl env) in
  let offset := target_ulong s1 in
  set_vreg
    (for_loop (Z.to_nat vl) 0
       (fun i f =>
          let j := target_ulong (i + offset) in
          if skipped vm f v0 i then f
          else st_elem t f vd i
                 (if vlmax <=? j then 0 else ld_elem t f vs2 j))
       (vreg env)) env.

(** [GEN_VEXT_VSLIDE1UP_VX]. *)
Definition GEN_VEXT_VSLIDE1UP_VX (t : etype) (vd v0 s1 vs2 : Z)
    (env : CPURISCVState) (desc : Z) : CPURISCVState :=
  let vm := vext_vm simd_data desc in
  let vl := uint32_t (vl env) in
  set_vreg
    (for_loop (Z.to_nat vl) 0
       (fun i f => if skipped vm f v0 i then f
                   else if i =? 0 then st_elem t f vd i (conv t s1)
                   else st_elem t f vd i (ld_elem t f vs2 (i - 1)))
       (vreg env)) env.

(** [GEN_VEXT_VSLIDE1DOWN_VX]. *)
Definition GEN_VEXT_VSLIDE1DOWN_VX (t : etype) (vd v0 s1 vs2 : Z)
    (env : CPURISCVState) (desc : Z) : CPURISCVState :=
  let vm := vext_vm simd_data desc in
  let vl := uint32_t (vl env) in
  set_vreg
    (for_loop (Z.to_nat vl) 0
       (fun i f => if skipped vm f v0 i then f
                   else if i =? uint32_t (vl - 1)
                        then st_elem t f vd i (conv t s1)
                        else st_elem t f vd i (ld_elem t f vs2 (i + 1)))
       (vreg env)) env.

End Desc.

(** ** Loops *)

Lemma for_loop_ext {S : Type} (body1 body2 : Z -> S -> S) (n : nat) :
  forall (i0 : Z) (s : S),
    (forall i s', i0 <= i < i0 + Z.of_nat n -> body1 i s' = body2 i s') ->
    for_loop n i0 body1 s = for_loop n i0 body2 s.
Proof.
  induction n as [| n IH]; intros i0 s H; simpl for_loop; [reflexivity |].
  rewrite H by lia. apply IH. intros i s' Hi. apply H. lia.
Qed.

(** Reading back the element just stored. *)
Lemma raw_elem_st_same (t : etype) (f : Z -> Z) (v i x : Z) :
  std_width (et_bits t) ->
  raw_elem (et_bits t) (st_elem t f v i x) v i = bitfield x 0 (et_bits t).
Proof.
  intros Hw. unfold raw_elem, st_elem. rewrite upd_same.
  pose proof (elem_pos_bounds (et_bits t) i Hw).
  pose proof (std_width_pos _ Hw).
  apply bitfield_deposit64_same; lia.
Qed.

Lemma conv_idem (t : etype) (x : Z) :
  0 <= et_bits t -> conv t (conv t x) = conv t x.
Proof.
  intros Hw. unfold conv. destruct (et_signed t).
  - now apply Fixed.swrap_idem.
  - unfold wrap. apply Z.mod_mod. pose proof (pow2_pos _ Hw). lia.
Qed.

Lemma conv_bitfield (t : etype) (x : Z) :
  0 <= et_bits t -> conv t (bitfield x 0 (et_bits t)) = conv t x.
Proof.
  intros Hw. rewrite bitfield_low by exact Hw.
  unfold conv. destruct (et_signed t).
  - apply IntOps.swrap_wrap.
  - unfold wrap. apply Z.mod_mod. pose proof (pow2_pos _ Hw). lia.
Qed.

(** Reading a source element in a register file changed only in
    destination elements already written: an element of a register apart
    from those, or a later element of the destination itself. *)
Lemma raw_apart (bits bits' vd vs lo i k : Z) (f0 f : Z -> Z) :
  same_but bits vd lo i f0 f ->
  (forall j, lo <= j < i -> elem_word bits' vs k <> elem_word bits vd j) ->
  raw_elem bits' f vs k = raw_elem bits' f0 vs k.
Proof.
  intros [Hwords _] Hk. unfold raw_elem. now rewrite <- (Hwords _ Hk).
Qed.

Lemma ld_src_ok (t : etype) (vs vd n i : Z) (f0 f : Z -> Z) :
  same_but (et_bits t) vd 0 i f0 f -> src_ok (et_bits t) vs vd n ->
  0 <= i < n -> ld_elem t f vs i = ld_elem t f0 vs i.
Proof.
  intros Hs [-> | Hap] Hi; unfold ld_elem; f_equal.
  - destruct Hs as [_ Hrest]. symmetry. apply Hrest. lia.
  - apply (raw_apart _ _ vd vs 0 i i f0 f Hs).
    intros j Hj. apply Hap; lia.
Qed.

Lemma mask_same (bits v0 vd n lo i : Z) (f0 f : Z -> Z) :
  same_but bits vd lo i f0 f -> mask_apart bits v0 vd n ->
  0 <= lo -> 0 <= i < n ->
  vext_elem_mask f v0 i = vext_elem_mask f0 v0 i.
Proof.
  intros [Hwords _] Hap Hlo Hi.
  rewrite !vext_elem_mask_bitfield by lia.
  rewrite <- (Hwords (v0 + i / 64)); [reflexivity |].
  intros j Hj. apply Hap; lia.
Qed.

Section Values.

Variables (td : etype) (vm v0 vd lo hi : Z).
Variable val : Z -> (Z -> Z) -> Z.
Variable f0 : Z -> Z.

Hypothesis Hw : std_width (et_bits td).
Hypothesis Hlo : 0 <= lo.
Hypothesis Hhi : hi <= 2 ^ 31.
Hypothesis Hdis : vm = 0 -> mask_apart (et_bits td) v0 vd hi.

(** The value computed for element [i] does not depend on the elements
    of the destination written before it. *)
Hypothesis Hval :
  forall i f, lo <= i < hi -> same_but (et_bits td) vd lo i f0 f ->
              val i f = val i f0.

Lemma inv_init : loop_inv td vm v0 vd lo hi val f0 lo f0.
Proof.
  repeat split; intros; reflexivity || lia.
Qed.

Lemma inv_step (i : Z) (f : Z -> Z) :
  lo <= i < hi ->
  loop_inv td vm v0 vd lo hi val f0 i f ->
  loop_inv td vm v0 vd lo hi val f0 (i + 1) (step td vm v0 vd val i f).
Proof.
  intros Hi ([Hwords Hrest] & Hdone & Hsk).
  assert (Hi' : 0 <= i < hi) by lia.
  split; [split |]; [| | split].
  - intros k Hk. rewrite (Hwords k) by (intros j Hj; apply Hk; lia).
    unfold step. destruct (skipped vm f v0 i); [reflexivity |].
    rewrite int32_t_id by lia. symmetry. apply st_elem_word.
    apply Hk. lia.
  - intros j Hj. rewrite (Hrest j) by lia. symmetry.
    apply (step_raw td vm v0 vd hi val Hw Hhi); [exact Hi' | left; lia].
  - intros j Hj. destruct (Z.eq_dec j i) as [-> | Hne].
    + unfold expected, step. rewrite <- (Hsk i Hi').
      destruct (skipped vm f v0 i) eqn:E.
      * symmetry. apply Hrest. lia.
      * rewrite int32_t_id by lia. rewrite raw_elem_st_same by exact Hw.
        f_equal. apply Hval; [exact Hi | split; assumption].
    + rewrite <- (Hdone j) by lia.
      apply (step_raw td vm v0 vd hi val Hw Hhi); [exact Hi' | left; exact Hne].
  - intros j Hj. rewrite <- (Hsk j Hj).
    apply (step_skipped td vm v0 vd hi val Hhi Hdis); lia.
Qed.

Lemma inv_loop (n : nat) :
  forall (i : Z) (f : Z -> Z),
    lo <= i -> i + Z.of_nat n <= hi ->
    loop_inv td vm v0 vd lo hi val f0 i f ->
    loop_inv td vm v0 vd lo hi val f0 (i + Z.of_nat n)
      (for_loop n i (step td vm v0 vd val) f).
Proof.
  induction n as [| n IH]; intros i f Hi Hn Hinv; simpl for_loop.
  - replace (i + Z.of_nat 0) with i by lia. exact Hinv.
  - replace (i + Z.of_nat (S n)) with (i + 1 + Z.of_nat n) by lia.
    apply IH; [lia | lia |]. apply inv_step; [lia | exact Hinv].
Qed.

(** After the loop over [lo, hi): the elements in range hold the
    expected bits, every other element of the destination and every host
    word outside the elements in range is as before. *)
Lemma loop_values :
  lo <= hi ->
  let f := for_loop (Z.to_nat (hi - lo)) lo (step td vm v0 vd val) f0 in
  (forall j, lo <= j < hi ->
     raw_elem (et_bits td) f vd j = expected td vm v0 vd val f0 j)
  /\ (forall j, j < lo \/ hi <= j ->
        raw_elem (et_bits td) f vd j = raw_elem (et_bits td) f0 vd j)
  /\ (forall k, (forall j, lo <= j < hi -> k <> elem_word (et_bits td) vd j) ->
        f k = f0 k).
Proof.
  intros Hle f.
  pose proof (inv_loop (Z.to_nat (hi - lo)) lo f0 ltac:(lia) ltac:(lia)
                inv_init) as ([Hwords Hrest] & Hdone & _).
  replace (lo + Z.of_nat (Z.to_nat (hi - lo))) with hi in * by lia.
  fold f in Hwords, Hrest, Hdone.
  split; [exact Hdone |]. split.
  - intros j Hj. symmetry. now apply Hrest.
  - intros k Hk. symmetry. now apply Hwords.
Qed.

(** The same on the elements read at the destination type. *)
Lemma loop_ld :
  lo <= hi ->
  let f := for_loop (Z.to_nat (hi - lo)) lo (step td vm v0 vd val) f0 in
  forall j, lo <= j < hi ->
    ld_elem td f vd j
    = if skipped vm f0 v0 j then ld_elem td f0 vd j else conv td (val j f0).
Proof.
  intros Hle f j Hj. destruct (loop_values Hle) as [Hv _].
  unfold ld_elem. fold f in Hv. rewrite (Hv j Hj). unfold expected.
  destruct (skipped vm f0 v0 j); [reflexivity |].
  apply conv_bitfield. pose proof (std_width_pos _ Hw). lia.
Qed.

End Values.

(** An element-wise loop changes no host word outside the elements it
    runs over, whatever it stores. *)
Lemma loop_words (td : etype) (vm v0 vd : Z) (val : Z -> (Z -> Z) -> Z)
    (k : Z) (n : nat) :
  forall (i0 : Z) (f : Z -> Z),
    0 <= i0 -> i0 + Z.of_nat n <= 2 ^ 31 ->
    (forall j, i0 <= j < i0 + Z.of_nat n -> k <> elem_word (et_bits td) vd j) ->
    for_loop n i0 (step td vm v0 vd val) f k = f k.
Proof.
  induction n as [| n IH]; intros i0 f Hi0 Hn Hk; simpl for_loop;
    [reflexivity |].
  rewrite IH by (try lia; intros j Hj; apply Hk; lia).
  unfold step. destruct (skipped vm f v0 i0); [reflexivity |].
  rewrite int32_t_id by lia. apply st_elem_word. apply Hk. lia.
Qed.

(** ** Loops whose source may overlap the destination *)

Lemma for_loop_app {A : Type} (body : Z -> A -> A) (n m : nat) :
  forall (i : Z) (s : A),
    for_loop (n + m) i body s
    = for_loop m (i + Z.of_nat n) body (for_loop n i body s).
Proof.
  induction n as [| n IH]; intros i s.
  - simpl. now rewrite Z.add_0_r.
  - change (for_loop (S n + m) i body s)
      with (for_loop (n + m) (i + 1) body (body i s)).
    rewrite IH. simpl for_loop. f_equal. lia.
Qed.

(** Element [j] of the register at [vs] is element
    [j + (vs - vd) * (64 / bits)] of the register at [vd]: registers are
    offsets into one array of host words. *)
Lemma elem_alias (bits vs vd j : Z) :
  std_width bits ->
  elem_word bits vs j = elem_word bits vd (j + (vs - vd) * (64 / bits))
  /\ elem_pos bits j = elem_pos bits (j + (vs - vd) * (64 / bits)).
Proof.
  intros Hw. unfold elem_word, elem_pos.
  width_cases Hw;
    [change (64 / 8) with 8 | change (64 / 16) with 4
     | change (64 / 32) with 2 | change (64 / 64) with 1];
    split; Z.div_mod_to_equations; lia.
Qed.

Lemma raw_elem_alias (bits vs vd j : Z) (f : Z -> Z) :
  std_width bits ->
  raw_elem bits f vs j = raw_elem bits f vd (j + (vs - vd) * (64 / bits)).
Proof.
  intros Hw. destruct (elem_alias bits vs vd j Hw) as [Ew Ep].
  unfold raw_elem. now rewrite Ew, Ep.
Qed.

Section Current.

Variables (td : etype) (vm v0 vd hi : Z).
Variable val : Z -> (Z -> Z) -> Z.
Variable f0 : Z -> Z.

Hypothesis Hw : std_width (et_bits td).
Hypothesis Hhi : hi <= 2 ^ 31.
Hypothesis Hdis : vm = 0 -> mask_apart (et_bits td) v0 vd hi.

(** Element [j] after the loop over [0, hi), in terms of the register
    file [fj] the loop has reached when it comes to [j]: in [fj] the
    destination elements below [j] already hold their final bits, and
    everything else is as on entry. *)
Lemma loop_current (j : Z) :
  0 <= j < hi ->
  let F := for_loop (Z.to_nat hi) 0 (step td vm v0 vd val) f0 in
  let fj := for_loop (Z.to_nat j) 0 (step td vm v0 vd val) f0 in
  raw_elem (et_bits td) F vd j
  = (if skipped vm f0 v0 j then raw_elem (et_bits td) f0 vd j
     else bitfield (val j fj) 0 (et_bits td))
  /\ (forall i, 0 <= i < j ->
        raw_elem (et_bits td) fj vd i = raw_elem (et_bits td) F vd i)
  /\ (forall i, i < 0 \/ j <= i ->
        raw_elem (et_bits td) fj vd i = raw_elem (et_bits td) f0 vd i)
  /\ (forall k, (forall i, 0 <= i < j -> k <> elem_word (et_bits td) vd i) ->
        fj k = f0 k).
Proof.
  intros Hj F fj.
  assert (EF : F = for_loop (Z.to_nat (hi - j - 1)) (j + 1)
                     (step td vm v0 vd val) (step td vm v0 vd val j fj)).
  { unfold F.
    replace (Z.to_nat hi)
      with (Z.to_nat j + S (Z.to_nat (hi - j - 1)))%nat by lia.
    rewrite for_loop_app. simpl for_loop.
    rewrite Z2Nat.id by lia. reflexivity. }
  destruct (loop_frame td vm v0 vd hi val Hw Hhi Hdis (Z.to_nat j) 0 f0
              ltac:(lia) ltac:(lia)) as [Sj Rj].
  fold fj in Sj, Rj.
  destruct (loop_frame td vm v0 vd hi val Hw Hhi Hdis
              (Z.to_nat (hi - j - 1)) (j + 1) (step td vm v0 vd val j fj)
              ltac:(lia) ltac:(lia)) as [_ R1].
  rewrite <- EF in R1.
  split; [| split; [| split]].
  - rewrite R1 by lia. unfold step. rewrite (Sj j Hj).
    destruct (skipped vm f0 v0 j).
    + apply Rj. lia.
    + rewrite int32_t_id by lia. now apply raw_elem_st_same.
  - intros i Hi. rewrite R1 by lia. symmetry.
    apply (step_raw td vm v0 vd hi val Hw Hhi); [lia | left; lia].
  - intros i Hi. apply Rj. lia.
  - intros k Hk.
    apply (loop_words td vm v0 vd val k (Z.to_nat j) 0 f0); try lia.
    intros i Hi. apply Hk. lia.
Qed.

End Current.

(** ** The helpers *)

Lemma ld_conv (t : etype) (f : Z -> Z) (v i : Z) :
  0 <= et_bits t -> conv t (ld_elem t f v i) = ld_elem t f v i.
Proof. intros Hw. unfold ld_elem. now apply conv_idem. Qed.

(** X11. Element-wise semantics of a two-operand arithmetic helper
    ([do_vext_vv] over an [OPIVV2] element function of one element type,
    e.g. vadd_vv, vsub_vv, vand_vv).  When each source register is the
    destination itself or shares no host word with it, and the mask
    register is apart from the destination, every active element below
    vl becomes OP of the two source elements as they were on entry
    (so the operation may be done in place), every masked-off element
    keeps its value, and no host word outside the destination's first
    vl elements changes. *)
Theorem do_vext_vv_elementwise
    (simd_data : Z -> Z) (t : etype) (OP : Z -> Z -> Z)
    (vd v0 vs1 vs2 : Z) (env : CPURISCVState) (desc : Z) :
  let vm := vext_vm simd_data desc in
  let f' := vreg (do_vext_vv simd_data vd v0 vs1 vs2 env desc
                    (OP_SSS t OP)) in
  std_width (et_bits t) -> 0 <= vl env <= 2 ^ 31 ->
  (vm = 0 -> mask_apart (et_bits t) v0 vd (vl env)) ->
  src_ok (et_bits t) vs1 vd (vl env) ->
  src_ok (et_bits t) vs2 vd (vl env) ->
  (forall j, 0 <= j < vl env ->
     ld_elem t f' vd j
     = if skipped vm (vreg env) v0 j then ld_elem t (vreg env) vd j
       else conv t (OP (ld_elem t (vreg env) vs2 j)
                       (ld_elem t (vreg env) vs1 j)))
  /\ (forall k, (forall j, 0 <= j < vl env ->
                           k <> elem_word (et_bits t) vd j) ->
                f' k = vreg env k).
Proof.
  intros vm f' Hw Hvl Hdis H1 H2.
  pose proof (std_width_pos _ Hw) as Hpos.
  assert (Hu : uint32_t (vl env) = vl env) by (apply uint32_t_id; lia).
  pose (val := fun (i : Z) (f : Z -> Z) =>
                 conv t (OP (conv t (ld_elem t f vs2 (int32_t i)))
                            (conv t (ld_elem t f vs1 (int32_t i))))).
  assert (Ef : f' = for_loop (Z.to_nat (vl env - 0)) 0
                      (step t vm v0 vd val) (vreg env)).
  { unfold f', do_vext_vv. simpl vreg. fold vm.
    rewrite Hu, Z.sub_0_r. reflexivity. }
  assert (Hval : forall i f, 0 <= i < vl env ->
            same_but (et_bits t) vd 0 i (vreg env) f ->
            val i f = val i (vreg env)).
  { intros i f Hi Hs. unfold val. rewrite int32_t_id by lia.
    rewrite (ld_src_ok t vs1 vd (vl env) i _ f Hs H1 Hi).
    rewrite (ld_src_ok t vs2 vd (vl env) i _ f Hs H2 Hi).
    reflexivity. }
  split.
  - intros j Hj. rewrite Ef.
    rewrite (loop_ld t vm v0 vd 0 (vl env) val (vreg env) Hw
               ltac:(lia) ltac:(lia) Hdis Hval ltac:(lia) j Hj).
    destruct (skipped vm (vreg env) v0 j); [reflexivity |].
    unfold val. rewrite int32_t_id by lia.
    rewrite conv_idem, !ld_conv by lia. reflexivity.
  - intros k Hk. rewrite Ef.
    apply (loop_values t vm v0 vd 0 (vl env) val (vreg env) Hw
             ltac:(lia) ltac:(lia) Hdis Hval ltac:(lia)).
    exact Hk.
Qed.

(** X12. [vid.v]: every active element j below vl receives its own
    index j (truncated to the element width), every masked-off element
    keeps its value. *)
Theorem vid_v_index
    (simd_data : Z -> Z) (t : etype) (vd v0 : Z) (env : CPURISCVState)
    (desc : Z) :
  let vm := vext_vm simd_data desc in
  let f' := vreg (GEN_VEXT_VID_V simd_data t vd v0 env desc) in
  std_width (et_bits t) -> 0 <= vl env <= 2 ^ 31 ->
  (vm = 0 -> mask_apart (et_bits t) v0 vd (vl env)) ->
  forall j, 0 <= j < vl env ->
    ld_elem t f' vd j
    = if skipped vm (vreg env) v0 j then ld_elem t (vreg env) vd j
      else conv t j.
Proof.
  intros vm f' Hw Hvl Hdis j Hj.
  pose proof (std_width_pos _ Hw) as Hpos.
  assert (Hu : uint32_t (vl env) = vl env) by (apply uint32_t_id; lia).
  pose (val := fun (i : Z) (f : Z -> Z) => conv t (int32_t i)).
  assert (Ef : f' = for_loop (Z.to_nat (vl env - 0)) 0
                      (step t vm v0 vd val) (vreg env)).
  { unfold f', GEN_VEXT_VID_V. simpl vreg. fold vm.
    rewrite Hu, Z.sub_0_r. reflexivity. }
  rewrite Ef.
  rewrite (loop_ld t vm v0 vd 0 (vl env) val (vreg env) Hw
             ltac:(lia) ltac:(lia) Hdis ltac:(reflexivity) ltac:(lia) j Hj).
  destruct (skipped vm (vreg env) v0 j); [reflexivity |].
  unfold val. rewrite int32_t_id by lia. apply conv_idem. lia.
Qed.

(** A loop that skips no element is the masked loop with [vm = 1]. *)
Lemma unmasked_loop (t : etype) (vd v0 n : Z) (val : Z -> (Z -> Z) -> Z)
    (f0 : Z -> Z) :
  n <= 2 ^ 31 ->
  for_loop (Z.to_nat n) 0 (fun i f => st_elem t f vd i (val i f)) f0
  = for_loop (Z.to_nat (n - 0)) 0 (step t 1 v0 vd val) f0.
Proof.
  intros Hn. rewrite Z.sub_0_r. apply for_loop_ext.
  intros i f Hi. unfold step, skipped. cbn [Z.eqb andb].
  rewrite int32_t_id by lia. reflexivity.
Qed.

Lemma no_mask (P : Prop) : 1 = 0 -> P.
Proof. intros H. discriminate H. Qed.

(** Truncation of a 64-bit scalar to the element type. *)
Lemma conv_wrap64 (t : etype) (x : Z) :
  0 <= et_bits t <= 64 -> conv t (wrap 64 x) = conv t x.
Proof.
  intros Hw. unfold conv, swrap, wrap. destruct (et_signed t).
  - f_equal.
    rewrite <- (Zplus_mod_idemp_l (x mod 2 ^ 64)),
      <- (Zplus_mod_idemp_l x).
    now rewrite Fixed.mod_mod_pow2 by lia.
  - apply Fixed.mod_mod_pow2. lia.
Qed.

Lemma conv_swrap64 (t : etype) (x : Z) :
  0 <= et_bits t <= 64 -> conv t (swrap 64 x) = conv t x.
Proof.
  intros Hw. rewrite <- (conv_wrap64 t (swrap 64 x)) by exact Hw.
  rewrite Fixed.wrap_swrap. now apply conv_wrap64.
Qed.

Lemma std_width_le (w : Z) : std_width w -> 0 <= w <= 64.
Proof. unfold std_width. lia. Qed.

(** X13. Whole-register moves: [vmv.v.v] copies the first vl elements
    of the source (which may be the destination itself or a register
    sharing no host word with it) and [vmv.v.x] writes the scalar,
    truncated to the element width, to the first vl elements; no host
    word outside those elements changes. *)
Theorem vmv_copies
    (t : etype) (vd vs1 s1 : Z) (env : CPURISCVState) (desc : Z) :
  let fv := vreg (GEN_VEXT_VMV_VV t vd vs1 env desc) in
  let fx := vreg (GEN_VEXT_VMV_VX t vd s1 env desc) in
  std_width (et_bits t) -> 0 <= vl env <= 2 ^ 31 ->
  (src_ok (et_bits t) vs1 vd (vl env) ->
   forall j, 0 <= j < vl env ->
             ld_elem t fv vd j = ld_elem t (vreg env) vs1 j)
  /\ (forall j, 0 <= j < vl env -> ld_elem t fx vd j = conv t s1)
  /\ (forall k, (forall j, 0 <= j < vl env ->
                           k <> elem_word (et_bits t) vd j) ->
                fv k = vreg env k /\ fx k = vreg env k).
Proof.
  intros fv fx Hw Hvl.
  pose proof (std_width_le _ Hw) as Hle.
  assert (Hu : uint32_t (vl env) = vl env) by (apply uint32_t_id; lia).
  pose (valv := fun (i : Z) (f : Z -> Z) => ld_elem t f vs1 i).
  pose (valx := fun (i : Z) (f : Z -> Z) => conv t (uint64_t s1)).
  assert (Ev : fv = for_loop (Z.to_nat (vl env - 0)) 0
                      (step t 1 0 vd valv) (vreg env)).
  { unfold fv, GEN_VEXT_VMV_VV. simpl vreg. rewrite Hu.
    apply (unmasked_loop t vd 0 (vl env) valv). lia. }
  assert (Ex : fx = for_loop (Z.to_nat (vl env - 0)) 0
                      (step t 1 0 vd valx) (vreg env)).
  { unfold fx, GEN_VEXT_VMV_VX. simpl vreg. rewrite Hu.
    apply (unmasked_loop t vd 0 (vl env) valx). lia. }
  assert (Hvalx : forall i f, 0 <= i < vl env ->
            same_but (et_bits t) vd 0 i (vreg env) f ->
            valx i f = valx i (vreg env)) by reflexivity.
  split; [| split].
  - intros H1 j Hj.
    assert (Hvalv : forall i f, 0 <= i < vl env ->
              same_but (et_bits t) vd 0 i (vreg env) f ->
              valv i f = valv i (vreg env)).
    { intros i f Hi Hs. apply (ld_src_ok t vs1 vd (vl env) i _ f Hs H1 Hi). }
    rewrite Ev.
    rewrite (loop_ld t 1 0 vd 0 (vl env) valv (vreg env) Hw
               ltac:(lia) ltac:(lia) (no_mask _) Hvalv ltac:(lia) j Hj).
    unfold skipped. cbn [Z.eqb andb]. apply ld_conv. lia.
  - intros j Hj. rewrite Ex.
    rewrite (loop_ld t 1 0 vd 0 (vl env) valx (vreg env) Hw
               ltac:(lia) ltac:(lia) (no_mask _) Hvalx ltac:(lia) j Hj).
    unfold skipped. cbn [Z.eqb andb]. unfold valx.
    rewrite conv_idem by lia. apply conv_wrap64. lia.
  - intros k Hk. split.
    + rewrite Ev. apply loop_words; [lia | lia |].
      intros j Hj. apply Hk. lia.
    + rewrite Ex. apply loop_words; [lia | lia |].
      intros j Hj. apply Hk. lia.
Qed.

Lemma mask_bit_range (f : Z -> Z) (v0 i : Z) :
  0 <= vext_elem_mask f v0 i <= 1.
Proof.
  unfold vext_elem_mask.
  set (x := Z.shiftr _ _).
  change (Z.land x 1) with (Z.land x (Z.ones 1)).
  rewrite Z.land_ones by lia. change (2 ^ 1) with 2.
  pose proof (Z.mod_pos_bound x 2 ltac:(lia)). lia.
Qed.

(** X14. [vmerge.vvm] and [vmerge.vxm]: with the mask register apart
    from the destination and each source register the destination itself
    or apart from it, element j below vl becomes the element of vs2 where
    mask bit j is 0 and the element of vs1 (the scalar, truncated to the
    element width) where it is 1. *)
Theorem vmerge_selects
    (t : etype) (vd v0 vs1 s1 vs2 : Z) (env : CPURISCVState) (desc : Z) :
  let fv := vreg (GEN_VEXT_VMERGE_VV t vd v0 vs1 vs2 env desc) in
  let fx := vreg (GEN_VEXT_VMERGE_VX t vd v0 s1 vs2 env desc) in
  std_width (et_bits t) -> 0 <= vl env <= 2 ^ 31 ->
  mask_apart (et_bits t) v0 vd (vl env) ->
  src_ok (et_bits t) vs2 vd (vl env) ->
  (src_ok (et_bits t) vs1 vd (vl env) ->
   forall j, 0 <= j < vl env ->
     ld_elem t fv vd j
     = if vext_elem_mask (vreg env) v0 j =? 0
       then ld_elem t (vreg env) vs2 j else ld_elem t (vreg env) vs1 j)
  /\ (forall j, 0 <= j < vl env ->
        ld_elem t fx vd j
        = if vext_elem_mask (vreg env) v0 j =? 0
          then ld_elem t (vreg env) vs2 j else conv t s1).
Proof.
  intros fv fx Hw Hvl Hm H2.
  pose proof (std_width_le _ Hw) as Hle.
  assert (Hu : uint32_t (vl env) = vl env) by (apply uint32_t_id; lia).
  pose (valv := fun (i : Z) (f : Z -> Z) =>
                  ld_elem t f (if vext_elem_mask f v0 (int32_t i) =? 0
                               then vs2 else vs1) i).
  pose (valx := fun (i : Z) (f : Z -> Z) =>
                  if vext_elem_mask f v0 (int32_t i) =? 0
                  then ld_elem t f vs2 i
                  else conv t (swrap TARGET_LONG_BITS (target_ulong s1))).
  assert (Ev : fv = for_loop (Z.to_nat (vl env - 0)) 0
                      (step t 1 0 vd valv) (vreg env)).
  { unfold fv, GEN_VEXT_VMERGE_VV. simpl vreg. rewrite Hu.
    apply (unmasked_loop t vd 0 (vl env) valv). lia. }
  assert (Ex : fx = for_loop (Z.to_nat (vl env - 0)) 0
                      (step t 1 0 vd valx) (vreg env)).
  { unfold fx, GEN_VEXT_VMERGE_VX. simpl vreg. rewrite Hu.
    apply (unmasked_loop t vd 0 (vl env) valx). lia. }
  split.
  - intros H1 j Hj.
    assert (Hvalv : forall i f, 0 <= i < vl env ->
              same_but (et_bits t) vd 0 i (vreg env) f ->
              valv i f = valv i (vreg env)).
    { intros i f Hi Hs. unfold valv. rewrite int32_t_id by lia.
      rewrite (mask_same _ v0 vd (vl env) 0 i _ f Hs Hm) by lia.
      destruct (vext_elem_mask (vreg env) v0 i =? 0).
      - apply (ld_src_ok t vs2 vd (vl env) i _ f Hs H2 Hi).
      - apply (ld_src_ok t vs1 vd (vl env) i _ f Hs H1 Hi). }
    rewrite Ev.
    rewrite (loop_ld t 1 0 vd 0 (vl env) valv (vreg env) Hw
               ltac:(lia) ltac:(lia) (no_mask _) Hvalv ltac:(lia) j Hj).
    unfold skipped. cbn [Z.eqb andb]. unfold valv.
    rewrite int32_t_id by lia. rewrite ld_conv by lia.
    destruct (vext_elem_mask (vreg env) v0 j =? 0); reflexivity.
  - intros j Hj.
    assert (Hvalx : forall i f, 0 <= i < vl env ->
              same_but (et_bits t) vd 0 i (vreg env) f ->
              valx i f = valx i (vreg env)).
    { intros i f Hi Hs. unfold valx. rewrite int32_t_id by lia.
      rewrite (mask_same _ v0 vd (vl env) 0 i _ f Hs Hm) by lia.
      destruct (vext_elem_mask (vreg env) v0 i =? 0); [| reflexivity].
      apply (ld_src_ok t vs2 vd (vl env) i _ f Hs H2 Hi). }
    rewrite Ex.
    rewrite (loop_ld t 1 0 vd 0 (vl env) valx (vreg env) Hw
               ltac:(lia) ltac:(lia) (no_mask _) Hvalx ltac:(lia) j Hj).
    unfold skipped. cbn [Z.eqb andb]. unfold valx.
    rewrite int32_t_id by lia.
    destruct (vext_elem_mask (vreg env) v0 j =? 0).
    + apply ld_conv. lia.
    + rewrite conv_idem by lia. unfold TARGET_LONG_BITS, target_ulong.
      unfold TARGET_LONG_BITS.
      rewrite conv_swrap64, conv_wrap64 by lia. reflexivity.
Qed.

(** X15. [vadc.vvm] and [vsbc.vvm] at every element width: with the
    mask register apart from the destination and each source register the
    destination itself or apart from it, element j below vl becomes
    vs2[j] + vs1[j] + v0.mask[j] (vs2[j] - vs1[j] - v0.mask[j] for vsbc)
    modulo 2^w, computed from the values on entry; no element is
    skipped. *)
Theorem vadc_vvm_sum
    (w vd v0 vs1 vs2 : Z) (env : CPURISCVState) (desc : Z) :
  let t := ET false w in
  let fa := vreg (vadc_vvm w vd v0 vs1 vs2 env desc) in
  let fs := vreg (vsbc_vvm w vd v0 vs1 vs2 env desc) in
  std_width w -> 0 <= vl env <= 2 ^ 31 ->
  mask_apart w v0 vd (vl env) ->
  src_ok w vs1 vd (vl env) -> src_ok w vs2 vd (vl env) ->
  forall j, 0 <= j < vl env ->
    ld_elem t fa vd j
    = wrap w (ld_elem t (vreg env) vs2 j + ld_elem t (vreg env) vs1 j
              + vext_elem_mask (vreg env) v0 j)
    /\ ld_elem t fs vd j
       = wrap w (ld_elem t (vreg env) vs2 j - ld_elem t (vreg env) vs1 j
                 - vext_elem_mask (vreg env) v0 j).
Proof.
  intros t fa fs Hw Hvl Hm H1 H2 j Hj.
  pose proof (std_width_le _ Hw) as Hle.
  assert (Hu : uint32_t (vl env) = vl env) by (apply uint32_t_id; lia).
  assert (Hgen : forall DO_OP,
            ld_elem t
              (vreg (GEN_VEXT_VADC_VVM t DO_OP vd v0 vs1 vs2 env desc)) vd j
            = conv t (DO_OP (ld_elem t (vreg env) vs2 j)
                            (ld_elem t (vreg env) vs1 j)
                            (vext_elem_mask (vreg env) v0 j))).
  { intros DO_OP.
    pose (val := fun (i : Z) (f : Z -> Z) =>
                   conv t (DO_OP (ld_elem t f vs2 i) (ld_elem t f vs1 i)
                             (uint8_t (vext_elem_mask f v0 (int32_t i))))).
    assert (Hval : forall i f, 0 <= i < vl env ->
              same_but (et_bits t) vd 0 i (vreg env) f ->
              val i f = val i (vreg env)).
    { intros i f Hi Hs. unfold val. rewrite int32_t_id by lia.
      rewrite (mask_same _ v0 vd (vl env) 0 i _ f Hs Hm) by lia.
      rewrite (ld_src_ok t vs1 vd (vl env) i _ f Hs H1 Hi).
      rewrite (ld_src_ok t vs2 vd (vl env) i _ f Hs H2 Hi).
      reflexivity. }
    unfold GEN_VEXT_VADC_VVM. simpl vreg. rewrite Hu.
    rewrite (unmasked_loop t vd 0 (vl env) val) by lia.
    rewrite (loop_ld t 1 0 vd 0 (vl env) val (vreg env) Hw
               ltac:(lia) ltac:(lia) (no_mask _) Hval ltac:(lia) j Hj).
    unfold skipped. cbn [Z.eqb andb]. unfold val.
    rewrite int32_t_id by lia. rewrite conv_idem by (simpl; lia).
    pose proof (mask_bit_range (vreg env) v0 j) as Hb.
    unfold uint8_t. rewrite (wrap_small 8) by (change (2 ^ 8) with 256; lia).
    reflexivity. }
  unfold fa, fs, vadc_vvm, vsbc_vvm. fold t. rewrite !Hgen.
  unfold IntOps.DO_VADC, IntOps.DO_VSBC, t, conv, wrap. cbn [et_signed et_bits].
  pose proof (pow2_pos w ltac:(lia)).
  rewrite !Z.mod_mod by lia. split; reflexivity.
Qed.

Lemma conv_zero (t : etype) : 0 < et_bits t -> conv t 0 = 0.
Proof.
  intros Hw. apply conv_in_range; [exact Hw |].
  unfold in_range, min_of, max_of.
  pose proof (pow2_pos (et_bits t - 1) ltac:(lia)).
  pose proof (pow2_pos (et_bits t) ltac:(lia)).
  destruct (et_signed t); lia.
Qed.

Lemma target_ulong_id (x : Z) : 0 <= x < 2 ^ 64 -> target_ulong x = x.
Proof. intros H. unfold target_ulong, TARGET_LONG_BITS. now apply wrap_small. Qed.

(** X16. [vslideup.vx]: with the source register apart from the
    destination (as the translator requires) and the mask register apart
    from it, every active element j with offset <= j < vl becomes
    vs2[j - offset]; the elements below the offset and the masked-off
    ones keep their values.  An offset of vl or more changes nothing. *)
Theorem vslideup_shifts
    (simd_data : Z -> Z) (t : etype) (vd v0 s1 vs2 : Z)
    (env : CPURISCVState) (desc : Z) :
  let vm := vext_vm simd_data desc in
  let offset := target_ulong s1 in
  let f' := vreg (GEN_VEXT_VSLIDEUP_VX simd_data t vd v0 s1 vs2 env desc) in
  std_width (et_bits t) -> 0 <= vl env <= 2 ^ 31 ->
  (vm = 0 -> mask_apart (et_bits t) v0 vd (vl env)) ->
  apart (et_bits t) vs2 (vl env) vd (vl env) ->
  forall j, 0 <= j < vl env ->
    ld_elem t f' vd j
    = if (j <? offset) || skipped vm (vreg env) v0 j
      then ld_elem t (vreg env) vd j
      else ld_elem t (vreg env) vs2 (j - offset).
Proof.
  intros vm offset f' Hw Hvl Hdis Hap j Hj.
  pose proof (std_width_le _ Hw) as Hle.
  assert (Hu : uint32_t (vl env) = vl env) by (apply uint32_t_id; lia).
  assert (Hoff : 0 <= offset < 2 ^ 64).
  { unfold offset, target_ulong, TARGET_LONG_BITS, wrap.
    apply Z.mod_pos_bound. lia. }
  unfold f', GEN_VEXT_VSLIDEUP_VX. simpl vreg. fold vm offset. rewrite Hu.
  destruct (Z_le_gt_dec offset (vl env)) as [Hin | Hout].
  - pose (val := fun (i : Z) (f : Z -> Z) =>
                   ld_elem t f vs2 (target_ulong (i - offset))).
    rewrite (for_loop_ext _ (step t vm v0 vd val)).
    2:{ intros i f Hi. unfold step.
        destruct (skipped vm f v0 i); [reflexivity |].
        rewrite int32_t_id by lia. reflexivity. }
    assert (Hval : forall i f, offset <= i < vl env ->
              same_but (et_bits t) vd offset i (vreg env) f ->
              val i f = val i (vreg env)).
    { intros i f Hi Hs. unfold val, ld_elem. f_equal.
      rewrite target_ulong_id by lia.
      apply (raw_apart _ _ vd vs2 offset i _ _ f Hs).
      intros k Hk. apply Hap; lia. }
    destruct (Z.ltb_spec j offset) as [Hlt | Hge]; cbn [orb].
    + unfold ld_elem. f_equal.
      apply (loop_values t vm v0 vd offset (vl env) val (vreg env) Hw
               ltac:(lia) ltac:(lia) Hdis Hval Hin). lia.
    + rewrite (loop_ld t vm v0 vd offset (vl env) val (vreg env) Hw
                 ltac:(lia) ltac:(lia) Hdis Hval Hin j ltac:(lia)).
      destruct (skipped vm (vreg env) v0 j); [reflexivity |].
      unfold val. rewrite target_ulong_id by lia. apply ld_conv. lia.
  - replace (Z.to_nat (vl env - offset)) with O by lia. simpl for_loop.
    replace (j <? offset) with true by (symmetry; apply Z.ltb_lt; lia).
    reflexivity.
Qed.

(** X17. [vslidedown.vx], for any placement of source and destination
    (the translator lets them coincide or overlap), the mask register
    being apart from the destination as [require_vm] ensures.  An active
    element i below vl becomes 0 when j = (i + offset) mod 2^64 is at
    least [cfg.vlen] (VLEN in bits, the bound the helper compares with),
    and otherwise element j of vs2 as it stands when the loop reaches i:
    the new value of destination element i' if that source element is a
    destination element i' below i, else its value on entry.  Hence with
    the source apart from the destination, and also in place
    (vs2 = vd) when i + offset does not wrap, it is the value on entry.
    Masked-off elements keep their values. *)
Theorem vslidedown_shifts
    (simd_data : Z -> Z) (t : etype) (cfg : RISCVCPUConfig)
    (vd v0 s1 vs2 : Z) (env : CPURISCVState) (desc : Z) :
  let vm := vext_vm simd_data desc in
  let vlmax := uint32_t (cfg_vlen cfg) in
  let offset := target_ulong s1 in
  let f' := vreg (GEN_VEXT_VSLIDEDOWN_VX simd_data t cfg vd v0 s1 vs2
                    env desc) in
  let entry (i j : Z) :=
    if skipped vm (vreg env) v0 i then ld_elem t (vreg env) vd i
    else if vlmax <=? j then 0 else ld_elem t (vreg env) vs2 j in
  std_width (et_bits t) -> 0 <= vl env <= 2 ^ 31 ->
  (vm = 0 -> mask_apart (et_bits t) v0 vd (vl env)) ->
  forall i, 0 <= i < vl env ->
    let j := (i + offset) mod 2 ^ 64 in
    let i' := j + (vs2 - vd) * (64 / et_bits t) in
    ld_elem t f' vd i
    = (if skipped vm (vreg env) v0 i then ld_elem t (vreg env) vd i
       else if vlmax <=? j then 0
            else if (0 <=? i') && (i' <? i) then ld_elem t f' vd i'
                 else ld_elem t (vreg env) vs2 j)
    /\ (apart (et_bits t) vs2 vlmax vd (vl env) ->
        ld_elem t f' vd i = entry i j)
    /\ (vs2 = vd -> i + offset < 2 ^ 64 ->
        ld_elem t f' vd i = entry i (i + offset)).
Proof.
  intros vm vlmax offset f' entry Hw Hvl Hdis i Hi j i'.
  pose proof (std_width_le _ Hw) as Hle.
  pose proof (std_width_pos _ Hw) as Hpos.
  assert (Hu : uint32_t (vl env) = vl env) by (apply uint32_t_id; lia).
  assert (Hoff : 0 <= offset < 2 ^ 64).
  { unfold offset, target_ulong, TARGET_LONG_BITS, wrap.
    apply Z.mod_pos_bound. lia. }
  assert (Hj0 : 0 <= j) by (apply Z.mod_pos_bound; lia).
  pose (val := fun (i : Z) (f : Z -> Z) =>
                 let j := target_ulong (i + offset) in
                 if vlmax <=? j then 0 else ld_elem t f vs2 j).
  assert (Ef : f' = for_loop (Z.to_nat (vl env)) 0 (step t vm v0 vd val)
                      (vreg env)).
  { unfold f', GEN_VEXT_VSLIDEDOWN_VX. simpl vreg.
    fold vm vlmax offset. rewrite Hu.
    apply for_loop_ext. intros k f Hk. unfold step.
    destruct (skipped vm f v0 k); [reflexivity |].
    rewrite int32_t_id by lia. reflexivity. }
  destruct (loop_current t vm v0 vd (vl env) val (vreg env) Hw
              ltac:(lia) Hdis i Hi) as (H1 & H2 & H3 & _).
  rewrite <- Ef in H1, H2.
  set (fi := for_loop (Z.to_nat i) 0 (step t vm v0 vd val) (vreg env)) in *.
  assert (Main :
    ld_elem t f' vd i
    = (if skipped vm (vreg env) v0 i then ld_elem t (vreg env) vd i
       else if vlmax <=? j then 0
            else if (0 <=? i') && (i' <? i) then ld_elem t f' vd i'
                 else ld_elem t (vreg env) vs2 j)).
  { unfold ld_elem at 1. rewrite H1.
    destruct (skipped vm (vreg env) v0 i); [reflexivity |].
    rewrite conv_bitfield by lia.
    unfold val, target_ulong, TARGET_LONG_BITS, wrap. cbv zeta. fold j.
    destruct (vlmax <=? j); [now apply conv_zero |].
    rewrite ld_conv by lia. unfold ld_elem.
    rewrite (raw_elem_alias (et_bits t) vs2 vd j fi Hw).
    rewrite (raw_elem_alias (et_bits t) vs2 vd j (vreg env) Hw).
    fold i'.
    destruct (Z.leb_spec 0 i') as [Hlo | Hlo];
      destruct (Z.ltb_spec i' i) as [Hlt | Hge]; cbn [andb];
      f_equal; (apply H2 || apply H3); lia. }
  split; [exact Main |]. split.
  - intros Hap. rewrite Main. unfold entry.
    destruct (skipped vm (vreg env) v0 i); [reflexivity |].
    destruct (Z.leb_spec vlmax j) as [Hbig | Hsmall]; [reflexivity |].
    destruct (Z.leb_spec 0 i') as [Hlo | Hlo];
      destruct (Z.ltb_spec i' i) as [Hlt | Hge]; cbn [andb];
      try reflexivity.
    exfalso. apply (Hap j i'); [lia | lia |].
    apply (elem_alias (et_bits t) vs2 vd j Hw).
  - intros -> Hnw. rewrite Main. unfold entry.
    assert (Ej : j = i + offset) by (unfold j; apply Z.mod_small; lia).
    assert (Ei : i' = i + offset) by (unfold i'; lia).
    rewrite Ej, Ei.
    replace (i + offset <? i) with false by (symmetry; apply Z.ltb_ge; lia).
    rewrite andb_false_r. reflexivity.
Qed.

(** X18. [vslide1up.vx] and [vslide1down.vx], the mask register being
    apart from the destination as [require_vm] ensures.  With the source
    apart from the destination (which the translator requires of
    vslide1up), an active element j below vl of vslide1up becomes
    vs2[j - 1], and element 0 the scalar truncated to the element width.
    With the source the destination itself or apart from it (the
    placements the translator allows for vslide1down, in place
    included), an active element j below vl of vslide1down becomes
    vs2[j + 1] as it was on entry, and element vl - 1 the scalar.
    Masked-off elements keep their values. *)
Theorem vslide1_shifts
    (simd_data : Z -> Z) (t : etype) (vd v0 s1 vs2 : Z)
    (env : CPURISCVState) (desc : Z) :
  let vm := vext_vm simd_data desc in
  let fu := vreg (GEN_VEXT_VSLIDE1UP_VX simd_data t vd v0 s1 vs2 env desc) in
  let fd := vreg (GEN_VEXT_VSLIDE1DOWN_VX simd_data t vd v0 s1 vs2
                    env desc) in
  std_width (et_bits t) -> 0 <= vl env <= 2 ^ 31 ->
  (vm = 0 -> mask_apart (et_bits t) v0 vd (vl env)) ->
  (apart (et_bits t) vs2 (vl env) vd (vl env) ->
   forall j, 0 <= j < vl env ->
     ld_elem t fu vd j
     = (if skipped vm (vreg env) v0 j then ld_elem t (vreg env) vd j
        else if j =? 0 then conv t s1
             else ld_elem t (vreg env) vs2 (j - 1)))
  /\ (src_ok (et_bits t) vs2 vd (vl env) ->
      forall j, 0 <= j < vl env ->
        ld_elem t fd vd j
        = (if skipped vm (vreg env) v0 j then ld_elem t (vreg env) vd j
           else if j =? vl env - 1 then conv t s1
                else ld_elem t (vreg env) vs2 (j + 1))).
Proof.
  intros vm fu fd Hw Hvl Hdis.
  pose proof (std_width_le _ Hw) as Hle.
  assert (Hu : uint32_t (vl env) = vl env) by (apply uint32_t_id; lia).
  pose (valu := fun (i : Z) (f : Z -> Z) =>
                  if i =? 0 then conv t s1 else ld_elem t f vs2 (i - 1)).
  pose (vald := fun (i : Z) (f : Z -> Z) =>
                  if i =? vl env - 1 then conv t s1
                  else ld_elem t f vs2 (i + 1)).
  split.
  - intros Hap j Hj.
    assert (Hvalu : forall i f, 0 <= i < vl env ->
              same_but (et_bits t) vd 0 i (vreg env) f ->
              valu i f = valu i (vreg env)).
    { intros i f Hi Hs. unfold valu.
      destruct (Z.eqb_spec i 0); [reflexivity |].
      unfold ld_elem. f_equal.
      apply (raw_apart _ _ vd vs2 0 i _ _ f Hs).
      intros k Hk. apply Hap; lia. }
    unfold fu, GEN_VEXT_VSLIDE1UP_VX. simpl vreg. fold vm. rewrite Hu.
    rewrite (for_loop_ext _ (step t vm v0 vd valu)).
    2:{ intros i f Hi. unfold step, valu.
        destruct (skipped vm f v0 i); [reflexivity |].
        rewrite int32_t_id by lia. destruct (i =? 0); reflexivity. }
    rewrite <- (Z.sub_0_r (vl env)) at 1.
    rewrite (loop_ld t vm v0 vd 0 (vl env) valu (vreg env) Hw
               ltac:(lia) ltac:(lia) Hdis Hvalu ltac:(lia) j Hj).
    destruct (skipped vm (vreg env) v0 j); [reflexivity |].
    unfold valu. destruct (j =? 0); [apply conv_idem | apply ld_conv]; lia.
  - intros Hsrc j Hj.
    assert (Hu1 : uint32_t (vl env - 1) = vl env - 1)
      by (apply uint32_t_id; lia).
    assert (Hvald : forall i f, 0 <= i < vl env ->
              same_but (et_bits t) vd 0 i (vreg env) f ->
              vald i f = vald i (vreg env)).
    { intros i f Hi Hs. unfold vald.
      destruct (Z.eqb_spec i (vl env - 1)); [reflexivity |].
      unfold ld_elem. f_equal.
      destruct Hsrc as [-> | Hap].
      - destruct Hs as [_ Hrest]. symmetry. apply Hrest. lia.
      - apply (raw_apart _ _ vd vs2 0 i _ _ f Hs).
        intros k Hk. apply Hap; lia. }
    unfold fd, GEN_VEXT_VSLIDE1DOWN_VX. simpl vreg. fold vm.
    rewrite Hu, Hu1.
    rewrite (for_loop_ext _ (step t vm v0 vd vald)).
    2:{ intros i f Hi. unfold step, vald.
        destruct (skipped vm f v0 i); [reflexivity |].
        rewrite int32_t_id by lia.
        destruct (i =? vl env - 1); reflexivity. }
    rewrite <- (Z.sub_0_r (vl env)) at 1.
    rewrite (loop_ld t vm v0 vd 0 (vl env) vald (vreg env) Hw
               ltac:(lia) ltac:(lia) Hdis Hvald ltac:(lia) j Hj).
    destruct (skipped vm (vreg env) v0 j); [reflexivity |].
    unfold vald.
    destruct (j =? vl env - 1); [apply conv_idem | apply ld_conv]; lia.
Qed.

End Loop.

(** Concrete runs of the element-wise helpers on the register file of
    [VRegExamples]: VLEN = 128, SEW = 32, v0 = mask 0b0101,
    v1 = [91,92,93,94], v2 = [4,0,1,2], v4 = [10,11,12,13],
    v5 = [77,78,79,80]. *)
Module LoopExamples.
Import Elem VReg Loop VRegExamples.

Definition cfg128 : RISCVCPUConfig := mkCfg 128 64.

Lemma elem_word_vr (a i : Z) :
  0 <= i < 4 -> vr a <= elem_word 32 (vr a) i <= vr a + 1.
Proof.
  intros Hi. unfold elem_word, vr.
  assert (0 <= i * 32 / 64 <= 1).
  { split; [apply Z.div_pos; lia |].
    apply Z.lt_succ_r. apply Z.div_lt_upper_bound; lia. }
  lia.
Qed.

(** Distinct registers share no host word. *)
Lemma vr_apart (a b n m : Z) :
  a <> b -> n <= 4 -> m <= 4 -> apart 32 (vr a) n (vr b) m.
Proof.
  intros Hab Hn Hm i j Hi Hj.
  pose proof (elem_word_vr a i ltac:(lia)).
  pose proof (elem_word_vr b j ltac:(lia)).
  unfold vr in *. lia.
Qed.

Lemma vr_mask_apart (b n : Z) :
  0 < b -> n <= 4 -> mask_apart 32 (vr 0) (vr b) n.
Proof.
  intros Hb Hn i j Hi Hj.
  pose proof (elem_word_vr b j ltac:(lia)).
  assert (i / 64 = 0) by (apply Z.div_small; lia).
  unfold vr in *. lia.
Qed.

(** vadd.vv v4, v5, v4, v0.t done in place with vl = 3. *)
Definition vadd_in_place : Z -> Z :=
  vreg (do_vext_vv data_id (vr 4) (vr 0) (vr 4) (vr 5) (env_vl 3) masked
          (OP_SSS i32 (DO_ADD i32))).

Lemma do_vext_vv_elementwise_witness :
  ld_elem i32 vadd_in_place (vr 4) 2
  = if skipped (vext_vm data_id masked) (vreg (env_vl 3)) (vr 0) 2
    then ld_elem i32 (vreg (env_vl 3)) (vr 4) 2
    else conv i32 (DO_ADD i32 (ld_elem i32 (vreg (env_vl 3)) (vr 5) 2)
                              (ld_elem i32 (vreg (env_vl 3)) (vr 4) 2)).
Proof.
  refine (proj1 (do_vext_vv_elementwise data_id i32 (DO_ADD i32)
                   (vr 4) (vr 0) (vr 4) (vr 5) (env_vl 3) masked
                   _ _ _ _ _) 2 _).
  - vm_compute. tauto.
  - vm_compute. split; discriminate.
  - intros _. apply vr_mask_apart; vm_compute; reflexivity || discriminate.
  - left. reflexivity.
  - right. apply vr_apart; vm_compute; discriminate.
  - vm_compute. split; [discriminate | reflexivity].
Defined.

Example vadd_in_place_run :
  map (ld_elem i32 vadd_in_place (vr 4)) [0; 1; 2; 3] = [87; 11; 91; 13].
Proof. vm_compute. reflexivity. Qed.

Lemma vid_v_index_witness :
  ld_elem u32 (vreg (GEN_VEXT_VID_V data_id u32 (vr 1) (vr 0)
                       (env_vl 3) masked)) (vr 1) 2
  = if skipped (vext_vm data_id masked) (vreg (env_vl 3)) (vr 0) 2
    then ld_elem u32 (vreg (env_vl 3)) (vr 1) 2
    else conv u32 2.
Proof.
  refine (vid_v_index data_id u32 (vr 1) (vr 0) (env_vl 3) masked
            _ _ _ 2 _).
  - vm_compute. tauto.
  - vm_compute. split; discriminate.
  - intros _. apply vr_mask_apart; vm_compute; reflexivity || discriminate.
  - vm_compute. split; [discriminate | reflexivity].
Defined.

Example vid_run :
  map (ld_elem u32 (vreg (GEN_VEXT_VID_V data_id u32 (vr 1) (vr 0)
                            (env_vl 3) masked)) (vr 1)) [0; 1; 2; 3]
  = [0; 92; 2; 94].
Proof. vm_compute. reflexivity. Qed.

Lemma vmv_copies_witness :
  ld_elem i32 (vreg (GEN_VEXT_VMV_VV i32 (vr 1) (vr 4) (env_vl 3) 0))
    (vr 1) 2
  = ld_elem i32 (vreg (env_vl 3)) (vr 4) 2.
Proof.
  refine (proj1 (vmv_copies i32 (vr 1) (vr 4) 0 (env_vl 3) 0 _ _) _ 2 _).
  - vm_compute. tauto.
  - vm_compute. split; discriminate.
  - right. apply vr_apart; vm_compute; discriminate.
  - vm_compute. split; [discriminate | reflexivity].
Defined.

Example vmv_run :
  map (ld_elem i32 (vreg (GEN_VEXT_VMV_VV i32 (vr 1) (vr 4) (env_vl 3) 0))
         (vr 1)) [0; 1; 2; 3] = [10; 11; 12; 94]
  /\ map (ld_elem i32 (vreg (GEN_VEXT_VMV_VX i32 (vr 1) (2 ^ 32 + 7)
                               (env_vl 3) 0)) (vr 1)) [0; 1; 2; 3]
     = [7; 7; 7; 94].
Proof. vm_compute. split; reflexivity. Qed.

Lemma vmerge_selects_witness :
  ld_elem i32 (vreg (GEN_VEXT_VMERGE_VV i32 (vr 1) (vr 0) (vr 4) (vr 5)
                       (env_vl 3) 0)) (vr 1) 1
  = if vext_elem_mask (vreg (env_vl 3)) (vr 0) 1 =? 0
    then ld_elem i32 (vreg (env_vl 3)) (vr 5) 1
    else ld_elem i32 (vreg (env_vl 3)) (vr 4) 1.
Proof.
  refine (proj1 (vmerge_selects i32 (vr 1) (vr 0) (vr 4) 0 (vr 5)
                   (env_vl 3) 0 _ _ _ _) _ 1 _).
  - vm_compute. tauto.
  - vm_compute. split; discriminate.
  - apply vr_mask_apart; vm_compute; reflexivity || discriminate.
  - right. apply vr_apart; vm_compute; discriminate.
  - right. apply vr_apart; vm_compute; discriminate.
  - vm_compute. split; [discriminate | reflexivity].
Defined.

Example vmerge_run :
  map (ld_elem i32 (vreg (GEN_VEXT_VMERGE_VV i32 (vr 1) (vr 0) (vr 4) (vr 5)
                            (env_vl 3) 0)) (vr 1)) [0; 1; 2; 3]
  = [10; 78; 12; 94]
  /\ map (ld_elem i32 (vreg (GEN_VEXT_VMERGE_VX i32 (vr 1) (vr 0) (-1)
                               (vr 5) (env_vl 3) 0)) (vr 1)) [0; 1; 2; 3]
     = [-1; 78; -1; 94].
Proof. vm_compute. split; reflexivity. Qed.

Lemma vadc_vvm_sum_witness :
  ld_elem (ET false 32)
    (vreg (vadc_vvm 32 (vr 4) (vr 0) (vr 4) (vr 5) (env_vl 3) 0)) (vr 4) 2
  = wrap 32 (ld_elem (ET false 32) (vreg (env_vl 3)) (vr 5) 2
             + ld_elem (ET false 32) (vreg (env_vl 3)) (vr 4) 2
             + vext_elem_mask (vreg (env_vl 3)) (vr 0) 2)
  /\ ld_elem (ET false 32)
       (vreg (vsbc_vvm 32 (vr 4) (vr 0) (vr 4) (vr 5) (env_vl 3) 0)) (vr 4) 2
     = wrap 32 (ld_elem (ET false 32) (vreg (env_vl 3)) (vr 5) 2
                - ld_elem (ET false 32) (vreg (env_vl 3)) (vr 4) 2
                - vext_elem_mask (vreg (env_vl 3)) (vr 0) 2).
Proof.
  refine (vadc_vvm_sum 32 (vr 4) (vr 0) (vr 4) (vr 5) (env_vl 3) 0
            _ _ _ _ _ 2 _).
  - vm_compute. tauto.
  - vm_compute. split; discriminate.
  - apply vr_mask_apart; vm_compute; reflexivity || discriminate.
  - left. reflexivity.
  - right. apply vr_apart; vm_compute; discriminate.
  - vm_compute. split; [discriminate | reflexivity].
Defined.

Example vadc_run :
  map (ld_elem u32 (vreg (vadc_vvm 32 (vr 4) (vr 0) (vr 4) (vr 5)
                            (env_vl 3) 0)) (vr 4)) [0; 1; 2; 3]
  = [88; 89; 92; 13].
Proof. vm_compute. reflexivity. Qed.

Lemma vslideup_shifts_witness :
  ld_elem u32 (vreg (GEN_VEXT_VSLIDEUP_VX data_id u32 (vr 1) (vr 0) 1
                       (vr 4) (env_vl 3) unmasked)) (vr 1) 2
  = if (2 <? target_ulong 1)
       || skipped (vext_vm data_id unmasked) (vreg (env_vl 3)) (vr 0) 2
    then ld_elem u32 (vreg (env_vl 3)) (vr 1) 2
    else ld_elem u32 (vreg (env_vl 3)) (vr 4) (2 - target_ulong 1).
Proof.
  refine (vslideup_shifts data_id u32 (vr 1) (vr 0) 1 (vr 4) (env_vl 3)
            unmasked _ _ _ _ 2 _).
  - vm_compute. tauto.
  - vm_compute. split; discriminate.
  - intros H. vm_compute in H. discriminate H.
  - apply vr_apart; vm_compute; discriminate.
  - vm_compute. split; [discriminate | reflexivity].
Defined.

Example vslideup_run :
  map (ld_elem u32 (vreg (GEN_VEXT_VSLIDEUP_VX data_id u32 (vr 1) (vr 0) 1
                            (vr 4) (env_vl 3) unmasked)) (vr 1))
    [0; 1; 2; 3] = [91; 10; 11; 94]
  /\ map (ld_elem u32 (vreg (GEN_VEXT_VSLIDEUP_VX data_id u32 (vr 1) (vr 0)
                               (2 ^ 64 - 1) (vr 4) (env_vl 3) unmasked))
            (vr 1)) [0; 1; 2; 3] = [91; 92; 93; 94].
Proof. vm_compute. split; reflexivity. Qed.

(** vslidedown.vx v4, v4, 1 done in place with vl = 3. *)
Lemma vslidedown_shifts_witness :
  ld_elem u32 (vreg (GEN_VEXT_VSLIDEDOWN_VX data_id u32 cfg128
                       (vr 4) (vr 0) 1 (vr 4) (env_vl 3) unmasked)) (vr 4) 1
  = if skipped (vext_vm data_id unmasked) (vreg (env_vl 3)) (vr 0) 1
    then ld_elem u32 (vreg (env_vl 3)) (vr 4) 1
    else if uint32_t (cfg_vlen cfg128) <=? 1 + target_ulong 1 then 0
         else ld_elem u32 (vreg (env_vl 3)) (vr 4) (1 + target_ulong 1).
Proof.
  refine (proj2 (proj2 (vslidedown_shifts data_id u32 cfg128 (vr 4) (vr 0) 1
                          (vr 4) (env_vl 3) unmasked _ _ _ 1 _))
            eq_refl _).
  - vm_compute. tauto.
  - vm_compute. split; discriminate.
  - intros H. vm_compute in H. discriminate H.
  - vm_compute. split; [discriminate | reflexivity].
  - vm_compute. reflexivity.
Defined.

(** With VLEN = 128 and VLMAX = 4 the bound of the helper is 128:
    element 2 slid down by 2 reads element 4, the first element of the
    next register, and an offset of 2^64 - 1 wraps around.  In place the
    elements read are still those of entry.  With the destination v5
    right after the source v4 and an offset of 3, elements 1 and 2 read
    v4[4] and v4[5], that is v5[0] and v5[1], which the loop has already
    overwritten with 13. *)
Example vslidedown_run :
  map (ld_elem u32 (vreg (GEN_VEXT_VSLIDEDOWN_VX data_id u32 cfg128
                            (vr 1) (vr 0) 2 (vr 4) (env_vl 3) unmasked))
         (vr 1)) [0; 1; 2; 3] = [12; 13; 77; 94]
  /\ map (ld_elem u32 (vreg (GEN_VEXT_VSLIDEDOWN_VX data_id u32 cfg128
                               (vr 1) (vr 0) (2 ^ 64 - 1) (vr 4)
                               (env_vl 3) unmasked))
            (vr 1)) [0; 1; 2; 3] = [0; 10; 11; 94]
  /\ map (ld_elem u32 (vreg (GEN_VEXT_VSLIDEDOWN_VX data_id u32 cfg128
                               (vr 4) (vr 0) 1 (vr 4) (env_vl 3) unmasked))
            (vr 4)) [0; 1; 2; 3] = [11; 12; 13; 13]
  /\ map (ld_elem u32 (vreg (GEN_VEXT_VSLIDEDOWN_VX data_id u32 cfg128
                               (vr 5) (vr 0) 3 (vr 4) (env_vl 3) unmasked))
            (vr 5)) [0; 1; 2; 3] = [13; 13; 13; 80].
Proof. vm_compute. repeat split; reflexivity. Qed.

(** vslide1up.vx v1, v4, 7 and vslide1down.vx v4, v4, 7 in place, with
    vl = 3. *)
Lemma vslide1_shifts_witness :
  ld_elem u32 (vreg (GEN_VEXT_VSLIDE1UP_VX data_id u32 (vr 1) (vr 0) 7
                       (vr 4) (env_vl 3) unmasked)) (vr 1) 0
  = (if skipped (vext_vm data_id unmasked) (vreg (env_vl 3)) (vr 0) 0
     then ld_elem u32 (vreg (env_vl 3)) (vr 1) 0
     else if 0 =? 0 then conv u32 7
          else ld_elem u32 (vreg (env_vl 3)) (vr 4) (0 - 1))
  /\ ld_elem u32 (vreg (GEN_VEXT_VSLIDE1DOWN_VX data_id u32 (vr 4) (vr 0) 7
                          (vr 4) (env_vl 3) unmasked)) (vr 4) 0
     = (if skipped (vext_vm data_id unmasked) (vreg (env_vl 3)) (vr 0) 0
        then ld_elem u32 (vreg (env_vl 3)) (vr 4) 0
        else if 0 =? vl (env_vl 3) - 1 then conv u32 7
             else ld_elem u32 (vreg (env_vl 3)) (vr 4) (0 + 1)).
Proof.
  split.
  - refine (proj1 (vslide1_shifts data_id u32 (vr 1) (vr 0) 7 (vr 4)
                     (env_vl 3) unmasked _ _ _) _ 0 _).
    + vm_compute. tauto.
    + vm_compute. split; discriminate.
    + intros H. vm_compute in H. discriminate H.
    + apply vr_apart; vm_compute; discriminate.
    + vm_compute. split; [discriminate | reflexivity].
  - refine (proj2 (vslide1_shifts data_id u32 (vr 4) (vr 0) 7 (vr 4)
                     (env_vl 3) unmasked _ _ _) _ 0 _).
    + vm_compute. tauto.
    + vm_compute. split; discriminate.
    + intros H. vm_compute in H. discriminate H.
    + left. reflexivity.
    + vm_compute. split; [discriminate | reflexivity].
Defined.

Example vslide1_run :
  map (ld_elem u32 (vreg (GEN_VEXT_VSLIDE1UP_VX data_id u32 (vr 1) (vr 0) 7
                            (vr 4) (env_vl 3) unmasked)) (vr 1))
    [0; 1; 2; 3] = [7; 10; 11; 94]
  /\ map (ld_elem u32 (vreg (GEN_VEXT_VSLIDE1DOWN_VX data_id u32 (vr 1)
                               (vr 0) 7 (vr 4) (env_vl 3) unmasked))
            (vr 1)) [0; 1; 2; 3] = [11; 12; 7; 94]
  /\ map (ld_elem u32 (vreg (GEN_VEXT_VSLIDE1DOWN_VX data_id u32 (vr 4)
                               (vr 0) 7 (vr 4) (env_vl 3) unmasked))
            (vr 4)) [0; 1; 2; 3] = [11; 12; 7; 13].
Proof. vm_compute. repeat split; reflexivity. Qed.

End LoopExamples.

(* ===================================================================== *)
(** * Loops that carry a state: mask, iota and reduction helpers *)
(* ===================================================================== *)

Module Sweep.
Import Elem VReg.

(** A loop over the indices of one destination register that carries a
    state of type [S]: at index [i] the action [act], computed from the
    state and the register file, yields the next state and, unless the
    index is skipped, the value written to entry [i] by [W]. *)
Definition sweep_body {S : Type} (W : Z -> Z -> (Z -> Z) -> Z -> Z)
    (act : Z -> S -> (Z -> Z) -> S * option Z)
    (i : Z) (sf : S * (Z -> Z)) : S * (Z -> Z) :=
  (fst (act i (fst sf) (snd sf)),
   match snd (act i (fst sf) (snd sf)) with
   | None => snd sf
   | Some v => W i v (snd sf)
   end).

(** The state before index [j], computed on the register file [f0]. *)
Definition state_at {S : Type} (act : Z -> S -> (Z -> Z) -> S * option Z)
    (s0 : S) (f0 : Z -> Z) (j : Z) : S :=
  for_loop (Z.to_nat j) 0 (fun i s => fst (act i s f0)) s0.

(** The value entry [j] is left with. *)
Definition swept {S : Type} (R : (Z -> Z) -> Z -> Z) (norm : Z -> Z)
    (act : Z -> S -> (Z -> Z) -> S * option Z) (s0 : S) (f0 : Z -> Z)
    (j : Z) : Z :=
  match snd (act j (state_at act s0 f0 j) f0) with
  | None => R f0 j
  | Some v => norm v
  end.

(** The host words holding mask bits [0, n) of the register at [vd]. *)
Definition mask_words (vd n : Z) (k : Z) : Prop :=
  exists j, 0 <= j < n /\ k = vd + j / 64.

(** The host words holding elements [0, n) of the register at [vd]. *)
Definition elem_words (bits vd n : Z) (k : Z) : Prop :=
  exists j, 0 <= j < n /\ k = elem_word bits vd j.

Lemma for_loop_snoc {S : Type} (body : Z -> S -> S) (n : nat) :
  forall (i : Z) (s : S),
    for_loop (Datatypes.S n) i body s
    = body (i + Z.of_nat n) (for_loop n i body s).
Proof.
  induction n as [| n IH]; intros i s.
  - simpl. now rewrite Z.add_0_r.
  - change (for_loop (Datatypes.S (Datatypes.S n)) i body s)
      with (for_loop (Datatypes.S n) (i + 1) body (body i s)).
    rewrite IH. simpl for_loop. f_equal. lia.
Qed.

Lemma state_at_succ {S : Type} (act : Z -> S -> (Z -> Z) -> S * option Z)
    (s0 : S) (f0 : Z -> Z) (j : Z) :
  0 <= j ->
  state_at act s0 f0 (j + 1) = fst (act j (state_at act s0 f0 j) f0).
Proof.
  intros Hj. unfold state_at.
  replace (Z.to_nat (j + 1)) with (Datatypes.S (Z.to_nat j)) by lia.
  rewrite for_loop_snoc. f_equal. f_equal. lia.
Qed.

Section Sweep.

Context {S : Type}.
Variable R : (Z -> Z) -> Z -> Z.
Variable W : Z -> Z -> (Z -> Z) -> Z -> Z.
Variable D : Z -> Prop.
Variable norm : Z -> Z.
Variables N n : Z.
Variable act : Z -> S -> (Z -> Z) -> S * option Z.
Variables (s0 : S) (f0 : Z -> Z).

Hypothesis HnN : n <= N.

(** Laws of the store [W] and the read [R]. *)
Hypothesis HWother :
  forall i v f j, 0 <= i < n -> 0 <= j < N -> i <> j ->
                  R (W i v f) j = R f j.
Hypothesis HWsame : forall i v f, 0 <= i < n -> R (W i v f) i = norm v.
Hypothesis HWframe : forall i v f k, 0 <= i < n -> ~ D k -> W i v f k = f k.

(** The action at index [i] looks only at host words outside the
    destination and at the entries [i] and above of the destination. *)
Hypothesis Hact :
  forall i s f, 0 <= i < n ->
    (forall k, ~ D k -> f k = f0 k) ->
    (forall j, i <= j < N -> R f j = R f0 j) ->
    act i s f = act i s f0.

Lemma sweep_inv (m : nat) :
  forall (i : Z) (s : S) (f : Z -> Z),
    0 <= i -> i + Z.of_nat m <= n ->
    s = state_at act s0 f0 i ->
    (forall k, ~ D k -> f k = f0 k) ->
    (forall j, i <= j < N -> R f j = R f0 j) ->
    (forall j, 0 <= j < i -> R f j = swept R norm act s0 f0 j) ->
    let r := for_loop m i (sweep_body W act) (s, f) in
    fst r = state_at act s0 f0 (i + Z.of_nat m)
    /\ (forall k, ~ D k -> snd r k = f0 k)
    /\ (forall j, i + Z.of_nat m <= j < N -> R (snd r) j = R f0 j)
    /\ (forall j, 0 <= j < i + Z.of_nat m ->
                  R (snd r) j = swept R norm act s0 f0 j).
Proof.
  induction m as [| m IH]; intros i s f Hi Hm Hs Hout Hrest Hdone;
    simpl for_loop.
  - replace (i + Z.of_nat 0) with i by lia. simpl. auto.
  - replace (i + Z.of_nat (Datatypes.S m)) with (i + 1 + Z.of_nat m) by lia.
    assert (Ea : act i s f = act i s f0) by (apply Hact; auto; lia).
    apply IH; try lia; unfold sweep_body; cbn [fst snd]; rewrite Ea.
    + rewrite state_at_succ by lia. now rewrite Hs.
    + intros k Hk. destruct (snd (act i s f0)); [| auto].
      rewrite HWframe by (auto; lia). auto.
    + intros j Hj. destruct (snd (act i s f0)).
      * rewrite HWother by lia. apply Hrest. lia.
      * apply Hrest. lia.
    + intros j Hj. destruct (Z.eq_dec j i) as [-> | Hne].
      * unfold swept. rewrite <- Hs.
        destruct (snd (act i s f0)).
        -- apply HWsame. lia.
        -- apply Hrest. lia.
      * destruct (snd (act i s f0)).
        -- rewrite HWother by lia. apply Hdone. lia.
        -- apply Hdone. lia.
Qed.

(** After the sweep over [0, n): the final state is the state computed
    on the initial register file, each entry below [n] holds its swept
    value, the entries from [n] on and the host words outside the
    destination are as before. *)
Lemma sweep_result :
  0 <= n ->
  let r := for_loop (Z.to_nat n) 0 (sweep_body W act) (s0, f0) in
  fst r = state_at act s0 f0 n
  /\ (forall k, ~ D k -> snd r k = f0 k)
  /\ (forall j, n <= j < N -> R (snd r) j = R f0 j)
  /\ (forall j, 0 <= j < n -> R (snd r) j = swept R norm act s0 f0 j).
Proof.
  intros Hn.
  pose proof (sweep_inv (Z.to_nat n) 0 s0 f0 ltac:(lia) ltac:(lia)
                eq_refl ltac:(auto) ltac:(auto) ltac:(intros; lia)) as H.
  replace (0 + Z.of_nat (Z.to_nat n)) with n in H by lia.
  exact H.
Qed.

End Sweep.

End Sweep.

(* ===================================================================== *)
(** * Mask-register helpers *)
(* ===================================================================== *)

Module MaskOps.
Import Elem VReg Sweep.

(** The mask-register logical operations on [int] operands. *)
Definition DO_AND (n m : Z) : Z := Z.land n m.
Definition DO_NAND (n m : Z) : Z := b2z (Z.land n m =? 0).
Definition DO_ANDNOT (n m : Z) : Z := Z.land n (b2z (m =? 0)).
Definition DO_XOR (n m : Z) : Z := Z.lxor n m.
Definition DO_OR (n m : Z) : Z := Z.lor n m.
Definition DO_NOR (n m : Z) : Z := b2z (Z.lor n m =? 0).
Definition DO_ORNOT (n m : Z) : Z := Z.lor n (b2z (m =? 0)).
Definition DO_XNOR (n m : Z) : Z := b2z (Z.lxor n m =? 0).

(** [GEN_VEXT_MASK_VV]: the local [vlmax] is [cfg.vlen]. *)
Definition GEN_VEXT_MASK_VV (OP : Z -> Z -> Z) (cfg : RISCVCPUConfig)
    (vd v0 vs1 vs2 : Z) (env : CPURISCVState) (desc : Z) : CPURISCVState :=
  let vlmax := uint32_t (cfg_vlen cfg) in
  let vl := uint32_t (vl env) in
  let f1 :=
    for_loop (Z.to_nat vl) 0
      (fun i f =>
         let a := vext_elem_mask f vs1 (int32_t i) in
         let b := vext_elem_mask f vs2 (int32_t i) in
         vext_set_elem_mask f vd (int32_t i) (OP b a))
      (vreg env) in
  let f2 :=
    for_loop (Z.to_nat (vlmax - vl)) vl
      (fun i f => vext_set_elem_mask f vd (int32_t i) 0) f1 in
  set_vreg f2 env.

Definition vmand_mm := GEN_VEXT_MASK_VV DO_AND.
Definition vmnand_mm := GEN_VEXT_MASK_VV DO_NAND.
Definition vmandnot_mm := GEN_VEXT_MASK_VV DO_ANDNOT.
Definition vmxor_mm := GEN_VEXT_MASK_VV DO_XOR.
Definition vmor_mm := GEN_VEXT_MASK_VV DO_OR.
Definition vmnor_mm := GEN_VEXT_MASK_VV DO_NOR.
Definition vmornot_mm := GEN_VEXT_MASK_VV DO_ORNOT.
Definition vmxnor_mm := GEN_VEXT_MASK_VV DO_XNOR.

Definition mask_ops : list (Z -> Z -> Z) :=
  [DO_AND; DO_NAND; DO_ANDNOT; DO_XOR; DO_OR; DO_NOR; DO_ORNOT; DO_XNOR].

(** [vm || vext_elem_mask(v0, i)], then [vext_elem_mask(vs2, i)]: the
    element is active and its source bit is set. *)
Definition active_set (vm : Z) (f : Z -> Z) (v0 vs2 i : Z) : bool :=
  (negb (vm =? 0) || negb (vext_elem_mask f v0 (int32_t i) =? 0))
  && negb (vext_elem_mask f vs2 (int32_t i) =? 0).

Section Desc.

Variable simd_data : Z -> Z.

(** [vmpopc_m]. *)
Definition vmpopc_m (v0 vs2 : Z) (env : CPURISCVState) (desc : Z) : Z :=
  let vm := vext_vm simd_data desc in
  let vl := uint32_t (vl env) in
  for_loop (Z.to_nat vl) 0
    (fun i cnt =>
       if active_set vm (vreg env) v0 vs2 i then target_ulong (cnt + 1)
       else cnt)
    0.

(** [vmfirst_m]: the state is the value returned from inside the loop,
    if any; [-1LL] is converted to [target_ulong]. *)
Definition vmfirst_m (v0 vs2 : Z) (env : CPURISCVState) (desc : Z) : Z :=
  let vm := vext_vm simd_data desc in
  let vl := uint32_t (vl env) in
  match
    for_loop (Z.to_nat vl) 0
      (fun i (ret : option Z) =>
         match ret with
         | Some r => Some r
         | None =>
             if active_set vm (vreg env) v0 vs2 i
             then Some (target_ulong (int32_t i))
             else None
         end)
      None
  with
  | Some r => r
  | None => target_ulong (-1)
  end.

(** [enum set_mask_type]. *)
Inductive set_mask_type : Type := ONLY_FIRST | INCLUDE_FIRST | BEFORE_FIRST.

(** [vmsetm]: the state of the loop is [first_mask_bit]. *)
Definition vmsetm (cfg : RISCVCPUConfig) (vd v0 vs2 : Z)
    (env : CPURISCVState) (desc : Z) (type : set_mask_type)
    : CPURISCVState :=
  let vlmax := uint32_t (cfg_vlen cfg) in
  let vm := vext_vm simd_data desc in
  let vl := uint32_t (vl env) in
  let r1 :=
    for_loop (Z.to_nat vl) 0
      (fun i (sf : bool * (Z -> Z)) =>
         let first_mask_bit := fst sf in
         let f := snd sf in
         if skipped vm f v0 i then sf
         else if first_mask_bit
         then (first_mask_bit, vext_set_elem_mask f vd (int32_t i) 0)
         else if negb (vext_elem_mask f vs2 (int32_t i) =? 0)
         then (true,
               vext_set_elem_mask f vd (int32_t i)
                 (match type with BEFORE_FIRST => 0 | _ => 1 end))
         else (first_mask_bit,
               vext_set_elem_mask f vd (int32_t i)
                 (match type with ONLY_FIRST => 0 | _ => 1 end)))
      (false, vreg env) in
  let f2 :=
    for_loop (Z.to_nat (vlmax - vl)) vl
      (fun i f => vext_set_elem_mask f vd (int32_t i) 0) (snd r1) in
  set_vreg f2 env.

Definition vmsbf_m cfg vd v0 vs2 env desc :=
  vmsetm cfg vd v0 vs2 env desc BEFORE_FIRST.
Definition vmsif_m cfg vd v0 vs2 env desc :=
  vmsetm cfg vd v0 vs2 env desc INCLUDE_FIRST.
Definition vmsof_m cfg vd v0 vs2 env desc :=
  vmsetm cfg vd v0 vs2 env desc ONLY_FIRST.

End Desc.

(** One iteration of [vmsetm] as the action of a sweep: the next value
    of [first_mask_bit] and the bit written, if any. *)
Definition setm_act (type : set_mask_type) (vm v0 vs2 : Z)
    (i : Z) (first_mask_bit : bool) (f : Z -> Z) : bool * option Z :=
  if skipped vm f v0 i then (first_mask_bit, None)
  else if first_mask_bit then (first_mask_bit, Some 0)
  else if negb (vext_elem_mask f vs2 (int32_t i) =? 0)
  then (true, Some (match type with BEFORE_FIRST => 0 | _ => 1 end))
  else (first_mask_bit, Some (match type with ONLY_FIRST => 0 | _ => 1 end)).

(** The bit the set-mask instructions give an active element [j] when
    the first active set source bit is at index [r]. *)
Definition setm_bit (type : set_mask_type) (j r : Z) : bool :=
  match type with
  | BEFORE_FIRST => j <? r
  | INCLUDE_FIRST => j <=? r
  | ONLY_FIRST => j =? r
  end.

(** The [n] indices from [i0] on, in order. *)
Fixpoint zrange (i0 : Z) (n : nat) : list Z :=
  match n with
  | O => []
  | S n' => i0 :: zrange (i0 + 1) n'
  end.

(** The indices [0, n) in order. *)
Definition indices (n : Z) : list Z := zrange 0 (Z.to_nat n).

(** A mask source is the destination itself or shares no host word with
    its first [n] bits. *)
Definition bits_apart (vs vd n : Z) : Prop :=
  forall i j, 0 <= i < n -> 0 <= j < n -> vs + i / 64 <> vd + j / 64.

Definition msrc_ok (vs vd n : Z) : Prop := vs = vd \/ bits_apart vs vd n.

(** ** Stores and reads of mask bits *)

Lemma mask_set_frame (f : Z -> Z) (vd n i v k : Z) :
  0 <= i < n -> ~ mask_words vd n k ->
  vext_set_elem_mask f vd i v k = f k.
Proof.
  intros Hi Hk. rewrite vext_set_elem_mask_upd by lia.
  apply upd_other. intros ->. apply Hk. exists i. auto.
Qed.

Lemma mask_read_out (f g : Z -> Z) (vs vd n i : Z) :
  (forall k, ~ mask_words vd n k -> f k = g k) ->
  bits_apart vs vd n -> 0 <= i < n ->
  vext_elem_mask f vs i = vext_elem_mask g vs i.
Proof.
  intros Hout Hap Hi. rewrite !vext_elem_mask_bitfield by lia.
  rewrite Hout; [reflexivity |].
  intros (j & Hj & E). exact (Hap i j Hi Hj E).
Qed.

Lemma mask_read_src (f g : Z -> Z) (vs vd n N i : Z) :
  (forall k, ~ mask_words vd n k -> f k = g k) ->
  (forall j, i <= j < N -> vext_elem_mask f vd j = vext_elem_mask g vd j) ->
  msrc_ok vs vd n -> 0 <= i < n -> n <= N ->
  vext_elem_mask f vs i = vext_elem_mask g vs i.
Proof.
  intros Hout Hrest [-> | Hap] Hi HN.
  - apply Hrest. lia.
  - now apply (mask_read_out f g vs vd n).
Qed.

Lemma bitop_range (OP : Z -> Z -> Z) (a b : Z) :
  In OP mask_ops -> 0 <= a <= 1 -> 0 <= b <= 1 -> 0 <= OP a b <= 1.
Proof.
  intros HOP Ha Hb.
  assert (Ha' : a = 0 \/ a = 1) by lia.
  assert (Hb' : b = 0 \/ b = 1) by lia.
  unfold mask_ops in HOP. simpl in HOP.
  destruct HOP as [<- | [<- | [<- | [<- | [<- | [<- | [<- | [<- | []]]]]]]]];
    destruct Ha' as [-> | ->], Hb' as [-> | ->]; vm_compute;
    split; discriminate.
Qed.

Lemma bitfield_bit01 (v : Z) : 0 <= v <= 1 -> bitfield v 0 1 = v.
Proof.
  intros Hv. assert (H : v = 0 \/ v = 1) by lia.
  destruct H as [-> | ->]; reflexivity.
Qed.

(** X19. Mask-register logical instructions (vmand.mm, vmnand.mm,
    vmandnot.mm, vmxor.mm, vmor.mm, vmnor.mm, vmornot.mm, vmxnor.mm):
    when each source register is the destination itself or shares no
    host word with its first vl bits, bit j of the destination becomes
    OP(vs2.bit[j], vs1.bit[j]) of the bits on entry for every j below vl,
    masking does not apply, and the bits from vl up to [cfg.vlen] are
    cleared. *)
Theorem mask_logical_bits
    (OP : Z -> Z -> Z) (cfg : RISCVCPUConfig) (vd v0 vs1 vs2 : Z)
    (env : CPURISCVState) (desc : Z) :
  let vlmax := uint32_t (cfg_vlen cfg) in
  let f' := vreg (GEN_VEXT_MASK_VV OP cfg vd v0 vs1 vs2 env desc) in
  In OP mask_ops ->
  0 <= vl env <= vlmax -> vlmax <= 2 ^ 31 ->
  msrc_ok vs1 vd (vl env) -> msrc_ok vs2 vd (vl env) ->
  (forall j, 0 <= j < vl env ->
     vext_elem_mask f' vd j
     = OP (vext_elem_mask (vreg env) vs2 j) (vext_elem_mask (vreg env) vs1 j))
  /\ (forall j, vl env <= j < vlmax -> vext_elem_mask f' vd j = 0).
Proof.
  intros vlmax f' HOP Hvl Hmax H1 H2.
  assert (Hu : uint32_t (vl env) = vl env) by (apply uint32_t_id; lia).
  unfold f', GEN_VEXT_MASK_VV. simpl vreg. fold vlmax. rewrite Hu.
  split.
  2:{ intros j Hj. apply tail_loop_zero; lia. }
  intros j Hj. rewrite tail_loop_other by lia.
  pose (act := fun (i : Z) (_ : unit) (f : Z -> Z) =>
                 (tt, Some (OP (vext_elem_mask f vs2 (int32_t i))
                               (vext_elem_mask f vs1 (int32_t i))))).
  pose (W := fun (i v : Z) (f : Z -> Z) =>
               vext_set_elem_mask f vd (int32_t i) v).
  pose (R := fun (f : Z -> Z) (j : Z) => vext_elem_mask f vd j).
  assert (Hloop : forall f0,
            for_loop (Z.to_nat (vl env)) 0
              (fun i f =>
                 let a := vext_elem_mask f vs1 (int32_t i) in
                 let b := vext_elem_mask f vs2 (int32_t i) in
                 vext_set_elem_mask f vd (int32_t i) (OP b a)) f0
            = snd (for_loop (Z.to_nat (vl env)) 0 (sweep_body W act)
                     (tt, f0))).
  { generalize (Z.to_nat (vl env)) as m. generalize 0 as i0.
    intros i0 m. revert i0.
    induction m as [| m IH]; intros i0 f0; simpl for_loop; [reflexivity |].
    rewrite IH. reflexivity. }
  rewrite Hloop.
  destruct (sweep_result R W (mask_words vd (vl env))
              (fun v => bitfield v 0 1) (2 ^ 31) (vl env) act tt (vreg env))
    as (_ & _ & _ & Hdone); try lia.
  - intros i v f k Hi Hk Hne. unfold R, W. rewrite int32_t_id by lia.
    apply vext_elem_mask_set_other; lia.
  - intros i v f Hi. unfold R, W. rewrite int32_t_id by lia.
    apply vext_elem_mask_set_same. lia.
  - intros i v f k Hi Hk. unfold W. rewrite int32_t_id by lia.
    now apply (mask_set_frame f vd (vl env)).
  - intros i s f Hi Hout Hrest. unfold act. rewrite int32_t_id by lia.
    rewrite (mask_read_src f (vreg env) vs1 vd (vl env) (2 ^ 31) i)
      by (auto; lia).
    rewrite (mask_read_src f (vreg env) vs2 vd (vl env) (2 ^ 31) i)
      by (auto; lia).
    reflexivity.
  - unfold R in Hdone. rewrite (Hdone j Hj). unfold swept, act. cbn [snd].
    rewrite int32_t_id by lia.
    apply bitfield_bit01. apply bitop_range; [exact HOP | |];
      apply Loop.mask_bit_range.
Qed.

(** ** Population count and find-first *)

Lemma In_zrange (n : nat) :
  forall i0 j, In j (zrange i0 n) <-> i0 <= j < i0 + Z.of_nat n.
Proof.
  induction n as [| n IH]; intros i0 j; simpl zrange.
  - simpl. lia.
  - simpl In. rewrite IH. lia.
Qed.

Lemma length_zrange (n : nat) : forall i0, length (zrange i0 n) = n.
Proof. induction n as [| n IH]; intros i0; simpl; [| rewrite IH]; auto. Qed.

Lemma filter_none {A : Type} (p : A -> bool) (l : list A) :
  length (filter p l) = O <-> forall x, In x l -> p x = false.
Proof.
  induction l as [| a l IH]; simpl.
  - split; [intros _ x [] | reflexivity].
  - destruct (p a) eqn:E; simpl.
    + split; [discriminate |].
      intros H. specialize (H a (or_introl eq_refl)). congruence.
    + rewrite IH. split.
      * intros H x [<- | Hx]; auto.
      * intros H x Hx. apply H. now right.
Qed.

Lemma popc_loop (p : Z -> bool) (n : nat) :
  forall i0 c,
    0 <= c -> c + Z.of_nat n < 2 ^ 64 ->
    for_loop n i0 (fun i cnt => if p i then target_ulong (cnt + 1) else cnt) c
    = c + Z.of_nat (length (filter p (zrange i0 n))).
Proof.
  induction n as [| n IH]; intros i0 c Hc Hn; simpl for_loop; simpl zrange.
  - simpl. lia.
  - simpl filter. destruct (p i0).
    + rewrite Loop.target_ulong_id by lia. rewrite IH by lia.
      simpl length. lia.
    + rewrite IH by lia. lia.
Qed.

Lemma first_latched (p : Z -> bool) (r : Z) (n : nat) :
  forall i0,
    for_loop n i0
      (fun i (ret : option Z) =>
         match ret with
         | Some r => Some r
         | None => if p i then Some (target_ulong (int32_t i)) else None
         end) (Some r)
    = Some r.
Proof. induction n as [| n IH]; intros i0; simpl for_loop; auto. Qed.

Lemma first_loop (p : Z -> bool) (n : nat) :
  forall i0,
    0 <= i0 -> i0 + Z.of_nat n <= 2 ^ 31 ->
    match
      for_loop n i0
        (fun i (ret : option Z) =>
           match ret with
           | Some r => Some r
           | None => if p i then Some (target_ulong (int32_t i)) else None
           end) None
    with
    | Some r => i0 <= r < i0 + Z.of_nat n /\ p r = true
                /\ (forall j, i0 <= j < r -> p j = false)
    | None => forall j, i0 <= j < i0 + Z.of_nat n -> p j = false
    end.
Proof.
  induction n as [| n IH]; intros i0 Hi0 Hn; simpl for_loop.
  - intros j Hj. lia.
  - destruct (p i0) eqn:E.
    + rewrite first_latched.
      rewrite int32_t_id by lia.
      rewrite Loop.target_ulong_id by (change (2 ^ 64) with (2 ^ 31 * 2 ^ 33); nia).
      repeat split; try lia. exact E.
    + specialize (IH (i0 + 1) ltac:(lia) ltac:(lia)).
      destruct (for_loop n (i0 + 1) _ None) as [r |].
      * destruct IH as (Hr & Hp & Hb). repeat split; try lia; auto.
        intros j Hj. destruct (Z.eq_dec j i0) as [-> | Hne]; auto.
        apply Hb. lia.
      * intros j Hj. destruct (Z.eq_dec j i0) as [-> | Hne]; auto.
        apply IH. lia.
Qed.

(** X20. [vmpopc.m] returns the number of indices below vl whose
    element is active and whose source mask bit is set, a number between
    0 and vl.  [vmfirst.m] returns -1 (as a [target_ulong]) exactly when
    that number is 0, and otherwise the least such index. *)
Theorem vmpopc_vmfirst
    (simd_data : Z -> Z) (v0 vs2 : Z) (env : CPURISCVState) (desc : Z) :
  let vm := vext_vm simd_data desc in
  let p := active_set vm (vreg env) v0 vs2 in
  let c := vmpopc_m simd_data v0 vs2 env desc in
  let r := vmfirst_m simd_data v0 vs2 env desc in
  0 <= vl env <= 2 ^ 31 ->
  c = Z.of_nat (length (filter p (indices (vl env))))
  /\ 0 <= c <= vl env
  /\ (r = 2 ^ 64 - 1 <-> c = 0)
  /\ (r <> 2 ^ 64 - 1 ->
      0 <= r < vl env /\ p r = true
      /\ forall j, 0 <= j < r -> p j = false).
Proof.
  intros vm p c r Hvl.
  assert (Hu : uint32_t (vl env) = vl env) by (apply uint32_t_id; lia).
  assert (Hc : c = Z.of_nat (length (filter p (indices (vl env))))).
  { unfold c, vmpopc_m. fold vm. rewrite Hu.
    rewrite (popc_loop p) by (change (2 ^ 64) with (2 ^ 31 * 2 ^ 33); nia).
    reflexivity. }
  assert (Hlen : (length (filter p (indices (vl env)))
                  <= Z.to_nat (vl env))%nat).
  { pose proof (filter_length_le p (indices (vl env))) as Hle.
    unfold indices in Hle at 2. now rewrite length_zrange in Hle. }
  pose proof (first_loop p (Z.to_nat (vl env)) 0 ltac:(lia) ltac:(lia))
    as Hf.
  assert (Hr : r = match
                     for_loop (Z.to_nat (vl env)) 0
                       (fun i (ret : option Z) =>
                          match ret with
                          | Some r => Some r
                          | None => if p i
                                    then Some (target_ulong (int32_t i))
                                    else None
                          end) None
                   with Some r => r | None => target_ulong (-1) end).
  { unfold r, vmfirst_m. fold vm. rewrite Hu. reflexivity. }
  assert (Hzero : c = 0 <-> forall j, 0 <= j < vl env -> p j = false).
  { rewrite Hc. split.
    - intros H j Hj.
      apply (proj1 (filter_none p (indices (vl env))) ltac:(lia)).
      apply In_zrange. lia.
    - intros H.
      assert (length (filter p (indices (vl env))) = O); [| lia].
      apply filter_none. intros x Hx. apply In_zrange in Hx.
      apply H. lia. }
  split; [exact Hc |]. split; [lia |].
  clearbody r c.
  destruct (for_loop (Z.to_nat (vl env)) 0 _ None) as [r0 |].
  - subst r. destruct Hf as (Hr0 & Hp & Hb).
    assert (Hne : r0 <> 2 ^ 64 - 1)
      by (change (2 ^ 64) with (2 ^ 31 * 2 ^ 33); nia).
    split.
    + split; [intros E; contradiction |].
      intros E. pose proof (proj1 Hzero E r0 ltac:(lia)) as E'.
      rewrite E' in Hp. discriminate.
    + intros _. repeat split; try lia; auto.
  - subst r. change (target_ulong (-1)) with (2 ^ 64 - 1).
    split.
    + split; [intros _ | reflexivity].
      apply Hzero. intros j Hj. apply Hf. lia.
    + intros H. contradiction.
Qed.

(** ** Set-before-first, set-including-first, set-only-first *)

Lemma skipped_out (vm v0 vd n i : Z) (f g : Z -> Z) :
  (forall k, ~ mask_words vd n k -> f k = g k) ->
  (vm = 0 -> bits_apart v0 vd n) -> 0 <= i < n -> i < 2 ^ 31 ->
  skipped vm f v0 i = skipped vm g v0 i.
Proof.
  intros Hout Hap Hi H31. unfold skipped.
  destruct (Z.eqb_spec vm 0) as [E | E]; [| reflexivity].
  cbn [andb]. rewrite int32_t_id by lia.
  now rewrite (mask_read_out f g v0 vd n i Hout (Hap E) Hi).
Qed.

Lemma active_set_skipped (vm : Z) (f : Z -> Z) (v0 vs2 i : Z) :
  active_set vm f v0 vs2 i
  = negb (skipped vm f v0 i)
    && negb (vext_elem_mask f vs2 (int32_t i) =? 0).
Proof.
  unfold active_set, skipped.
  destruct (vm =? 0), (vext_elem_mask f v0 (int32_t i) =? 0); reflexivity.
Qed.

(** [first_mask_bit] before index [j]: an active set bit lies below. *)
Lemma setm_state (type : set_mask_type) (vm v0 vs2 : Z) (f0 : Z -> Z)
    (m : nat) :
  state_at (setm_act type vm v0 vs2) false f0 (Z.of_nat m) = true
  <-> exists k, 0 <= k < Z.of_nat m /\ active_set vm f0 v0 vs2 k = true.
Proof.
  induction m as [| m IH].
  - split; [discriminate | intros (k & Hk & _); lia].
  - replace (Z.of_nat (S m)) with (Z.of_nat m + 1) by lia.
    rewrite state_at_succ by lia.
    set (s := state_at (setm_act type vm v0 vs2) false f0 (Z.of_nat m)) in *.
    assert (E : fst (setm_act type vm v0 vs2 (Z.of_nat m) s f0)
                = s || active_set vm f0 v0 vs2 (Z.of_nat m)).
    { unfold setm_act. rewrite active_set_skipped.
      destruct (skipped vm f0 v0 (Z.of_nat m)), s,
        (vext_elem_mask f0 vs2 (int32_t (Z.of_nat m)) =? 0); reflexivity. }
    rewrite E, orb_true_iff, IH. split.
    + intros [(k & Hk & Hp) | Hp].
      * exists k. split; [lia | exact Hp].
      * exists (Z.of_nat m). split; [lia | exact Hp].
    + intros (k & Hk & Hp).
      destruct (Z.eq_dec k (Z.of_nat m)) as [-> | Hne].
      * now right.
      * left. exists k. split; [lia | exact Hp].
Qed.

(** X21. [vmsbf.m], [vmsif.m] and [vmsof.m]: with the source and the
    mask register sharing no host word with the first vl bits of the
    destination, and r the value of [vmfirst.m] on the same operands
    (the index of the first active set source bit, or 2^64 - 1), an
    active bit j below vl becomes j < r, j <= r and j = r respectively;
    masked-off bits keep their value and the bits from vl up to
    [cfg.vlen] are cleared. *)
Theorem vmsetm_first
    (simd_data : Z -> Z) (cfg : RISCVCPUConfig) (vd v0 vs2 : Z)
    (env : CPURISCVState) (desc : Z) (type : set_mask_type) :
  let vm := vext_vm simd_data desc in
  let vlmax := uint32_t (cfg_vlen cfg) in
  let r := vmfirst_m simd_data v0 vs2 env desc in
  let f' := vreg (vmsetm simd_data cfg vd v0 vs2 env desc type) in
  0 <= vl env <= vlmax -> vlmax <= 2 ^ 31 ->
  bits_apart vs2 vd (vl env) -> (vm = 0 -> bits_apart v0 vd (vl env)) ->
  (forall j, 0 <= j < vl env ->
     vext_elem_mask f' vd j
     = if skipped vm (vreg env) v0 j then vext_elem_mask (vreg env) vd j
       else b2z (setm_bit type j r))
  /\ (forall j, vl env <= j < vlmax -> vext_elem_mask f' vd j = 0).
Proof.
  intros vm vlmax r f' Hvl Hmax H2 H0.
  assert (Hu : uint32_t (vl env) = vl env) by (apply uint32_t_id; lia).
  unfold f', vmsetm. simpl vreg. fold vm vlmax. rewrite Hu.
  split.
  2:{ intros j Hj. apply tail_loop_zero; lia. }
  intros j Hj. rewrite tail_loop_other by lia.
  pose (W := fun (i v : Z) (f : Z -> Z) =>
               vext_set_elem_mask f vd (int32_t i) v).
  pose (R := fun (f : Z -> Z) (j : Z) => vext_elem_mask f vd j).
  set (act := setm_act type vm v0 vs2).
  rewrite (Loop.for_loop_ext _ (sweep_body W act)).
  2:{ intros i [s f] _. unfold sweep_body, act, setm_act, W. cbn [fst snd].
      destruct (skipped vm f v0 i); [reflexivity |].
      destruct s; [reflexivity |].
      destruct (negb (vext_elem_mask f vs2 (int32_t i) =? 0)); reflexivity. }
  destruct (sweep_result R W (mask_words vd (vl env))
              (fun v => bitfield v 0 1) (2 ^ 31) (vl env) act false
              (vreg env))
    as (_ & _ & _ & Hdone); try lia.
  - intros i v f k Hi Hk Hne. unfold R, W. rewrite int32_t_id by lia.
    apply vext_elem_mask_set_other; lia.
  - intros i v f Hi. unfold R, W. rewrite int32_t_id by lia.
    apply vext_elem_mask_set_same. lia.
  - intros i v f k Hi Hk. unfold W. rewrite int32_t_id by lia.
    now apply (mask_set_frame f vd (vl env)).
  - intros i s f Hi Hout _. unfold act, setm_act.
    rewrite (skipped_out vm v0 vd (vl env) i f (vreg env) Hout H0)
      by lia.
    rewrite int32_t_id by lia.
    rewrite (mask_read_out f (vreg env) vs2 vd (vl env) i Hout H2 Hi).
    reflexivity.
  - unfold R in Hdone. rewrite (Hdone j Hj). unfold swept.
    (* the state before j and the result of vmfirst *)
    set (p := active_set vm (vreg env) v0 vs2).
    pose proof (setm_state type vm v0 vs2 (vreg env) (Z.to_nat j)) as Hst.
    replace (Z.of_nat (Z.to_nat j)) with j in Hst by lia.
    fold act p in Hst.
    pose proof (first_loop p (Z.to_nat (vl env)) 0 ltac:(lia) ltac:(lia))
      as Hf.
    assert (Hr : r = match
                       for_loop (Z.to_nat (vl env)) 0
                         (fun i (ret : option Z) =>
                            match ret with
                            | Some r => Some r
                            | None => if p i
                                      then Some (target_ulong (int32_t i))
                                      else None
                            end) None
                     with Some r => r | None => target_ulong (-1) end).
    { unfold r, vmfirst_m. fold vm. rewrite Hu. reflexivity. }
    clearbody r.
    assert (Hpj : p j = negb (skipped vm (vreg env) v0 j)
                        && negb (vext_elem_mask (vreg env) vs2 j =? 0)).
    { unfold p. rewrite active_set_skipped, int32_t_id by lia.
      reflexivity. }
    assert (Hflag : state_at act false (vreg env) j = (r <? j)).
    { destruct (for_loop (Z.to_nat (vl env)) 0 _ None) as [r0 |].
      - subst r. destruct Hf as (Hr0 & Hp & Hb).
        destruct (Z.ltb_spec r0 j) as [Hlt | Hge].
        + apply Hst. exists r0. split; [lia | exact Hp].
        + destruct (state_at act false (vreg env) j) eqn:E; [| reflexivity].
          destruct (proj1 Hst eq_refl) as (k & Hk & Hpk).
          rewrite Hb in Hpk by lia. discriminate.
      - subst r. change (target_ulong (-1)) with (2 ^ 64 - 1).
        replace (2 ^ 64 - 1 <? j) with false
          by (symmetry; apply Z.ltb_ge;
              change (2 ^ 64) with (2 ^ 31 * 2 ^ 33); nia).
        destruct (state_at act false (vreg env) j) eqn:E; [| reflexivity].
        destruct (proj1 Hst eq_refl) as (k & Hk & Hpk).
        rewrite Hf in Hpk by lia. discriminate. }
    assert (Hleast : p j = true -> r <= j).
    { intros Hp. destruct (for_loop (Z.to_nat (vl env)) 0 _ None) as [r0 |].
      - subst r. destruct Hf as (Hr0 & _ & Hb).
        destruct (Z_le_gt_dec r0 j); [assumption |].
        rewrite Hb in Hp by lia. discriminate.
      - rewrite Hf in Hp by lia. discriminate. }
    assert (Hnot : p j = false -> r <> j).
    { intros Hp. destruct (for_loop (Z.to_nat (vl env)) 0 _ None) as [r0 |].
      - subst r. destruct Hf as (_ & Hp0 & _). congruence.
      - subst r. change (target_ulong (-1)) with (2 ^ 64 - 1).
        change (2 ^ 64) with (2 ^ 31 * 2 ^ 33). nia. }
    unfold act at 1. unfold setm_act. fold act. rewrite Hflag.
    rewrite int32_t_id by lia.
    destruct (skipped vm (vreg env) v0 j); [reflexivity |].
    cbn [negb andb] in Hpj.
    destruct (Z.ltb_spec r j) as [Hlt | Hge]; cbn [snd].
    + destruct type; cbn [setm_bit];
        [replace (j =? r) with false by (symmetry; apply Z.eqb_neq; lia)
        | replace (j <=? r) with false by (symmetry; apply Z.leb_gt; lia)
        | replace (j <? r) with false by (symmetry; apply Z.ltb_ge; lia)];
        reflexivity.
    + destruct (negb (vext_elem_mask (vreg env) vs2 j =? 0)); cbn [snd].
      * specialize (Hleast Hpj). assert (Erj : r = j) by lia. rewrite Erj.
        destruct type; cbn [setm_bit];
          rewrite ?Z.eqb_refl, ?Z.leb_refl, ?Z.ltb_irrefl; reflexivity.
      * specialize (Hnot Hpj).
        destruct type; cbn [setm_bit];
          [replace (j =? r) with false by (symmetry; apply Z.eqb_neq; lia)
          | replace (j <=? r) with true by (symmetry; apply Z.leb_le; lia)
          | replace (j <? r) with true by (symmetry; apply Z.ltb_lt; lia)];
          reflexivity.
Qed.

End MaskOps.

(* ===================================================================== *)
(** * Reductions, iota and compress *)
(* ===================================================================== *)

Module Scan.
Import Elem VReg Sweep MaskOps.

Section Desc.

Variable simd_data : Z -> Z.

(** [GEN_VEXT_RED]: the accumulator [s1] is read from element 0 of
    [vs1] before the loop and stored to element 0 of [vd] after it. *)
Definition GEN_VEXT_RED (td ts2 : etype) (OP : Z -> Z -> Z)
    (vd v0 vs1 vs2 : Z) (env : CPURISCVState) (desc : Z) : CPURISCVState :=
  let vm := vext_vm simd_data desc in
  let vl := uint32_t (vl env) in
  let f := vreg env in
  let s1 := ld_elem td f vs1 0 in
  let s1 :=
    for_loop (Z.to_nat vl) 0
      (fun i s1 =>
         let s2 := ld_elem ts2 f vs2 i in
         if skipped vm f v0 i then s1 else conv td (OP s1 (conv td s2)))
      s1 in
  set_vreg (st_elem td f vd 0 s1) env.

(** [vredsum_vs_b] .. [vredsum_vs_d] and the widening sums
    [vwredsum_vs_b] .. [vwredsumu_vs_w]. *)
Definition vredsum_vs (t : etype) := GEN_VEXT_RED t t (DO_ADD t).
Definition vwredsum_vs (w : Z) :=
  GEN_VEXT_RED (ET true (2 * w)) (ET true w) (DO_ADD (ET true (2 * w))).
Definition vwredsumu_vs (w : Z) :=
  GEN_VEXT_RED (ET false (2 * w)) (ET false w) (DO_ADD (ET false (2 * w))).

(** [GEN_VEXT_VIOTA_M]: the state is [sum]; the source bit is read
    after the store to the destination. *)
Definition GEN_VEXT_VIOTA_M (t : etype) (vd v0 vs2 : Z)
    (env : CPURISCVState) (desc : Z) : CPURISCVState :=
  let vm := vext_vm simd_data desc in
  let vl := uint32_t (vl env) in
  set_vreg
    (snd (for_loop (Z.to_nat vl) 0
            (fun i (sf : Z * (Z -> Z)) =>
               let sum := fst sf in
               let f := snd sf in
               if skipped vm f v0 i then sf
               else
                 let f1 := st_elem t f vd (int32_t i) (conv t sum) in
                 if negb (vext_elem_mask f1 vs2 (int32_t i) =? 0)
                 then (uint32_t (sum + 1), f1)
                 else (sum, f1))
            (0, vreg env))) env.

(** [GEN_VEXT_VCOMPRESS_VM]: the state is [num], the number of elements
    stored so far. *)
Definition GEN_VEXT_VCOMPRESS_VM (t : etype) (vd v0 vs1 vs2 : Z)
    (env : CPURISCVState) (desc : Z) : CPURISCVState :=
  let vl := uint32_t (vl env) in
  set_vreg
    (snd (for_loop (Z.to_nat vl) 0
            (fun i (nf : Z * (Z -> Z)) =>
               let num := fst nf in
               let f := snd nf in
               if vext_elem_mask f vs1 (int32_t i) =? 0 then nf
               else (uint32_t (num + 1),
                     st_elem t f vd num (ld_elem t f vs2 i)))
            (0, vreg env))) env.

End Desc.

(** The sum of a list of integers. *)
Definition vsum (l : list Z) : Z := fold_right Z.add 0 l.

(** The indices below [n] of the elements that are not masked off. *)
Definition active (vm : Z) (f : Z -> Z) (v0 n : Z) : list Z :=
  filter (fun i => negb (skipped vm f v0 i)) (indices n).

(** The indices below [n] whose bit in the mask register [vs1] is
    set. *)
Definition selected (f : Z -> Z) (vs1 n : Z) : list Z :=
  filter (fun i => negb (vext_elem_mask f vs1 (int32_t i) =? 0)) (indices n).

(** One iteration of viota as the action of a sweep. *)
Definition iota_act (t : etype) (vm v0 vs2 : Z)
    (i : Z) (sum : Z) (f : Z -> Z) : Z * option Z :=
  if skipped vm f v0 i then (sum, None)
  else ((if negb (vext_elem_mask f vs2 (int32_t i) =? 0)
         then uint32_t (sum + 1) else sum),
        Some (conv t sum)).

(** ** Conversions and sums *)

Lemma conv_wrap_wide (t : etype) (W x : Z) :
  0 <= et_bits t <= W -> conv t (wrap W x) = conv t x.
Proof.
  intros Hw. unfold conv, swrap, wrap. destruct (et_signed t).
  - f_equal.
    rewrite <- (Zplus_mod_idemp_l (x mod 2 ^ W)), <- (Zplus_mod_idemp_l x).
    now rewrite Fixed.mod_mod_pow2 by lia.
  - apply Fixed.mod_mod_pow2. lia.
Qed.

Lemma conv_swrap_wide (t : etype) (W x : Z) :
  0 <= et_bits t <= W -> conv t (swrap W x) = conv t x.
Proof.
  intros Hw. rewrite <- (conv_wrap_wide t W (swrap W x)) by exact Hw.
  rewrite Fixed.wrap_swrap. now apply conv_wrap_wide.
Qed.

Lemma conv_promote (t : etype) (x : Z) :
  0 <= et_bits t -> conv t (conv (promote t) x) = conv t x.
Proof.
  intros Hw. unfold promote.
  destruct (Z.ltb_spec (et_bits t) 32) as [Hlt | Hge].
  - unfold conv at 2. simpl et_signed. simpl et_bits.
    apply conv_swrap_wide. lia.
  - apply Loop.conv_idem. lia.
Qed.

Lemma conv_add_l (t : etype) (a b : Z) :
  conv t (conv t a + b) = conv t (a + b).
Proof.
  unfold conv, swrap, wrap. destruct (et_signed t).
  - f_equal.
    replace ((a + 2 ^ (et_bits t - 1)) mod 2 ^ et_bits t
             - 2 ^ (et_bits t - 1) + b + 2 ^ (et_bits t - 1))
      with ((a + 2 ^ (et_bits t - 1)) mod 2 ^ et_bits t + b) by lia.
    rewrite Zplus_mod_idemp_l. f_equal. lia.
  - apply Zplus_mod_idemp_l.
Qed.

Lemma conv_add_r (t : etype) (a b : Z) :
  conv t (a + conv t b) = conv t (a + b).
Proof. rewrite Z.add_comm, conv_add_l. f_equal. lia. Qed.

(** The reduction loop of a sum, up to the final conversion. *)
Lemma red_sum_loop (td ts2 : etype) (vm v0 vs2 : Z) (f : Z -> Z) (n : nat) :
  0 <= et_bits td ->
  forall i0 s,
    conv td
      (for_loop n i0
         (fun i s1 =>
            let s2 := ld_elem ts2 f vs2 i in
            if skipped vm f v0 i then s1
            else conv td (DO_ADD td s1 (conv td s2))) s)
    = conv td
        (s + vsum (map (ld_elem ts2 f vs2)
                     (filter (fun i => negb (skipped vm f v0 i))
                        (zrange i0 n)))).
Proof.
  intros Hw. induction n as [| n IH]; intros i0 s; simpl for_loop;
    simpl zrange.
  - simpl. now rewrite Z.add_0_r.
  - rewrite IH. simpl filter.
    destruct (skipped vm f v0 i0); cbn [negb]; [reflexivity |].
    simpl map. simpl vsum. unfold DO_ADD.
    set (x := ld_elem ts2 f vs2 i0). set (rest := vsum _).
    rewrite conv_add_l.
    rewrite <- (conv_add_l td (conv (promote td) (s + conv td x))).
    rewrite conv_promote, conv_add_l by exact Hw.
    replace (s + conv td x + rest) with (s + rest + conv td x) by lia.
    rewrite conv_add_r. f_equal. lia.
Qed.

(** X22. Sum reductions (vredsum.vs and the widening vwredsum.vs,
    vwredsumu.vs): element 0 of the destination becomes the sum of
    vs1[0] and of the elements of vs2 below vl that are not masked off,
    reduced modulo 2^w of the destination type once at the end, equal to
    the element-by-element wrapping of the helper.  All operands are
    read before the single store, so the destination may be any of the
    source registers; no other element of the destination changes. *)
Theorem red_sum
    (simd_data : Z -> Z) (td ts2 : etype) (vd v0 vs1 vs2 : Z)
    (env : CPURISCVState) (desc : Z) :
  let vm := vext_vm simd_data desc in
  let f' := vreg (GEN_VEXT_RED simd_data td ts2 (DO_ADD td)
                    vd v0 vs1 vs2 env desc) in
  std_width (et_bits td) -> 0 <= vl env <= 2 ^ 31 ->
  ld_elem td f' vd 0
  = conv td (ld_elem td (vreg env) vs1 0
             + vsum (map (ld_elem ts2 (vreg env) vs2)
                       (active vm (vreg env) v0 (vl env))))
  /\ (forall j, j <> 0 ->
        raw_elem (et_bits td) f' vd j = raw_elem (et_bits td) (vreg env) vd j)
  /\ (forall k, k <> elem_word (et_bits td) vd 0 -> f' k = vreg env k).
Proof.
  intros vm f' Hw Hvl.
  pose proof (std_width_pos _ Hw) as Hpos.
  assert (Hu : uint32_t (vl env) = vl env) by (apply uint32_t_id; lia).
  unfold f', GEN_VEXT_RED. simpl vreg. fold vm. rewrite Hu.
  split; [| split].
  - unfold ld_elem at 1. rewrite Loop.raw_elem_st_same by exact Hw.
    rewrite Loop.conv_bitfield by lia.
    rewrite red_sum_loop by lia. reflexivity.
  - intros j Hj. apply raw_elem_st_other; auto.
  - intros k Hk. now apply st_elem_word.
Qed.

(** ** Iota *)

Lemma zrange_snoc (n : nat) :
  forall i0, zrange i0 (S n) = zrange i0 n ++ [i0 + Z.of_nat n].
Proof.
  induction n as [| n IH]; intros i0.
  - simpl. now rewrite Z.add_0_r.
  - change (zrange i0 (S (S n))) with (i0 :: zrange (i0 + 1) (S n)).
    rewrite IH. simpl. do 3 f_equal. lia.
Qed.

Lemma mask_read_out_elem (bits vs vd n i : Z) (f g : Z -> Z) :
  (forall k, ~ elem_words bits vd n k -> f k = g k) ->
  Loop.mask_apart bits vs vd n -> 0 <= i < n ->
  vext_elem_mask f vs i = vext_elem_mask g vs i.
Proof.
  intros Hout Hap Hi. rewrite !vext_elem_mask_bitfield by lia.
  rewrite Hout; [reflexivity |].
  intros (j & Hj & E). exact (Hap i j Hi Hj E).
Qed.

Lemma skipped_out_elem (bits vm v0 vd n i : Z) (f g : Z -> Z) :
  (forall k, ~ elem_words bits vd n k -> f k = g k) ->
  (vm = 0 -> Loop.mask_apart bits v0 vd n) -> 0 <= i < n -> i < 2 ^ 31 ->
  skipped vm f v0 i = skipped vm g v0 i.
Proof.
  intros Hout Hap Hi H31. unfold skipped.
  destruct (Z.eqb_spec vm 0) as [E | E]; [| reflexivity].
  cbn [andb]. rewrite int32_t_id by lia.
  now rewrite (mask_read_out_elem bits v0 vd n i f g Hout (Hap E) Hi).
Qed.

Lemma st_elem_frame (t : etype) (f : Z -> Z) (vd n i v k : Z) :
  0 <= i < n -> ~ elem_words (et_bits t) vd n k ->
  st_elem t f vd i v k = f k.
Proof.
  intros Hi Hk. apply st_elem_word. intros ->. apply Hk. exists i. auto.
Qed.

(** The running sum of viota before index [m]. *)
Lemma iota_state (t : etype) (vm v0 vs2 : Z) (f0 : Z -> Z) (m : nat) :
  Z.of_nat m <= 2 ^ 31 ->
  state_at (iota_act t vm v0 vs2) 0 f0 (Z.of_nat m)
  = Z.of_nat (length (filter (active_set vm f0 v0 vs2) (zrange 0 m))).
Proof.
  induction m as [| m IH]; intros Hm; [reflexivity |].
  replace (Z.of_nat (S m)) with (Z.of_nat m + 1) by lia.
  rewrite state_at_succ, IH by lia.
  rewrite zrange_snoc, filter_app, length_app. simpl filter.
  pose proof (filter_length_le (active_set vm f0 v0 vs2) (zrange 0 m)) as Hle.
  rewrite length_zrange in Hle.
  unfold iota_act. rewrite active_set_skipped. rewrite ?Z.add_0_l.
  destruct (skipped vm f0 v0 (Z.of_nat m)); cbn [fst negb andb].
  - simpl length. lia.
  - destruct (negb (vext_elem_mask f0 vs2 (int32_t (Z.of_nat m)) =? 0));
      simpl length.
    + rewrite uint32_t_id by (change (2 ^ 32) with (2 * 2 ^ 31); lia). lia.
    + lia.
Qed.

(** X23. [viota.m]: with the source and the mask register sharing no
    host word with the first vl elements of the destination, every
    active element j below vl receives the number of active elements
    below j whose source bit is set, which is the value of [vmpopc.m] on
    the same operands with vl set to j; masked-off elements keep their
    value. *)
Theorem viota_prefix
    (simd_data : Z -> Z) (t : etype) (vd v0 vs2 : Z)
    (env : CPURISCVState) (desc : Z) :
  let vm := vext_vm simd_data desc in
  let f' := vreg (GEN_VEXT_VIOTA_M simd_data t vd v0 vs2 env desc) in
  std_width (et_bits t) -> 0 <= vl env <= 2 ^ 31 ->
  Loop.mask_apart (et_bits t) vs2 vd (vl env) ->
  (vm = 0 -> Loop.mask_apart (et_bits t) v0 vd (vl env)) ->
  forall j, 0 <= j < vl env ->
    ld_elem t f' vd j
    = if skipped vm (vreg env) v0 j then ld_elem t (vreg env) vd j
      else conv t (vmpopc_m simd_data v0 vs2 (set_vl j env) desc).
Proof.
  intros vm f' Hw Hvl H2 H0 j Hj.
  pose proof (std_width_pos _ Hw) as Hpos.
  assert (Hu : uint32_t (vl env) = vl env) by (apply uint32_t_id; lia).
  unfold f', GEN_VEXT_VIOTA_M. simpl vreg. fold vm. rewrite Hu.
  pose (W := fun (i v : Z) (f : Z -> Z) => st_elem t f vd (int32_t i) v).
  pose (R := fun (f : Z -> Z) (j : Z) => raw_elem (et_bits t) f vd j).
  set (act := iota_act t vm v0 vs2).
  rewrite (Loop.for_loop_ext _ (sweep_body W act)).
  2:{ intros i [s f] Hi. unfold sweep_body, act, iota_act, W. cbn [fst snd].
      destruct (skipped vm f v0 i); [reflexivity |]. cbn [fst snd].
      rewrite !int32_t_id by lia.
      assert (E : vext_elem_mask (st_elem t f vd i (conv t s)) vs2 i
                  = vext_elem_mask f vs2 i).
      { rewrite !vext_elem_mask_bitfield by lia.
        rewrite st_elem_word; [reflexivity |]. apply H2; lia. }
      rewrite E. destruct (negb (vext_elem_mask f vs2 i =? 0)); reflexivity. }
  destruct (sweep_result R W (elem_words (et_bits t) vd (vl env))
              (fun v => bitfield v 0 (et_bits t)) (2 ^ 31) (vl env) act 0
              (vreg env))
    as (_ & _ & _ & Hdone); try lia.
  - intros i v f k Hi Hk Hne. unfold R, W. rewrite int32_t_id by lia.
    apply raw_elem_st_other; auto.
  - intros i v f Hi. unfold R, W. rewrite int32_t_id by lia.
    now apply Loop.raw_elem_st_same.
  - intros i v f k Hi Hk. unfold W. rewrite int32_t_id by lia.
    now apply (st_elem_frame t f vd (vl env)).
  - intros i s f Hi Hout _. unfold act, iota_act.
    rewrite (skipped_out_elem _ vm v0 vd (vl env) i f (vreg env) Hout H0)
      by lia.
    rewrite int32_t_id by lia.
    rewrite (mask_read_out_elem _ vs2 vd (vl env) i f (vreg env) Hout H2 Hi).
    reflexivity.
  - unfold ld_elem at 1. unfold R in Hdone. rewrite (Hdone j Hj).
    unfold swept. unfold act at 1. unfold iota_act.
    destruct (skipped vm (vreg env) v0 j); cbn [snd]; [reflexivity |].
    rewrite Loop.conv_bitfield, Loop.conv_idem by lia. f_equal.
    replace j with (Z.of_nat (Z.to_nat j)) at 1 by lia.
    unfold act. rewrite iota_state by lia.
    unfold vmpopc_m. simpl vl. simpl vreg. fold vm.
    rewrite uint32_t_id by (change (2 ^ 32) with (2 * 2 ^ 31); lia).
    rewrite (popc_loop (active_set vm (vreg env) v0 vs2))
      by (change (2 ^ 64) with (2 ^ 31 * 2 ^ 33); nia).
    reflexivity.
Qed.

(** ** Compress *)

(** The state of the compress loop after [m] iterations: [num] is the
    number of selected indices below [m], the first [num] elements of
    the destination hold the selected source elements in order, the rest
    of the register file is as on entry. *)
Lemma compress_inv (t : etype) (vd vs1 vs2 n : Z) (f0 : Z -> Z) (m : nat) :
  std_width (et_bits t) -> n <= 2 ^ 31 ->
  Loop.mask_apart (et_bits t) vs1 vd n ->
  Loop.apart (et_bits t) vs2 n vd n ->
  Z.of_nat m <= n ->
  let p := fun i => negb (vext_elem_mask f0 vs1 (int32_t i) =? 0) in
  let sel := filter p (zrange 0 m) in
  let r :=
    for_loop m 0
      (fun i (nf : Z * (Z -> Z)) =>
         let num := fst nf in
         let f := snd nf in
         if vext_elem_mask f vs1 (int32_t i) =? 0 then nf
         else (uint32_t (num + 1), st_elem t f vd num (ld_elem t f vs2 i)))
      (0, f0) in
  fst r = Z.of_nat (length sel)
  /\ (forall k, ~ elem_words (et_bits t) vd n k -> snd r k = f0 k)
  /\ (forall k, (k < length sel)%nat ->
        raw_elem (et_bits t) (snd r) vd (Z.of_nat k)
        = bitfield (ld_elem t f0 vs2 (nth k sel 0)) 0 (et_bits t))
  /\ (forall k, Z.of_nat (length sel) <= k ->
        raw_elem (et_bits t) (snd r) vd k = raw_elem (et_bits t) f0 vd k).
Proof.
  intros Hw Hn H1 H2. induction m as [| m IH]; intros Hm p sel r.
  - subst r sel. simpl. repeat split; auto. intros k Hk. inversion Hk.
  - specialize (IH ltac:(lia)). cbv zeta in IH.
    destruct IH as (Hnum & Hout & Hsel & Hrest).
    subst r. rewrite for_loop_snoc. rewrite Z.add_0_l.
    set (r := for_loop m 0 _ (0, f0)) in *.
    subst sel. rewrite zrange_snoc, filter_app. rewrite Z.add_0_l.
    set (sel := filter p (zrange 0 m)) in *.
    change (fst r = Z.of_nat (length sel)) in Hnum.
    change (forall k, (k < length sel)%nat ->
              raw_elem (et_bits t) (snd r) vd (Z.of_nat k)
              = bitfield (ld_elem t f0 vs2 (nth k sel 0)) 0 (et_bits t))
      in Hsel.
    change (forall k, Z.of_nat (length sel) <= k ->
              raw_elem (et_bits t) (snd r) vd k
              = raw_elem (et_bits t) f0 vd k) in Hrest.
    pose proof (filter_length_le p (zrange 0 m)) as Hle.
    rewrite length_zrange in Hle. fold sel in Hle.
    assert (Hbit : vext_elem_mask (snd r) vs1 (int32_t (Z.of_nat m))
                   = vext_elem_mask f0 vs1 (int32_t (Z.of_nat m))).
    { rewrite int32_t_id by lia.
      apply (mask_read_out_elem (et_bits t) vs1 vd n); auto. lia. }
    cbv zeta. rewrite Hbit. simpl filter.
    assert (Hp : p (Z.of_nat m)
                 = negb (vext_elem_mask f0 vs1 (int32_t (Z.of_nat m)) =? 0))
      by reflexivity.
    rewrite Hp. clear Hp.
    destruct (vext_elem_mask f0 vs1 (int32_t (Z.of_nat m)) =? 0);
      cbn [negb].
    + rewrite app_nil_r. repeat split; auto.
    + cbn [fst snd]. rewrite length_app. simpl length.
      assert (Hld : ld_elem t (snd r) vs2 (Z.of_nat m)
                    = ld_elem t f0 vs2 (Z.of_nat m)).
      { unfold ld_elem, raw_elem. rewrite Hout; [reflexivity |].
        intros (j & Hj & E). exact (H2 (Z.of_nat m) j ltac:(lia) Hj E). }
      rewrite Hnum, Hld. split; [| split; [| split]].
      * rewrite uint32_t_id by (change (2 ^ 32) with (2 * 2 ^ 31); lia). lia.
      * intros k Hk. rewrite (st_elem_frame t _ vd n) by (auto; lia).
        now apply Hout.
      * intros k Hk.
        destruct (Nat.eq_dec k (length sel)) as [-> | Hne].
        -- rewrite Loop.raw_elem_st_same by exact Hw.
           rewrite app_nth2 by lia. rewrite Nat.sub_diag. reflexivity.
        -- rewrite raw_elem_st_other by (auto; lia).
           rewrite app_nth1 by lia. apply Hsel. lia.
      * intros k Hk. rewrite raw_elem_st_other by (auto; lia).
        apply Hrest. lia.
Qed.

(** X24. [vcompress.vm]: with the destination sharing no host word with
    the mask register vs1 nor with the source vs2, the elements of vs2
    whose bit in vs1 is set are packed, in increasing index order, into
    the first elements of the destination; the elements of the
    destination from the number of selected indices on keep their
    values. *)
Theorem vcompress_packs
    (simd_data : Z -> Z) (t : etype) (vd v0 vs1 vs2 : Z)
    (env : CPURISCVState) (desc : Z) :
  let f' := vreg (GEN_VEXT_VCOMPRESS_VM t vd v0 vs1 vs2 env desc) in
  let sel := selected (vreg env) vs1 (vl env) in
  std_width (et_bits t) -> 0 <= vl env <= 2 ^ 31 ->
  Loop.mask_apart (et_bits t) vs1 vd (vl env) ->
  Loop.apart (et_bits t) vs2 (vl env) vd (vl env) ->
  (forall k, (k < length sel)%nat ->
     ld_elem t f' vd (Z.of_nat k) = ld_elem t (vreg env) vs2 (nth k sel 0))
  /\ (forall k, Z.of_nat (length sel) <= k ->
        raw_elem (et_bits t) f' vd k = raw_elem (et_bits t) (vreg env) vd k)
  /\ (forall i, In i sel <->
        0 <= i < vl env /\ vext_elem_mask (vreg env) vs1 i <> 0).
Proof.
  intros f' sel Hw Hvl H1 H2.
  pose proof (std_width_pos _ Hw) as Hpos.
  assert (Hu : uint32_t (vl env) = vl env) by (apply uint32_t_id; lia).
  destruct (compress_inv t vd vs1 vs2 (vl env) (vreg env)
              (Z.to_nat (vl env)) Hw ltac:(lia) H1 H2 ltac:(lia))
    as (_ & _ & Hsel & Hrest).
  unfold f', GEN_VEXT_VCOMPRESS_VM. simpl vreg. rewrite Hu.
  split; [| split].
  - intros k Hk. unfold ld_elem at 1.
    etransitivity; [apply f_equal; exact (Hsel k Hk) |].
    rewrite Loop.conv_bitfield by lia.
    apply Loop.ld_conv. lia.
  - exact Hrest.
  - intros i. unfold sel, selected, indices.
    rewrite filter_In, In_zrange. split.
    + intros [Hi Hb]. split; [lia |].
      rewrite int32_t_id in Hb by lia.
      apply negb_true_iff, Z.eqb_neq in Hb. exact Hb.
    + intros [Hi Hb]. split; [lia |].
      rewrite int32_t_id by lia.
      apply negb_true_iff, Z.eqb_neq. exact Hb.
Qed.

End Scan.

(** Concrete runs of the mask, iota, compress and reduction helpers on
    the register file of [VRegExamples]; as mask registers, v0 holds
    0b0101 and v1 holds 91 = 0b1011011 in its low bits. *)
Module ScanExamples.
Import Elem VReg Sweep MaskOps Scan VRegExamples.

Definition cfg128 : RISCVCPUConfig := mkCfg 128 64.

Lemma bits_apart_vr (a b n : Z) :
  a <> b -> n <= 64 -> bits_apart (vr a) (vr b) n.
Proof.
  intros Hab Hn i j Hi Hj.
  assert (i / 64 = 0) by (apply Z.div_small; lia).
  assert (j / 64 = 0) by (apply Z.div_small; lia).
  unfold vr. lia.
Qed.

Lemma mask_apart_vr (a b n : Z) :
  a <> b -> n <= 4 -> Loop.mask_apart 32 (vr a) (vr b) n.
Proof.
  intros Hab Hn i j Hi Hj.
  pose proof (LoopExamples.elem_word_vr b j ltac:(lia)).
  assert (i / 64 = 0) by (apply Z.div_small; lia).
  unfold vr in *. lia.
Qed.

(** vmand.mm v1, v0, v1 done in place with vl = 3. *)
Lemma mask_logical_bits_witness :
  vext_elem_mask
    (vreg (vmand_mm cfg128 (vr 1) (vr 0) (vr 1) (vr 0) (env_vl 3) 0))
    (vr 1) 2
  = DO_AND (vext_elem_mask (vreg (env_vl 3)) (vr 0) 2)
           (vext_elem_mask (vreg (env_vl 3)) (vr 1) 2).
Proof.
  refine (proj1 (mask_logical_bits DO_AND cfg128 (vr 1) (vr 0) (vr 1) (vr 0)
                   (env_vl 3) 0 _ _ _ _ _) 2 _).
  - simpl. tauto.
  - vm_compute. split; discriminate.
  - vm_compute. discriminate.
  - left. reflexivity.
  - right. apply bits_apart_vr; vm_compute; discriminate.
  - vm_compute. split; [discriminate | reflexivity].
Defined.

Example mask_logical_run :
  map (vext_elem_mask
         (vreg (vmand_mm cfg128 (vr 1) (vr 0) (vr 1) (vr 0) (env_vl 3) 0))
         (vr 1)) [0; 1; 2; 3; 4; 6; 100] = [1; 0; 0; 0; 0; 0; 0]
  /\ map (vext_elem_mask
            (vreg (vmnand_mm cfg128 (vr 1) (vr 0) (vr 1) (vr 0) (env_vl 3) 0))
            (vr 1)) [0; 1; 2; 3] = [0; 1; 1; 0]
  /\ map (vext_elem_mask
            (vreg (vmornot_mm cfg128 (vr 2) (vr 0) (vr 1) (vr 0)
                     (env_vl 3) 0)) (vr 2)) [0; 1; 2; 3] = [1; 0; 1; 0].
Proof. vm_compute. repeat split; reflexivity. Qed.

Lemma vmpopc_vmfirst_witness :
  vmpopc_m data_id (vr 0) (vr 1) (env_vl 3) masked
  = Z.of_nat
      (length
         (filter (active_set (vext_vm data_id masked) (vreg (env_vl 3))
                    (vr 0) (vr 1))
            (indices (vl (env_vl 3))))).
Proof.
  refine (proj1 (vmpopc_vmfirst data_id (vr 0) (vr 1) (env_vl 3) masked _)).
  vm_compute. split; discriminate.
Defined.

(** With v2 as the source: bits 0 and 1 are clear, bit 2 is set. *)
Example vmpopc_vmfirst_run :
  vmpopc_m data_id (vr 0) (vr 1) (env_vl 3) unmasked = 2
  /\ vmpopc_m data_id (vr 0) (vr 1) (env_vl 3) masked = 1
  /\ vmfirst_m data_id (vr 0) (vr 2) (env_vl 3) unmasked = 2
  /\ vmfirst_m data_id (vr 0) (vr 2) (env_vl 2) unmasked = 2 ^ 64 - 1
  /\ vmpopc_m data_id (vr 0) (vr 2) (env_vl 2) unmasked = 0.
Proof. vm_compute. repeat split; reflexivity. Qed.

Lemma vmsetm_first_witness :
  vext_elem_mask
    (vreg (vmsetm data_id cfg128 (vr 5) (vr 0) (vr 2) (env_vl 3) unmasked
             INCLUDE_FIRST)) (vr 5) 2
  = if skipped (vext_vm data_id unmasked) (vreg (env_vl 3)) (vr 0) 2
    then vext_elem_mask (vreg (env_vl 3)) (vr 5) 2
    else b2z (setm_bit INCLUDE_FIRST 2
                (vmfirst_m data_id (vr 0) (vr 2) (env_vl 3) unmasked)).
Proof.
  refine (proj1 (vmsetm_first data_id cfg128 (vr 5) (vr 0) (vr 2) (env_vl 3)
                   unmasked INCLUDE_FIRST _ _ _ _) 2 _).
  - vm_compute. split; discriminate.
  - vm_compute. discriminate.
  - apply bits_apart_vr; vm_compute; discriminate.
  - intros H. vm_compute in H. discriminate H.
  - vm_compute. split; [discriminate | reflexivity].
Defined.

(** The first set bit of v2 is bit 2; of v1, bit 0. *)
Example vmsetm_run :
  map (vext_elem_mask
         (vreg (vmsbf_m data_id cfg128 (vr 5) (vr 0) (vr 2) (env_vl 4)
                  unmasked)) (vr 5)) [0; 1; 2; 3; 4] = [1; 1; 0; 0; 0]
  /\ map (vext_elem_mask
            (vreg (vmsif_m data_id cfg128 (vr 5) (vr 0) (vr 2) (env_vl 4)
                     unmasked)) (vr 5)) [0; 1; 2; 3; 4] = [1; 1; 1; 0; 0]
  /\ map (vext_elem_mask
            (vreg (vmsof_m data_id cfg128 (vr 5) (vr 0) (vr 2) (env_vl 4)
                     unmasked)) (vr 5)) [0; 1; 2; 3; 4] = [0; 0; 1; 0; 0]
  /\ map (vext_elem_mask
            (vreg (vmsbf_m data_id cfg128 (vr 5) (vr 0) (vr 2) (env_vl 2)
                     unmasked)) (vr 5)) [0; 1; 2; 3; 4] = [1; 1; 0; 0; 0].
Proof. vm_compute. repeat split; reflexivity. Qed.

(** vredsum.vs v1, v4, v5, v0.t with vl = 3: 77 + 10 + 12; and the sum
    of 16 bytes, 10 + 91 + 92 + 93 + 94 = 380, wrapped to 124. *)
Lemma red_sum_witness :
  ld_elem i32
    (vreg (vredsum_vs data_id i32 (vr 1) (vr 0) (vr 5) (vr 4) (env_vl 3)
             masked)) (vr 1) 0
  = conv i32
      (ld_elem i32 (vreg (env_vl 3)) (vr 5) 0
       + vsum (map (ld_elem i32 (vreg (env_vl 3)) (vr 4))
                 (active (vext_vm data_id masked) (vreg (env_vl 3)) (vr 0)
                    (vl (env_vl 3))))).
Proof.
  refine (proj1 (red_sum data_id i32 i32 (vr 1) (vr 0) (vr 5) (vr 4)
                   (env_vl 3) masked _ _)).
  - vm_compute. tauto.
  - vm_compute. split; discriminate.
Defined.

Example red_sum_run :
  map (ld_elem i32
         (vreg (vredsum_vs data_id i32 (vr 1) (vr 0) (vr 5) (vr 4)
                  (env_vl 3) masked)) (vr 1)) [0; 1; 2; 3]
  = [99; 92; 93; 94]
  /\ ld_elem i8
       (vreg (vredsum_vs data_id i8 (vr 4) (vr 0) (vr 4) (vr 1)
                (env_vl 16) unmasked)) (vr 4) 0 = 124.
Proof. vm_compute. split; reflexivity. Qed.

Lemma viota_prefix_witness :
  ld_elem u32
    (vreg (GEN_VEXT_VIOTA_M data_id u32 (vr 2) (vr 0) (vr 1) (env_vl 3)
             unmasked)) (vr 2) 2
  = if skipped (vext_vm data_id unmasked) (vreg (env_vl 3)) (vr 0) 2
    then ld_elem u32 (vreg (env_vl 3)) (vr 2) 2
    else conv u32 (vmpopc_m data_id (vr 0) (vr 1) (set_vl 2 (env_vl 3))
                     unmasked).
Proof.
  refine (viota_prefix data_id u32 (vr 2) (vr 0) (vr 1) (env_vl 3) unmasked
            _ _ _ _ 2 _).
  - vm_compute. tauto.
  - vm_compute. split; discriminate.
  - apply mask_apart_vr; vm_compute; discriminate.
  - intros H. vm_compute in H. discriminate H.
  - vm_compute. split; [discriminate | reflexivity].
Defined.

(** The low bits of v1 are 1, 1, 0, 1. *)
Example viota_run :
  map (ld_elem u32
         (vreg (GEN_VEXT_VIOTA_M data_id u32 (vr 2) (vr 0) (vr 1) (env_vl 4)
                  unmasked)) (vr 2)) [0; 1; 2; 3] = [0; 1; 2; 2]
  /\ map (ld_elem u32
            (vreg (GEN_VEXT_VIOTA_M data_id u32 (vr 2) (vr 0) (vr 1)
                     (env_vl 4) masked)) (vr 2)) [0; 1; 2; 3]
     = [0; 0; 1; 2].
Proof. vm_compute. split; reflexivity. Qed.

Lemma vcompress_packs_witness :
  ld_elem u32
    (vreg (GEN_VEXT_VCOMPRESS_VM u32 (vr 2) (vr 0) (vr 1) (vr 4) (env_vl 4)
             unmasked)) (vr 2) (Z.of_nat 2)
  = ld_elem u32 (vreg (env_vl 4)) (vr 4)
      (nth 2 (selected (vreg (env_vl 4)) (vr 1) (vl (env_vl 4))) 0).
Proof.
  refine (proj1 (vcompress_packs data_id u32 (vr 2) (vr 0) (vr 1) (vr 4)
                   (env_vl 4) unmasked _ _ _ _) 2%nat _).
  - vm_compute. tauto.
  - vm_compute. split; discriminate.
  - apply mask_apart_vr; vm_compute; discriminate.
  - apply LoopExamples.vr_apart; vm_compute; discriminate.
  - vm_compute. lia.
Defined.

(** v4 = [10,11,12,13] compressed under the bits 1, 1, 0, 1 of v1. *)
Example vcompress_run :
  map (ld_elem u32
         (vreg (GEN_VEXT_VCOMPRESS_VM u32 (vr 2) (vr 0) (vr 1) (vr 4)
                  (env_vl 4) unmasked)) (vr 2)) [0; 1; 2; 3]
  = [10; 11; 13; 2]
  /\ selected (vreg (env_vl 4)) (vr 1) 4 = [0; 1; 3].
Proof. vm_compute. split; reflexivity. Qed.

End ScanExamples.

(* ===================================================================== *)
(** * Translator checks, NaN boxing and the configuration dichotomy *)
(* ===================================================================== *)

Module Trans.
Import Overlap Cfg.

(** [is_aligned] of trans_rvv.inc.c; the operands are [unsigned]. *)
Definition is_aligned (val pos : Z) : bool :=
  if negb (pos =? 0) then Z.land val (uint32_t (pos - 1)) =? 0 else true.

Definition require_align (val pos : Z) : bool := is_aligned val pos.

(** The default quiet NaN, [0x7fc00000u]. *)
Definition default_qnan : Z := 2143289344.

Section Boxing.

(** [MAKE_64BIT_MASK(shift, length)] is defined in qemu/bitops.h, outside
    these sources; the boxing functions are given for any such macro. *)
Variable MAKE_64BIT_MASK : Z -> Z -> Z.

(** [nanbox_s] and [check_nanbox_s] of internals.h; a [float32] is a
    [uint32_t]. *)
Definition nanbox_s (f : Z) : Z :=
  uint64_t (Z.lor f (MAKE_64BIT_MASK 32 32)).

Definition check_nanbox_s (f : Z) : Z :=
  let mask := uint64_t (MAKE_64BIT_MASK 32 32) in
  if Z.land f mask =? mask then uint32_t f else default_qnan.

End Boxing.

(** The state [helper_vsetvl] leaves on its rejecting path. *)
Definition rejected (L : vtype_fields) (env : CPURISCVState)
    : Z * CPURISCVState :=
  (0, set_vstart 0 (set_vl 0 (set_vtype (FIELD_DP64 0 (VILL L) 1) env))).

(** ** Alignment *)

Lemma is_aligned_mod (val k : Z) :
  0 <= val < 2 ^ 32 -> 0 <= k < 32 ->
  is_aligned val (2 ^ k) = true <-> val mod 2 ^ k = 0.
Proof.
  intros Hv Hk. unfold is_aligned.
  assert (Hlt : 2 ^ k < 2 ^ 32) by (apply Z.pow_lt_mono_r; lia).
  assert (0 < 2 ^ k) by (apply Z.pow_pos_nonneg; lia).
  replace (2 ^ k =? 0) with false by (symmetry; apply Z.eqb_neq; lia).
  cbn [negb].
  unfold uint32_t. rewrite (Elem.wrap_small 32) by lia.
  replace (2 ^ k - 1) with (Z.ones k) by (rewrite Z.ones_equiv; lia).
  rewrite Z.land_ones by lia. apply Z.eqb_eq.
Qed.

(** X25. [is_aligned] on a power of two is divisibility: for
    pos = 2^k, [is_aligned(val, pos)] holds exactly when val is a
    multiple of pos; for pos = 0 (a fractional LMUL truncated to an
    unsigned) it always holds. *)
Theorem is_aligned_pow2 (val k : Z) :
  0 <= val < 2 ^ 32 -> 0 <= k < 32 ->
  (is_aligned val (2 ^ k) = true <-> val mod 2 ^ k = 0)
  /\ is_aligned val 0 = true.
Proof.
  intros Hv Hk. split; [now apply is_aligned_mod | reflexivity].
Qed.

(** ** Register groups *)

Lemma nz_pos (s : Z) : 0 <= s -> 0 < nz s /\ (0 < s -> nz s = s).
Proof.
  intros Hs. unfold nz. destruct (Z.eqb_spec s 0); split; lia.
Qed.

Lemma is_overlapped_regs (a sa b sb : Z) :
  0 <= a < 32 -> 0 <= b < 32 -> 0 <= sa <= 32 -> 0 <= sb <= 32 ->
  is_overlapped a sa b sb = true <-> a < b + nz sb /\ b < a + nz sa.
Proof.
  intros Ha Hb Hsa Hsb.
  destruct (nz_pos sa ltac:(lia)) as [Hpa _].
  destruct (nz_pos sb ltac:(lia)) as [Hpb _].
  assert (nz sa <= 32 /\ nz sb <= 32)
    by (unfold nz; destruct (sa =? 0), (sb =? 0); lia).
  rewrite <- is_overlapped_nz.
  apply is_overlapped_meets; change (2 ^ 29) with 536870912; lia.
Qed.

(** X26. [require_noover] on register numbers and group sizes: the
    check passes exactly when the two register groups (a size of 0
    counting as 1) are disjoint, and it does not depend on the order of
    the two groups. *)
Theorem require_noover_disjoint (a sa b sb : Z) :
  0 <= a < 32 -> 0 <= b < 32 -> 0 <= sa <= 32 -> 0 <= sb <= 32 ->
  (require_noover a sa b sb = true <-> a + nz sa <= b \/ b + nz sb <= a)
  /\ require_noover a sa b sb = require_noover b sb a sa.
Proof.
  intros Ha Hb Hsa Hsb.
  pose proof (is_overlapped_regs a sa b sb Ha Hb Hsa Hsb) as H1.
  pose proof (is_overlapped_regs b sb a sa Hb Ha Hsb Hsa) as H2.
  unfold require_noover. split.
  - rewrite negb_true_iff.
    destruct (is_overlapped a sa b sb).
    + split; [discriminate |]. intros H. destruct (proj1 H1 eq_refl). lia.
    + split; [| reflexivity]. intros _.
      destruct (Z_le_gt_dec (a + nz sa) b); [now left |].
      destruct (Z_le_gt_dec (b + nz sb) a); [now right |].
      assert (false = true) by (apply H1; lia). discriminate.
  - f_equal.
    destruct (is_overlapped a sa b sb) eqn:E1,
      (is_overlapped b sb a sa) eqn:E2; try reflexivity.
    + destruct (proj1 H1 eq_refl).
      assert (false = true) by (apply H2; lia). discriminate.
    + destruct (proj1 H2 eq_refl).
      assert (false = true) by (apply H1; lia). discriminate.
Qed.

(** X27. The widening rule on aligned groups: when the destination
    group of 2L registers is aligned to 2L and the source group of L
    registers is aligned to L (L = 1, 2 or 4), [require_noover_widen]
    passes exactly when the groups are disjoint or the source is the
    upper half of the destination. *)
Theorem widen_upper_half_only (vd vs L : Z) :
  L = 1 \/ L = 2 \/ L = 4 ->
  0 <= vd < 32 -> 0 <= vs < 32 ->
  require_align vd (2 * L) = true -> require_align vs L = true ->
  require_noover_widen vd (2 * L) vs L = true
  <-> (vs + L <= vd \/ vd + 2 * L <= vs) \/ vs = vd + L.
Proof.
  intros HL Hvd Hvs Had Has.
  assert (Hd : vd mod (2 * L) = 0 /\ vs mod L = 0).
  { unfold require_align in *.
    destruct HL as [-> | [-> | ->]].
    - split; [apply (is_aligned_mod vd 1); auto; try lia
             | apply (is_aligned_mod vs 0); auto; try lia];
        change (2 ^ 32) with 4294967296; lia.
    - split; [apply (is_aligned_mod vd 2); auto; try lia
             | apply (is_aligned_mod vs 1); auto; try lia];
        change (2 ^ 32) with 4294967296; lia.
    - split; [apply (is_aligned_mod vd 3); auto; try lia
             | apply (is_aligned_mod vs 2); auto; try lia];
        change (2 ^ 32) with 4294967296; lia. }
  destruct Hd as [Hd Hs].
  assert (HL0 : 0 < L) by lia.
  pose proof (Z.div_mod vd (2 * L) ltac:(lia)) as Ed.
  pose proof (Z.div_mod vs L ltac:(lia)) as Es.
  rewrite Hd in Ed. rewrite Hs in Es.
  set (x := vd / (2 * L)) in *. set (y := vs / L) in *.
  unfold require_noover_widen, is_overlapped_widen.
  destruct (nz_pos (2 * L) ltac:(lia)) as [_ E2]. rewrite (E2 ltac:(lia)).
  destruct (nz_pos L ltac:(lia)) as [_ E1]. rewrite (E1 HL0).
  rewrite (int32_t_small (vs + L))
    by (change (2 ^ 31) with 2147483648; lia).
  assert (HA : is_overlapped vd (2 * L) vs L = true
               <-> vd < vs + L /\ vs < vd + 2 * L).
  { rewrite is_overlapped_regs by lia.
    rewrite (E2 ltac:(lia)), (E1 HL0). reflexivity. }
  assert (HB : is_overlapped vd (2 * L) (vs + L) L = true
               <-> vd < vs + L + L /\ vs + L < vd + 2 * L).
  { rewrite <- is_overlapped_nz.
    rewrite (E2 ltac:(lia)), (E1 HL0).
    apply is_overlapped_meets; change (2 ^ 29) with 536870912; lia. }
  assert (HT : (int32_t (Z.max (int32_t (vd + 2 * L)) (vs + L)
                         - Z.min vd vs) <? int32_t (2 * L + L))
               = is_overlapped vd (2 * L) vs L).
  { unfold is_overlapped. rewrite (E2 ltac:(lia)), (E1 HL0).
    rewrite (int32_t_small (vs + L))
      by (change (2 ^ 31) with 2147483648; lia).
    reflexivity. }
  rewrite HT. rewrite negb_true_iff.
  destruct (is_overlapped vd (2 * L) vs L) eqn:EA;
    destruct (is_overlapped vd (2 * L) (vs + L) L) eqn:EB;
    destruct (Z.ltb_spec vd vs) as [Hlt | Hge]; cbn [andb negb];
    try (destruct (proj1 HA eq_refl));
    try (destruct (proj1 HB eq_refl));
    (split; [intros Hr; try discriminate Hr | intros Hr]);
    try reflexivity;
    try (exfalso; destruct HL as [-> | [-> | ->]]; lia);
    try (destruct HL as [-> | [-> | ->]]; lia);
    try (exfalso;
         assert (false = true)
           by (first [apply HA | apply HB];
               destruct HL as [-> | [-> | ->]]; lia);
         discriminate).
Qed.

(** ** NaN boxing *)

Lemma high_bits_zero (x n : Z) :
  0 <= x < 2 ^ 64 -> 64 <= n -> Z.testbit x n = false.
Proof.
  intros Hx Hn. rewrite <- (Z.mod_small x (2 ^ 64)) by lia.
  apply Z.mod_pow2_bits_high. lia.
Qed.

(** The bits 32..63 of a 64-bit word. *)
Lemma land_high32 (x : Z) :
  0 <= x < 2 ^ 64 ->
  Z.land x (2 ^ 64 - 2 ^ 32) = 2 ^ 32 * (x / 2 ^ 32).
Proof.
  intros Hx.
  change (2 ^ 64 - 2 ^ 32) with (Z.shiftl (Z.ones 32) 32).
  rewrite Z.mul_comm, <- Z.shiftl_mul_pow2, <- Z.shiftr_div_pow2 by lia.
  apply Z.bits_inj'. intros n Hn.
  rewrite Z.land_spec, !Z.shiftl_spec by lia.
  destruct (Z_lt_dec n 32) as [Hlo | Hhi].
  - rewrite !(Z.testbit_neg_r _ (n - 32)) by lia. apply andb_false_r.
  - rewrite Z.shiftr_spec by lia.
    replace (n - 32 + 32) with n by lia.
    destruct (Z_lt_dec n 64) as [Hin | Hout].
    + rewrite Z.ones_spec_low by lia. apply andb_true_r.
    + rewrite (high_bits_zero x n) by lia. reflexivity.
Qed.

Lemma lor_high32 (f : Z) :
  0 <= f < 2 ^ 32 -> Z.lor f (2 ^ 64 - 2 ^ 32) = f + (2 ^ 64 - 2 ^ 32).
Proof.
  intros Hf.
  assert (H0 : Z.land f (2 ^ 64 - 2 ^ 32) = 0).
  { rewrite land_high32
      by (change (2 ^ 64) with (2 ^ 32 * 2 ^ 32);
          pose proof (Z.pow_pos_nonneg 2 32); lia).
    rewrite Z.div_small by lia. lia. }
  rewrite (Z.add_nocarry_lxor _ _ H0). symmetry. now apply Z.lxor_lor.
Qed.

(** X28. NaN boxing of a single-precision value round-trips: with the
    mask covering bits 32..63, unboxing a boxed value gives it back; a
    64-bit word whose upper half is all ones unboxes to its lower half
    and boxing that restores the word; any other word unboxes to the
    default quiet NaN. *)
Theorem nanbox_round_trip (MAKE_64BIT_MASK : Z -> Z -> Z) (f x : Z) :
  MAKE_64BIT_MASK 32 32 = 2 ^ 64 - 2 ^ 32 ->
  0 <= f < 2 ^ 32 -> 0 <= x < 2 ^ 64 ->
  check_nanbox_s MAKE_64BIT_MASK (nanbox_s MAKE_64BIT_MASK f) = f
  /\ (2 ^ 64 - 2 ^ 32 <= x ->
      check_nanbox_s MAKE_64BIT_MASK x = x - (2 ^ 64 - 2 ^ 32)
      /\ nanbox_s MAKE_64BIT_MASK (check_nanbox_s MAKE_64BIT_MASK x) = x)
  /\ (x < 2 ^ 64 - 2 ^ 32 ->
      check_nanbox_s MAKE_64BIT_MASK x = default_qnan).
Proof.
  intros Hm Hf Hx.
  assert (Hbox : forall g, 0 <= g < 2 ^ 32 ->
            nanbox_s MAKE_64BIT_MASK g = g + (2 ^ 64 - 2 ^ 32)).
  { intros g Hg. unfold nanbox_s. rewrite Hm, lor_high32 by exact Hg.
    unfold uint64_t. apply Elem.wrap_small.
    change (2 ^ 64) with 18446744073709551616 in *.
    change (2 ^ 32) with 4294967296 in *. lia. }
  assert (Hchk : forall y, 0 <= y < 2 ^ 64 ->
            check_nanbox_s MAKE_64BIT_MASK y
            = if y / 2 ^ 32 =? 2 ^ 32 - 1 then y mod 2 ^ 32
              else default_qnan).
  { intros y Hy. unfold check_nanbox_s. rewrite Hm. cbv zeta.
    unfold uint64_t at 1 2.
    rewrite (Elem.wrap_small 64 (2 ^ 64 - 2 ^ 32)) by (simpl; lia).
    rewrite (land_high32 y Hy).
    destruct (Z.eqb_spec (y / 2 ^ 32) (2 ^ 32 - 1)) as [E | E].
    - rewrite E. rewrite Z.eqb_refl. reflexivity.
    - replace (2 ^ 32 * (y / 2 ^ 32) =? 2 ^ 64 - 2 ^ 32) with false;
        [reflexivity |].
      symmetry. apply Z.eqb_neq.
      change (2 ^ 64) with (2 ^ 32 * 2 ^ 32).
      change (2 ^ 32) with 4294967296 in *. lia. }
  assert (Hdiv : 0 <= x / 2 ^ 32 < 2 ^ 32).
  { split; [apply Z.div_pos; lia |].
    apply Z.div_lt_upper_bound; [lia |].
    change (2 ^ 32 * 2 ^ 32) with (2 ^ 64). lia. }
  pose proof (Z.div_mod x (2 ^ 32) ltac:(lia)) as Ex.
  pose proof (Z.mod_pos_bound x (2 ^ 32) ltac:(lia)) as Hr.
  split; [| split].
  - rewrite (Hbox f Hf).
    rewrite Hchk
      by (change (2 ^ 64) with 18446744073709551616 in *;
          change (2 ^ 32) with 4294967296 in *; lia).
    replace (f + (2 ^ 64 - 2 ^ 32)) with (f + (2 ^ 32 - 1) * 2 ^ 32)
      by (change (2 ^ 64) with (2 ^ 32 * 2 ^ 32); lia).
    rewrite Z.div_add, Z.mod_add by lia.
    rewrite Z.div_small, Z.mod_small by lia.
    rewrite Z.add_0_l, Z.eqb_refl. reflexivity.
  - intros Hhi.
    assert (E : x / 2 ^ 32 = 2 ^ 32 - 1).
    { change (2 ^ 64) with (2 ^ 32 * 2 ^ 32) in *.
      change (2 ^ 32) with 4294967296 in *. nia. }
    assert (Ec : check_nanbox_s MAKE_64BIT_MASK x = x - (2 ^ 64 - 2 ^ 32)).
    { rewrite (Hchk x Hx), E, Z.eqb_refl.
      change (2 ^ 64) with (2 ^ 32 * 2 ^ 32) in *.
      change (2 ^ 32) with 4294967296 in *. lia. }
    split; [exact Ec |].
    rewrite Ec, Hbox; [lia |].
    change (2 ^ 64) with (2 ^ 32 * 2 ^ 32) in *.
    change (2 ^ 32) with 4294967296 in *. lia.
  - intros Hlo. rewrite (Hchk x Hx).
    replace (x / 2 ^ 32 =? 2 ^ 32 - 1) with false; [reflexivity |].
    symmetry. apply Z.eqb_neq.
    change (2 ^ 64) with (2 ^ 32 * 2 ^ 32) in *.
    change (2 ^ 32) with 4294967296 in *. nia.
Qed.

(** ** The rejecting path of [helper_vsetvl] *)

Lemma legal_dec (L : vtype_fields) (cfg : RISCVCPUConfig) (s2 : Z) :
  legal L cfg s2 \/ ~ legal L cfg s2.
Proof.
  unfold legal, listed_legal.
  destruct (Z_le_dec (dec_sew L s2) (cfg_elen cfg));
    destruct (Z.eq_dec (dec_reserved L s2) 0);
    destruct (Z.eq_dec (Z.land (dec_lmul L s2) 4) 0);
    destruct (Z_le_dec (dec_sew L s2)
                (Z.shiftr (cfg_elen cfg) (uint64_t (8 - dec_lmul L s2))));
    destruct (bool_dec (dec_vill L s2) false);
    destruct (Z.eq_dec (dec_ediv L s2) 0);
    destruct (Z.eq_dec (dec_lmul L s2) 4);
    tauto.
Qed.

Lemma helper_vsetvl_not_legal (L : vtype_fields) (cfg : RISCVCPUConfig)
    (env : CPURISCVState) (s1 s2 : Z) :
  ~ legal L cfg s2 -> helper_vsetvl L cfg env s1 s2 = rejected L env.
Proof.
  intros Hn. unfold helper_vsetvl, rejected.
  destruct (_ || _ || _ || _) eqn:E; [reflexivity |].
  exfalso. apply Hn.
  apply orb_false_iff in E. destruct E as [E Hres].
  apply orb_false_iff in E. destruct E as [E Hediv].
  apply orb_false_iff in E. destruct E as [Hsew Hvill].
  apply Z.ltb_ge in Hsew.
  apply negb_false_iff, Z.eqb_eq in Hres.
  apply negb_false_iff, Z.eqb_eq in Hediv.
  unfold legal, listed_legal.
  destruct (Z.land (dec_lmul L s2) 4 =? 0) eqn:E4; cbn [negb] in Hvill.
  - apply Z.eqb_eq in E4.
    repeat split; try assumption; try lia.
    intros F. rewrite F in E4. discriminate E4.
  - apply Z.eqb_neq in E4.
    destruct (frac_bad L cfg s2) eqn:Ef; [discriminate Hvill |].
    unfold frac_bad in Ef. apply orb_false_iff in Ef.
    destruct Ef as [El Esh].
    apply Z.eqb_neq in El. apply Z.ltb_ge in Esh.
    repeat split; try assumption; try lia.
Qed.

(** X29. What [helper_vsetvl] does to the state on either path: it never
    touches the register file, vxrm or vxsat; the value returned is the
    new vl, which is at most the requested length and at most VLMAX; and
    for a descriptor that is not legal the result is vl = 0 with vtype
    holding the illegal bit alone, whatever length was requested. *)
Theorem helper_vsetvl_effect (L : vtype_fields) (cfg : RISCVCPUConfig)
    (env : CPURISCVState) (s1 s2 : Z) :
  well_typed cfg s1 s2 ->
  let r := helper_vsetvl L cfg env s1 s2 in
  (~ legal L cfg s2 -> r = rejected L env)
  /\ vreg (snd r) = vreg env
  /\ vxrm (snd r) = vxrm env /\ vxsat (snd r) = vxsat env
  /\ fst r = vl (snd r)
  /\ 0 <= vl (snd r) <= s1
  /\ vl (snd r) <= vext_get_vlmax L cfg s2.
Proof.
  intros Hwt r.
  pose proof Hwt as (Hv & Hs1 & Hs2).
  pose proof (vext_get_vlmax_range L cfg s2 Hv) as Hmax.
  split; [apply helper_vsetvl_not_legal |].
  assert (Hframe : vreg (snd r) = vreg env /\ vxrm (snd r) = vxrm env
                   /\ vxsat (snd r) = vxsat env).
  { unfold r, helper_vsetvl.
    destruct (_ || _ || _ || _); repeat split; reflexivity. }
  destruct Hframe as (F1 & F2 & F3).
  repeat (split; [assumption |]).
  destruct (legal_dec L cfg s2) as [Hl | Hn].
  - destruct (helper_vsetvl_accept L cfg env s1 s2 Hwt Hl)
      as (Hvl & _ & Hret & _).
    fold r in Hvl, Hret. rewrite Hret, Hvl. lia.
  - unfold r. rewrite (helper_vsetvl_not_legal L cfg env s1 s2 Hn).
    unfold rejected. simpl. lia.
Qed.

End Trans.

(** Concrete translator checks, boxed values and a rejected
    configuration. *)
Module TransExamples.
Import Overlap Cfg Trans CfgExamples.

(** The macro of qemu/bitops.h:
    [(~0ULL >> (64 - length)) << shift]. *)
Definition make_64bit_mask (shift length : Z) : Z :=
  uint64_t (Z.shiftl (Z.shiftr (Z.ones 64) (64 - length)) shift).

(** The single-precision 1.0. *)
Definition one_f32 : Z := 1065353216.

(** A descriptor with ediv = 1 on an otherwise legal e8,m1. *)
Definition e8m1_ediv : Z := 256.

Lemma is_aligned_pow2_witness :
  (is_aligned 8 (2 ^ 2) = true <-> 8 mod 2 ^ 2 = 0)
  /\ is_aligned 8 0 = true.
Proof. apply (is_aligned_pow2 8 2); lia. Defined.

Example is_aligned_run :
  is_aligned 8 4 = true /\ is_aligned 6 4 = false
  /\ is_aligned 6 2 = true /\ is_aligned 7 1 = true.
Proof. vm_compute. repeat split; reflexivity. Qed.

(** v8..v9 against v10..v11. *)
Lemma require_noover_disjoint_witness :
  (require_noover 8 2 10 2 = true <-> 8 + nz 2 <= 10 \/ 10 + nz 2 <= 8)
  /\ require_noover 8 2 10 2 = require_noover 10 2 8 2.
Proof. apply (require_noover_disjoint 8 2 10 2); lia. Defined.

Example require_noover_run :
  require_noover 8 2 10 2 = true /\ require_noover 8 4 10 2 = false
  /\ require_noover 8 0 8 0 = false /\ require_noover 8 0 9 0 = true.
Proof. vm_compute. repeat split; reflexivity. Qed.

(** Destination v8..v11, source v10..v11: the upper half. *)
Lemma widen_upper_half_only_witness :
  require_noover_widen 8 (2 * 2) 10 2 = true
  <-> (10 + 2 <= 8 \/ 8 + 2 * 2 <= 10) \/ 10 = 8 + 2.
Proof.
  apply (widen_upper_half_only 8 10 2);
    [lia | lia | lia | reflexivity | reflexivity].
Defined.

Example require_noover_widen_run :
  require_noover_widen 8 4 10 2 = true
  /\ require_noover_widen 8 4 8 2 = false
  /\ require_noover_widen 8 4 12 2 = true
  /\ require_noover_widen 8 4 6 2 = true.
Proof. vm_compute. repeat split; reflexivity. Qed.

Lemma nanbox_round_trip_witness :
  check_nanbox_s make_64bit_mask (nanbox_s make_64bit_mask one_f32) = one_f32.
Proof.
  refine (proj1 (nanbox_round_trip make_64bit_mask one_f32 5 _ _ _)).
  - reflexivity.
  - unfold one_f32. lia.
  - lia.
Defined.

Example nanbox_run :
  nanbox_s make_64bit_mask one_f32 = 18446744070479937536
  /\ check_nanbox_s make_64bit_mask 18446744070479937536 = one_f32
  /\ check_nanbox_s make_64bit_mask one_f32 = default_qnan
  /\ check_nanbox_s make_64bit_mask (2 ^ 63 + one_f32) = default_qnan.
Proof. vm_compute. repeat split; reflexivity. Qed.

(** The raw illegal bit set: a request of 6 is answered with vl = 0. *)
Lemma helper_vsetvl_effect_witness :
  helper_vsetvl vtype_rv64 cfg128 env0 6 e8m1_vill
  = rejected vtype_rv64 env0.
Proof.
  refine (proj1 (helper_vsetvl_effect vtype_rv64 cfg128 env0 6 e8m1_vill _)
            _).
  - unfold well_typed. vm_compute.
    repeat split; try discriminate; reflexivity.
  - intros (_ & H & _). vm_compute in H. discriminate H.
Defined.

Example helper_vsetvl_reject_run :
  let r := helper_vsetvl vtype_rv64 cfg128 env0 6 e8m1_ediv in
  fst r = 0 /\ vl (snd r) = 0 /\ vtype (snd r) = 2 ^ 63
  /\ vstart (snd r) = 0.
Proof. vm_compute. repeat split; reflexivity. Qed.

End TransExamples.

(* ===================================================================== *)
(** * Widening integer arithmetic (vector_helper.c) *)
(* ===================================================================== *)

Module Widen.
Import Elem VReg.

(** The usual arithmetic conversions of C on two integer operand types:
    both are promoted; the wider type wins, and of two types of one width
    the unsigned one. *)
Definition common_type (a b : etype) : etype :=
  let a := promote a in
  let b := promote b in
  if et_bits a <? et_bits b then b
  else if et_bits b <? et_bits a then a
  else ET (et_signed a && et_signed b) (et_bits a).

(** [DO_SUB] on operands of type [t]; [DO_MUL(N, M)] and
    [DO_MACC(N, M, D)] on operands of the types given. *)
Definition DO_SUB (t : etype) (n m : Z) : Z := conv (promote t) (n - m).

Definition DO_MUL (tn tm : etype) (n m : Z) : Z :=
  conv (common_type tn tm) (n * m).

Definition DO_MACC (tn tm td : etype) (n m d : Z) : Z :=
  let c := common_type tm tn in
  conv (common_type c td) (conv c (m * n) + d).

(** [OPIVV3]: the element function of a multiply-add, which also reads
    the destination element. *)
Definition OPIVV3 (TD T1 T2 TX1 TX2 : etype) (OP : Z -> Z -> Z -> Z)
    (vd vs1 vs2 i : Z) (f : Z -> Z) : Z -> Z :=
  let s1 := conv TX1 (ld_elem T1 f vs1 i) in
  let s2 := conv TX2 (ld_elem T2 f vs2 i) in
  let d := ld_elem TD f vd i in
  st_elem TD f vd i (conv TD (OP s2 s1 d)).

(** The type lists [WOP_UUU_B] .. [WOP_SSU_W] for source width [w],
    handed to the macro [G] they are expanded in:
    (TD, T1, T2, TX1, TX2). *)
Definition WOP_UUU {X : Type} (w : Z)
    (G : etype -> etype -> etype -> etype -> etype -> X) : X :=
  G (ET false (2 * w)) (ET false w) (ET false w)
    (ET false (2 * w)) (ET false (2 * w)).

Definition WOP_SSS {X : Type} (w : Z)
    (G : etype -> etype -> etype -> etype -> etype -> X) : X :=
  G (ET true (2 * w)) (ET true w) (ET true w)
    (ET true (2 * w)) (ET true (2 * w)).

Definition WOP_SUS {X : Type} (w : Z)
    (G : etype -> etype -> etype -> etype -> etype -> X) : X :=
  G (ET true (2 * w)) (ET false w) (ET true w)
    (ET false (2 * w)) (ET true (2 * w)).

Definition WOP_SSU {X : Type} (w : Z)
    (G : etype -> etype -> etype -> etype -> etype -> X) : X :=
  G (ET true (2 * w)) (ET true w) (ET false w)
    (ET true (2 * w)) (ET false (2 * w)).

(** The element functions [do_vwaddu_vv_b] .. [do_vwmaccsu_vv_w]. *)
Definition do_vwaddu_vv (w : Z) :=
  WOP_UUU w OPIVV2 (DO_ADD (ET false (2 * w))).
Definition do_vwsubu_vv (w : Z) :=
  WOP_UUU w OPIVV2 (DO_SUB (ET false (2 * w))).
Definition do_vwadd_vv (w : Z) :=
  WOP_SSS w OPIVV2 (DO_ADD (ET true (2 * w))).
Definition do_vwsub_vv (w : Z) :=
  WOP_SSS w OPIVV2 (DO_SUB (ET true (2 * w))).
Definition do_vwmul_vv (w : Z) :=
  WOP_SSS w OPIVV2 (DO_MUL (ET true (2 * w)) (ET true (2 * w))).
Definition do_vwmulu_vv (w : Z) :=
  WOP_UUU w OPIVV2 (DO_MUL (ET false (2 * w)) (ET false (2 * w))).
Definition do_vwmulsu_vv (w : Z) :=
  WOP_SUS w OPIVV2 (DO_MUL (ET true (2 * w)) (ET false (2 * w))).
Definition do_vwmaccu_vv (w : Z) :=
  WOP_UUU w OPIVV3
    (DO_MACC (ET false (2 * w)) (ET false (2 * w)) (ET false (2 * w))).
Definition do_vwmacc_vv (w : Z) :=
  WOP_SSS w OPIVV3
    (DO_MACC (ET true (2 * w)) (ET true (2 * w)) (ET true (2 * w))).
Definition do_vwmaccsu_vv (w : Z) :=
  WOP_SSU w OPIVV3
    (DO_MACC (ET false (2 * w)) (ET true (2 * w)) (ET true (2 * w))).

Lemma conv_range (t : etype) (x : Z) :
  0 < et_bits t -> in_range t (conv t x).
Proof.
  intros Hw. unfold in_range, conv, min_of, max_of, swrap, wrap.
  pose proof (pow2_pos (et_bits t) ltac:(lia)) as Hp.
  destruct (et_signed t).
  - pose proof (Z.mod_pos_bound (x + 2 ^ (et_bits t - 1)) _ Hp).
    rewrite (pow2_half _ Hw) in *. lia.
  - pose proof (Z.mod_pos_bound x _ Hp). lia.
Qed.

Lemma conv_narrow (r t : etype) (x : Z) :
  0 <= et_bits r <= et_bits t -> conv r (conv t x) = conv r x.
Proof.
  intros H. unfold conv at 2. destruct (et_signed t).
  - now apply Scan.conv_swrap_wide.
  - now apply Scan.conv_wrap_wide.
Qed.

Lemma conv_mod (r : etype) (x y : Z) :
  0 <= et_bits r -> x mod 2 ^ et_bits r = y mod 2 ^ et_bits r ->
  conv r x = conv r y.
Proof.
  intros Hw E.
  rewrite <- (Scan.conv_wrap_wide r (et_bits r) x) by lia.
  rewrite <- (Scan.conv_wrap_wide r (et_bits r) y) by lia.
  unfold wrap. now rewrite E.
Qed.

Lemma conv_add_wide (r t : etype) (x d : Z) :
  0 <= et_bits r <= et_bits t ->
  conv r (conv t x + d) = conv r (x + d).
Proof.
  intros H. apply conv_mod; [lia |].
  pose proof (conv_narrow (ET false (et_bits r)) t x H) as E.
  unfold conv at 1 3 in E. simpl in E. unfold wrap in E.
  rewrite <- Zplus_mod_idemp_l, E, Zplus_mod_idemp_l. reflexivity.
Qed.

(** An element read back, at either signedness, after it was stored. *)
Lemma ld_st_same (r td : etype) (f : Z -> Z) (vd i x : Z) :
  std_width (et_bits td) -> et_bits r = et_bits td ->
  ld_elem r (st_elem td f vd i x) vd i = conv r x.
Proof.
  intros Hw E. unfold ld_elem. rewrite E.
  rewrite Loop.raw_elem_st_same by exact Hw.
  rewrite <- E. apply Loop.conv_bitfield.
  rewrite E. pose proof (std_width_pos _ Hw). lia.
Qed.

Lemma wide_std (w : Z) : Fixed.narrow_width w -> std_width (2 * w).
Proof. unfold Fixed.narrow_width, std_width. intros [-> | [-> | ->]]; auto. Qed.

(** The operands of a widening operation, read at the source width. *)
Lemma src_range (s : bool) (w : Z) (f : Z -> Z) (v i : Z) :
  0 < w -> in_range (ET s w) (ld_elem (ET s w) f v i).
Proof. intros Hw. unfold ld_elem. now apply conv_range. Qed.

Ltac wide_ranges :=
  unfold in_range, min_of, max_of in *; cbn [et_signed et_bits] in *;
  change (2 * 8) with 16 in *; change (2 * 16) with 32 in *;
  change (2 * 32) with 64 in *;
  change (2 ^ (8 - 1)) with 128 in *; change (2 ^ 8) with 256 in *;
  change (2 ^ (16 - 1)) with 32768 in *; change (2 ^ 16) with 65536 in *;
  change (2 ^ (32 - 1)) with 2147483648 in *;
  change (2 ^ 32) with 4294967296 in *;
  change (2 ^ (64 - 1)) with 9223372036854775808 in *;
  change (2 ^ 64) with 18446744073709551616 in *.

(** Side conditions of the element lemmas at a concrete width. *)
Ltac wide_goal Hn :=
  destruct Hn as [-> | [-> | ->]]; wide_ranges;
  lazymatch goal with
  | |- context [promote] => vm_compute; discriminate
  | |- context [common_type] => vm_compute; discriminate
  | |- _ => lia
  end.

(** A widening two-operand element function whose exact result fits
    the type the destination is read at. *)
Lemma widen_elem (r TD T1 T2 TX1 TX2 c : etype) (op : Z -> Z -> Z)
    (vd vs1 vs2 i : Z) (f : Z -> Z) :
  std_width (et_bits TD) -> et_bits r = et_bits TD ->
  et_bits TD <= et_bits c ->
  0 < et_bits TX1 -> 0 < et_bits TX2 ->
  in_range TX1 (ld_elem T1 f vs1 i) ->
  in_range TX2 (ld_elem T2 f vs2 i) ->
  in_range r (op (ld_elem T2 f vs2 i) (ld_elem T1 f vs1 i)) ->
  ld_elem r (OPIVV2 TD T1 T2 TX1 TX2 (fun n m => conv c (op n m))
               vd vs1 vs2 i f) vd i
  = op (ld_elem T2 f vs2 i) (ld_elem T1 f vs1 i).
Proof.
  intros Hw E Hc H1 H2 R1 R2 Rr.
  pose proof (std_width_pos _ Hw) as Hpos.
  unfold OPIVV2. cbv zeta.
  rewrite ld_st_same by assumption.
  rewrite conv_narrow by lia.
  rewrite conv_narrow by lia.
  rewrite (conv_in_range TX1) by assumption.
  rewrite (conv_in_range TX2) by assumption.
  apply conv_in_range; [lia | exact Rr].
Qed.

(** A widening multiply-add element function: the product and the sum
    are taken modulo the destination width only. *)
Lemma widen_macc (r TD T1 T2 TX1 TX2 : etype)
    (vd vs1 vs2 i : Z) (f : Z -> Z) :
  std_width (et_bits TD) -> et_bits r = et_bits TD ->
  et_bits TD <= et_bits (common_type TX1 TX2) ->
  et_bits TD <= et_bits (common_type (common_type TX1 TX2) TD) ->
  0 < et_bits TX1 -> 0 < et_bits TX2 ->
  in_range TX1 (ld_elem T1 f vs1 i) ->
  in_range TX2 (ld_elem T2 f vs2 i) ->
  ld_elem r (OPIVV3 TD T1 T2 TX1 TX2 (DO_MACC TX2 TX1 TD)
               vd vs1 vs2 i f) vd i
  = conv r (ld_elem T1 f vs1 i * ld_elem T2 f vs2 i + ld_elem TD f vd i).
Proof.
  intros Hw E Hc Hcc H1 H2 R1 R2.
  pose proof (std_width_pos _ Hw) as Hpos.
  unfold OPIVV3, DO_MACC. cbv zeta.
  rewrite ld_st_same by assumption.
  rewrite conv_narrow by lia.
  rewrite conv_narrow by lia.
  rewrite conv_add_wide by lia.
  rewrite (conv_in_range TX1) by assumption.
  rewrite (conv_in_range TX2) by assumption.
  reflexivity.
Qed.

(** X30. Widening integer arithmetic is exact.  For source width 8, 16
    or 32, the destination element of twice the width written by
    vwaddu, vwadd, vwsub, vwmulu, vwmul and vwmulsu holds the exact
    integer sum, difference or product of the two source elements;
    vwsubu stores the exact difference modulo 2^(2w), so read as signed
    it is exact; and the widening multiply-adds add the exact product to
    the destination element modulo 2^(2w). *)
Theorem widening_exact (w vd vs1 vs2 i : Z) (f : Z -> Z) :
  Fixed.narrow_width w ->
  let rd (s : bool) (fn : Z -> Z -> Z -> Z -> (Z -> Z) -> Z -> Z) :=
    ld_elem (ET s (2 * w)) (fn vd vs1 vs2 i f) vd i in
  let a (s : bool) := ld_elem (ET s w) f vs2 i in
  let b (s : bool) := ld_elem (ET s w) f vs1 i in
  let d (s : bool) := ld_elem (ET s (2 * w)) f vd i in
  rd false (do_vwaddu_vv w) = a false + b false
  /\ rd true (do_vwadd_vv w) = a true + b true
  /\ rd true (do_vwsubu_vv w) = a false - b false
  /\ rd true (do_vwsub_vv w) = a true - b true
  /\ rd false (do_vwmulu_vv w) = a false * b false
  /\ rd true (do_vwmul_vv w) = a true * b true
  /\ rd true (do_vwmulsu_vv w) = a true * b false
  /\ rd false (do_vwmaccu_vv w)
     = conv (ET false (2 * w)) (b false * a false + d false)
  /\ rd true (do_vwmacc_vv w)
     = conv (ET true (2 * w)) (b true * a true + d true)
  /\ rd true (do_vwmaccsu_vv w)
     = conv (ET true (2 * w)) (b true * a false + d true).
Proof.
  intros Hn rd a b d. subst rd a b d. cbv beta.
  pose proof (wide_std w Hn) as Hstd.
  assert (Hw : 0 < w) by (unfold Fixed.narrow_width in Hn; lia).
  pose proof (pow2_pos (w - 1) ltac:(lia)) as Hh.
  pose proof (pow2_half w Hw) as Hp.
  pose proof (proj1 (in_range_unsigned _ _) (src_range false w f vs2 i Hw))
    as Au.
  pose proof (proj1 (in_range_signed _ _) (src_range true w f vs2 i Hw))
    as As.
  pose proof (proj1 (in_range_unsigned _ _) (src_range false w f vs1 i Hw))
    as Bu.
  pose proof (proj1 (in_range_signed _ _) (src_range true w f vs1 i Hw))
    as Bs.
  pose proof (IntOps.mul_unsigned_bound (2 ^ w) _ _ Au Bu) as Mu.
  pose proof (proj1 (Fixed.mul_signed_bound (2 ^ (w - 1)) _ _ Hh As Bs))
    as Ms.
  pose proof (IntOps.mul_mixed_bound (2 ^ (w - 1)) _ _ Hh As
                ltac:(rewrite <- Hp; exact Bu)) as Mx.
  clear Hh Hp.
  unfold do_vwaddu_vv, do_vwadd_vv, do_vwsubu_vv, do_vwsub_vv,
    do_vwmulu_vv, do_vwmul_vv, do_vwmulsu_vv, do_vwmaccu_vv, do_vwmacc_vv,
    do_vwmaccsu_vv, WOP_UUU, WOP_SSS, WOP_SUS, WOP_SSU.
  repeat split.
  - apply (widen_elem _ _ _ _ _ _ (promote (ET false (2 * w))) Z.add);
      try assumption; try reflexivity; wide_goal Hn.
  - apply (widen_elem _ _ _ _ _ _ (promote (ET true (2 * w))) Z.add);
      try assumption; try reflexivity; wide_goal Hn.
  - apply (widen_elem _ _ _ _ _ _ (promote (ET false (2 * w))) Z.sub);
      try assumption; try reflexivity; wide_goal Hn.
  - apply (widen_elem _ _ _ _ _ _ (promote (ET true (2 * w))) Z.sub);
      try assumption; try reflexivity; wide_goal Hn.
  - apply (widen_elem _ _ _ _ _ _
             (common_type (ET false (2 * w)) (ET false (2 * w))) Z.mul);
      try assumption; try reflexivity; wide_goal Hn.
  - apply (widen_elem _ _ _ _ _ _
             (common_type (ET true (2 * w)) (ET true (2 * w))) Z.mul);
      try assumption; try reflexivity; wide_goal Hn.
  - apply (widen_elem _ _ _ _ _ _
             (common_type (ET true (2 * w)) (ET false (2 * w))) Z.mul);
      try assumption; try reflexivity; wide_goal Hn.
  - apply widen_macc; try assumption; try reflexivity; wide_goal Hn.
  - apply widen_macc; try assumption; try reflexivity; wide_goal Hn.
  - apply widen_macc; try assumption; try reflexivity; wide_goal Hn.
Qed.

End Widen.

(** Widening operations on byte elements. *)
Module WidenExamples.
Import Elem VReg Widen.

(** Word 4 (vs2) holds the bytes [200, 255], word 8 (vs1) the bytes
    [100, 128], and word 2 (vd) the halfwords [65535, 7]. *)
Definition bytes : Z -> Z :=
  fun k =>
    if k =? 4 then 200 + 255 * 2 ^ 8
    else if k =? 8 then 100 + 128 * 2 ^ 8
    else if k =? 2 then 65535 + 7 * 2 ^ 16
    else 0.

Lemma widening_exact_witness :
  ld_elem (ET true (2 * 8)) (do_vwmulsu_vv 8 2 8 4 1 bytes) 2 1
  = ld_elem (ET true 8) bytes 4 1 * ld_elem (ET false 8) bytes 8 1.
Proof.
  refine (proj1 (proj2 (proj2 (proj2 (proj2 (proj2 (proj2
            (widening_exact 8 2 8 4 1 bytes _)))))))).
  left. reflexivity.
Defined.

(** 255 + 128, -1 * -128, -1 * 128, 128 - 255 kept exactly as a signed
    halfword, and 100 * 200 + 65535 modulo 2^16. *)
Example widening_run :
  ld_elem u16 (do_vwaddu_vv 8 2 8 4 1 bytes) 2 1 = 383
  /\ ld_elem i16 (do_vwmul_vv 8 2 8 4 1 bytes) 2 1 = 128
  /\ ld_elem i16 (do_vwmulsu_vv 8 2 8 4 1 bytes) 2 1 = -128
  /\ ld_elem i16 (do_vwsubu_vv 8 2 4 8 1 bytes) 2 1 = -127
  /\ ld_elem u16 (do_vwsubu_vv 8 2 4 8 1 bytes) 2 1 = 65409
  /\ ld_elem u16 (do_vwmaccu_vv 8 2 8 4 0 bytes) 2 0 = 19999
  /\ ld_elem u16 (do_vwmaccu_vv 8 2 8 4 0 bytes) 2 1 = 7.
Proof. vm_compute. repeat split; reflexivity. Qed.

End WidenExamples.
